(** * Synclify: track matching and identifier resolution

    A shallow embedding of the Python sources of Synclify
    ([utils.py], [websearch.py], [manager.py], [legacy_sync.py]) and the
    properties of its normaliser, key builder, deduplicator, reconciler,
    candidate scorer and quota-aware resolution loop.

    Python [str] values are sequences of Unicode code points ([list N]).
    Python sets are [gset], the insertion-ordered [dict] of the reconciler is
    an association list, the resolution cache is a [gmap].  Module-level
    mutable state ([STATE], [PLAN_MODE_ONLY], [cache.data], ...) is threaded
    explicitly; calls to the outside world (catalog API, web search, stdin)
    take their answers from a script and leave a trace of events. *)

From Stdlib Require Import String Ascii NArith ZArith QArith Lia Lqa Floats.SpecFloat.
From stdpp Require Import base decidable option list sets gmap sorting.

Local Open Scope N_scope.

(** ** Python strings *)

Module PyStr.

Definition ustring : Type := list N.

(** A literal of the source, written as a Rocq string (ASCII only). *)
Definition u (s : string) : ustring :=
  map N_of_ascii (list_ascii_of_string s).

Definition is_ascii (c : N) : bool := c <? 128.
Definition all_ascii (s : ustring) : bool := forallb is_ascii s.

Definition is_upper (c : N) : bool := (65 <=? c) && (c <=? 90).
Definition is_lower (c : N) : bool := (97 <=? c) && (c <=? 122).
Definition is_digit (c : N) : bool := (48 <=? c) && (c <=? 57).

(** [str.lower] on an ASCII character. *)
Definition ascii_lower (c : N) : N := if is_upper c then c + 32 else c.

(** ASCII members of [str.isspace] and of the regex class [\s]:
    TAB, LF, VT, FF, CR, FS, GS, RS, US and SPACE. *)
Definition ascii_space (c : N) : bool :=
  ((9 <=? c) && (c <=? 13)) || ((28 <=? c) && (c <=? 32)).

Definition ascii_alnum (c : N) : bool := is_upper c || is_lower c || is_digit c.

(** ASCII members of the regex class [\w]. *)
Definition ascii_word (c : N) : bool := ascii_alnum c || (c =? 95).

(** What Python takes from its Unicode database and standard library.  The
    tables themselves are not part of the repository: they are parameters.
    A pure-ASCII string never reaches them (see [normalize_NFKD], [lower],
    [isspace], [isalnum] below), because ASCII code points have no
    decomposition, and their case and category are fixed above. *)
Class Unicode := {
  (** [unicodedata.normalize("NFKD", s)] for a string with a non-ASCII character *)
  nfkd_table : ustring → ustring;
  (** [s.lower()] for a string with a non-ASCII character *)
  lower_table : ustring → ustring;
  (** [c.isalnum()] for a non-ASCII character *)
  isalnum_table : N → bool;
  (** [c.isspace()] for a non-ASCII character *)
  isspace_table : N → bool;
  (** [c.isdigit()] for a non-ASCII character *)
  isdigit_table : N → bool;
  (** [int(s)] for a string that is not a short run of ASCII digits; [None] is ValueError *)
  int_table : ustring → option Z;
}.

Section Strings.
Context `{Unicode}.

Definition normalize_NFKD (s : ustring) : ustring :=
  if all_ascii s then s else nfkd_table s.

(** [s.encode("ascii", "ignore").decode("ascii")] *)
Definition encode_ascii_ignore (s : ustring) : ustring := filter (λ c, is_ascii c = true) s.

Definition lower (s : ustring) : ustring :=
  if all_ascii s then map ascii_lower s else lower_table s.

Definition isspace (c : N) : bool :=
  if is_ascii c then ascii_space c else isspace_table c.

Definition isalnum (c : N) : bool :=
  if is_ascii c then ascii_alnum c else isalnum_table c.

(** [s.isdigit()] *)
Definition isdigit (s : ustring) : bool :=
  match s with
  | [] => false
  | _ => forallb (λ c, if is_ascii c then is_digit c else isdigit_table c) s
  end.

(** [int(s)]: a short run of ASCII digits is read in base ten; signs,
    blanks, underscores, other digits and the limit on the number of
    digits are the table's. *)
Definition int (s : ustring) : option Z :=
  match s with
  | [] => int_table s
  | _ => if forallb is_digit s && (length s <=? 4300)%nat
         then Some (fold_left (λ acc c, 10 * acc + Z.of_N (c - 48))%Z s 0%Z)
         else int_table s
  end.

(** [s.lstrip()], [s.rstrip()], [s.strip()] *)
Fixpoint lstrip (s : ustring) : ustring :=
  match s with
  | c :: s' => if isspace c then lstrip s' else s
  | [] => []
  end.
Definition rstrip (s : ustring) : ustring := rev (lstrip (rev s)).
Definition strip (s : ustring) : ustring := rstrip (lstrip s).

(** [s.split()]: the maximal runs of non-whitespace characters. *)
Fixpoint split_ws_go (cur : ustring) (s : ustring) : list ustring :=
  match s with
  | [] => match cur with [] => [] | _ => [rev cur] end
  | c :: s' =>
      if isspace c
      then match cur with [] => split_ws_go [] s' | _ => rev cur :: split_ws_go [] s' end
      else split_ws_go (c :: cur) s'
  end.
Definition split_ws (s : ustring) : list ustring := split_ws_go [] s.
End Strings.

(** [s.lstrip(chars)] for a one-character [chars]. *)
Fixpoint lstrip_char (d : N) (s : ustring) : ustring :=
  match s with
  | c :: s' => if c =? d then lstrip_char d s' else s
  | [] => []
  end.

(** [s.strip(chars)] *)
Fixpoint lstrip_chars (chars : ustring) (s : ustring) : ustring :=
  match s with
  | c :: s' => if bool_decide (c ∈ chars) then lstrip_chars chars s' else s
  | [] => []
  end.
Definition strip_chars (chars : ustring) (s : ustring) : ustring :=
  rev (lstrip_chars chars (rev (lstrip_chars chars s))).

(** [s.split(sep)] for a one-character separator: empty pieces are kept. *)
Fixpoint split_on_go (sep : N) (cur : ustring) (s : ustring) : list ustring :=
  match s with
  | [] => [rev cur]
  | c :: s' =>
      if c =? sep then rev cur :: split_on_go sep [] s'
      else split_on_go sep (c :: cur) s'
  end.
Definition split_on (sep : N) (s : ustring) : list ustring := split_on_go sep [] s.

(** [sep.join(parts)] *)
Fixpoint join (sep : ustring) (parts : list ustring) : ustring :=
  match parts with
  | [] => []
  | [p] => p
  | p :: ps => p ++ sep ++ join sep ps
  end.

(** [s.startswith(p)] and [p in s] *)
Fixpoint startswith (p s : ustring) : bool :=
  match p, s with
  | [], _ => true
  | a :: p', b :: s' => (a =? b) && startswith p' s'
  | _ :: _, [] => false
  end.
Fixpoint contains (p s : ustring) : bool :=
  startswith p s || match s with [] => false | _ :: s' => contains p s' end.

(** [old in s] replaced by [new], left to right, non-overlapping
    ([s.replace(old, new)] for a non-empty [old]); [skip] counts the
    characters of a match still to be dropped. *)
Fixpoint replace_go (old new : ustring) (skip : nat) (s : ustring) : ustring :=
  match s with
  | [] => []
  | c :: s' =>
      match skip with
      | S n => replace_go old new n s'
      | O => if startswith old s
             then new ++ replace_go old new (pred (length old)) s'
             else c :: replace_go old new O s'
      end
  end.
Definition replace (old new s : ustring) : ustring := replace_go old new O s.

(** The order of [str] under [<]: lexicographic on code points. *)
Fixpoint str_ltb (a b : ustring) : bool :=
  match a, b with
  | [], [] => false
  | [], _ :: _ => true
  | _ :: _, [] => false
  | x :: a', y :: b' => (x <? y) || ((x =? y) && str_ltb a' b')
  end.

End PyStr.
Export PyStr.

(** ** The fragment of Python's [re] the sources use *)

Module Re.

(** Patterns.  Every repetition in the sources is a greedy repetition of a
    single character class, so [Star] takes a class. *)
Inductive regex : Type :=
| Eps
| Chr (p : N → bool)
| Cat (r1 r2 : regex)
| Alt (r1 r2 : regex)
| Star (p : N → bool)
| WordB
| Eos.

Definition Plus (p : N → bool) : regex := Cat (Chr p) (Star p).
Definition Opt (r : regex) : regex := Alt r Eps.

Fixpoint cats (rs : list regex) : regex :=
  match rs with
  | [] => Eps
  | [r] => r
  | r :: rs' => Cat r (cats rs')
  end.
Fixpoint alts (rs : list regex) : regex :=
  match rs with
  | [] => Chr (λ _, false)
  | [r] => r
  | r :: rs' => Alt r (alts rs')
  end.

(** Character classes *)
Definition in_class (l : ustring) : N → bool := λ c, existsb (N.eqb c) l.
Definition one_of (s : string) : N → bool := in_class (u s).
Definition none_of (s : string) : N → bool := λ c, negb (one_of s c).
Definition cls_space : N → bool := ascii_space.            (* \s on folded text *)
Definition cls_dot : N → bool := λ c, negb (c =? 10).      (* .  *)

(** A literal word; [ci] is the IGNORECASE flag. *)
Definition lit_chr (ci : bool) (c : N) : regex :=
  Chr (λ x, if ci then ascii_lower x =? ascii_lower c else x =? c).
Definition lit (ci : bool) (s : string) : regex := cats (map (lit_chr ci) (u s)).

Definition word_opt (c : option N) : bool :=
  match c with Some x => ascii_word x | None => false end.

(** The backtracking matcher, in continuation-passing style: [prev] is the
    character before the current position (for [\b]), [s] the text from
    the position on, [n] the number of characters matched so far.  The
    alternatives are tried in Python's order: the longest repetition
    first, the left branch of [|] first. *)
Definition cont : Type := option N → ustring → nat → option nat.

Fixpoint star_run (p : N → bool) (k : cont) (prev : option N) (s : ustring) (n : nat) : option nat :=
  match s with
  | c :: s' =>
      if p c then
        match star_run p k (Some c) s' (S n) with
        | Some m => Some m
        | None => k prev s n
        end
      else k prev s n
  | [] => k prev s n
  end.

Fixpoint rmatch (r : regex) (k : cont) (prev : option N) (s : ustring) (n : nat) : option nat :=
  match r with
  | Eps => k prev s n
  | Chr p =>
      match s with
      | c :: s' => if p c then k (Some c) s' (S n) else None
      | [] => None
      end
  | Cat r1 r2 => rmatch r1 (rmatch r2 k) prev s n
  | Alt r1 r2 =>
      match rmatch r1 k prev s n with
      | Some m => Some m
      | None => rmatch r2 k prev s n
      end
  | Star p => star_run p k prev s n
  | WordB => if xorb (word_opt prev) (word_opt (head s)) then k prev s n else None
  | Eos =>
      match s with
      | [] => k prev s n
      | [c] => if c =? 10 then k prev s n else None
      | _ => None
      end
  end.

(** Length of the match of [r] that starts at the current position. *)
Definition match_here (r : regex) (prev : option N) (s : ustring) : option nat :=
  rmatch r (λ _ _ n, Some n) prev s 0%nat.

(** [re.sub(r, repl, s)] for a constant [repl]: leftmost matches, not
    overlapping.  Every pattern of the sources consumes at least one
    character, so an empty match is treated as no match.  [skip] counts
    the characters of the current match still to be dropped. *)
Fixpoint sub_go (r : regex) (repl : ustring) (prev : option N) (skip : nat) (s : ustring) : ustring :=
  match s with
  | [] => []
  | c :: s' =>
      match skip with
      | S n => sub_go r repl (Some c) n s'
      | O =>
          match match_here r prev s with
          | Some (S n) => repl ++ sub_go r repl (Some c) n s'
          | _ => c :: sub_go r repl (Some c) O s'
          end
      end
  end.
Definition sub (r : regex) (repl : ustring) (s : ustring) : ustring := sub_go r repl None O s.

(** [r.split(s)[0]]: the text before the first match. *)
Fixpoint split_head_go (r : regex) (prev : option N) (s : ustring) : ustring :=
  match s with
  | [] => []
  | c :: s' =>
      match match_here r prev s with
      | Some (S _) => []
      | _ => c :: split_head_go r (Some c) s'
      end
  end.
Definition split_head (r : regex) (s : ustring) : ustring := split_head_go r None s.

End Re.

(** ** [models.py] *)

Module Models.

(** [Track]; the dictionaries of [legacy_sync.py] carry the same fields. *)
Record Track : Type := {
  service : ustring;
  id_ : option ustring;
  uri : option ustring;
  name : ustring;
  artists : list ustring;
  playlist_item_id : option ustring;
}.

#[global] Instance Track_eq_dec : EqDecision Track.
Proof. solve_decision. Defined.

End Models.
Export Models.

(** [sorted(l, key)]: a stable insertion sort; [lt a b] says the key of [a]
    is smaller than the key of [b]. *)
Section Sorting.
Context {A : Type} (lt : A → A → bool).

Fixpoint insert_sorted (x : A) (l : list A) : list A :=
  match l with
  | [] => [x]
  | y :: l' => if lt y x then y :: insert_sorted x l' else x :: l
  end.
Definition sorted (l : list A) : list A := foldr insert_sorted [] l.
End Sorting.

(** ** [utils.py] *)

Module Utils.
Import Re.

Definition FEAT_PAT : regex :=
  cats [WordB;
        alts [Cat (lit true "feat") (Opt (lit true "."));
              Cat (lit true "ft") (Opt (lit true "."));
              lit true "con";
              lit true "with"];
        WordB].

(** [REMIX_PAT.pattern], compiled with ([ci = true]) or without IGNORECASE. *)
Definition REMIX_PAT_pattern (ci : bool) : regex :=
  cats [WordB;
        alts (map (lit ci)
                ["remix"; "radio edit"; "extended"; "edit"; "version"; "karaoke";
                 "cover"; "live"; "remastered"; "mono"; "stereo"]%string);
        WordB].
Definition REMIX_PAT : regex := REMIX_PAT_pattern true.

(** [[\(\[][^)\]]*(official|video|audio|lyric|lyrics|mv|hd|4k|remaster(ed)?|live|cover)[^)\]]*[\)\]]] *)
Definition bracket_noise : regex :=
  cats [Chr (one_of "([");
        Star (none_of ")]");
        alts [lit false "official"; lit false "video"; lit false "audio";
              lit false "lyric"; lit false "lyrics"; lit false "mv"; lit false "hd";
              lit false "4k"; Cat (lit false "remaster") (Opt (lit false "ed"));
              lit false "live"; lit false "cover"];
        Star (none_of ")]");
        Chr (one_of ")]")].

(** [\s*[-_]+\s*] + [REMIX_PAT.pattern] + [.*$] *)
Definition remix_suffix : regex :=
  cats [Star cls_space; Plus (one_of "-_"); Star cls_space;
        REMIX_PAT_pattern false; Star cls_dot; Eos].

(** [[\|\-_/]+] and [\s+] *)
Definition separators : regex := Plus (one_of "|-_/").
Definition spaces : regex := Plus cls_space.

Section WithUnicode.
Context `{Unicode}.

Definition clean_title (value : ustring) : ustring :=
  let normalized := lower (encode_ascii_ignore (normalize_NFKD value)) in
  let normalized := sub bracket_noise (u " ") normalized in
  let normalized := sub remix_suffix (u " ") normalized in
  let normalized := sub REMIX_PAT (u " ") normalized in
  let normalized := sub separators (u " ") normalized in
  let normalized := sub spaces (u " ") normalized in
  strip normalized.

(** One turn of the loop of [clean_artists]: the tokens of one credited name. *)
Definition artist_tokens (artist : ustring) : list ustring :=
  match artist with
  | [] => []
  | _ =>
      let normalized := lower (encode_ascii_ignore (normalize_NFKD artist)) in
      let normalized := split_head FEAT_PAT normalized in
      let normalized := sub (Plus (one_of ",/&;+")) (u " ") normalized in
      let normalized := strip (sub spaces (u " ") normalized) in
      match normalized with
      | [] => []
      | _ => filter (λ token, token ≠ []) (split_on 32 normalized)
      end
  end.

(** The sort key [(-len(item), item)]. *)
Definition signature_lt (a b : ustring) : bool :=
  (length b <? length a)%nat || ((length a =? length b)%nat && str_ltb a b).

Definition clean_artists (artists : list ustring) : list ustring :=
  let tokens := flat_map artist_tokens artists in
  let tokens := sorted signature_lt (remove_dups tokens) in
  take 2 tokens.

Definition key_loose (name : ustring) (artists : list ustring) : ustring :=
  let artist_key := join (u " ") (clean_artists artists) in
  clean_title name ++ u "::" ++ artist_key.

Definition key_title_only (name : ustring) : ustring := clean_title name.
End WithUnicode.

(** The loop that [utils.deduplicate_tracks] and
    [legacy_sync.deduplicate_tracks] share line for line, over the key
    functions of the module that calls it. *)
Section Deduplicate.
Context (key_loose : ustring → list ustring → ustring) (key_title_only : ustring → ustring).

Fixpoint dedupe_loop (tracks : list Track) (seen seen_title : gset ustring)
    (result : list Track) : list Track :=
  match tracks with
  | [] => result
  | track :: rest =>
      let key := key_loose (name track) (artists track) in
      let title_key := key_title_only (name track) in
      if bool_decide (key ∈ seen) || bool_decide (title_key ∈ seen_title)
      then dedupe_loop rest seen seen_title result
      else dedupe_loop rest ({[key]} ∪ seen) ({[title_key]} ∪ seen_title) (result ++ [track])
  end.
End Deduplicate.

(** [urllib.parse]: the two functions the sources call; [None] stands for
    a raised exception. *)
Record ParseResult : Type := {
  scheme : ustring; netloc : ustring; path : ustring;
  params : ustring; query : ustring; fragment : ustring;
}.
Class Urllib := {
  urlparse : ustring → option ParseResult;
  parse_qs : ustring → option (gmap ustring (list ustring));
}.

Definition endswith (p s : ustring) : bool := startswith (rev p) (rev s).

(** Truth value of an [Optional[str]]. *)
Definition truthy (v : option ustring) : bool :=
  match v with Some (_ :: _) => true | _ => false end.
(** [v or None] *)
Definition or_None (v : ustring) : option ustring :=
  match v with [] => None | _ => Some v end.

Section WithLibraries.
Context `{Unicode} `{Urllib}.

Definition deduplicate_tracks (tracks : list Track) : list Track :=
  dedupe_loop key_loose key_title_only tracks ∅ ∅ [].

Definition parse_spotify_track_uri (value : ustring) : option ustring :=
  let candidate := strip value in
  match candidate with
  | [] => None
  | _ =>
      if startswith (u "spotify:track:") candidate then Some candidate
      else
        match urlparse candidate with
        | None => None
        | Some parts =>
            if endswith (u "open.spotify.com") (netloc parts)
               && startswith (u "/track/") (path parts)
            then match split_on 47 (path parts) !! 2%nat with
                 | Some (c :: track_id) => Some (u "spotify:track:" ++ c :: track_id)
                 | _ => None
                 end
            else None
        end
  end.

Definition parse_youtube_video_id (value : ustring) : option ustring :=
  let candidate := strip value in
  match candidate with
  | [] => None
  | _ =>
      match urlparse candidate with
      | None => None
      | Some parsed =>
          if bool_decide (netloc parsed = u "youtu.be")
          then or_None (lstrip_char 47 (path parsed))
          else if contains (u "youtube.com") (netloc parsed)
                  || contains (u "music.youtube.com") (netloc parsed)
          then match parse_qs (query parsed) with
               | None => None
               | Some query =>
                   match query !! u "v" with
                   | Some (video_id :: _) => or_None video_id
                   | _ => None
                   end
               end
          else None
      end
  end.
End WithLibraries.

End Utils.

(** ** The run-time: module state, console, stdin and remote services *)

Module Run.

(** Exceptions the sources raise or catch. *)
Inductive exn : Type :=
| HttpError (status : option Z) (text : ustring)     (* [e.resp.status], [str(e)] *)
| SpotifyException (http_status : Z)
| TimeoutError
| EOFError
| ValueError.

(** Remote calls: one [execute()] or one HTTP request. *)
Inductive call : Type :=
| YtSearch (q : ustring)                      (* youtube.search().list(q, maxResults=1) *)
| YtInsert (playlist_id video_id : ustring)   (* youtube.playlistItems().insert(...) *)
| SpSearch (q : ustring)                      (* sp.search(q, type="track", limit=1) *)
| SpAddItems (playlist_id : ustring) (uris : list ustring)
| WebSearch (title : ustring) (artists : list ustring) (max_results : nat).

(** What is written to the console. *)
Inductive output : Type :=
| QuotaPanel                  (* "YouTube daily quota exhausted. Choose how to continue ..." *)
| OptionPrompt                (* "Option [1/2/3]: " *)
| InvalidOption
| YesNoPrompt (question : ustring)
| PleaseAnswer
| IndexPrompt (question : ustring)
| EnterNumber
| EnterBetween
| ResultsTable (title : ustring) (rows : list (nat * ustring * ustring))
| PickPrompt                  (* "Pick a result (0 to skip): " *)
| PasteUrl (display : ustring)
| InsertQuotaPanel
| Log (message : ustring).

Inductive event : Type :=
| Printed (o : output)
| ReadLine (line : ustring)
| Called (c : call)
| CachePut (key value : ustring)
| CacheSave.

(** The answer of a remote service to one call: rows of (identifier, title),
    or an exception. *)
Inductive reply : Type :=
| Returns (rows : list (ustring * ustring))
| Raises (e : exn).

(** The dictionary [STATE] of [legacy_sync.py] (the dataclass
    [RuntimeState] of [state.py] has the same flags). *)
Record RuntimeState : Type := {
  yt_search_disabled : bool;
  prompted_after_quota : bool;
  continue_manual_after_quota : bool;
  continue_web_auto_after_quota : bool;
}.

Record World : Type := {
  STATE : RuntimeState;
  PLAN_MODE_ONLY : bool;
  pending_web_adds : list ustring;
  added_video_ids : gset ustring;
  cache_data : gmap ustring ustring;        (* [cache.data] *)
  stdin : list ustring;                     (* the lines still to be typed *)
  replies : list reply;                     (* the services' answers still to come *)
  trace : list event;                       (* what has happened so far *)
}.

Definition initial_STATE : RuntimeState :=
  {| yt_search_disabled := false; prompted_after_quota := false;
     continue_manual_after_quota := false; continue_web_auto_after_quota := false |}.

(** The state a run of [main] starts in, for a cache file, the user's
    keystrokes and the services' answers. *)
Definition initial_world (cache : gmap ustring ustring) (lines : list ustring)
    (answers : list reply) : World :=
  {| STATE := initial_STATE; PLAN_MODE_ONLY := false; pending_web_adds := [];
     added_video_ids := ∅; cache_data := cache; stdin := lines; replies := answers;
     trace := [] |}.

Definition set_STATE (s : RuntimeState) (w : World) : World :=
  {| STATE := s; PLAN_MODE_ONLY := PLAN_MODE_ONLY w; pending_web_adds := pending_web_adds w;
     added_video_ids := added_video_ids w; cache_data := cache_data w; stdin := stdin w;
     replies := replies w; trace := trace w |}.
Definition set_PLAN_MODE_ONLY (b : bool) (w : World) : World :=
  {| STATE := STATE w; PLAN_MODE_ONLY := b; pending_web_adds := pending_web_adds w;
     added_video_ids := added_video_ids w; cache_data := cache_data w; stdin := stdin w;
     replies := replies w; trace := trace w |}.
Definition set_pending_web_adds (l : list ustring) (w : World) : World :=
  {| STATE := STATE w; PLAN_MODE_ONLY := PLAN_MODE_ONLY w; pending_web_adds := l;
     added_video_ids := added_video_ids w; cache_data := cache_data w; stdin := stdin w;
     replies := replies w; trace := trace w |}.
Definition set_added_video_ids (s : gset ustring) (w : World) : World :=
  {| STATE := STATE w; PLAN_MODE_ONLY := PLAN_MODE_ONLY w; pending_web_adds := pending_web_adds w;
     added_video_ids := s; cache_data := cache_data w; stdin := stdin w;
     replies := replies w; trace := trace w |}.
Definition set_cache_data (m : gmap ustring ustring) (w : World) : World :=
  {| STATE := STATE w; PLAN_MODE_ONLY := PLAN_MODE_ONLY w; pending_web_adds := pending_web_adds w;
     added_video_ids := added_video_ids w; cache_data := m; stdin := stdin w;
     replies := replies w; trace := trace w |}.
Definition set_stdin (l : list ustring) (w : World) : World :=
  {| STATE := STATE w; PLAN_MODE_ONLY := PLAN_MODE_ONLY w; pending_web_adds := pending_web_adds w;
     added_video_ids := added_video_ids w; cache_data := cache_data w; stdin := l;
     replies := replies w; trace := trace w |}.
Definition set_replies (l : list reply) (w : World) : World :=
  {| STATE := STATE w; PLAN_MODE_ONLY := PLAN_MODE_ONLY w; pending_web_adds := pending_web_adds w;
     added_video_ids := added_video_ids w; cache_data := cache_data w; stdin := stdin w;
     replies := l; trace := trace w |}.
Definition emit (evs : list event) (w : World) : World :=
  {| STATE := STATE w; PLAN_MODE_ONLY := PLAN_MODE_ONLY w; pending_web_adds := pending_web_adds w;
     added_video_ids := added_video_ids w; cache_data := cache_data w; stdin := stdin w;
     replies := replies w; trace := trace w ++ evs |}.

Definition set_yt_search_disabled (b : bool) (s : RuntimeState) : RuntimeState :=
  {| yt_search_disabled := b; prompted_after_quota := prompted_after_quota s;
     continue_manual_after_quota := continue_manual_after_quota s;
     continue_web_auto_after_quota := continue_web_auto_after_quota s |}.
Definition set_prompted_after_quota (b : bool) (s : RuntimeState) : RuntimeState :=
  {| yt_search_disabled := yt_search_disabled s; prompted_after_quota := b;
     continue_manual_after_quota := continue_manual_after_quota s;
     continue_web_auto_after_quota := continue_web_auto_after_quota s |}.
Definition set_continue_manual_after_quota (b : bool) (s : RuntimeState) : RuntimeState :=
  {| yt_search_disabled := yt_search_disabled s; prompted_after_quota := prompted_after_quota s;
     continue_manual_after_quota := b;
     continue_web_auto_after_quota := continue_web_auto_after_quota s |}.
Definition set_continue_web_auto_after_quota (b : bool) (s : RuntimeState) : RuntimeState :=
  {| yt_search_disabled := yt_search_disabled s; prompted_after_quota := prompted_after_quota s;
     continue_manual_after_quota := continue_manual_after_quota s;
     continue_web_auto_after_quota := b |}.

(** Computations: a value or a raised exception, and the world after. *)
Inductive result (A : Type) : Type :=
| Val (a : A)
| Exc (e : exn).
Arguments Val {A} a.
Arguments Exc {A} e.

Definition M (A : Type) : Type := World → result A * World.

Definition ret {A} (a : A) : M A := λ w, (Val a, w).
Definition raise {A} (e : exn) : M A := λ w, (Exc e, w).
Definition bind {A B} (m : M A) (k : A → M B) : M B :=
  λ w, match m w with
       | (Val a, w') => k a w'
       | (Exc e, w') => (Exc e, w')
       end.
(** [try: m except ...: handler(e)]; the handler re-raises what it does not catch. *)
Definition try_except {A} (m : M A) (handler : exn → M A) : M A :=
  λ w, match m w with
       | (Val a, w') => (Val a, w')
       | (Exc e, w') => handler e w'
       end.
Definition get {A} (f : World → A) : M A := λ w, (Val (f w), w).
Definition modify (f : World → World) : M unit := λ w, (Val tt, f w).
Definition print (o : output) : M unit := modify (emit [Printed o]).

Declare Scope run_scope.
Delimit Scope run_scope with run.
Notation "'let*' x ':=' m 'in' k" := (bind m (λ x, k))
  (at level 10, x pattern, m at level 100, k at level 200) : run_scope.
Notation "m ';;' k" := (bind m (λ _, k))
  (at level 100, k at level 200, right associativity) : run_scope.

(** [input()] *)
Definition input : M ustring :=
  λ w, match stdin w with
       | [] => (Exc EOFError, w)
       | line :: rest => (Val line, emit [ReadLine line] (set_stdin rest w))
       end.

(** One attempt of a remote call.  A service that has nothing more to say
    times out. *)
Definition execute (c : call) : M (list (ustring * ustring)) :=
  λ w, let w := emit [Called c] w in
       match replies w with
       | [] => (Exc TimeoutError, w)
       | Returns rows :: rest => (Val rows, set_replies rest w)
       | Raises e :: rest => (Exc e, set_replies rest w)
       end.

(** A [while True] loop around [input()]: [ask] is printed, a line is read,
    and [decide] ends the loop with a value, complains and goes round
    again, or raises.  The loop ends with the typed lines at the latest. *)
Inductive decision (A : Type) : Type :=
| Done (a : A)
| Again (complaint : output)
| Fails (e : exn).
Arguments Done {A} a.
Arguments Again {A} complaint.
Arguments Fails {A} e.

Fixpoint input_until {A} (ask : output) (decide : ustring → decision A)
    (lines : list ustring) (w : World) : result A * World :=
  let w := emit [Printed ask] w in
  match lines with
  | [] => (Exc EOFError, set_stdin [] w)
  | line :: rest =>
      let w := emit [ReadLine line] (set_stdin rest w) in
      match decide line with
      | Done a => (Val a, w)
      | Again complaint => input_until ask decide rest (emit [Printed complaint] w)
      | Fails e => (Exc e, w)
      end
  end.
Definition input_loop {A} (ask : output) (decide : ustring → decision A) : M A :=
  λ w, input_until ask decide (stdin w) w.

(** What a turn of the loop of [main] leaves to do: go on, or [return]. *)
Inductive flow (A : Type) : Type :=
| Go (a : A)
| Return_.
Arguments Go {A} a.
Arguments Return_ {A}.

End Run.

(** Python floats are modelled by exact rationals. *)
Definition Qdiv_nat (i n : nat) : Q := inject_Z (Z.of_nat i) / inject_Z (Z.of_nat n).

(** The order of [(float, str, str)] tuples. *)
Definition scored_lt (a b : Q * ustring * ustring) : bool :=
  let '(sa, ua, ta) := a in
  let '(sb, ub, tb) := b in
  match (sa ?= sb)%Q with
  | Lt => true
  | Gt => false
  | Eq => str_ltb ua ub || (bool_decide (ua = ub) && str_ltb ta tb)
  end.

(** ** [websearch.py] *)

Module Websearch.
Import Run.

Definition stop_words : list ustring :=
  map u ["the"; "a"; "an"; "feat"; "featuring"; "official"; "video"; "audio";
         "ft"; "con"; "with"]%string.

Definition jaccard (a b : gset ustring) : Q :=
  if bool_decide (a = ∅) || bool_decide (b = ∅) then 0%Q
  else
    let intersection := size (a ∩ b) in
    let union := size (a ∪ b) in
    if (union =? 0)%nat then 0%Q else Qdiv_nat intersection union.

Section WithLibraries.
Context `{Unicode} `{Utils.Urllib}.

Definition token_set (text : ustring) : gset ustring :=
  let tokens :=
    replace (u "audio") (u " ")
      (replace (u "video") (u " ")
         (replace (u "[official]") (u " ")
            (replace (u "(official)") (u " ") (lower text)))) in
  let tokens := map (λ ch, if isalnum ch then ch else 32) tokens in
  list_to_set
    (filter (λ word, word ≠ [] ∧ word ∉ stop_words) (split_ws tokens)).

(** The body of the loop of [pick_best_web_result]: one candidate's score. *)
Definition score_of (desired_tokens : gset ustring) (track_title : ustring)
    (result : ustring * ustring) : Q :=
  let '(url_value, title) := result in
  let got_tokens := token_set title in
  let score := jaccard desired_tokens got_tokens in
  let title_tokens := token_set track_title in
  let score :=
    if bool_decide (title_tokens ≠ ∅) && bool_decide (title_tokens ⊆ got_tokens)
    then (score + (15 # 100))%Q else score in
  let score := if contains (u "/playlist") url_value then (score - (8 # 100))%Q else score in
  score.

Definition scored (results : list (ustring * ustring)) (track_title : ustring)
    (artists : list ustring) : list (Q * ustring * ustring) :=
  let desired_tokens := token_set track_title ∪ list_to_set (Utils.clean_artists artists) in
  map (λ r, (score_of desired_tokens track_title r, r.1, r.2)) results.

Definition pick_best_web_result (results : list (ustring * ustring))
    (track_title : ustring) (artists : list ustring) : option ustring :=
  match results with
  | [] => None
  | _ =>
      match sorted (λ a b, scored_lt b a) (scored results track_title artists) with
      | [] => None
      | (best_score, best_url, _) :: _ =>
          if Qle_bool (35 # 100)%Q best_score
          then Utils.parse_youtube_video_id best_url
          else None
      end
  end.

Definition table_rows (top : list (ustring * ustring)) : list (nat * ustring * ustring) :=
  imap (λ idx r, (S idx, r.2, r.1)) top.

Definition pick_from_web_results (results : list (ustring * ustring))
    (track_display : ustring) : M (option ustring) :=
  match results with
  | [] => ret None
  | _ =>
      let top := take 5 results in
      (print (ResultsTable (u "Web results for " ++ track_display) (table_rows top));;
       print PickPrompt;;
       let* selection :=
         try_except
           (let* line := input in
            match int (strip line) with
            | Some n => ret (Some n)
            | None => raise ValueError
            end)
           (λ _, ret None) in
       match selection with
       | None => ret None
       | Some 0%Z => ret None
       | Some selection =>
           if ((1 <=? selection)%Z && (selection <=? Z.of_nat (length top))%Z)%bool
           then ret (match top !! Z.to_nat (selection - 1) with
                     | Some r => Utils.parse_youtube_video_id r.1
                     | None => None
                     end)
           else ret None
       end)%run
  end.
End WithLibraries.

End Websearch.

(** ** [manager.py] *)

Module Manager.

(** [difflib.SequenceMatcher(None, a, b).ratio()] and the comparison of two
    floats are taken from the library. *)
Section Duplicates.
Context `{Unicode} {float : Type}.
Context (ratio : ustring → ustring → float) (ge : float → float → bool).

Definition _is_similar (candidate keeper : Track) (candidate_title : ustring)
    (candidate_artists : gset ustring) (threshold : float) : bool :=
  let keeper_title := Utils.clean_title (name keeper) in
  let keeper_artists : gset ustring := list_to_set (Utils.clean_artists (artists keeper)) in
  let ratio := ratio candidate_title keeper_title in
  let artist_overlap :=
    negb (bool_decide (candidate_artists ∩ keeper_artists = ∅))
    || bool_decide (keeper_artists = ∅) || bool_decide (candidate_artists = ∅) in
  ge ratio threshold && artist_overlap.

(** The inner loop [for keeper in kept: ... break]: the keeper that ends it. *)
Definition first_similar (track : Track) (kept : list Track) (threshold : float)
    : option Track :=
  let normalized_title := Utils.clean_title (name track) in
  let artist_signature : gset ustring := list_to_set (Utils.clean_artists (artists track)) in
  find (λ keeper, _is_similar track keeper normalized_title artist_signature threshold) kept.

(** The outer loop, on its two lists; [log] keeps the pairs that
    [logger.info("Duplicate detected: ...")] reports. *)
Fixpoint detect_loop (tracks : list Track) (threshold : float)
    (kept duplicates : list Track) (log : list (Track * Track))
    : list Track * list Track * list (Track * Track) :=
  match tracks with
  | [] => (kept, duplicates, log)
  | track :: rest =>
      match first_similar track kept threshold with
      | Some keeper =>
          detect_loop rest threshold kept (duplicates ++ [track]) (log ++ [(track, keeper)])
      | None => detect_loop rest threshold (kept ++ [track]) duplicates log
      end
  end.

Definition _detect_duplicates (tracks : list Track) (threshold : float) : list Track :=
  (detect_loop tracks threshold [] [] []).1.2.
End Duplicates.

End Manager.

(** ** [legacy_sync.py] *)

Module Legacy.
Import Re Run.

Definition RETRY_MAX_TRIES : nat := 5.
Definition SPOTIFY_ADD_BATCH : nat := 100.

(** *** Normalisation and keys *)

Definition FEAT_PAT : regex := Utils.FEAT_PAT.
Definition REMIX_PAT_pattern : bool → regex := Utils.REMIX_PAT_pattern.
Definition REMIX_PAT : regex := REMIX_PAT_pattern true.
Definition bracket_noise : regex := Utils.bracket_noise.

(** [\s*[-–—]\s*] + [REMIX_PAT.pattern] + [.*$]  (U+2013, U+2014) *)
Definition remix_suffix : regex :=
  cats [Star cls_space; Chr (in_class [45; 8211; 8212]); Star cls_space;
        REMIX_PAT_pattern false; Star cls_dot; Eos].

(** [[\|\-–—_]+] *)
Definition separators : regex := Plus (in_class [124; 45; 8211; 8212; 95]).
Definition spaces : regex := Plus cls_space.

(** The stop words of [token_set]. *)
Definition stop : list ustring :=
  map u ["the"; "a"; "an"; "official"; "video"; "audio"; "lyrics"; "lyric"; "remix";
         "edit"; "radio"; "version"; "feat"; "ft"; "con"; "with"]%string.

(** [[^a-z0-9 ]] *)
Definition not_token_char (c : N) : bool := negb (is_lower c || is_digit c || (c =? 32)).

Definition jaccard (a b : gset ustring) : Q :=
  if bool_decide (a = ∅) || bool_decide (b = ∅) then 0%Q
  else
    let i := size (a ∩ b) in
    let u := size (a ∪ b) in
    if (u =? 0)%nat then 0%Q else Qdiv_nat i u.

Section Pure.
Context `{Unicode} `{Utils.Urllib}.

Definition clean_title (s : ustring) : ustring :=
  let s2 := lower (encode_ascii_ignore (normalize_NFKD s)) in
  let s2 := sub bracket_noise (u " ") s2 in
  let s2 := sub remix_suffix (u " ") s2 in
  let s2 := sub REMIX_PAT (u " ") s2 in
  let s2 := sub separators (u " ") s2 in
  let s2 := sub spaces (u " ") s2 in
  strip s2.

Definition artist_tokens (a : ustring) : list ustring :=
  let a2 := lower (encode_ascii_ignore (normalize_NFKD a)) in
  let a2 := split_head FEAT_PAT a2 in
  let a2 := sub (Plus (one_of ",/&;+")) (u " ") a2 in
  let a2 := strip (sub spaces (u " ") a2) in
  match a2 with
  | [] => []
  | _ => filter (λ p, p ≠ []) (split_on 32 a2)
  end.

Definition clean_artists (artists : list ustring) : list ustring :=
  let out := flat_map artist_tokens artists in
  let out := sorted Utils.signature_lt (remove_dups out) in
  take 2 out.

Definition key_loose (name : ustring) (artists : list ustring) : ustring :=
  let t := clean_title name in
  let a := join (u " ") (clean_artists artists) in
  t ++ u "::" ++ a.

Definition key_title_only (name : ustring) : ustring := clean_title name.

Definition deduplicate_tracks (tracks : list Track) : list Track :=
  Utils.dedupe_loop key_loose key_title_only tracks ∅ ∅ [].

(** The same bodies as in [utils.py]. *)
Definition parse_spotify_track_uri : ustring → option ustring := Utils.parse_spotify_track_uri.
Definition parse_youtube_video_id : ustring → option ustring := Utils.parse_youtube_video_id.

Definition cache_key (service name : ustring) (artists : list ustring) : ustring :=
  let a := match artists with [] => [] | _ => join (u " ") (sorted str_ltb artists) end in
  service ++ u "|" ++ lower (strip name) ++ u "|" ++ lower (strip a).

(** *** Candidate scoring *)

Definition token_set (s : ustring) : gset ustring :=
  let s := lower (encode_ascii_ignore (normalize_NFKD s)) in
  let s := sub (Plus not_token_char) (u " ") s in
  list_to_set (filter (λ w, w ≠ [] ∧ w ∉ stop) (split_ws s)).

Definition score_of (want : gset ustring) (track_title : ustring)
    (result : ustring * ustring) : Q :=
  let '(url, t) := result in
  let got := token_set t in
  let score := jaccard want got in
  let title_tokens := token_set track_title in
  let score :=
    if bool_decide (title_tokens ≠ ∅) && bool_decide (title_tokens ⊆ got)
    then (score + (15 # 100))%Q else score in
  let score := if contains (u "/playlist") url then (score - (8 # 100))%Q else score in
  score.

Definition scored (results : list (ustring * ustring)) (track_title : ustring)
    (artists : list ustring) : list (Q * ustring * ustring) :=
  let want := token_set track_title ∪ list_to_set (clean_artists artists) in
  map (λ r, (score_of want track_title r, r.1, r.2)) results.

Definition pick_best_web_result (results : list (ustring * ustring))
    (track_title : ustring) (artists : list ustring) : option ustring :=
  match results with
  | [] => None
  | _ =>
      match sorted (λ a b, scored_lt b a) (scored results track_title artists) with
      | [] => None
      | (best_score, best_url, _) :: _ =>
          if Qle_bool (35 # 100)%Q best_score
          then parse_youtube_video_id best_url
          else None
      end
  end.

(** *** Comparison of source and destination (lines 1092-1101 of [main]) *)

(** [d[k] = v] on an insertion-ordered dictionary. *)
Fixpoint dict_set {V} (k : ustring) (v : V) (d : list (ustring * V)) : list (ustring * V) :=
  match d with
  | [] => [(k, v)]
  | (k', v') :: d' => if bool_decide (k' = k) then (k, v) :: d' else (k', v') :: dict_set k v d'
  end.

Definition src_map (src_tracks : list Track) : list (ustring * Track) :=
  fold_left (λ d t, dict_set (key_loose (name t) (artists t)) t d) src_tracks [].
Definition dst_keyset (dst_tracks : list Track) : gset ustring :=
  list_to_set (map (λ t, key_loose (name t) (artists t)) dst_tracks).
Definition dst_titles (dst_tracks : list Track) : gset ustring :=
  list_to_set (map (λ t, key_title_only (name t)) dst_tracks).

Definition already (src_tracks dst_tracks : list Track) : nat :=
  size ((list_to_set (map fst (src_map src_tracks)) : gset ustring) ∩ dst_keyset dst_tracks).

Fixpoint to_add_loop (items : list (ustring * Track)) (keys titles : gset ustring)
    (to_add : list Track) : list Track :=
  match items with
  | [] => to_add
  | (k, t) :: rest =>
      if bool_decide (k ∈ keys) || bool_decide (key_title_only (name t) ∈ titles)
      then to_add_loop rest keys titles to_add
      else to_add_loop rest keys titles (to_add ++ [t])
  end.
Definition to_add (src_tracks dst_tracks : list Track) : list Track :=
  to_add_loop (src_map src_tracks) (dst_keyset dst_tracks) (dst_titles dst_tracks) [].
End Pure.

(** *** Console helpers *)

Section Effects.
Context `{Unicode} `{Utils.Urllib}.

Definition input_yesno (prompt : ustring) : M bool :=
  input_loop (YesNoPrompt prompt)
    (λ line,
       let v := lower (strip line) in
       if bool_decide (v ∈ [u "y"; u "yes"; u "s"; u "si"; [115; 237]]) then Done true
       else if bool_decide (v ∈ [u "n"; u "no"]) then Done false
       else Again PleaseAnswer).

Definition input_index (prompt : ustring) (min_val max_val : Z) (allow_zero : bool) : M Z :=
  input_loop (IndexPrompt prompt)
    (λ line,
       let raw := strip line in
       if negb (isdigit raw) then Again EnterNumber
       else match int raw with
            | None => Fails ValueError
            | Some n =>
                if allow_zero && (n =? 0)%Z then Done 0%Z
                else if ((min_val <=? n)%Z && (n <=? max_val)%Z)%bool then Done n
                else Again EnterBetween
            end).

(** *** The cache ([SearchCache]) *)

Definition cache_get (key : ustring) : M (option ustring) :=
  get (λ w, cache_data w !! key).
Definition cache_put (key value : ustring) : M unit :=
  modify (λ w, emit [CachePut key value] (set_cache_data (<[key := value]> (cache_data w)) w)).
Definition cache_save : M unit := modify (emit [CacheSave]).

(** *** Retry and backoff (waiting is not modelled) *)

Definition quota_text (text : ustring) : bool :=
  contains (u "quota") (lower text) && contains (u "exceeded") (lower text).

Definition is_retriable_http_error (st : option Z) (text : ustring) : bool :=
  match st with
  | None => false
  | Some st =>
      if ((500 <=? st)%Z && (st <=? 599)%Z)%bool then true
      else if (st =? 429)%Z then true
      else if (st =? 403)%Z then
        if quota_text text then false
        else contains (u "rate limit") (lower text)
             || contains (u "userratelimitexceeded") (lower text)
      else false
  end.

Definition is_quota_exceeded_http_error (e : exn) : bool :=
  match e with
  | HttpError st text => bool_decide (st = Some 403%Z) && quota_text text
  | _ => false
  end.

(** [retry_call(func)]: [left] is how many more times [tries < RETRY_MAX_TRIES]
    will hold. *)
Fixpoint retry_loop {A} (left : nat) (func : M A) : M A :=
  try_except func
    (λ e,
       match e with
       | HttpError st text =>
           if bool_decide (st = Some 403%Z) && quota_text text
           then (modify (λ w, set_STATE (set_yt_search_disabled true (STATE w)) w);;
                 raise e)%run
           else match left with
                | S left' => if is_retriable_http_error st text
                             then retry_loop left' func else raise e
                | O => raise e
                end
       | TimeoutError =>
           match left with
           | S left' => retry_loop left' func
           | O => raise e
           end
       | SpotifyException http_status =>
           match left with
           | S left' => if (http_status =? 429)%Z then retry_loop left' func else raise e
           | O => raise e
           end
       | _ => raise e
       end).
Definition retry_call {A} (func : M A) : M A := retry_loop (RETRY_MAX_TRIES - 1) func.

(** *** Remote helpers *)

Fixpoint add_youtube_videos (playlist_id : ustring) (video_ids : list ustring) : M unit :=
  match video_ids with
  | [] => ret tt
  | vid :: rest =>
      (let* added := get added_video_ids in
       if bool_decide (vid ∈ added) then add_youtube_videos playlist_id rest
       else
         (let* _ := retry_call (execute (YtInsert playlist_id vid)) in
          modify (λ w, set_added_video_ids ({[vid]} ∪ added_video_ids w) w);;
          add_youtube_videos playlist_id rest))%run
  end.

Definition yt_search_one (query : ustring) : M (option ustring) :=
  (let* disabled := get (λ w, yt_search_disabled (STATE w)) in
   if disabled then ret None
   else
     let* res := retry_call (execute (YtSearch query)) in
     match res with
     | [] => ret None
     | (video_id, _) :: _ => ret (Some video_id)
     end)%run.

Definition sp_search_one (name : ustring) (artists : list ustring) : M (option ustring) :=
  try_except
    (let* res := retry_call (execute (SpSearch (name ++ u " " ++ join (u " ") artists))) in
     match res with
     | (uri, _) :: _ => ret (Some uri)
     | [] => ret None
     end)%run
    (λ e, match e with
          | SpotifyException _ => (print (Log (u "Spotify search error"));; ret None)%run
          | _ => raise e
          end).

(** [add_spotify_tracks]: batches of [SPOTIFY_ADD_BATCH]; [n] bounds the
    number of batches. *)
Fixpoint add_spotify_batches (n : nat) (playlist_id : ustring) (uris : list ustring) : M unit :=
  match n, uris with
  | _, [] => ret tt
  | O, _ => ret tt
  | S n', _ =>
      (let* _ := retry_call (execute (SpAddItems playlist_id (take SPOTIFY_ADD_BATCH uris))) in
       add_spotify_batches n' playlist_id (drop SPOTIFY_ADD_BATCH uris))%run
  end.
Definition add_spotify_tracks (playlist_id : ustring) (uris : list ustring) : M unit :=
  add_spotify_batches (length uris) playlist_id uris.

(** [google_music_search] is the web-search capability, taken here as one
    remote call whose failure gives an empty result: the three attempts,
    the pause at a CAPTCHA page and the reading of the page that was
    fetched (see [GoogleSearch] for the latter) are behind that call. *)
Definition google_music_search (query_title : ustring) (query_artists : list ustring)
    (max_results : nat) : M (list (ustring * ustring)) :=
  try_except (execute (WebSearch query_title query_artists max_results)) (λ _, ret []).

Definition table_rows (results : list (ustring * ustring)) : list (nat * ustring * ustring) :=
  imap (λ i r, (S i, r.2, r.1)) (take 5 results).

Definition pick_from_web_results (results : list (ustring * ustring))
    (track_display : ustring) : M (option ustring) :=
  match results with
  | [] => ret None
  | [r] => ret (parse_youtube_video_id r.1)
  | _ =>
      (print (ResultsTable (u "Google results for: " ++ track_display) (table_rows results));;
       let* idx := input_index (u "Pick a result (0 = skip)") 1
                     (Z.of_nat (min 5 (length results))) true in
       if (idx =? 0)%Z then ret None
       else ret (match results !! Z.to_nat (idx - 1) with
                 | Some r => parse_youtube_video_id r.1
                 | None => None
                 end))%run
  end.

(** *** After-quota prompt *)

Definition prompt_after_quota : M unit :=
  (let* prompted := get (λ w, prompted_after_quota (STATE w)) in
   if prompted then ret tt
   else
     modify (λ w, set_STATE (set_prompted_after_quota true (STATE w)) w);;
     print QuotaPanel;;
     let* opt := input_loop OptionPrompt
                   (λ line,
                      let opt := lower (strip line) in
                      if bool_decide (opt ∈ [u "1"; u "2"; u "3"]) then Done opt
                      else Again InvalidOption) in
     modify (λ w, set_STATE
                    (set_continue_web_auto_after_quota (bool_decide (opt = u "2"))
                       (set_continue_manual_after_quota (bool_decide (opt = u "1")) (STATE w)))
                    w))%run.

(** *** The resolution loop of [main] (lines 1132-1286) *)

Definition display (t : Track) : ustring :=
  strip_chars [32; 8212] (name t ++ [32; 8212; 32] ++ join (u ", ") (artists t)).

Definition paste_youtube_url (t : Track) : M (option ustring) :=
  (print (PasteUrl (display t));;
   let* line := input in
   ret (parse_youtube_video_id (strip line)))%run.

(** Destination Spotify (lines 1136-1155): the URI to add, if any. *)
Definition main_item_spotify (t : Track) : M (option ustring) :=
  (let ck := cache_key (u "spotify") (name t) (artists t) in
   let* uri := cache_get ck in
   let* uri :=
     if Utils.truthy uri then ret uri
     else
       let* uri := sp_search_one (name t) (artists t) in
       if Utils.truthy uri
       then (cache_put ck (default [] uri);; cache_save;; ret uri)
       else ret uri in
   let* uri :=
     if Utils.truthy uri then ret uri
     else
       print (PasteUrl (display t));;
       let* line := input in
       let manual := parse_spotify_track_uri (strip line) in
       if Utils.truthy manual then ret manual else ret uri in
   ret (if Utils.truthy uri then uri else None))%run.

(** Destination YouTube, step 1 (lines 1159-1192): cache, then API search. *)
Definition youtube_lookup (t : Track) : M (flow (option ustring)) :=
  (let* vid := cache_get (cache_key (u "youtube") (name t) (artists t)) in
   let* disabled := get (λ w, yt_search_disabled (STATE w)) in
   let* plan := get PLAN_MODE_ONLY in
   if negb (Utils.truthy vid) && negb disabled && negb plan then
     try_except
       (let q := strip (name t ++ u " " ++ join (u " ") (artists t)) in
        let* vid := yt_search_one q in
        ret (Go vid))
       (λ e,
          match e with
          | HttpError _ _ =>
              prompt_after_quota;;
              let* manual := get (λ w, continue_manual_after_quota (STATE w)) in
              let* web_auto := get (λ w, continue_web_auto_after_quota (STATE w)) in
              if negb manual && negb web_auto then ret Return_
              else
                modify (λ w, set_STATE (set_yt_search_disabled true (STATE w)) w);;
                ret (Go None)
          | _ => raise e
          end)
   else ret (Go vid))%run.

(** Step 2 (lines 1194-1230): web fallback or manual entry. *)
Definition youtube_fallback (t : Track) (vid : option ustring) : M (option ustring) :=
  (if Utils.truthy vid then ret vid
   else
     let q_art := clean_artists (artists t) in
     let* manual := get (λ w, continue_manual_after_quota (STATE w)) in
     if negb manual then
       let* web_results := google_music_search (name t) q_art 8 in
       let auto_vid :=
         match web_results with
         | [] => None
         | _ => pick_best_web_result web_results (name t) (artists t)
         end in
       if Utils.truthy auto_vid then ret auto_vid
       else
         let* vid :=
           match web_results with
           | [] => ret vid
           | _ => pick_from_web_results web_results (display t)
           end in
         if Utils.truthy vid then ret vid else paste_youtube_url t
     else paste_youtube_url t)%run.

Definition queue_pending (vid : ustring) : M unit :=
  (let* added := get added_video_ids in
   if bool_decide (vid ∈ added) then ret tt
   else modify (λ w, set_added_video_ids ({[vid]} ∪ added_video_ids w)
                       (set_pending_web_adds (pending_web_adds w ++ [vid]) w)))%run.

(** Step 3 (lines 1232-1284): insert (or collect in planning mode) and cache. *)
Definition youtube_store (dst_id : ustring) (t : Track) (vid : ustring) : M (flow unit) :=
  (let* plan := get PLAN_MODE_ONLY in
   if plan then
     queue_pending vid;;
     cache_put (cache_key (u "youtube") (name t) (artists t)) vid;;
     cache_save;;
     ret (Go tt)
   else
     try_except
       (add_youtube_videos dst_id [vid];;
        cache_put (cache_key (u "youtube") (name t) (artists t)) vid;;
        cache_save;;
        ret (Go tt))
       (λ e,
          match e with
          | HttpError _ _ =>
              if is_quota_exceeded_http_error e then
                print InsertQuotaPanel;;
                let* switch := input_yesno (u "Switch to planning mode?") in
                if switch then
                  modify (set_PLAN_MODE_ONLY true);;
                  queue_pending vid;;
                  ret (Go tt)
                else ret Return_
              else (print (Log (u "Insert failed on YouTube"));; ret (Go tt))
          | _ => raise e
          end))%run.

Definition main_item_youtube (dst_id : ustring) (t : Track) : M (flow unit) :=
  (let* found := youtube_lookup t in
   match found with
   | Return_ => ret Return_
   | Go vid =>
       let* vid := youtube_fallback t vid in
       match vid with
       | Some (c :: vid') => youtube_store dst_id t (c :: vid')
       | _ => ret (Go tt)
       end
   end)%run.

(** [for t in to_add: ...] with destination YouTube. *)
Fixpoint main_loop_youtube (dst_id : ustring) (to_add : list Track) : M (flow unit) :=
  match to_add with
  | [] => ret (Go tt)
  | t :: rest =>
      (let* r := main_item_youtube dst_id t in
       match r with
       | Return_ => ret Return_
       | Go _ => main_loop_youtube dst_id rest
       end)%run
  end.

(** [for t in to_add: ...] with destination Spotify, then the batch add
    (lines 1288-1310). *)
Fixpoint main_loop_spotify (to_add : list Track) (to_add_sp_uris : list ustring)
    : M (list ustring) :=
  match to_add with
  | [] => ret to_add_sp_uris
  | t :: rest =>
      (let* uri := main_item_spotify t in
       main_loop_spotify rest
         (match uri with Some uri => to_add_sp_uris ++ [uri] | None => to_add_sp_uris end))%run
  end.
Definition main_resolve_spotify (dst_id : ustring) (to_add : list Track) : M unit :=
  (let* to_add_sp_uris := main_loop_spotify to_add [] in
   add_spotify_tracks dst_id to_add_sp_uris)%run.
End Effects.

End Legacy.

Local Close Scope N_scope.

Local Open Scope N_scope.

(** ** [utils.py]: the artist summary *)

Module Summary.

(** [collections.Counter], in insertion order: [counter[key] += 1]. *)
Fixpoint counter_add (key : ustring) (counter : list (ustring * nat)) : list (ustring * nat) :=
  match counter with
  | [] => [(key, 1%nat)]
  | (k, n) :: rest =>
      if bool_decide (k = key) then (k, S n) :: rest else (k, n) :: counter_add key rest
  end.

(** [counter.most_common()]: by decreasing count, equal counts in the order
    of first insertion. *)
Definition most_common (counter : list (ustring * nat)) : list (ustring * nat) :=
  sorted (λ a b, (b.2 <? a.2)%nat) counter.

(** [track.get("artists") or ["Unknown"]] *)
Definition artists_or_unknown (track : Track) : list ustring :=
  match artists track with
  | [] => [u "Unknown"]
  | credited => credited
  end.

Definition summarize_by_artist (tracks : list Track) : list (ustring * nat) :=
  let counter :=
    fold_left (λ counter track,
                 fold_left (λ counter artist, counter_add artist counter)
                   (artists_or_unknown track) counter)
      tracks [] in
  most_common counter.

End Summary.

(** ** [manager.py]: an entry typed by the user *)

Module PlaylistManager.

(** [entry.split(sep, 1)] when [sep] occurs in [entry]: the text before the
    first [sep] and the text after it. *)
Fixpoint split_once (sep : N) (entry : ustring) : option (ustring * ustring) :=
  match entry with
  | [] => None
  | c :: rest =>
      if c =? sep then Some ([], rest)
      else match split_once sep rest with
           | Some (before, after) => Some (c :: before, after)
           | None => None
           end
  end.

Section WithUnicode.
Context `{Unicode}.

Definition _split_title_artists (entry : ustring) : ustring * list ustring :=
  match split_once 45 entry with
  | Some (title, rest) =>
      let artists :=
        map strip (filter (λ artist, strip artist ≠ []) (split_on 44 rest)) in
      (strip title, artists)
  | None => (strip entry, [])
  end.
End WithUnicode.

End PlaylistManager.

(** ** [services/] and [adapters_impl.py]: writing to a playlist *)

(** [retry.py] repeats [retry_call] of [legacy_sync.py] line for line.  The
    run-time state of the package ([state.STATE]) is kept in the same
    [World] as the globals of [legacy_sync.py]; waiting ([time.sleep]) and
    logging are not part of the trace. *)
Module Retry.
Import Run.

Definition retry_call `{Unicode} {A} (func : M A) : M A := Legacy.retry_call func.

End Retry.

Module YouTubeService.
Import Run.

Section WithUnicode.
Context `{Unicode}.

Fixpoint add_videos (playlist_id : ustring) (video_ids : list ustring) : M unit :=
  match video_ids with
  | [] => ret tt
  | video_id :: rest =>
      match video_id with
      | [] => add_videos playlist_id rest
      | _ =>
          (let* added := get added_video_ids in
           if bool_decide (video_id ∈ added) then add_videos playlist_id rest
           else
             (let* _ := Retry.retry_call (execute (YtInsert playlist_id video_id)) in
              modify (λ w, set_added_video_ids ({[video_id]} ∪ added_video_ids w) w);;
              add_videos playlist_id rest))%run
      end
  end.
End WithUnicode.

End YouTubeService.

Module SpotifyService.
Import Run.

Section WithUnicode.
Context `{Unicode}.

(** [for start in range(0, len(uris), SPOTIFY_ADD_BATCH)]: [uris] is what
    is left from [start] on, [n] bounds the number of turns. *)
Fixpoint add_tracks_from (n : nat) (playlist_id : ustring) (uris : list ustring) : M unit :=
  match n, uris with
  | _, [] => ret tt
  | O, _ => ret tt
  | S n', _ =>
      let chunk := take Legacy.SPOTIFY_ADD_BATCH uris in
      (match chunk with
       | [] => ret tt
       | _ => let* _ := Retry.retry_call (execute (SpAddItems playlist_id chunk)) in ret tt
       end;;
       add_tracks_from n' playlist_id (drop Legacy.SPOTIFY_ADD_BATCH uris))%run
  end.
Definition add_tracks (playlist_id : ustring) (uris : list ustring) : M unit :=
  add_tracks_from (length uris) playlist_id uris.
End WithUnicode.

End SpotifyService.

Module SpotifyAdapter.
Import Run.

(** One element of the comprehension of [add_identifiers]. *)
Definition as_uri (identifier : ustring) : ustring :=
  if startswith (u "spotify:track:") identifier then identifier
  else u "spotify:track:" ++ identifier.

Definition add_identifiers `{Unicode} (playlist_id : ustring) (identifiers : list ustring)
    : M unit :=
  let uris := map as_uri identifiers in
  SpotifyService.add_tracks playlist_id uris.

End SpotifyAdapter.

Module YouTubeAdapter.
Import Run.

Definition add_identifiers `{Unicode} (playlist_id : ustring) (identifiers : list ustring)
    : M unit :=
  YouTubeService.add_videos playlist_id identifiers.

End YouTubeAdapter.

(** ** [legacy_sync.py]: the rest of [main] *)

Module Sync.
Import Run.

Section Effects.
Context `{Unicode} `{Utils.Urllib}.

(** [input_choice] (lines 105-113) *)
Definition input_choice (prompt : ustring) (choices : list ustring) : M ustring :=
  let ch_lower := map lower choices in
  input_loop (Log (u "[bold]" ++ prompt ++ u "[/bold] (" ++ join (u "/") choices ++ u "): "))
    (λ line,
       let val := lower (strip line) in
       if bool_decide (val ∈ ch_lower) then Done val else Again InvalidOption).

(** The reading of the destination playlist (lines 1046-1086, destination
    YouTube), over [get_youtube_playlist_tracks(yt, dst_id)]. *)
Definition main_load_destination (get_youtube_playlist_tracks : ustring → M (list Track))
    (dst_id : ustring) : M (flow (list Track)) :=
  try_except
    (let* dst_tracks := get_youtube_playlist_tracks dst_id in
     ret (Go (Legacy.deduplicate_tracks dst_tracks)))%run
    (λ e,
       match e with
       | HttpError _ _ =>
           if Legacy.is_quota_exceeded_http_error e then
             (modify (λ w, set_STATE (set_yt_search_disabled true (STATE w)) w);;
              print (Log (u "YouTube daily quota has been exhausted while reading the destination playlist."));;
              let* cont := Legacy.input_yesno
                             (u "Continue in planning mode (no API calls to YouTube)?") in
              if cont then
                modify (set_PLAN_MODE_ONLY true);;
                modify (λ w, set_STATE (set_continue_web_auto_after_quota true (STATE w)) w);;
                ret (Go [])
              else ret Return_)%run
           else raise e
       | _ => raise e
       end).

(** The batch add that ends [main] with destination Spotify (lines
    1288-1310): an empty line is printed, then [add_spotify_tracks] runs
    on slices of [SPOTIFY_ADD_BATCH].  The progress display is not part
    of the trace. *)
Fixpoint main_add_slices (n : nat) (dst_id : ustring) (to_add_sp_uris : list ustring)
    : M unit :=
  match n, to_add_sp_uris with
  | _, [] => ret tt
  | O, _ => ret tt
  | S n', _ =>
      (Legacy.add_spotify_tracks dst_id (take Legacy.SPOTIFY_ADD_BATCH to_add_sp_uris);;
       main_add_slices n' dst_id (drop Legacy.SPOTIFY_ADD_BATCH to_add_sp_uris))%run
  end.
Definition main_add_spotify (dst_id : ustring) (to_add_sp_uris : list ustring) : M unit :=
  match to_add_sp_uris with
  | [] => ret tt
  | _ =>
      (print (Log []);;
       main_add_slices (length to_add_sp_uris) dst_id to_add_sp_uris)%run
  end.
End Effects.

End Sync.

(** ** [google_music_search]: from the anchors of the result page to the
    results (the same code in [websearch.py] and [legacy_sync.py]) *)

Module GoogleSearch.

Section Anchors.
Context `{Unicode} `{Utils.Urllib}.
(** [strip_tracking_params] and [html.unescape]. *)
Context (strip_tracking_params : ustring → ustring) (unescape : ustring → ustring).

(** The [/url?q=...] redirects unwrapped: the [href] to go on with;
    [None] when [urlparse], [parse_qs] or the indexing raises. *)
Definition unwrap (href : ustring) : option ustring :=
  if startswith (u "/url?") href then
    match Utils.urlparse href with
    | None => None
    | Some parsed =>
        match Utils.parse_qs (Utils.query parsed) with
        | None => None
        | Some query =>
            match query !! u "q" with
            | None => Some href
            | Some [] => None
            | Some (real :: _) => Some (match real with [] => href | _ => real end)
            end
        end
    end
  else Some href.

(** [for anchor in soup.select("a"): ...]: an anchor is
    [(anchor.get("href"), anchor.get_text(" ", strip=True))]. *)
Fixpoint collect (anchors : list (option ustring * ustring)) (max_results : Z)
    (results : list (ustring * ustring)) : option (list (ustring * ustring)) :=
  match anchors with
  | [] => Some results
  | (href, text) :: rest =>
      let href := default [] href in
      match href, text with
      | [], _ | _, [] => collect rest max_results results
      | _, _ =>
          match unwrap href with
          | None => None
          | Some href =>
              if negb (contains (u "music.youtube.com") href)
              then collect rest max_results results
              else if negb (contains (u "/watch") href || contains (u "/playlist") href)
              then collect rest max_results results
              else
                let results := results ++ [(strip_tracking_params href, unescape text)] in
                if (max_results <=? Z.of_nat (length results))%Z then Some results
                else collect rest max_results results
          end
      end
  end.

(** [for url_value, title in results: ...] *)
Fixpoint unique_loop (results : list (ustring * ustring)) (seen : gset ustring)
    (unique : list (ustring * ustring)) : list (ustring * ustring) :=
  match results with
  | [] => unique
  | (url_value, title) :: rest =>
      if bool_decide (url_value ∈ seen) then unique_loop rest seen unique
      else unique_loop rest ({[url_value]} ∪ seen) (unique ++ [(url_value, title)])
  end.

(** What [google_music_search] returns for a page that was fetched. *)
Definition page_results (anchors : list (option ustring * ustring)) (max_results : Z)
    : option (list (ustring * ustring)) :=
  match collect anchors max_results [] with
  | None => None
  | Some results => Some (unique_loop results ∅ [])
  end.
End Anchors.

End GoogleSearch.

(** ** Scores in floating point

    A score of [pick_best_web_result] is a Python [float], an IEEE 754
    binary64 number, and [scored.sort(reverse=True)] ranks the candidates by
    these numbers.  [Websearch.score_of] and [Legacy.score_of] compute the
    scores as exact fractions, which is enough to bound them; which
    candidate comes first depends on the rounding of every operation, so
    the ranking is modelled here on the standard library's executable
    specification of binary64 arithmetic. *)

Module Float.

Definition float : Type := spec_float.
Definition prec : Z := 53.
Definition emax : Z := 1024.

(** A non-negative [int] as an operand of [/]. *)
Definition of_int (n : nat) : float :=
  match n with
  | O => S754_zero false
  | S _ => S754_finite false (Pos.of_nat n) 0
  end.

(** [i / n] on two [int]s: the quotient, rounded to the nearest [float]. *)
Definition truediv (i n : nat) : float := SFdiv prec emax (of_int i) (of_int n).

(** A decimal literal, [0.15] being [decimal 15 100]: the [float] nearest to
    the fraction written. *)
Definition decimal (digits power : nat) : float := truediv digits power.

(** [0.0] *)
Definition zero : float := S754_zero false.

Definition add (x y : float) : float := SFadd prec emax x y.
Definition sub (x y : float) : float := SFsub prec emax x y.
Definition eqb (x y : float) : bool := SFeqb x y.
Definition ltb (x y : float) : bool := SFltb x y.
(** [x >= y] *)
Definition geb (x y : float) : bool := SFleb y x.

(** The order of [(float, str, str)] tuples: the first components that are
    not equal decide. *)
Definition tuple_lt (a b : float * ustring * ustring) : bool :=
  let '(sa, ua, ta) := a in
  let '(sb, ub, tb) := b in
  if eqb sa sb then str_ltb ua ub || (bool_decide (ua = ub) && str_ltb ta tb)
  else ltb sa sb.

End Float.

(** [websearch.py], lines 45-50 and 131-149. *)
Module WebsearchScores.

Definition jaccard (a b : gset ustring) : Float.float :=
  if bool_decide (a = ∅) || bool_decide (b = ∅) then Float.zero
  else
    let intersection := size (a ∩ b) in
    let union := size (a ∪ b) in
    if (union =? 0)%nat then Float.zero else Float.truediv intersection union.

Section WithLibraries.
Context `{Unicode} `{Utils.Urllib}.

(** The body of the loop of [pick_best_web_result]: one candidate's score. *)
Definition score_of (desired_tokens : gset ustring) (track_title : ustring)
    (result : ustring * ustring) : Float.float :=
  let '(url_value, title) := result in
  let got_tokens := Websearch.token_set title in
  let score := jaccard desired_tokens got_tokens in
  let title_tokens := Websearch.token_set track_title in
  let score :=
    if bool_decide (title_tokens ≠ ∅) && bool_decide (title_tokens ⊆ got_tokens)
    then Float.add score (Float.decimal 15 100) else score in
  let score :=
    if contains (u "/playlist") url_value
    then Float.sub score (Float.decimal 8 100) else score in
  score.

Definition scored (results : list (ustring * ustring)) (track_title : ustring)
    (artists : list ustring) : list (Float.float * ustring * ustring) :=
  let desired_tokens :=
    Websearch.token_set track_title ∪ list_to_set (Utils.clean_artists artists) in
  map (λ r, (score_of desired_tokens track_title r, r.1, r.2)) results.

Definition pick_best_web_result (results : list (ustring * ustring))
    (track_title : ustring) (artists : list ustring) : option ustring :=
  match results with
  | [] => None
  | _ =>
      match sorted (λ a b, Float.tuple_lt b a) (scored results track_title artists) with
      | [] => None
      | (best_score, best_url, _) :: _ =>
          if Float.geb best_score (Float.decimal 35 100)
          then Utils.parse_youtube_video_id best_url
          else None
      end
  end.
End WithLibraries.

End WebsearchScores.

(** [legacy_sync.py], lines 708-714 and 821-847. *)
Module LegacyScores.

Definition jaccard (a b : gset ustring) : Float.float :=
  if bool_decide (a = ∅) || bool_decide (b = ∅) then Float.zero
  else
    let i := size (a ∩ b) in
    let u := size (a ∪ b) in
    if (u =? 0)%nat then Float.zero else Float.truediv i u.

Section WithLibraries.
Context `{Unicode} `{Utils.Urllib}.

Definition score_of (want : gset ustring) (track_title : ustring)
    (result : ustring * ustring) : Float.float :=
  let '(url, t) := result in
  let got := Legacy.token_set t in
  let score := jaccard want got in
  let title_tokens := Legacy.token_set track_title in
  let score :=
    if bool_decide (title_tokens ≠ ∅) && bool_decide (title_tokens ⊆ got)
    then Float.add score (Float.decimal 15 100) else score in
  let score :=
    if contains (u "/playlist") url then Float.sub score (Float.decimal 8 100) else score in
  score.

Definition scored (results : list (ustring * ustring)) (track_title : ustring)
    (artists : list ustring) : list (Float.float * ustring * ustring) :=
  let want := Legacy.token_set track_title ∪ list_to_set (Legacy.clean_artists artists) in
  map (λ r, (score_of want track_title r, r.1, r.2)) results.

Definition pick_best_web_result (results : list (ustring * ustring))
    (track_title : ustring) (artists : list ustring) : option ustring :=
  match results with
  | [] => None
  | _ =>
      match sorted (λ a b, Float.tuple_lt b a) (scored results track_title artists) with
      | [] => None
      | (best_score, best_url, _) :: _ =>
          if Float.geb best_score (Float.decimal 35 100)
          then Legacy.parse_youtube_video_id best_url
          else None
      end
  end.
End WithLibraries.

End LegacyScores.

Local Close Scope N_scope.

(** ** Vocabulary of the properties *)

Module Vocabulary.

(** A track with a title and credited artists, for the scenarios. *)
Definition a_track (title : string) (credits : list string) : Track :=
  {| service := u "spotify"; id_ := None; uri := None; name := u title;
     artists := map u credits; playlist_item_id := None |}.

Section Keys.
Context (kl : ustring → list ustring → ustring) (kt : ustring → ustring).

Definition loose_of (t : Track) : ustring := kl (name t) (artists t).
Definition title_of (t : Track) : ustring := kt (name t).

(** The keys recorded in [seen] and [seen_title] once [result] has been kept. *)
Definition seen_of (result : list Track) : gset ustring := list_to_set (map loose_of result).
Definition seen_title_of (result : list Track) : gset ustring :=
  list_to_set (map title_of result).

(** A track is new for [result] when neither of its keys is recorded. *)
Definition fresh (result : list Track) (t : Track) : Prop :=
  (loose_of t ∉ map loose_of result) ∧ (title_of t ∉ map title_of result).

#[global] Instance fresh_dec result t : Decision (fresh result t).
Proof. unfold fresh. apply _. Defined.

(** The deduplication loop, resumed with [result] already kept. *)
Definition resume (tracks result : list Track) : list Track :=
  Utils.dedupe_loop kl kt tracks (seen_of result) (seen_title_of result) result.

(** What it is for [dedupe] to keep first occurrences under the two keys:
    it is idempotent, never longer than its input, a subsequence of it
    with pairwise distinct loose keys and pairwise distinct title keys;
    every track read is represented by a kept track with one of its
    keys; reading more only appends; and the track read after [pre] is
    kept exactly when neither of its keys is recorded for what was kept
    of [pre]. *)
Definition keeps_first_seen (dedupe : list Track → list Track) : Prop :=
  ∀ tracks : list Track,
    dedupe (dedupe tracks) = dedupe tracks
    ∧ length (dedupe tracks) ≤ length tracks
    ∧ sublist (dedupe tracks) tracks
    ∧ NoDup (map loose_of (dedupe tracks))
    ∧ NoDup (map title_of (dedupe tracks))
    ∧ (∀ t, t ∈ tracks →
         ∃ t', t' ∈ dedupe tracks ∧ (loose_of t' = loose_of t ∨ title_of t' = title_of t))
    ∧ (∀ more, dedupe tracks `prefix_of` dedupe (tracks ++ more))
    ∧ (∀ t, dedupe (tracks ++ [t]) =
            if decide (fresh (dedupe tracks) t) then dedupe tracks ++ [t] else dedupe tracks).
End Keys.

Section Reconcile.
Context `{Unicode}.

(** A source track is absent from the destination when its loose key is not
    among the destination's loose keys and its title key is not among the
    destination's title keys. *)
Definition absent_from (dst_tracks : list Track) (t : Track) : Prop :=
  (Legacy.key_loose (name t) (artists t) ∉ Legacy.dst_keyset dst_tracks)
  ∧ (Legacy.key_title_only (name t) ∉ Legacy.dst_titles dst_tracks).

#[global] Instance absent_from_dec dst_tracks t : Decision (absent_from dst_tracks t).
Proof. unfold absent_from. apply _. Defined.

(** The source tracks over which the loop of [main] says [continue]:
    those that do not end up in [to_add]. *)
Definition present_in_destination (src_tracks dst_tracks : list Track) : list Track :=
  list_difference src_tracks (Legacy.to_add src_tracks dst_tracks).

(** Two tracks with the same loose key; with the same title key. *)
Definition same_loose_key (t d : Track) : Prop :=
  Legacy.key_loose (name t) (artists t) = Legacy.key_loose (name d) (artists d).
Definition same_title_key (t d : Track) : Prop :=
  Legacy.key_title_only (name t) = Legacy.key_title_only (name d).

(** A source track is matched when some destination track has its loose
    key or its title key. *)
Definition matched (dst_tracks : list Track) (t : Track) : Prop :=
  Exists (λ d, same_loose_key t d ∨ same_title_key t d) dst_tracks.

#[global] Instance matched_dec dst_tracks t : Decision (matched dst_tracks t).
Proof. unfold matched, same_loose_key, same_title_key. apply _. Defined.

(** The source tracks that are present in the destination, as the
    destination tracks tell. *)
Definition present (src_tracks dst_tracks : list Track) : list Track :=
  filter (matched dst_tracks) src_tracks.

(** The loose keys of a track list, as a set. *)
Definition loose_keys (tracks : list Track) : gset ustring :=
  list_to_set (map (λ t, Legacy.key_loose (name t) (artists t)) tracks).
End Reconcile.

(** [w] is a maximal run of characters satisfying [p] inside [s]. *)
Definition maximal_run (p : N → bool) (s w : ustring) : Prop :=
  w ≠ []
  ∧ Forall (λ c, p c = true) w
  ∧ ∃ pre post, s = pre ++ w ++ post
      ∧ (∀ c, last pre = Some c → p c = false)
      ∧ (∀ c, head post = Some c → p c = false).

(** The characters of [[a-z0-9]]. *)
Definition token_char (c : N) : bool := is_lower c || is_digit c.

(** The text [token_set] and [clean_title] start from: ASCII-folded and lowercased. *)
Definition folded `{Unicode} (s : ustring) : ustring :=
  lower (encode_ascii_ignore (normalize_NFKD s)).

(** The text [websearch.token_set] cuts into words: lowercased, without
    ASCII folding, with the four substrings blanked. *)
Definition blanked `{Unicode} (text : ustring) : ustring :=
  replace (u "audio") (u " ")
    (replace (u "video") (u " ")
       (replace (u "[official]") (u " ")
          (replace (u "(official)") (u " ") (lower text)))).

(** The characters of the words of [websearch.token_set]: those [str.isalnum]
    accepts (and [str.split] does not cut at: no character of Unicode is
    both). *)
Definition word_char `{Unicode} (c : N) : bool := isalnum c && negb (isspace c).

(** [split_ws_go] for an arbitrary class of separators. *)
Fixpoint fields_go (sep : N → bool) (cur : ustring) (s : ustring) : list ustring :=
  match s with
  | [] => match cur with [] => [] | _ => [rev cur] end
  | c :: s' =>
      if sep c
      then match cur with [] => fields_go sep [] s' | _ => rev cur :: fields_go sep [] s' end
      else fields_go sep (c :: cur) s'
  end.

(** Every maximal run of characters of the class [cls] replaced by one
    space; [inrun] says the previous character was of the class. *)
Fixpoint collapse (cls : N → bool) (inrun : bool) (s : ustring) : ustring :=
  match s with
  | [] => []
  | c :: s' =>
      if cls c then (if inrun then collapse cls true s' else 32%N :: collapse cls true s')
      else c :: collapse cls false s'
  end.

(** Length of the longest prefix of [s] inside the class [p]. *)
Fixpoint run_length (p : N → bool) (s : ustring) : nat :=
  match s with
  | c :: s' => if p c then S (run_length p s') else O
  | [] => O
  end.

Section NearDuplicates.
Context `{Unicode} {float : Type}.
Context (ratio : ustring → ustring → float) (ge : float → float → bool) (threshold : float).

Definition normalized_title (t : Track) : ustring := Utils.clean_title (name t).
Definition artist_signature (t : Track) : gset ustring :=
  list_to_set (Utils.clean_artists (artists t)).

(** The test [_detect_duplicates] applies to a track and a kept track. *)
Definition similar (track keeper : Track) : bool :=
  Manager._is_similar ratio ge track keeper (normalized_title track) (artist_signature track)
    threshold.

(** The state of the loop of [_detect_duplicates] once [tracks] are read:
    the kept tracks, the duplicates, and the reported pairs. *)
Definition detected (tracks : list Track) : list Track * list Track * list (Track * Track) :=
  Manager.detect_loop ratio ge tracks threshold [] [] [].
End NearDuplicates.

(** *** Runs *)

Import Run.

Definition is_search (e : event) : bool :=
  match e with Called (YtSearch _) => true | _ => false end.
Definition is_quota_panel (e : event) : bool :=
  match e with Printed QuotaPanel => true | _ => false end.
Definition is_cache_put (e : event) : bool :=
  match e with CachePut _ _ => true | _ => false end.

(** How often the after-quota prompt was shown. *)
Definition quota_prompts (evs : list event) : nat :=
  length (filter (λ e, is_quota_panel e = true) evs).

(** What happened between [w] and a later [w']. *)
Definition events_since (w w' : World) : list event := drop (length (trace w)) (trace w').

(** A computation respects a relation on worlds when it relates every world
    to the one it leaves. *)
Definition respects (R : World → World → Prop) {A} (m : M A) : Prop := ∀ w, R w (m w).2.

(** Relations every quiet step of the run-time respects. *)
Class Stable (R : World → World → Prop) : Prop := {
  stable_pre :: PreOrder R;
  stable_stdin w l : R w (set_stdin l w);
  stable_replies w l : R w (set_replies l w);
  stable_added w s : R w (set_added_video_ids s w);
  stable_pending w l : R w (set_pending_web_adds l w);
  stable_plan w : R w (set_PLAN_MODE_ONLY true w);
  stable_disable w : R w (set_STATE (set_yt_search_disabled true (STATE w)) w);
  stable_read w l : R w (emit [ReadLine l] w);
  stable_print w o : o ≠ QuotaPanel → R w (emit [Printed o] w);
  stable_call w c : is_search (Called c) = false → R w (emit [Called c] w);
  stable_save w : R w (emit [CacheSave] w);
}.

(** The quota state only advances: the two flags are never cleared, the
    trace only grows, no search call is issued from a world whose search
    is disabled, and the after-quota prompt is shown at most when
    [prompted_after_quota] turns true. *)
Definition advances (w w' : World) : Prop :=
  (yt_search_disabled (STATE w) = true → yt_search_disabled (STATE w') = true)
  ∧ (prompted_after_quota (STATE w) = true → prompted_after_quota (STATE w') = true)
  ∧ ∃ evs, trace w' = trace w ++ evs
      ∧ (yt_search_disabled (STATE w) = true → Forall (λ e, is_search e = false) evs)
      ∧ quota_prompts evs ≤
          (if prompted_after_quota (STATE w) then 0
           else if prompted_after_quota (STATE w') then 1 else 0).

(** The cache is left alone. *)
Definition keeps_cache (w w' : World) : Prop :=
  cache_data w' = cache_data w
  ∧ ∃ evs, trace w' = trace w ++ evs ∧ Forall (λ e, is_cache_put e = false) evs.

(** The world after [cache.put(key, value); cache.save()]. *)
Definition cached (key value : ustring) (w : World) : World :=
  emit [CacheSave]
    (emit [CachePut key value] (set_cache_data (<[key := value]> (cache_data w)) w)).

(** An HTTP 403 whose text reports the exhausted quota. *)
Definition quota_error : exn :=
  HttpError (Some 403%Z) (u "quotaExceeded: you have exceeded your quota").

End Vocabulary.
Export Vocabulary.

(** *** Libraries for the examples *)

(** The tables of an interpreter that only meets ASCII text. *)
Definition ascii_tables : Unicode :=
  {| nfkd_table := λ s, s; lower_table := λ s, s; isalnum_table := λ _, false;
     isspace_table := λ _, false; isdigit_table := λ _, false; int_table := λ _, None |}.

(** A URL library that parses nothing. *)
Definition no_urls : Utils.Urllib :=
  {| Utils.urlparse := λ _, None; Utils.parse_qs := λ _, None |}.

(** *** Normal forms *)

(** A normalised title: ASCII without capitals and without the separator
    characters [seps]; every blank is a single space, and none leads or
    trails. *)
Definition normal_title (seps : ustring) (t : ustring) : Prop :=
  Forall (λ c, is_ascii c = true ∧ is_upper c = false ∧ c ∉ seps
               ∧ (ascii_space c = true → c = 32%N)) t
  ∧ contains (u "  ") t = false
  ∧ head t ≠ Some 32%N ∧ last t ≠ Some 32%N.

(** A token of an artist signature: a non-empty run of ASCII characters
    without capitals, blanks or the separators [,/&;+]. *)
Definition artist_token (x : ustring) : Prop :=
  x ≠ []
  ∧ Forall (λ c, is_ascii c = true ∧ is_upper c = false ∧ ascii_space c = false
                 ∧ c ∉ u ",/&;+") x.

(** *** Artist credits *)

(** The credits [summarize_by_artist] counts: the artists of every track,
    in order, ["Unknown"] standing for a track without any. *)
Definition credits (tracks : list Track) : list ustring :=
  concat (map Summary.artists_or_unknown tracks).

(** How often [artist] is credited. *)
Definition occurrences (artist : ustring) (l : list ustring) : nat :=
  length (filter (λ a, a = artist) l).

(** *** Web results *)

(** A link [google_music_search] keeps: to [music.youtube.com], for a
    video or a playlist. *)
Definition music_link (href : ustring) : Prop :=
  contains (u "music.youtube.com") href = true
  ∧ (contains (u "/watch") href = true ∨ contains (u "/playlist") href = true).

(** *** Candidate scores *)

(** The score [pick_best_web_result] gives a candidate for a track. *)
Definition legacy_score `{Unicode} (track_title : ustring) (artists : list ustring)
    (candidate : ustring * ustring) : Float.float :=
  LegacyScores.score_of
    (Legacy.token_set track_title ∪ list_to_set (Legacy.clean_artists artists))
    track_title candidate.
Definition websearch_score `{Unicode} (track_title : ustring) (artists : list ustring)
    (candidate : ustring * ustring) : Float.float :=
  WebsearchScores.score_of
    (Websearch.token_set track_title ∪ list_to_set (Utils.clean_artists artists))
    track_title candidate.

(** A float that is a number. *)
Definition is_number (x : Float.float) : bool :=
  match x with S754_nan => false | _ => true end.

(** The place of a number among the floats: the negative infinity, the
    negative numbers, the zeros, the positive numbers, the positive
    infinity; among numbers of the same sign, by exponent and then by
    mantissa. *)
Definition float_rank (x : Float.float) : Z * Z * Z :=
  match x with
  | S754_zero _ => (0, 0, 0)
  | S754_infinity s => (if s then -2 else 2, 0, 0)
  | S754_nan => (0, 0, 0)
  | S754_finite s m e => if s then (-1, - e, Zneg m) else (1, e, Zpos m)
  end%Z.
Definition rank_compare (p q : Z * Z * Z) : comparison :=
  let '(c1, e1, m1) := p in
  let '(c2, e2, m2) := q in
  match (c1 ?= c2)%Z with
  | Eq => match (e1 ?= e2)%Z with Eq => (m1 ?= m2)%Z | o => o end
  | o => o
  end.
Definition rank_lt (p q : Z * Z * Z) : Prop :=
  (p.1.1 < q.1.1
   ∨ (p.1.1 = q.1.1 ∧ (p.1.2 < q.1.2 ∨ (p.1.2 = q.1.2 ∧ p.2 < q.2))))%Z.

(** Two candidates whose scores are the same fraction, reached by different
    operations: 5/12 for the first, 4/15 + 0.15 for the second. *)
Definition close_title : ustring := u "t1 t2 t3 t4".
Definition close_artists : list ustring := map u ["b"; "c"]%string.
Definition close_results : list (ustring * ustring) :=
  [(u "https://youtu.be/AAA", u "t2 t3 t4 b c g1 g2 g3 g4 g5 g6");
   (u "https://youtu.be/BBB", u "t1 t2 t3 t4 h1 h2 h3 h4 h5 h6 h7 h8 h9")].

(** A URL library that reads [https://youtu.be/] links only. *)
Definition short_links : Utils.Urllib :=
  {| Utils.urlparse := λ s,
       if startswith (u "https://youtu.be/") s
       then Some {| Utils.scheme := u "https"; Utils.netloc := u "youtu.be";
                    Utils.path := drop 16 s; Utils.params := []; Utils.query := [];
                    Utils.fragment := [] |}
       else None;
     Utils.parse_qs := λ _, Some ∅ |}.

(** *** Near duplicates *)

(** No track of [kept] is similar to a track kept before it. *)
Definition kept_apart (sim : Track → Track → bool) (kept : list Track) : Prop :=
  ∀ before keeper after,
    kept = before ++ keeper :: after → Forall (λ k, sim keeper k = false) before.

(** *** Runs, continued *)

Module Runs.
Import Run.

(** What one attempt of a remote call gives when the service's next answer
    is [o] ([None]: there is no answer, the call times out). *)
Definition answer_of (o : option reply) : result (list (ustring * ustring)) :=
  match o with
  | Some (Returns rows) => Val rows
  | Some (Raises e) => Exc e
  | None => Exc TimeoutError
  end.

(** The answers after which [retry_call] tries again, while tries are left. *)
Definition retriable `{Unicode} (o : option reply) : bool :=
  match o with
  | None => true
  | Some (Returns _) => false
  | Some (Raises (HttpError st text)) =>
      negb (bool_decide (st = Some 403%Z) && Legacy.quota_text text)
      && Legacy.is_retriable_http_error st text
  | Some (Raises TimeoutError) => true
  | Some (Raises (SpotifyException http_status)) => (http_status =? 429)%Z
  | Some (Raises _) => false
  end.

(** The answer that reports the exhausted quota. *)
Definition quota_answer `{Unicode} (o : option reply) : bool :=
  match o with
  | Some (Raises e) => Legacy.is_quota_exceeded_http_error e
  | _ => false
  end.

(** The identifiers [add_youtube_videos] inserts from [video_ids] when
    [added] have been added before: the first occurrence of each new one. *)
Fixpoint fresh_ids (added : gset ustring) (video_ids : list ustring) : list ustring :=
  match video_ids with
  | [] => []
  | vid :: rest =>
      if bool_decide (vid ∈ added) then fresh_ids added rest
      else vid :: fresh_ids ({[vid]} ∪ added) rest
  end.

(** [l] cut into slices of [n] elements (the last may be shorter). *)
Fixpoint chunks_from {A} (fuel n : nat) (l : list A) : list (list A) :=
  match fuel, l with
  | _, [] => []
  | O, _ => []
  | S fuel', _ => take n l :: chunks_from fuel' n (drop n l)
  end.
Definition chunks {A} (n : nat) (l : list A) : list (list A) := chunks_from (length l) n l.

Definition is_insert (e : event) : bool :=
  match e with Called (YtInsert _ _) => true | _ => false end.
Definition is_web_search (e : event) : bool :=
  match e with Called (WebSearch _ _ _) => true | _ => false end.
(** A call to the YouTube Data API. *)
Definition is_youtube_call (e : event) : bool := is_search e || is_insert e.
Definition is_call (e : event) : bool :=
  match e with Called _ => true | _ => false end.
Definition is_read (e : event) : bool :=
  match e with ReadLine _ => true | _ => false end.

(** From a world in [I], the computation [m] leaves a world in [I] and only
    events in [E] happen. *)
Definition keeps_at (I : World → Prop) (E : event → Prop) {A} (m : M A) (w : World) : Prop :=
  I (m w).2 ∧ ∃ evs, trace (m w).2 = trace w ++ evs ∧ Forall E evs.
Definition keeps (I : World → Prop) (E : event → Prop) {A} (m : M A) : Prop :=
  ∀ w, I w → keeps_at I E m w.

(** An invariant [I] and a class of events [E] that go through the quiet
    steps of the run-time: reading, printing (the after-quota panel
    apart), answers of the services, the cache, and the two switches that
    are only ever turned on. *)
Class Frame (I : World → Prop) (E : event → Prop) : Prop := {
  frame_stdin w l : I w → I (set_stdin l w);
  frame_replies w l : I w → I (set_replies l w);
  frame_emit w evs : I w → I (emit evs w);
  frame_cache w d : I w → I (set_cache_data d w);
  frame_disable w : I w → I (set_STATE (set_yt_search_disabled true (STATE w)) w);
  frame_plan w : I w → I (set_PLAN_MODE_ONLY true w);
  frame_print o : o ≠ QuotaPanel → E (Printed o);
  frame_read l : E (ReadLine l);
  frame_put k v : E (CachePut k v);
  frame_save : E CacheSave;
}.

(** What recording identifiers asks of an invariant: it survives an
    identifier being marked as added, and a new one being put aside. *)
Definition records_ids (I : World → Prop) : Prop :=
  (∀ w vid, I w → I (set_added_video_ids ({[vid]} ∪ added_video_ids w) w))
  ∧ (∀ w vid, I w → vid ∉ added_video_ids w →
       I (set_added_video_ids ({[vid]} ∪ added_video_ids w)
            (set_pending_web_adds (pending_web_adds w ++ [vid]) w))).

(** The manual mode chosen at the after-quota prompt. *)
Definition manual_mode (w : World) : Prop :=
  prompted_after_quota (STATE w) = true ∧ continue_manual_after_quota (STATE w) = true.

(** Events other than a web search or the after-quota panel. *)
Definition quiet_manual (e : event) : Prop := is_web_search e = false ∧ is_quota_panel e = false.

(** Events other than a search, through the API or on the web. *)
Definition no_search (e : event) : Prop := is_search e = false ∧ is_web_search e = false.

(** Events other than a call to YouTube or a web search. *)
Definition spotify_only (e : event) : Prop :=
  is_youtube_call e = false ∧ is_web_search e = false.

(** Planning mode, and the events other than calls to the YouTube Data API. *)
Definition planning (w : World) : Prop := PLAN_MODE_ONLY w = true.
Definition quiet_youtube (e : event) : Prop := is_youtube_call e = false.

(** A run in manual mode, and one in planning mode, with one line typed. *)
Definition manual_world : World :=
  set_STATE (set_continue_manual_after_quota true (set_prompted_after_quota true initial_STATE))
    (initial_world ∅ [u "https://youtu.be/dQw4w9WgXcQ"] []).
Definition planning_world : World :=
  set_PLAN_MODE_ONLY true (initial_world ∅ [u "https://youtu.be/dQw4w9WgXcQ"] []).

(** A planning run that resumes with one identifier already put aside and
    with the cache knowing a video for two titles: a new one for the first,
    the one already put aside for the second. *)
Definition resumed_cache : gmap ustring ustring :=
  <[ @Legacy.cache_key ascii_tables (u "youtube") (u "Get Lucky") [u "Daft Punk"] := u "new1" ]>
    {[ @Legacy.cache_key ascii_tables (u "youtube") (u "Da Funk") [u "Daft Punk"] := u "old1" ]}.
Definition resumed_world : World :=
  set_added_video_ids {[ u "old1" ]}
    (set_pending_web_adds [u "old1"]
       (set_PLAN_MODE_ONLY true (initial_world resumed_cache [] []))).
Definition resumed_tracks : list Track :=
  [a_track "Get Lucky" ["Daft Punk"%string]; a_track "Da Funk" ["Daft Punk"%string];
   a_track "Get Lucky" ["Daft Punk"%string]].

(** The world in which the loop of [main] starts after the quota ran out
    while the destination was read in [w1] and the user, typing [line],
    agreed to go on in planning mode. *)
Definition agreed (w1 : World) (line : ustring) (rest : list ustring) : World :=
  set_STATE
    (set_continue_web_auto_after_quota true (set_yt_search_disabled true (STATE w1)))
    (set_PLAN_MODE_ONLY true
       (emit [ReadLine line]
          (set_stdin rest
             (emit [Printed (YesNoPrompt
                               (u "Continue in planning mode (no API calls to YouTube)?"))]
                (emit [Printed (Log (u "YouTube daily quota has been exhausted while reading the destination playlist."))]
                   (set_STATE (set_yt_search_disabled true (STATE w1)) w1)))))).

(** The world after the user declined, typing [line]. *)
Definition declined (w1 : World) (line : ustring) (rest : list ustring) : World :=
  emit [ReadLine line]
    (set_stdin rest
       (emit [Printed (YesNoPrompt
                         (u "Continue in planning mode (no API calls to YouTube)?"))]
          (emit [Printed (Log (u "YouTube daily quota has been exhausted while reading the destination playlist."))]
             (set_STATE (set_yt_search_disabled true (STATE w1)) w1)))).

(** A reading of the destination that meets the exhausted quota. *)
Definition quota_reader (_ : ustring) : M (list Track) := raise quota_error.

(** The identifiers put aside in planning mode are pairwise distinct and
    count as added; since [w0], nothing was taken back. *)
Definition pending_sound (w0 w : World) : Prop :=
  NoDup (pending_web_adds w)
  ∧ (∀ vid, vid ∈ pending_web_adds w → vid ∈ added_video_ids w)
  ∧ pending_web_adds w0 `prefix_of` pending_web_adds w
  ∧ added_video_ids w0 ⊆ added_video_ids w.

End Runs.
Export Runs.

(** * Properties *)

(** ** The deduplication loop *)

Section DedupeFacts.
Context (kl : ustring → list ustring → ustring) (kt : ustring → ustring).

Local Abbreviation loose_of := (loose_of kl).
Local Abbreviation title_of := (title_of kt).
Local Abbreviation seen_of := (seen_of kl).
Local Abbreviation seen_title_of := (seen_title_of kt).
Local Abbreviation fresh := (fresh kl kt).
Local Abbreviation resume := (resume kl kt).

Lemma seen_of_snoc result t : seen_of (result ++ [t]) = {[loose_of t]} ∪ seen_of result.
Proof. unfold seen_of. rewrite map_app, list_to_set_app_L. simpl. set_solver. Qed.

Lemma seen_title_of_snoc result t :
  seen_title_of (result ++ [t]) = {[title_of t]} ∪ seen_title_of result.
Proof. unfold seen_title_of. rewrite map_app, list_to_set_app_L. simpl. set_solver. Qed.

Lemma resume_nil result : resume [] result = result.
Proof. reflexivity. Qed.

Lemma resume_cons t tracks result :
  resume (t :: tracks) result =
    if decide (fresh result t) then resume tracks (result ++ [t]) else resume tracks result.
Proof.
  unfold Vocabulary.resume at 1. simpl. fold (loose_of t) (title_of t).
  destruct (decide (fresh result t)) as [[Hl Ht]|Hn].
  - rewrite !bool_decide_eq_false_2; simpl.
    + unfold resume. by rewrite seen_of_snoc, seen_title_of_snoc.
    + unfold seen_title_of. by rewrite elem_of_list_to_set.
    + unfold seen_of. by rewrite elem_of_list_to_set.
  - destruct (bool_decide (loose_of t ∈ seen_of result)) eqn:E1; [done|].
    destruct (bool_decide (title_of t ∈ seen_title_of result)) eqn:E2; [done|].
    exfalso. apply Hn. split.
    + apply bool_decide_eq_false in E1. unfold seen_of in E1.
      by rewrite elem_of_list_to_set in E1.
    + apply bool_decide_eq_false in E2. unfold seen_title_of in E2.
      by rewrite elem_of_list_to_set in E2.
Qed.

Lemma resume_app l1 l2 result : resume (l1 ++ l2) result = resume l2 (resume l1 result).
Proof.
  revert result. induction l1 as [|t l1 IH]; intros result; [done|].
  simpl. rewrite !resume_cons. destruct (decide (fresh result t)); apply IH.
Qed.

Lemma resume_snoc pre t result :
  resume (pre ++ [t]) result =
    if decide (fresh (resume pre result) t) then resume pre result ++ [t]
    else resume pre result.
Proof. rewrite resume_app, resume_cons. by destruct (decide _). Qed.

(** What the loop appends is a subsequence of what it reads. *)
Lemma resume_sublist tracks result :
  ∃ kept, resume tracks result = result ++ kept ∧ sublist kept tracks.
Proof.
  revert result. induction tracks as [|t tracks IH]; intros result.
  - exists []. by rewrite app_nil_r.
  - rewrite resume_cons. destruct (decide (fresh result t)).
    + destruct (IH (result ++ [t])) as (kept & -> & Hs).
      exists (t :: kept). rewrite <- app_assoc. split; [done|]. by constructor.
    + destruct (IH result) as (kept & -> & Hs).
      exists kept. split; [done|]. by constructor.
Qed.

Lemma resume_NoDup tracks result :
  NoDup (map loose_of result) → NoDup (map title_of result) →
  NoDup (map loose_of (resume tracks result)) ∧ NoDup (map title_of (resume tracks result)).
Proof.
  revert result. induction tracks as [|t tracks IH]; intros result Hl Ht; [done|].
  rewrite resume_cons. destruct (decide (fresh result t)) as [[F1 F2]|]; [|by apply IH].
  apply IH; rewrite map_app; apply NoDup_app; simpl.
  - split_and!; [done| |apply NoDup_singleton]. intros x Hx Hx'.
    apply list_elem_of_singleton in Hx'. by subst.
  - split_and!; [done| |apply NoDup_singleton]. intros x Hx Hx'.
    apply list_elem_of_singleton in Hx'. by subst.
Qed.

(** Tracks whose keys are pairwise distinct are all kept. *)
Lemma resume_distinct tracks result :
  NoDup (map loose_of (result ++ tracks)) → NoDup (map title_of (result ++ tracks)) →
  resume tracks result = result ++ tracks.
Proof.
  revert result. induction tracks as [|t tracks IH]; intros result Hl Ht.
  - by rewrite app_nil_r.
  - rewrite resume_cons.
    replace (result ++ t :: tracks) with ((result ++ [t]) ++ tracks) in *
      by (by rewrite <- app_assoc).
    rewrite decide_True; [by apply IH|].
    rewrite !map_app in Hl, Ht. simpl in Hl, Ht.
    apply NoDup_app in Hl as [Hl _]. apply NoDup_app in Ht as [Ht _].
    apply NoDup_app in Hl as (_ & Hl & _). apply NoDup_app in Ht as (_ & Ht & _).
    split; intros Hin.
    + apply (Hl _ Hin). by left.
    + apply (Ht _ Hin). by left.
Qed.

(** Every track read is kept, or shares a key with a track kept before it. *)
Lemma resume_covers tracks result t :
  t ∈ tracks →
  ∃ t', t' ∈ resume tracks result ∧ (loose_of t' = loose_of t ∨ title_of t' = title_of t).
Proof.
  revert result. induction tracks as [|x tracks IH]; intros result Hin.
  - by apply elem_of_nil in Hin.
  - rewrite resume_cons. apply elem_of_cons in Hin as [->|Hin].
    + destruct (decide (fresh result x)) as [|Hn].
      * exists x. split; [|by left].
        destruct (resume_sublist tracks (result ++ [x])) as (k & -> & _).
        rewrite !elem_of_app. left. right. by left.
      * assert (∃ t', t' ∈ result ∧ (loose_of t' = loose_of x ∨ title_of t' = title_of x))
          as (t' & Ht' & Hk).
        { unfold fresh in Hn. apply not_and_l in Hn as [Hn|Hn].
          - apply dec_stable in Hn. apply list_elem_of_fmap in Hn as (t' & ? & ?). eauto.
          - apply dec_stable in Hn. apply list_elem_of_fmap in Hn as (t' & ? & ?). eauto. }
        exists t'. split; [|done].
        destruct (resume_sublist tracks result) as (k & -> & _).
        apply elem_of_app. by left.
    + destruct (decide (fresh result x)); by apply IH.
Qed.

(** The loop from empty sets keeps first occurrences. *)
Lemma dedupe_loop_keeps_first_seen :
  keeps_first_seen kl kt (λ tracks, Utils.dedupe_loop kl kt tracks ∅ ∅ []).
Proof.
  assert (Hrun : ∀ l, Utils.dedupe_loop kl kt l ∅ ∅ [] = resume l []) by done.
  intros tracks. rewrite !Hrun.
  destruct (resume_sublist tracks []) as (kept & Hk & Hsub). simpl in Hk.
  destruct (resume_NoDup tracks []) as [Hl Ht]; [constructor..|].
  split_and!.
  - apply (resume_distinct (resume tracks []) []); done.
  - rewrite Hk. by apply sublist_length.
  - by rewrite Hk.
  - done.
  - done.
  - intros t Hin. by apply resume_covers.
  - intros more. rewrite Hrun, resume_app.
    destruct (resume_sublist more (resume tracks [])) as (k & -> & _). by exists k.
  - intros t. rewrite Hrun. apply resume_snoc.
Qed.
End DedupeFacts.

(** C6, as the code has it.  [deduplicate_tracks], in [utils.py] and in
    [legacy_sync.py]: applied twice it gives what it gives applied once; its
    output is no longer than its input and is a subsequence of it
    (first-seen order); a track is dropped exactly when its loose key or its
    title key is recorded for a track kept before it, so the kept tracks
    have pairwise distinct loose keys and title keys and every input track
    shares a key with a kept track. *)
Theorem deduplicate_tracks_keeps_first_seen `{Unicode} :
  keeps_first_seen Utils.key_loose Utils.key_title_only Utils.deduplicate_tracks
  ∧ keeps_first_seen Legacy.key_loose Legacy.key_title_only Legacy.deduplicate_tracks.
Proof. split; apply dedupe_loop_keeps_first_seen. Qed.

(** C6, as stated, fails: a track dropped for its loose key leaves its title
    key unrecorded.  The second of these three tracks has the loose key of
    the first and is dropped; the third has the title key of the second and
    is kept, so the output does not hold the first occurrence of that title
    key, and a track whose title key was seen before is not dropped. *)
Lemma dedupe_keeps_second_title_occurrence :
  (∀ U : Unicode,
     Utils.deduplicate_tracks
       [a_track "Re::Zero" []; a_track "Re" ["zero::"]%string; a_track "Re" ["Band"]%string]
     = [a_track "Re::Zero" []; a_track "Re" ["Band"]%string])
  ∧ (∀ U : Unicode,
       Legacy.deduplicate_tracks
         [a_track "Re::Zero" []; a_track "Re" ["zero::"]%string; a_track "Re" ["Band"]%string]
       = [a_track "Re::Zero" []; a_track "Re" ["Band"]%string])
  ∧ (∀ U : Unicode,
       Utils.key_loose (u "Re") [u "zero::"] = Utils.key_loose (u "Re::Zero") [])
  ∧ (∀ U : Unicode, Utils.key_title_only (u "Re") = u "re")
  ∧ (∀ U : Unicode, Utils.key_title_only (u "Re::Zero") = u "re::zero").
Proof. repeat split; intros U; vm_compute; reflexivity. Qed.

(** ** Reconciliation of source and destination *)

Section ReconcileFacts.
Context `{Unicode}.

Local Abbreviation loose := (loose_of Legacy.key_loose).
Local Abbreviation title := (title_of Legacy.key_title_only).

Lemma dict_set_fresh {V} (k : ustring) (v : V) (d : list (ustring * V)) :
  k ∉ map fst d → Legacy.dict_set k v d = d ++ [(k, v)].
Proof.
  induction d as [|[k' v'] d IH]; simpl; intros Hk; [done|].
  apply not_elem_of_cons in Hk as [Hne Hk].
  rewrite bool_decide_eq_false_2 by done. by rewrite IH.
Qed.

Lemma src_map_from (tracks : list Track) (d : list (ustring * Track)) :
  NoDup (map fst d ++ map loose tracks) →
  fold_left (λ d t, Legacy.dict_set (Legacy.key_loose (name t) (artists t)) t d) tracks d
  = d ++ map (λ t, (loose t, t)) tracks.
Proof.
  revert d. induction tracks as [|t tracks IH]; intros d Hnd; simpl.
  - by rewrite app_nil_r.
  - fold (loose t). rewrite dict_set_fresh.
    + rewrite IH; [by rewrite <- app_assoc|].
      rewrite map_app. simpl. by rewrite <- app_assoc.
    + apply NoDup_app in Hnd as (_ & Hd & _). intros Hin. apply (Hd _ Hin). by left.
Qed.

(** With pairwise distinct loose keys, the dictionary holds every source
    track, in source order. *)
Lemma src_map_distinct (tracks : list Track) :
  NoDup (map loose tracks) → Legacy.src_map tracks = map (λ t, (loose t, t)) tracks.
Proof. intros Hnd. unfold Legacy.src_map. by rewrite src_map_from. Qed.

Lemma to_add_loop_filter (tracks : list Track) (keys titles : gset ustring) (acc : list Track) :
  Legacy.to_add_loop (map (λ t, (loose t, t)) tracks) keys titles acc
  = acc ++ filter (λ t, (loose t ∉ keys) ∧ (title t ∉ titles)) tracks.
Proof.
  revert acc. induction tracks as [|t tracks IH]; intros acc; simpl.
  - by rewrite app_nil_r.
  - fold (title t). rewrite filter_cons.
    destruct (decide ((loose t ∉ keys) ∧ (title t ∉ titles))) as [[H1 H2]|Hn].
    + rewrite !bool_decide_eq_false_2 by done. simpl.
      rewrite IH. by rewrite <- app_assoc.
    + destruct (bool_decide (loose t ∈ keys)) eqn:E1; simpl; [apply IH|].
      destruct (bool_decide (title t ∈ titles)) eqn:E2; simpl; [apply IH|].
      apply bool_decide_eq_false in E1, E2. by destruct Hn.
Qed.

Lemma to_add_distinct (src_tracks dst_tracks : list Track) :
  NoDup (map loose src_tracks) →
  Legacy.to_add src_tracks dst_tracks = filter (absent_from dst_tracks) src_tracks.
Proof.
  intros Hnd. unfold Legacy.to_add. rewrite src_map_distinct by done.
  by rewrite to_add_loop_filter.
Qed.

Lemma size_inter_filter (ks : list ustring) (K : gset ustring) :
  NoDup ks → size ((list_to_set ks : gset ustring) ∩ K) = length (filter (.∈ K) ks).
Proof.
  induction 1 as [|k ks Hk Hnd IH]; simpl.
  - by rewrite intersection_empty_l_L, size_empty.
  - rewrite filter_cons. destruct (decide (k ∈ K)) as [Hin|Hout].
    + replace (({[k]} ∪ list_to_set ks) ∩ K) with ({[k]} ∪ ((list_to_set ks : gset ustring) ∩ K))
        by set_solver.
      rewrite size_union by set_solver. rewrite size_singleton, IH. done.
    + replace (({[k]} ∪ list_to_set ks) ∩ K) with ((list_to_set ks : gset ustring) ∩ K)
        by set_solver.
      done.
Qed.

Lemma length_filter_fmap {A B} (f : A → B) (P : B → Prop) `{∀ b, Decision (P b)} (l : list A) :
  length (filter P (map f l)) = length (filter (λ a, P (f a)) l).
Proof.
  induction l as [|a l IH]; [done|]. simpl. rewrite !filter_cons.
  destruct (decide (P (f a))); simpl; by rewrite IH.
Qed.

Lemma already_distinct (src_tracks dst_tracks : list Track) :
  NoDup (map loose src_tracks) →
  Legacy.already src_tracks dst_tracks = size (loose_keys src_tracks ∩ loose_keys dst_tracks)
  ∧ Legacy.already src_tracks dst_tracks
    = length (filter (λ t, loose t ∈ Legacy.dst_keyset dst_tracks) src_tracks).
Proof.
  intros Hnd. unfold Legacy.already. rewrite src_map_distinct by done.
  rewrite map_map. simpl. split; [done|].
  change (map (λ t, loose t) src_tracks) with (map loose src_tracks).
  rewrite size_inter_filter by done. apply length_filter_fmap.
Qed.

Lemma dedupe_loose_NoDup (tracks : list Track) :
  NoDup (map loose (Legacy.deduplicate_tracks tracks)).
Proof. apply (dedupe_loop_keeps_first_seen Legacy.key_loose Legacy.key_title_only tracks). Qed.
End ReconcileFacts.

Section MatchedFacts.
Context `{Unicode}.

(** The two key sets of the destination hold the keys of its tracks. *)
Lemma dst_keyset_spec (dst_tracks : list Track) (k : ustring) :
  k ∈ Legacy.dst_keyset dst_tracks
  ↔ ∃ d, d ∈ dst_tracks ∧ Legacy.key_loose (name d) (artists d) = k.
Proof.
  unfold Legacy.dst_keyset. rewrite elem_of_list_to_set, list_elem_of_fmap. naive_solver.
Qed.

Lemma dst_titles_spec (dst_tracks : list Track) (k : ustring) :
  k ∈ Legacy.dst_titles dst_tracks
  ↔ ∃ d, d ∈ dst_tracks ∧ Legacy.key_title_only (name d) = k.
Proof.
  unfold Legacy.dst_titles. rewrite elem_of_list_to_set, list_elem_of_fmap. naive_solver.
Qed.

Lemma absent_not_matched (dst_tracks : list Track) (t : Track) :
  absent_from dst_tracks t ↔ ¬ matched dst_tracks t.
Proof.
  unfold absent_from, matched, same_loose_key, same_title_key.
  rewrite dst_keyset_spec, dst_titles_spec, Exists_exists. split.
  - intros [Hk Ht] (d & Hd & [Heq|Heq]); [apply Hk|apply Ht]; by exists d.
  - intros Hn. split; intros (d & Hd & Heq); apply Hn; exists d; auto.
Qed.

Lemma filter_ext_iff {A} (P Q : A → Prop) `{∀ x, Decision (P x)} `{∀ x, Decision (Q x)}
    (l : list A) :
  (∀ x, P x ↔ Q x) → filter P l = filter Q l.
Proof.
  intros HPQ. induction l as [|x l IH]; [done|]. rewrite !filter_cons, IH.
  destruct (decide (P x)) as [HP|HP], (decide (Q x)) as [HQ|HQ]; try done.
  - by apply HPQ in HP.
  - by apply HPQ in HQ.
Qed.
End MatchedFacts.

(** C1.  After both lists are deduplicated, a source track is missing exactly
    when no destination track has its loose key and none has its title key
    (the two key sets of the code hold exactly the keys of the destination
    tracks), and present otherwise; missing and present together are the
    deduplicated source, with no track in both; the missing list is the
    deduplicated source without the matched tracks, so it keeps the source
    order. *)
Theorem reconcile_partitions_source `{Unicode} (source destination : list Track) :
  let src_tracks := Legacy.deduplicate_tracks source in
  let dst_tracks := Legacy.deduplicate_tracks destination in
  let missing := Legacy.to_add src_tracks dst_tracks in
  let present := present src_tracks dst_tracks in
  (∀ t, t ∈ missing ↔
          t ∈ src_tracks
          ∧ ∀ d, d ∈ dst_tracks →
                 Legacy.key_loose (name t) (artists t) ≠ Legacy.key_loose (name d) (artists d)
                 ∧ Legacy.key_title_only (name t) ≠ Legacy.key_title_only (name d))
  ∧ (∀ t, t ∈ present ↔
            t ∈ src_tracks
            ∧ ∃ d, d ∈ dst_tracks
                   ∧ (Legacy.key_loose (name t) (artists t)
                      = Legacy.key_loose (name d) (artists d)
                      ∨ Legacy.key_title_only (name t) = Legacy.key_title_only (name d)))
  ∧ (∀ k, k ∈ Legacy.dst_keyset dst_tracks
          ↔ ∃ d, d ∈ dst_tracks ∧ Legacy.key_loose (name d) (artists d) = k)
  ∧ (∀ k, k ∈ Legacy.dst_titles dst_tracks
          ↔ ∃ d, d ∈ dst_tracks ∧ Legacy.key_title_only (name d) = k)
  ∧ (∀ t, t ∈ missing ↔
          t ∈ src_tracks
          ∧ Legacy.key_loose (name t) (artists t) ∉ Legacy.dst_keyset dst_tracks
          ∧ Legacy.key_title_only (name t) ∉ Legacy.dst_titles dst_tracks)
  ∧ missing ++ present ≡ₚ src_tracks
  ∧ NoDup (missing ++ present)
  ∧ (∀ t, t ∈ missing → t ∉ present)
  ∧ (∀ t, t ∈ src_tracks → t ∈ missing ∨ t ∈ present)
  ∧ missing = filter (λ t, ¬ matched dst_tracks t) src_tracks
  ∧ sublist missing src_tracks.
Proof.
  intros src_tracks dst_tracks missing present0.
  pose proof (dedupe_loose_NoDup source) as Hnd. fold src_tracks in Hnd.
  assert (Hm : missing = filter (λ t, ¬ matched dst_tracks t) src_tracks).
  { unfold missing. rewrite to_add_distinct by done.
    apply filter_ext_iff. intros t. apply absent_not_matched. }
  assert (Hsrc : NoDup src_tracks) by (by eapply NoDup_fmap_1).
  assert (Hmiss : ∀ t, t ∈ missing ↔ t ∈ src_tracks ∧ ¬ matched dst_tracks t).
  { intros t. rewrite Hm, list_elem_of_filter. tauto. }
  assert (Hp : ∀ t, t ∈ present0 ↔ t ∈ src_tracks ∧ matched dst_tracks t).
  { intros t. unfold present0, present. rewrite list_elem_of_filter. tauto. }
  assert (Hdisj : ∀ t, t ∈ missing → t ∉ present0).
  { intros t. rewrite Hp, Hmiss. tauto. }
  assert (Hnd' : NoDup (missing ++ present0)).
  { apply NoDup_app. split_and!; [|done|].
    - rewrite Hm. by apply NoDup_filter.
    - by apply NoDup_filter. }
  assert (Hcover : ∀ t, t ∈ src_tracks → t ∈ missing ∨ t ∈ present0).
  { intros t Hin. rewrite Hp, Hmiss. destruct (decide (matched dst_tracks t)); tauto. }
  split_and!; try done.
  - intros t. rewrite Hmiss. unfold matched, same_loose_key, same_title_key.
    rewrite Exists_exists. split.
    + intros [Hin Hn]. split; [done|]. intros d Hd.
      split; intros Heq; apply Hn; exists d; auto.
    + intros [Hin Hall]. split; [done|]. intros (d & Hd & [Heq|Heq]);
        destruct (Hall d Hd) as [H1 H2]; auto.
  - intros t. rewrite Hp. unfold matched, same_loose_key, same_title_key.
    by rewrite Exists_exists.
  - apply dst_keyset_spec.
  - apply dst_titles_spec.
  - intros t. rewrite Hmiss, <- absent_not_matched. unfold absent_from. tauto.
  - apply NoDup_Permutation; [done..|].
    intros t. rewrite elem_of_app. split; [|apply Hcover].
    rewrite Hp, Hmiss. tauto.
  - rewrite Hm. apply sublist_filter.
Qed.

(** C2.  After both lists are deduplicated, the count reported as already
    matched is the size of the intersection of the two loose-key sets, which
    is the number of source tracks whose loose key is a destination loose
    key: a source track that only matches by title key is left out of
    [to_add] and is not counted.  A source and a destination track with the
    same loose key give no missing track and a count of 1 (Scenario C), a
    match by title only gives no missing track and a count of 0. *)
Theorem already_counts_loose_key_matches `{Unicode} (source destination : list Track) :
  let src_tracks := Legacy.deduplicate_tracks source in
  let dst_tracks := Legacy.deduplicate_tracks destination in
  Legacy.already src_tracks dst_tracks = size (loose_keys src_tracks ∩ loose_keys dst_tracks)
  ∧ Legacy.already src_tracks dst_tracks
    = length (filter (λ t, Legacy.key_loose (name t) (artists t) ∈ loose_keys dst_tracks)
                src_tracks)
  ∧ (∀ t, t ∈ src_tracks →
       Legacy.key_loose (name t) (artists t) ∉ loose_keys dst_tracks →
       Legacy.key_title_only (name t) ∈ Legacy.dst_titles dst_tracks →
       t ∉ Legacy.to_add src_tracks dst_tracks
       ∧ t ∉ filter (λ t, Legacy.key_loose (name t) (artists t) ∈ loose_keys dst_tracks)
               src_tracks)
  ∧ (∀ s d, Legacy.key_loose (name s) (artists s) = Legacy.key_loose (name d) (artists d) →
       Legacy.to_add (Legacy.deduplicate_tracks [s]) (Legacy.deduplicate_tracks [d]) = []
       ∧ Legacy.already (Legacy.deduplicate_tracks [s]) (Legacy.deduplicate_tracks [d]) = 1%nat)
  ∧ (let alpha := a_track "Alpha" ["X"]%string in
     Legacy.to_add (Legacy.deduplicate_tracks [alpha]) (Legacy.deduplicate_tracks [alpha]) = []
     ∧ Legacy.already (Legacy.deduplicate_tracks [alpha]) (Legacy.deduplicate_tracks [alpha])
       = 1%nat)
  ∧ (let alpha := a_track "Alpha" ["X"]%string in
     let other := a_track "Alpha" ["Y"]%string in
     Legacy.to_add (Legacy.deduplicate_tracks [alpha]) (Legacy.deduplicate_tracks [other]) = []
     ∧ Legacy.already (Legacy.deduplicate_tracks [alpha]) (Legacy.deduplicate_tracks [other])
       = 0%nat).
Proof.
  intros src_tracks dst_tracks.
  pose proof (dedupe_loose_NoDup source) as Hnd. fold src_tracks in Hnd.
  destruct (already_distinct src_tracks dst_tracks Hnd) as [Ha Hb].
  split_and!; try done.
  - intros t Hin Hl Ht. rewrite to_add_distinct by done.
    rewrite !list_elem_of_filter. unfold absent_from. split; tauto.
  - intros s d Hk.
    assert (Hs : ∀ t, Legacy.deduplicate_tracks [t] = [t]).
    { intros t. unfold Legacy.deduplicate_tracks. simpl.
      rewrite !bool_decide_eq_false_2 by set_solver. done. }
    rewrite !Hs.
    assert (Hone : NoDup (map (loose_of Legacy.key_loose) [s])) by apply NoDup_singleton.
    assert (Hin : Legacy.key_loose (name s) (artists s) ∈ Legacy.dst_keyset [d]).
    { unfold Legacy.dst_keyset. rewrite elem_of_list_to_set, Hk. by left. }
    rewrite to_add_distinct by done.
    destruct (already_distinct [s] [d] Hone) as [_ ->].
    rewrite !filter_cons, !filter_nil.
    rewrite decide_False by (unfold absent_from; tauto).
    by rewrite decide_True.
Qed.

(** ** Title normalisation *)

(** C5.  [clean_title] is not idempotent: an underscore is a word character
    for [\b], so a qualifier glued to one survives the first pass, the
    underscore then becomes a space, and the second pass removes the
    qualifier.  (In [utils.py] and in [legacy_sync.py] alike.) *)
Theorem clean_title_underscore_qualifier `{Unicode} :
  Utils.clean_title (u "_live") = u "live"
  ∧ Utils.clean_title (Utils.clean_title (u "_live")) = u ""
  ∧ Legacy.clean_title (u "_live") = u "live"
  ∧ Legacy.clean_title (Legacy.clean_title (u "_live")) = u ""
  ∧ Utils.clean_title (u "Song_Remix") = u "song remix"
  ∧ Utils.clean_title (u "song remix") = u "song".
Proof. repeat split; vm_compute; reflexivity. Qed.

(** Scenario A: a promotional bracket and a "Radio Edit" suffix both
    normalise to the bare title, and the second track is dropped. *)
Lemma scenario_A `{Unicode} :
  Utils.clean_title (u "Song (Official Video)") = u "song"
  ∧ Utils.clean_title (u "Song - Radio Edit") = u "song"
  ∧ Utils.deduplicate_tracks
      [a_track "Song (Official Video)" ["Band Name"]%string; a_track "Song - Radio Edit" []]
    = [a_track "Song (Official Video)" ["Band Name"]%string].
Proof. repeat split; vm_compute; reflexivity. Qed.

(** ** Token sets *)

Section Runs.
Context (p : N → bool).

Lemma maximal_run_whole (x w : ustring) :
  Forall (λ c, p c = true) x → maximal_run p x w ↔ w = x ∧ x ≠ [].
Proof.
  intros Hx. split.
  - intros (Hne & Hw & pre & post & -> & Hl & Hr).
    destruct pre as [|a pre _] using rev_ind.
    + destruct post as [|b post]; [by rewrite app_nil_r|].
      specialize (Hr b eq_refl).
      rewrite !Forall_app, Forall_cons in Hx. destruct Hx as (_ & _ & Hb & _). congruence.
    + specialize (Hl a (last_snoc _ _)).
      rewrite !Forall_app, Forall_singleton in Hx. destruct Hx as ((_ & Ha) & _). congruence.
  - intros [-> Hne]. split_and!; [done..|].
    exists [], []. rewrite app_nil_r. by split_and!.
Qed.

Lemma maximal_run_split (x y w : ustring) (c : N) :
  p c = false →
  maximal_run p (x ++ c :: y) w ↔ maximal_run p x w ∨ maximal_run p y w.
Proof.
  intros Hc. split.
  - intros (Hne & Hw & pre & post & Heq & Hl & Hr).
    apply app_eq_app in Heq as [l [[-> Heq]|[-> Heq]]].
    + apply app_eq_app in Heq as [l2 [[-> Heq]|[-> ->]]].
      * destruct l2 as [|c' l2].
        -- simpl in Heq. subst post. rewrite app_nil_r in *. left. split_and!; [done..|].
           exists pre, []. rewrite !app_nil_r. by split_and!.
        -- injection Heq as <- _. rewrite Forall_app, Forall_cons in Hw. naive_solver congruence.
      * left. split_and!; [done..|]. exists pre, l2. split_and!; [by rewrite app_assoc|done|].
        intros d Hd. apply Hr. destruct l2; [done|]. simpl in *. done.
    + destruct l as [|c' l].
      * simpl in Heq. destruct w as [|c' w]; [done|]. injection Heq as -> _.
        rewrite Forall_cons in Hw. naive_solver congruence.
      * injection Heq as <- ->. right. split_and!; [done..|].
        exists l, post. split_and!; [done| |done].
        intros d Hd. apply Hl. rewrite last_app. destruct l as [|e l] using rev_ind; [done|].
        rewrite last_snoc in Hd. injection Hd as ->.
        change (c :: l ++ [d]) with ((c :: l) ++ [d]). by rewrite last_snoc.
  - intros [(Hne & Hw & pre & post & -> & Hl & Hr)|(Hne & Hw & pre & post & -> & Hl & Hr)].
    + split_and!; [done..|]. exists pre, (post ++ c :: y).
      split_and!; [by rewrite <- !app_assoc|done|].
      intros d Hd. destruct post; simpl in Hd; [congruence|by apply Hr].
    + split_and!; [done..|]. exists (x ++ c :: pre), post.
      split_and!; [by rewrite <- app_assoc|..|done].
      intros d Hd. rewrite last_app in Hd. destruct pre as [|e pre _] using rev_ind.
      * simpl in Hd. congruence.
      * change (c :: pre ++ [e]) with ((c :: pre) ++ [e]) in Hd.
        rewrite last_snoc in Hd. apply Hl. by rewrite last_snoc.
Qed.

(** The fields cut at the characters outside [p] are the maximal runs of [p]. *)
Lemma fields_go_runs (s cur w : ustring) :
  Forall (λ c, p c = true) cur →
  w ∈ fields_go (λ c, negb (p c)) cur s ↔ maximal_run p (rev cur ++ s) w.
Proof.
  revert cur. induction s as [|c s IH]; intros cur Hcur.
  - rewrite app_nil_r, maximal_run_whole by (by apply Forall_rev). simpl.
    destruct cur as [|a cur]; simpl.
    + rewrite elem_of_nil. naive_solver.
    + rewrite list_elem_of_singleton. split; [|naive_solver].
      intros ->. split; [done|]. intros Heq. by apply app_eq_nil in Heq as [_ ?].
  - simpl. destruct (p c) eqn:Hc; simpl.
    + rewrite IH by (by constructor). simpl. by rewrite <- app_assoc.
    + rewrite maximal_run_split by done.
      rewrite maximal_run_whole by (by apply Forall_rev).
      specialize (IH [] (Forall_nil_2 _)). simpl in IH.
      destruct cur as [|a cur]; simpl.
      * rewrite IH. naive_solver.
      * rewrite elem_of_cons, IH. split; [|naive_solver].
        intros [->|?]; [left|by right]. split; [done|].
        intros Heq. by apply app_eq_nil in Heq as [_ ?].
Qed.
End Runs.

Section ReFacts.
Import Re.

(** A greedy repetition followed by nothing matches the longest run. *)
Lemma star_run_longest (p : N → bool) (s : ustring) (prev : option N) (n : nat) :
  star_run p (λ _ _ m, Some m) prev s n = Some (n + run_length p s)%nat.
Proof.
  revert prev n. induction s as [|c s IH]; intros prev n; simpl.
  - f_equal. lia.
  - destruct (p c); [|f_equal; lia]. rewrite IH. f_equal. lia.
Qed.

Lemma match_here_Plus (p : N → bool) (s : ustring) (prev : option N) :
  match_here (Plus p) prev s =
    match s with
    | c :: s' => if p c then Some (S (run_length p s')) else None
    | [] => None
    end.
Proof.
  unfold match_here, Plus. simpl. destruct s as [|c s]; [done|].
  destruct (p c); [|done]. apply star_run_longest.
Qed.

(** [re.sub] of a one-class [+] pattern by a space collapses the runs of
    the class. *)
Lemma sub_go_Plus_collapse (p : N → bool) (s : ustring) :
  (∀ prev, sub_go (Plus p) (u " ") prev (run_length p s) s = collapse p true s)
  ∧ (∀ prev, sub_go (Plus p) (u " ") prev 0 s = collapse p false s).
Proof.
  induction s as [|c s [IH1 IH2]]; [done|].
  assert (H0 : ∀ prev, sub_go (Plus p) (u " ") prev 0 (c :: s) = collapse p false (c :: s)).
  { intros prev. cbn [sub_go]. rewrite match_here_Plus. cbn [collapse].
    destruct (p c); [|by rewrite IH2]. by rewrite IH1. }
  split; [|done]. intros prev. cbn [run_length collapse].
  destruct (p c) eqn:Hc.
  - cbn [sub_go]. apply IH1.
  - rewrite H0. cbn [collapse]. by rewrite Hc.
Qed.

Lemma sub_Plus_collapse (p : N → bool) (s : ustring) :
  sub (Plus p) (u " ") s = collapse p false s.
Proof. apply sub_go_Plus_collapse. Qed.
End ReFacts.

Section TokenSetFacts.
Context `{Unicode}.

Lemma split_ws_go_fields (cur s : ustring) : split_ws_go cur s = fields_go isspace cur s.
Proof. revert cur. induction s as [|c s IH]; intros cur; simpl; [done|]. by rewrite !IH. Qed.

Lemma token_char_not_space (c : N) : token_char c = true → isspace c = false.
Proof.
  unfold token_char, is_lower, is_digit. intros Hc.
  assert (Hr : (48 <= c <= 122)%N).
  { apply orb_true_iff in Hc as [Hc|Hc]; apply andb_true_iff in Hc as [H1 H2];
      apply N.leb_le in H1, H2; lia. }
  unfold isspace, is_ascii, ascii_space.
  replace (c <? 128)%N with true by (symmetry; apply N.ltb_lt; lia).
  replace (c <=? 13)%N with false by (symmetry; apply N.leb_gt; lia).
  replace (c <=? 32)%N with false by (symmetry; apply N.leb_gt; lia).
  by rewrite !andb_false_r.
Qed.

(** Cutting the collapsed text at whitespace gives the fields of the
    folded text cut at the characters outside [[a-z0-9]]. *)
Lemma fields_collapse (s : ustring) :
  fields_go isspace [] (collapse Legacy.not_token_char true s)
  = fields_go (λ c, negb (token_char c)) [] s
  ∧ ∀ cur, fields_go isspace cur (collapse Legacy.not_token_char false s)
           = fields_go (λ c, negb (token_char c)) cur s.
Proof.
  induction s as [|c s [IH1 IH2]]; [done|].
  assert (Hsp : isspace 32 = true) by done.
  assert (Hcls : Legacy.not_token_char c = negb (token_char c || (c =? 32)%N)) by done.
  destruct (token_char c) eqn:Ht.
  - pose proof (token_char_not_space c Ht) as Hns.
    cbn [collapse fields_go]. rewrite Hcls, Ht. cbn [orb negb fields_go]. rewrite Hns.
    split; [apply IH2|]. intros cur. apply IH2.
  - destruct (N.eqb_spec c 32) as [->|Hne].
    + cbn [collapse fields_go]. rewrite Ht.
      change (Legacy.not_token_char 32) with false. cbn [orb negb fields_go]. rewrite Hsp.
      split; [apply IH2|]. intros cur. by rewrite IH2.
    + cbn [collapse fields_go]. rewrite Hcls, Ht. cbn [orb negb fields_go].
      rewrite Hsp. split; [apply IH1|]. intros cur. by rewrite IH1.
Qed.

(** The words [token_set] filters are the maximal runs of [[a-z0-9]] in
    the folded text. *)
Lemma legacy_words_runs (s w : ustring) :
  w ∈ split_ws (Re.sub (Re.Plus Legacy.not_token_char) (u " ") (folded s))
  ↔ maximal_run token_char (folded s) w.
Proof.
  unfold split_ws. rewrite split_ws_go_fields, sub_Plus_collapse.
  destruct (fields_collapse (folded s)) as [_ ->].
  apply (fields_go_runs token_char (folded s) [] w). constructor.
Qed.
End TokenSetFacts.

Section WebTokenFacts.
Context `{Unicode}.

Lemma fields_blanked (cur s : ustring) :
  fields_go isspace cur (map (λ ch, if isalnum ch then ch else 32%N) s)
  = fields_go (λ c, negb (word_char c)) cur s.
Proof.
  revert cur. induction s as [|c s IH]; intros cur; [done|].
  cbn [map fields_go]. unfold word_char at 1.
  destruct (isalnum c) eqn:Ha.
  - cbn [andb]. rewrite negb_involutive. destruct (isspace c); by rewrite !IH.
  - cbn [andb negb]. change (isspace 32) with true. cbn iota. by rewrite !IH.
Qed.

Lemma websearch_words_runs (text w : ustring) :
  w ∈ split_ws (map (λ ch, if isalnum ch then ch else 32%N) (blanked text))
  ↔ maximal_run word_char (blanked text) w.
Proof.
  unfold split_ws. rewrite split_ws_go_fields, fields_blanked.
  apply (fields_go_runs word_char (blanked text) [] w). constructor.
Qed.

Lemma word_char_ascii (c : N) : is_ascii c = true → word_char c = ascii_alnum c.
Proof.
  intros Hc. unfold word_char, isalnum, isspace. rewrite Hc.
  destruct (ascii_alnum c) eqn:Ha; [|done]. cbn [andb].
  unfold ascii_alnum, is_upper, is_lower, is_digit in Ha. unfold ascii_space.
  apply orb_true_iff in Ha as [Ha|Ha]; [apply orb_true_iff in Ha as [Ha|Ha]|];
    apply andb_true_iff in Ha as [H1 H2]; apply N.leb_le in H1, H2;
    replace (c <=? 13)%N with false by (symmetry; apply N.leb_gt; lia);
    replace (c <=? 32)%N with false by (symmetry; apply N.leb_gt; lia);
    by rewrite !andb_false_r.
Qed.
End WebTokenFacts.

(** C8, as the code has it.  [legacy_sync.token_set]: a word is in the result
    exactly when it is a maximal run of [[a-z0-9]] in the ASCII-folded,
    lowercased text and is none of the sixteen stop words; "featuring" is
    not one of them.  [websearch.token_set] is another function: a word is
    in its result exactly when it is a maximal run of alphanumeric
    characters in the lowercased text (not ASCII-folded) with the four
    substrings blanked, and is none of its eleven stop words; "remix",
    "lyric", "lyrics", "edit", "radio" and "version" are not among them. *)
Theorem token_set_words `{Unicode} (s w : ustring) :
  (w ∈ Legacy.token_set s ↔ maximal_run token_char (folded s) w ∧ w ∉ Legacy.stop)
  ∧ Legacy.stop
    = map u ["the"; "a"; "an"; "official"; "video"; "audio"; "lyrics"; "lyric"; "remix";
             "edit"; "radio"; "version"; "feat"; "ft"; "con"; "with"]%string
  ∧ u "featuring" ∉ Legacy.stop
  ∧ (w ∈ Websearch.token_set s
     ↔ maximal_run word_char (blanked s) w ∧ w ∉ Websearch.stop_words)
  ∧ blanked s
    = replace (u "audio") (u " ")
        (replace (u "video") (u " ")
           (replace (u "[official]") (u " ")
              (replace (u "(official)") (u " ") (lower s))))
  ∧ (∀ c, word_char c = isalnum c && negb (isspace c))
  ∧ (∀ c, is_ascii c = true → word_char c = ascii_alnum c)
  ∧ Websearch.stop_words
    = map u ["the"; "a"; "an"; "feat"; "featuring"; "official"; "video"; "audio"; "ft";
             "con"; "with"]%string
  ∧ Forall (λ word, word ∉ Websearch.stop_words)
      (map u ["remix"; "lyric"; "lyrics"; "edit"; "radio"; "version"]%string).
Proof.
  split_and!; [|done|by apply (bool_decide_unpack _); vm_compute| |done|done
               |apply word_char_ascii|done|by apply (bool_decide_unpack _); vm_compute].
  - unfold Legacy.token_set. fold (folded s).
    rewrite elem_of_list_to_set, list_elem_of_filter, legacy_words_runs.
    split; [tauto|]. intros [Hrun Hstop]. split_and!; [|done..]. apply Hrun.
  - unfold Websearch.token_set. cbv zeta. fold (blanked s).
    rewrite elem_of_list_to_set, list_elem_of_filter, websearch_words_runs.
    split; [tauto|]. intros [Hrun Hstop]. split_and!; [|done..]. apply Hrun.
Qed.

(** C8, as stated, fails: [legacy_sync.token_set] keeps "featuring", and
    [websearch.token_set] keeps "remix" (and "lyrics", "edit", "radio",
    "version") although the claim lists them as stop words. *)
Lemma token_set_keeps_claimed_stop_words :
  (∀ U : Unicode, Legacy.token_set (u "Song featuring X") = {[u "song"; u "featuring"; u "x"]})
  ∧ (∀ U : Unicode, Websearch.token_set (u "Song Remix") = {[u "song"; u "remix"]}).
Proof. split; intros U; vm_compute; reflexivity. Qed.

(** ** Candidate scores *)

Section ScoreFacts.
Local Open Scope Q_scope.

Lemma Qdiv_nat_unit (i n : nat) : (i ≤ n)%nat → (0 < n)%nat → 0 <= Qdiv_nat i n <= 1.
Proof.
  intros Hin Hn. unfold Qdiv_nat.
  assert (Hpos : 0 < inject_Z (Z.of_nat n)).
  { change 0 with (inject_Z 0). rewrite <- Zlt_Qlt. lia. }
  split.
  - apply Qle_shift_div_l; [done|]. rewrite Qmult_0_l.
    change 0 with (inject_Z 0). rewrite <- Zle_Qle. lia.
  - apply Qle_shift_div_r; [done|]. rewrite Qmult_1_l. rewrite <- Zle_Qle. lia.
Qed.

Lemma inter_le_union (a b : gset ustring) : (size (a ∩ b) ≤ size (a ∪ b))%nat.
Proof. apply subseteq_size. set_solver. Qed.

Lemma websearch_jaccard_unit (a b : gset ustring) : 0 <= Websearch.jaccard a b <= 1.
Proof.
  unfold Websearch.jaccard. destruct (_ || _); [lra|].
  destruct (Nat.eqb_spec (size (a ∪ b)) 0); [lra|].
  apply Qdiv_nat_unit; [apply inter_le_union|lia].
Qed.

Lemma legacy_jaccard_unit (a b : gset ustring) : 0 <= Legacy.jaccard a b <= 1.
Proof.
  unfold Legacy.jaccard. destruct (_ || _); [lra|].
  destruct (Nat.eqb_spec (size (a ∪ b)) 0); [lra|].
  apply Qdiv_nat_unit; [apply inter_le_union|lia].
Qed.

Context `{Unicode} `{Utils.Urllib}.

Lemma websearch_score_of_bounds want title r :
  - (8 # 100) <= Websearch.score_of want title r <= 115 # 100.
Proof.
  unfold Websearch.score_of. destruct r as [url t].
  pose proof (websearch_jaccard_unit want (Websearch.token_set t)) as Hj.
  destruct (_ && _); destruct (contains _ _); lra.
Qed.

Lemma legacy_score_of_bounds want title r :
  - (8 # 100) <= Legacy.score_of want title r <= 115 # 100.
Proof.
  unfold Legacy.score_of. destruct r as [url t].
  pose proof (legacy_jaccard_unit want (Legacy.token_set t)) as Hj.
  destruct (_ && _); destruct (contains _ _); lra.
Qed.
End ScoreFacts.


(** ** Near-duplicate detection *)

Lemma find_first {A} (f : A → bool) (l : list A) :
  match find f l with
  | Some x => ∃ before after, l = before ++ x :: after ∧ f x = true
                              ∧ Forall (λ y, f y = false) before
  | None => Forall (λ y, f y = false) l
  end.
Proof.
  induction l as [|a l IH]; simpl; [constructor|].
  destruct (f a) eqn:Ha.
  - exists [], l. by split_and!.
  - destruct (find f l) as [x|].
    + destruct IH as (before & after & -> & Hx & Hb).
      exists (a :: before), after. split_and!; [done..|]. by constructor.
    + by constructor.
Qed.

Section DetectFacts.
Context `{Unicode} {float : Type}.
Context (ratio : ustring → ustring → float) (ge : float → float → bool) (threshold : float).

Local Abbreviation similar := (similar ratio ge threshold).
Local Abbreviation loop tracks := (Manager.detect_loop ratio ge tracks threshold).

Lemma detect_loop_app (l1 l2 kept dups : list Track) log :
  loop (l1 ++ l2) kept dups log =
    let '(kept', dups', log') := loop l1 kept dups log in loop l2 kept' dups' log'.
Proof.
  revert kept dups log. induction l1 as [|t l1 IH]; intros kept dups log; simpl.
  - done.
  - destruct (Manager.first_similar _ _ _ _ _); apply IH.
Qed.

Lemma detect_loop_partition (l kept dups : list Track) log :
  let '(kept', dups', log') := loop l kept dups log in
  ∃ k d, kept' = kept ++ k ∧ dups' = dups ++ d ∧ k ++ d ≡ₚ l ∧ sublist k l ∧ sublist d l
         ∧ map fst log' = map fst log ++ d.
Proof.
  revert kept dups log. induction l as [|t l IH]; intros kept dups log; simpl.
  - exists [], []. rewrite !app_nil_r. by split_and!.
  - destruct (Manager.first_similar _ _ _ _ _) as [keeper|].
    + specialize (IH kept (dups ++ [t]) (log ++ [(t, keeper)])).
      destruct (Manager.detect_loop _ _ _ _ _ _ _) as [[kept' dups'] log'].
      destruct IH as (k & d & -> & -> & Hp & Hk & Hd & Hlog).
      exists k, (t :: d). split_and!.
      * done.
      * by rewrite <- app_assoc.
      * rewrite <- Hp. by rewrite Permutation_middle.
      * by constructor.
      * by constructor.
      * rewrite Hlog, map_app. simpl. by rewrite <- app_assoc.
    + specialize (IH (kept ++ [t]) dups log).
      destruct (Manager.detect_loop _ _ _ _ _ _ _) as [[kept' dups'] log'].
      destruct IH as (k & d & -> & -> & Hp & Hk & Hd & Hlog).
      exists (t :: k), d. split_and!.
      * by rewrite <- app_assoc.
      * done.
      * simpl. by rewrite Hp.
      * by constructor.
      * by constructor.
      * done.
Qed.
End DetectFacts.

(** C7.  [_is_similar] holds exactly when the ratio of the normalised titles
    reaches the threshold and the artist signatures intersect or one of them
    is empty.  A track read after [tracks] is compared with the kept tracks
    only, in order: the first similar one ends the search, the track joins
    the duplicates (and never the kept list), otherwise it joins the kept
    tracks.  Kept tracks and duplicates split the input, both in input
    order, and [_detect_duplicates] returns the duplicates. *)
Theorem detect_duplicates_classifies `{Unicode} {float : Type}
    (ratio : ustring → ustring → float) (ge : float → float → bool) (threshold : float) :
  (∀ track keeper,
     similar ratio ge threshold track keeper = true
     ↔ ge (ratio (normalized_title track) (normalized_title keeper)) threshold = true
       ∧ (artist_signature track ∩ artist_signature keeper ≠ ∅
          ∨ artist_signature keeper = ∅ ∨ artist_signature track = ∅))
  ∧ (∀ tracks track,
       let '(kept, duplicates, log) := detected ratio ge threshold tracks in
       (Exists (λ keeper, similar ratio ge threshold track keeper = true) kept →
          ∃ before keeper after,
            kept = before ++ keeper :: after
            ∧ similar ratio ge threshold track keeper = true
            ∧ Forall (λ k, similar ratio ge threshold track k = false) before
            ∧ detected ratio ge threshold (tracks ++ [track])
              = (kept, duplicates ++ [track], log ++ [(track, keeper)]))
       ∧ (Forall (λ keeper, similar ratio ge threshold track keeper = false) kept →
            detected ratio ge threshold (tracks ++ [track]) = (kept ++ [track], duplicates, log)))
  ∧ (∀ tracks,
       let '(kept, duplicates, log) := detected ratio ge threshold tracks in
       Manager._detect_duplicates ratio ge tracks threshold = duplicates
       ∧ kept ++ duplicates ≡ₚ tracks
       ∧ sublist kept tracks ∧ sublist duplicates tracks
       ∧ map fst log = duplicates).
Proof.
  split_and!.
  - intros track keeper. unfold similar, Manager._is_similar.
    fold (normalized_title keeper) (artist_signature keeper).
    rewrite andb_true_iff, !orb_true_iff, negb_true_iff, !bool_decide_eq_true,
      bool_decide_eq_false. tauto.
  - intros tracks track. unfold detected. rewrite detect_loop_app.
    destruct (Manager.detect_loop ratio ge tracks threshold [] [] []) as [[kept dups] log].
    simpl. unfold Manager.first_similar.
    fold (normalized_title track) (artist_signature track).
    change (λ keeper, Manager._is_similar ratio ge track keeper (normalized_title track)
                        (artist_signature track) threshold)
      with (similar ratio ge threshold track).
    pose proof (find_first (similar ratio ge threshold track) kept) as Hf.
    destruct (find _ kept) as [keeper|].
    + destruct Hf as (before & after & -> & Hk & Hb). split.
      * intros _. exists before, keeper, after. by split_and!.
      * intros Hall. rewrite Forall_app, Forall_cons in Hall. naive_solver congruence.
    + split; [|done]. intros Hex. exfalso.
      apply Exists_exists in Hex as (k & Hin & Hk).
      rewrite Forall_forall in Hf. specialize (Hf k Hin). congruence.
  - intros tracks. unfold detected, Manager._detect_duplicates.
    pose proof (detect_loop_partition ratio ge threshold tracks [] [] []) as Hp.
    destruct (Manager.detect_loop ratio ge tracks threshold [] [] []) as [[kept dups] log].
    destruct Hp as (k & d & -> & -> & Hp & Hk & Hd & Hlog). by split_and!.
Qed.

Import Run.

(** ** Picking among web results *)

(** C10.  With a single candidate, the legacy [pick_from_web_results] returns
    the video id parsed from the candidate's URL, prints nothing and reads
    nothing.  [websearch.pick_from_web_results] prints the table and the
    prompt and reads a line even then: only the answer 1 gives the parsed
    id, any other answer (or none) gives [None].  So the two never behave
    alike on a single candidate. *)
Theorem single_candidate_shortcut `{Unicode} `{Utils.Urllib}
    (url title track_display : ustring) (w : World) :
  let table := ResultsTable (u "Web results for " ++ track_display) [(1%nat, title, url)] in
  let asked := emit [Printed PickPrompt] (emit [Printed table] w) in
  Legacy.pick_from_web_results [(url, title)] track_display w
  = (Val (Legacy.parse_youtube_video_id url), w)
  ∧ (∀ line rest, stdin w = line :: rest →
       Websearch.pick_from_web_results [(url, title)] track_display w
       = (Val (match int (strip line) with
               | Some 1%Z => Utils.parse_youtube_video_id url
               | _ => None
               end),
          emit [ReadLine line] (set_stdin rest asked)))
  ∧ (stdin w = [] →
       Websearch.pick_from_web_results [(url, title)] track_display w = (Val None, asked))
  ∧ Legacy.pick_from_web_results [(url, title)] track_display w
    ≠ Websearch.pick_from_web_results [(url, title)] track_display w.
Proof.
  intros table asked.
  assert (Hleg : Legacy.pick_from_web_results [(url, title)] track_display w
                 = (Val (Legacy.parse_youtube_video_id url), w)) by done.
  assert (Hline : ∀ line rest, stdin w = line :: rest →
            Websearch.pick_from_web_results [(url, title)] track_display w
            = (Val (match int (strip line) with
                    | Some 1%Z => Utils.parse_youtube_video_id url
                    | _ => None
                    end),
               emit [ReadLine line] (set_stdin rest asked))).
  { intros line rest Hin.
    unfold Websearch.pick_from_web_results, bind, try_except, print, modify, input, ret, raise.
    simpl. rewrite Hin.
    destruct (int (strip line)) as [[|p|p]|]; try done.
    destruct p; done. }
  assert (Hnone : stdin w = [] →
            Websearch.pick_from_web_results [(url, title)] track_display w = (Val None, asked)).
  { intros Hin.
    unfold Websearch.pick_from_web_results, bind, try_except, print, modify, input, ret, raise.
    simpl. by rewrite Hin. }
  split_and!; [done..|].
  rewrite Hleg. intros Heq.
  assert (Hlen : length (trace (Websearch.pick_from_web_results [(url, title)] track_display w).2)
                 = length (trace w)) by (by rewrite <- Heq).
  destruct (stdin w) as [|line rest] eqn:Hin.
  - rewrite Hnone in Hlen by done. simpl in Hlen. rewrite !length_app in Hlen. simpl in Hlen. lia.
  - rewrite (Hline line rest) in Hlen by done. simpl in Hlen.
    rewrite !length_app in Hlen. simpl in Hlen. lia.
Qed.

Import Run.

(** ** The resolution loop *)

(** *** Computations that respect a stable relation *)

Section Respect.
Context (R : World → World → Prop) `{!Stable R}.

Lemma respects_ret {A} (a : A) : respects R (ret a).
Proof. intros w. simpl. reflexivity. Qed.

Lemma respects_raise {A} (e : exn) : respects R (@raise A e).
Proof. intros w. simpl. reflexivity. Qed.

Lemma respects_get {A} (f : World → A) : respects R (get f).
Proof. intros w. simpl. reflexivity. Qed.

Lemma respects_bind {A B} (m : M A) (k : A → M B) :
  respects R m → (∀ a, respects R (k a)) → respects R (bind m k).
Proof.
  intros Hm Hk w. unfold bind. specialize (Hm w).
  destruct (m w) as [[a|e] w1]; simpl in *; [|done].
  etransitivity; [exact Hm|apply Hk].
Qed.

Lemma respects_try_except {A} (m : M A) (handler : exn → M A) :
  respects R m → (∀ e, respects R (handler e)) → respects R (try_except m handler).
Proof.
  intros Hm Hh w. unfold try_except. specialize (Hm w).
  destruct (m w) as [[a|e] w1]; simpl in *; [done|].
  etransitivity; [exact Hm|apply Hh].
Qed.

Lemma respects_modify (f : World → World) : (∀ w, R w (f w)) → respects R (modify f).
Proof. intros Hf w. apply Hf. Qed.

Lemma respects_print (o : output) : o ≠ QuotaPanel → respects R (print o).
Proof. intros Ho. apply respects_modify. intros w. by apply stable_print. Qed.

Lemma respects_read_line (w : World) (line : ustring) (rest : list ustring) :
  R w (emit [ReadLine line] (set_stdin rest w)).
Proof. etransitivity; [apply (stable_stdin w rest)|apply stable_read]. Qed.

Lemma respects_input : respects R input.
Proof.
  intros w. unfold input. destruct (stdin w); simpl; [reflexivity|apply respects_read_line].
Qed.

Lemma respects_input_until {A} (ask : output) (decide : ustring → decision A)
    (lines : list ustring) (w : World) :
  ask ≠ QuotaPanel → (∀ line c, decide line = Again c → c ≠ QuotaPanel) →
  R w (input_until ask decide lines w).2.
Proof.
  intros Hask Hdec. revert w. induction lines as [|line rest IH]; intros w; simpl.
  - etransitivity; [by apply (stable_print w ask)|apply stable_stdin].
  - etransitivity; [by apply (stable_print w ask)|].
    etransitivity; [apply (respects_read_line _ line rest)|].
    destruct (decide line) as [a|c|e] eqn:Hd; simpl; [reflexivity| |reflexivity].
    etransitivity; [|apply IH]. apply stable_print. by eapply Hdec.
Qed.

Lemma respects_input_loop {A} (ask : output) (decide : ustring → decision A) :
  ask ≠ QuotaPanel → (∀ line c, decide line = Again c → c ≠ QuotaPanel) →
  respects R (input_loop ask decide).
Proof. intros Hask Hdec w. by apply respects_input_until. Qed.

Lemma respects_execute (c : call) : is_search (Called c) = false → respects R (execute c).
Proof.
  intros Hc w. unfold execute.
  pose proof (stable_call w c Hc) as Hcall.
  destruct (replies (emit [Called c] w)) as [|[rows|e] rest]; simpl; [done|..];
    (etransitivity; [exact Hcall|apply stable_replies]).
Qed.

Context `{Unicode} `{Utils.Urllib}.

Lemma respects_retry_loop {A} (left : nat) (func : M A) :
  respects R func → respects R (Legacy.retry_loop left func).
Proof.
  intros Hf. induction left as [|left IH]; simpl.
  - apply respects_try_except; [done|]. intros [st text|st| | |].
    + destruct (_ && _); [|apply respects_raise].
      apply respects_bind; [|intros _; apply respects_raise].
      apply respects_modify. intros w. apply stable_disable.
    + apply respects_raise.
    + apply respects_raise.
    + apply respects_raise.
    + apply respects_raise.
  - apply respects_try_except; [done|]. intros [st text|st| | |].
    + destruct (_ && _).
      * apply respects_bind; [|intros _; apply respects_raise].
        apply respects_modify. intros w. apply stable_disable.
      * destruct (Legacy.is_retriable_http_error _ _); [done|apply respects_raise].
    + destruct (_ =? _)%Z; [done|apply respects_raise].
    + done.
    + apply respects_raise.
    + apply respects_raise.
Qed.

Lemma respects_retry_call {A} (func : M A) :
  respects R func → respects R (Legacy.retry_call func).
Proof. apply respects_retry_loop. Qed.

Lemma respects_queue_pending (vid : ustring) : respects R (Legacy.queue_pending vid).
Proof.
  apply respects_bind; [apply respects_get|]. intros added.
  destruct (bool_decide _); [apply respects_ret|].
  apply respects_modify. intros w.
  etransitivity; [apply (stable_pending w)|apply stable_added].
Qed.

Lemma respects_add_youtube_videos (playlist_id : ustring) (video_ids : list ustring) :
  respects R (Legacy.add_youtube_videos playlist_id video_ids).
Proof.
  induction video_ids as [|vid rest IH]; simpl; [apply respects_ret|].
  apply respects_bind; [apply respects_get|]. intros added.
  destruct (bool_decide _); [done|].
  apply respects_bind; [apply respects_retry_call, respects_execute; reflexivity|]. intros _.
  apply respects_bind; [|done]. apply respects_modify. intros w. apply stable_added.
Qed.

Lemma respects_input_yesno (prompt : ustring) : respects R (Legacy.input_yesno prompt).
Proof.
  apply respects_input_loop; [done|]. intros line c. cbv zeta.
  destruct (bool_decide _); [done|]. destruct (bool_decide _); [done|]. by intros [= <-].
Qed.

Lemma respects_input_index (prompt : ustring) (lo hi : Z) (allow_zero : bool) :
  respects R (Legacy.input_index prompt lo hi allow_zero).
Proof.
  apply respects_input_loop; [done|]. intros line c. cbv zeta.
  destruct (negb _); [by intros [= <-]|]. destruct (int _); [|done].
  destruct (_ && _); [done|]. destruct (_ && _)%bool; [done|]. by intros [= <-].
Qed.

Lemma respects_sp_search_one (name : ustring) (artists : list ustring) :
  respects R (Legacy.sp_search_one name artists).
Proof.
  apply respects_try_except.
  - apply respects_bind; [apply respects_retry_call, respects_execute; reflexivity|].
    intros [|[uri ?] ?]; apply respects_ret.
  - intros []; try apply respects_raise.
    apply respects_bind; [by apply respects_print|]. intros _. apply respects_ret.
Qed.

Lemma respects_google_music_search (title : ustring) (artists : list ustring) (n : nat) :
  respects R (Legacy.google_music_search title artists n).
Proof.
  apply respects_try_except; [apply respects_execute; reflexivity|]. intros e. apply respects_ret.
Qed.

Lemma respects_pick_from_web_results (results : list (ustring * ustring)) (display : ustring) :
  respects R (Legacy.pick_from_web_results results display).
Proof.
  unfold Legacy.pick_from_web_results.
  destruct results as [|r [|r' results]]; [apply respects_ret..|].
  apply respects_bind; [by apply respects_print|]. intros _.
  apply respects_bind; [apply respects_input_index|]. intros idx.
  destruct (_ =? _)%Z; apply respects_ret.
Qed.

Lemma respects_paste_youtube_url (t : Track) : respects R (Legacy.paste_youtube_url t).
Proof.
  apply respects_bind; [by apply respects_print|]. intros _.
  apply respects_bind; [apply respects_input|]. intros line. apply respects_ret.
Qed.
End Respect.

(** *** The quota state only advances *)

Lemma quota_prompts_none (evs : list event) :
  Forall (λ e, is_quota_panel e = false) evs → quota_prompts evs = 0%nat.
Proof.
  unfold quota_prompts. induction 1 as [|e evs He _ IH]; [done|].
  rewrite filter_cons, decide_False by congruence. done.
Qed.

Lemma quota_prompts_app (evs1 evs2 : list event) :
  quota_prompts (evs1 ++ evs2) = (quota_prompts evs1 + quota_prompts evs2)%nat.
Proof. unfold quota_prompts. by rewrite filter_app, length_app. Qed.

Lemma advances_intro (w w' : World) (evs : list event) :
  trace w' = trace w ++ evs →
  Forall (λ e, is_search e = false) evs →
  Forall (λ e, is_quota_panel e = false) evs →
  (yt_search_disabled (STATE w) = true → yt_search_disabled (STATE w') = true) →
  (prompted_after_quota (STATE w) = true → prompted_after_quota (STATE w') = true) →
  advances w w'.
Proof.
  intros Ht Hs Hp Hd Hq. split_and!; [done..|].
  exists evs. split_and!; [done..|]. rewrite quota_prompts_none by done. lia.
Qed.

#[global] Instance advances_preorder : PreOrder advances.
Proof.
  split.
  - intros w. apply (advances_intro w w []); [by rewrite app_nil_r|done..].
  - intros w1 w2 w3 (Hd1 & Hp1 & evs1 & Ht1 & Hs1 & Hq1) (Hd2 & Hp2 & evs2 & Ht2 & Hs2 & Hq2).
    split_and!; [tauto..|].
    exists (evs1 ++ evs2). split_and!.
    + by rewrite Ht2, Ht1, app_assoc.
    + intros Hd. apply Forall_app. split; [tauto|]. apply Hs2. tauto.
    + rewrite quota_prompts_app.
      destruct (prompted_after_quota (STATE w1)) eqn:E1.
      * specialize (Hp1 eq_refl). rewrite Hp1 in Hq2. lia.
      * destruct (prompted_after_quota (STATE w2)) eqn:E2.
        -- specialize (Hp2 eq_refl). rewrite Hp2. lia.
        -- destruct (prompted_after_quota (STATE w3)); lia.
Qed.

#[global] Instance advances_stable : Stable advances.
Proof.
  split; try apply _.
  - intros w l. apply (advances_intro _ _ []); [by rewrite app_nil_r|done..].
  - intros w l. apply (advances_intro _ _ []); [by rewrite app_nil_r|done..].
  - intros w s. apply (advances_intro _ _ []); [by rewrite app_nil_r|done..].
  - intros w l. apply (advances_intro _ _ []); [by rewrite app_nil_r|done..].
  - intros w. apply (advances_intro _ _ []); [by rewrite app_nil_r|done..].
  - intros w. apply (advances_intro _ _ []); [by rewrite app_nil_r|done..].
  - intros w l. apply (advances_intro _ _ [ReadLine l]); [done|by repeat constructor..|done|done].
  - intros w o Ho. apply (advances_intro _ _ [Printed o]); [done|by repeat constructor| |done|done].
    repeat constructor. by destruct o.
  - intros w c Hc. apply (advances_intro _ _ [Called c]); [done| |by repeat constructor|done|done].
    by repeat constructor.
  - intros w. apply (advances_intro _ _ [CacheSave]); [done|by repeat constructor..|done|done].
Qed.

Section Advances.
Context `{Unicode} `{Utils.Urllib}.

Lemma advances_cache_put (key value : ustring) : respects advances (Legacy.cache_put key value).
Proof.
  apply (respects_modify advances). intros w.
  apply (advances_intro _ _ [CachePut key value]); [done|by repeat constructor..|done|done].
Qed.

Lemma advances_cache_save : respects advances Legacy.cache_save.
Proof. apply (respects_modify advances). intros w. apply stable_save. Qed.

Lemma advances_set_choice (w : World) (manual web_auto : bool) :
  advances w
    (set_STATE (set_continue_web_auto_after_quota web_auto
                  (set_continue_manual_after_quota manual (STATE w))) w).
Proof. apply (advances_intro _ _ []); [by rewrite app_nil_r|done..]. Qed.

Lemma bind_modify {A} (f : World → World) (k : unit → M A) (w : World) :
  bind (modify f) k w = k tt (f w).
Proof. reflexivity. Qed.

Lemma advances_prompt_after_quota : respects advances Legacy.prompt_after_quota.
Proof.
  intros w. unfold Legacy.prompt_after_quota. unfold bind at 1, get.
  destruct (prompted_after_quota (STATE w)) eqn:Hp; [reflexivity|].
  unfold print. rewrite !bind_modify.
  set (w1 := emit [Printed QuotaPanel]
               (set_STATE (set_prompted_after_quota true (STATE w)) w)).
  assert (Hw1 : advances w w1).
  { split_and!; [done..|]. exists [Printed QuotaPanel]. split_and!; [done| |].
    - intros _. by repeat constructor.
    - rewrite Hp. simpl. done. }
  etransitivity; [exact Hw1|].
  match goal with
  | |- advances _ (?m _).2 => cut (respects advances m); [intros Hm; apply Hm|]
  end.
  apply (respects_bind advances).
  - apply (respects_input_loop advances); [done|]. intros line c. cbv zeta.
    destruct (bool_decide _); [done|]. by intros [= <-].
  - intros opt. apply (respects_modify advances). intros w'. apply advances_set_choice.
Qed.

Lemma advances_search_call (w : World) (q : ustring) :
  yt_search_disabled (STATE w) = false → advances w (emit [Called (YtSearch q)] w).
Proof.
  intros Hd. split_and!; [done..|]. exists [Called (YtSearch q)].
  split_and!; [done|congruence|].
  rewrite quota_prompts_none by (by repeat constructor). lia.
Qed.

(** The API search is only attempted while it is enabled, and a quota
    error ends the attempts. *)
Lemma advances_search_retry (left : nat) (q : ustring) (w : World) :
  yt_search_disabled (STATE w) = false →
  advances w (Legacy.retry_loop left (execute (YtSearch q)) w).2.
Proof.
  revert w. induction left as [|left IH]; intros w Hd.
  - simpl. unfold try_except, execute.
    set (w1 := emit [Called (YtSearch q)] w).
    assert (Hw1 : advances w w1) by (by apply advances_search_call).
    destruct (replies w1) as [|[rows|e] rest]; simpl.
    + done.
    + etransitivity; [exact Hw1|apply stable_replies].
    + etransitivity; [exact Hw1|]. etransitivity; [apply (stable_replies _ rest)|].
      destruct e as [st text|st| | |]; simpl; try reflexivity.
      destruct (_ && _); simpl; [apply (stable_disable (set_replies rest w1))|reflexivity].
  - simpl. unfold try_except, execute.
    set (w1 := emit [Called (YtSearch q)] w).
    assert (Hw1 : advances w w1) by (by apply advances_search_call).
    destruct (replies w1) as [|[rows|e] rest]; simpl.
    + etransitivity; [exact Hw1|]. by apply IH.
    + etransitivity; [exact Hw1|apply stable_replies].
    + etransitivity; [exact Hw1|]. etransitivity; [apply (stable_replies _ rest)|].
      destruct e as [st text|st| | |]; simpl; try reflexivity.
      * destruct (_ && _); simpl; [apply (stable_disable (set_replies rest w1))|].
        destruct (Legacy.is_retriable_http_error _ _); simpl; [by apply IH|reflexivity].
      * destruct (_ =? _)%Z; simpl; [by apply IH|reflexivity].
      * by apply IH.
Qed.

Lemma advances_yt_search_one (query : ustring) : respects advances (Legacy.yt_search_one query).
Proof.
  intros w. unfold Legacy.yt_search_one. unfold bind at 1, get.
  destruct (yt_search_disabled (STATE w)) eqn:Hd; [reflexivity|].
  unfold bind, Legacy.retry_call.
  pose proof (advances_search_retry (Legacy.RETRY_MAX_TRIES - 1) query w Hd) as Hr.
  destruct (Legacy.retry_loop _ _ w) as [[[|[vid ?] ?]|e] w1]; exact Hr.
Qed.

Lemma advances_youtube_lookup (t : Track) : respects advances (Legacy.youtube_lookup t).
Proof.
  unfold Legacy.youtube_lookup.
  apply (respects_bind advances); [apply (respects_get advances)|]. intros vid.
  apply (respects_bind advances); [apply (respects_get advances)|]. intros disabled.
  apply (respects_bind advances); [apply (respects_get advances)|]. intros plan.
  destruct (_ && _); [|apply (respects_ret advances)].
  apply (respects_try_except advances).
  - apply (respects_bind advances); [apply advances_yt_search_one|]. intros v. apply (respects_ret advances).
  - intros []; try apply (respects_raise advances).
    apply (respects_bind advances); [apply advances_prompt_after_quota|]. intros _.
    apply (respects_bind advances); [apply (respects_get advances)|]. intros manual.
    apply (respects_bind advances); [apply (respects_get advances)|]. intros web_auto.
    destruct (_ && _); [apply (respects_ret advances)|].
    apply (respects_bind advances); [|intros _; apply (respects_ret advances)].
    apply (respects_modify advances). intros w. apply stable_disable.
Qed.

Lemma advances_youtube_fallback (t : Track) (vid : option ustring) :
  respects advances (Legacy.youtube_fallback t vid).
Proof.
  unfold Legacy.youtube_fallback. destruct (Utils.truthy vid); [apply (respects_ret advances)|].
  apply (respects_bind advances); [apply (respects_get advances)|]. intros manual.
  destruct (negb manual); [|apply (respects_paste_youtube_url advances)].
  apply (respects_bind advances); [apply (respects_google_music_search advances)|]. intros web_results.
  destruct (Utils.truthy _); [apply (respects_ret advances)|].
  apply (respects_bind advances).
  - destruct web_results; [apply (respects_ret advances)|apply (respects_pick_from_web_results advances)].
  - intros v. destruct (Utils.truthy v); [apply (respects_ret advances)|].
    apply (respects_paste_youtube_url advances).
Qed.

Lemma advances_youtube_store (dst_id : ustring) (t : Track) (vid : ustring) :
  respects advances (Legacy.youtube_store dst_id t vid).
Proof.
  unfold Legacy.youtube_store.
  apply (respects_bind advances); [apply (respects_get advances)|]. intros plan. destruct plan.
  - apply (respects_bind advances); [apply (respects_queue_pending advances)|]. intros _.
    apply (respects_bind advances); [apply advances_cache_put|]. intros _.
    apply (respects_bind advances); [apply advances_cache_save|]. intros _. apply (respects_ret advances).
  - apply (respects_try_except advances).
    + apply (respects_bind advances); [apply (respects_add_youtube_videos advances)|]. intros _.
      apply (respects_bind advances); [apply advances_cache_put|]. intros _.
      apply (respects_bind advances); [apply advances_cache_save|]. intros _. apply (respects_ret advances).
    + intros e. destruct e as [st text|st| | |]; try apply (respects_raise advances).
      destruct (Legacy.is_quota_exceeded_http_error _).
      * apply (respects_bind advances); [by apply (respects_print advances)|]. intros _.
        apply (respects_bind advances); [apply (respects_input_yesno advances)|]. intros switch.
        destruct switch; [|apply (respects_ret advances)].
        apply (respects_bind advances); [apply (respects_modify advances); intros w; apply stable_plan|]. intros _.
        apply (respects_bind advances); [apply (respects_queue_pending advances)|]. intros _.
        apply (respects_ret advances).
      * apply (respects_bind advances); [by apply (respects_print advances)|]. intros _.
        apply (respects_ret advances).
Qed.

Lemma advances_main_item_youtube (dst_id : ustring) (t : Track) :
  respects advances (Legacy.main_item_youtube dst_id t).
Proof.
  unfold Legacy.main_item_youtube.
  apply (respects_bind advances); [apply advances_youtube_lookup|]. intros [vid|]; [|apply (respects_ret advances)].
  apply (respects_bind advances); [apply advances_youtube_fallback|].
  intros [[|c v]|]; [apply (respects_ret advances)|apply advances_youtube_store|apply (respects_ret advances)].
Qed.

Lemma advances_main_loop_youtube (dst_id : ustring) (to_add : list Track) :
  respects advances (Legacy.main_loop_youtube dst_id to_add).
Proof.
  induction to_add as [|t rest IH]; simpl; [apply (respects_ret advances)|].
  apply (respects_bind advances); [apply advances_main_item_youtube|].
  intros [[]|]; [exact IH|apply (respects_ret advances)].
Qed.
End Advances.

Lemma events_since_app (w w' : World) (evs : list event) :
  trace w' = trace w ++ evs → events_since w w' = evs.
Proof. intros Ht. unfold events_since. by rewrite Ht, drop_app_length. Qed.

(** *** A quota signal met inside an item *)

Section Signals.
Context `{Unicode} `{Utils.Urllib}.

(** A quota error that leaves [retry_call] has set the flag. *)
Lemma retry_loop_quota {A} (left : nat) (func : M A) (w w' : World) (e : exn) :
  Legacy.retry_loop left func w = (Exc e, w') →
  Legacy.is_quota_exceeded_http_error e = true →
  yt_search_disabled (STATE w') = true.
Proof.
  revert w. induction left as [|left IH]; intros w; cbn [Legacy.retry_loop];
    unfold try_except; destruct (func w) as [[a|e1] w1]; try done;
    destruct e1 as [st text|st| | |]; cbn [Legacy.is_quota_exceeded_http_error];
    repeat match goal with
           | |- context [if ?c then _ else _] => destruct c eqn:?
           end;
    try (by apply IH);
    unfold bind, modify, raise; intros [= <- <-]; cbn; congruence.
Qed.

Lemma main_loop_youtube_app (dst_id : ustring) (pre rest : list Track) (w0 w : World) :
  Legacy.main_loop_youtube dst_id pre w0 = (Val (Go tt), w) →
  Legacy.main_loop_youtube dst_id (pre ++ rest) w0 = Legacy.main_loop_youtube dst_id rest w.
Proof.
  revert w0. induction pre as [|t pre IH]; intros w0; cbn [Legacy.main_loop_youtube app].
  - by intros [= <-].
  - unfold bind. destruct (Legacy.main_item_youtube dst_id t w0) as [[[[]|]|e] w1]; try done.
    apply IH.
Qed.

(** What [main] does after [yt_search_one] raised an [HttpError]. *)
Local Abbreviation after_search_error :=
  (bind Legacy.prompt_after_quota
     (λ _, bind (get (λ w, continue_manual_after_quota (STATE w)))
             (λ manual, bind (get (λ w, continue_web_auto_after_quota (STATE w)))
                          (λ web_auto,
                             if negb manual && negb web_auto
                             then ret (Return_ : flow (option ustring))
                             else bind (modify (λ w, set_STATE
                                                       (set_yt_search_disabled true (STATE w)) w))
                                    (λ _, ret (Go (None : option ustring))))))).

(** The item from the fallback on. *)
Local Abbreviation item_from_fallback dst_id t :=
  (λ found : flow (option ustring),
     match found with
     | Return_ => ret Return_
     | Go vid =>
         bind (Legacy.youtube_fallback t vid)
           (λ vid, match vid with
                   | Some (c :: vid') => Legacy.youtube_store dst_id t (c :: vid')
                   | _ => ret (Go tt)
                   end)
     end).

(** The loop from the end of an item on. *)
Local Abbreviation loop_after dst_id rest :=
  (λ r : flow unit,
     match r with
     | Return_ => ret Return_
     | Go _ => Legacy.main_loop_youtube dst_id rest
     end).

Lemma advances_after_search_error : respects advances after_search_error.
Proof.
  apply (respects_bind advances); [apply advances_prompt_after_quota|]. intros _.
  apply (respects_bind advances); [apply (respects_get advances)|]. intros manual.
  apply (respects_bind advances); [apply (respects_get advances)|]. intros web_auto.
  destruct (_ && _); [apply (respects_ret advances)|].
  apply (respects_bind advances); [|intros _; apply (respects_ret advances)].
  apply (respects_modify advances). intros w. apply stable_disable.
Qed.

Lemma advances_item_from_fallback (dst_id : ustring) (t : Track)
    (found : flow (option ustring)) :
  respects advances (item_from_fallback dst_id t found).
Proof.
  destruct found as [vid|]; [|apply (respects_ret advances)].
  apply (respects_bind advances); [apply advances_youtube_fallback|].
  intros [[|c v]|]; [apply (respects_ret advances)|apply advances_youtube_store
                    |apply (respects_ret advances)].
Qed.

Lemma advances_loop_after (dst_id : ustring) (rest : list Track) (r : flow unit) :
  respects advances (loop_after dst_id rest r).
Proof.
  destruct r as [[]|]; [apply advances_main_loop_youtube|apply (respects_ret advances)].
Qed.

(** After the error, the search goes on to the fallback only with the
    flag set. *)
Lemma after_search_error_sets (w : World) (vid : option ustring) :
  (after_search_error w).1 = Val (Go vid) →
  yt_search_disabled (STATE (after_search_error w).2) = true.
Proof.
  unfold bind, get, modify, ret.
  destruct (Legacy.prompt_after_quota w) as [[[]|e] w1]; [|done].
  by destruct (_ && _).
Qed.

Lemma yt_search_one_raises (query : ustring) (w w' : World) (e : exn) :
  Legacy.yt_search_one query w = (Exc e, w') →
  yt_search_disabled (STATE w) = false
  ∧ Legacy.retry_call (execute (YtSearch query)) w = (Exc e, w').
Proof.
  unfold Legacy.yt_search_one. unfold bind at 1. unfold get.
  destruct (yt_search_disabled (STATE w)); [done|]. unfold bind.
  destruct (Legacy.retry_call _ w) as [[[|[video_id ?] ?]|e1] w1]; try done.
  by intros [= <- <-].
Qed.

Lemma lookup_after_search_error (t : Track) (w w' : World) (st : option Z) (text : ustring) :
  Utils.truthy (cache_data w !! Legacy.cache_key (u "youtube") (name t) (artists t)) = false →
  PLAN_MODE_ONLY w = false →
  Legacy.yt_search_one (strip (name t ++ u " " ++ join (u " ") (artists t))) w
  = (Exc (HttpError st text), w') →
  Legacy.youtube_lookup t w = after_search_error w'.
Proof.
  intros Hc Hp Hs. destruct (yt_search_one_raises _ _ _ _ Hs) as [Hd _].
  unfold Legacy.youtube_lookup. unfold bind at 1 2 3. unfold Legacy.cache_get, get.
  cbv beta iota. rewrite Hc, Hd, Hp. cbn [negb andb]. unfold try_except.
  cbv zeta. unfold bind at 1. rewrite Hs. reflexivity.
Qed.

Lemma search_signal (dst_id : ustring) (pre post : list Track) (t : Track)
    (w0 w w' : World) (st : option Z) (text : ustring) :
  Legacy.main_loop_youtube dst_id pre w0 = (Val (Go tt), w) →
  Utils.truthy (cache_data w !! Legacy.cache_key (u "youtube") (name t) (artists t)) = false →
  PLAN_MODE_ONLY w = false →
  Legacy.yt_search_one (strip (name t ++ u " " ++ join (u " ") (artists t))) w
  = (Exc (HttpError st text), w') →
  let item := Legacy.main_item_youtube dst_id t w in
  let run := Legacy.main_loop_youtube dst_id (pre ++ t :: post) w0 in
  advances w' item.2 ∧ advances w' run.2
  ∧ (item.1 = Val (Go tt) →
     yt_search_disabled (STATE item.2) = true ∧ advances item.2 run.2).
Proof.
  intros Hpre Hc Hp Hs item run.
  assert (Hitem : item = bind after_search_error (item_from_fallback dst_id t) w').
  { unfold item, Legacy.main_item_youtube. unfold bind at 1.
    rewrite (lookup_after_search_error t w w' st text) by done. reflexivity. }
  assert (Hrun : run = bind (Legacy.main_item_youtube dst_id t) (loop_after dst_id post) w).
  { unfold run. by rewrite (main_loop_youtube_app dst_id pre (t :: post) w0 w). }
  fold item in Hrun.
  assert (Hrun' : run = bind (bind after_search_error (item_from_fallback dst_id t))
                          (loop_after dst_id post) w').
  { rewrite Hrun. unfold bind at 1. fold item. rewrite Hitem. reflexivity. }
  split_and!.
  - rewrite Hitem.
    apply (respects_bind advances); [apply advances_after_search_error|].
    apply advances_item_from_fallback.
  - rewrite Hrun'.
    apply (respects_bind advances); [|apply advances_loop_after].
    apply (respects_bind advances); [apply advances_after_search_error|].
    apply advances_item_from_fallback.
  - intros Hgo. split.
    + rewrite Hitem in Hgo |- *. unfold bind at 1 in Hgo. unfold bind at 1.
      pose proof (after_search_error_sets w') as Hset.
      destruct (after_search_error w') as [[[vid|]|e] w1]; [|done|done].
      specialize (Hset vid eq_refl). cbn [snd] in Hset.
      by apply (advances_item_from_fallback dst_id t (Go vid) w1).
    + rewrite Hrun. unfold bind. fold item.
      destruct item as [[[[]|]|e] w1]; [|done|done].
      apply advances_main_loop_youtube.
Qed.

(** What [main] does after the insert raised a quota error. *)
Local Abbreviation after_insert_quota vid :=
  (bind (print InsertQuotaPanel)
     (λ _, bind (Legacy.input_yesno (u "Switch to planning mode?"))
             (λ switch : bool,
                if switch
                then bind (modify (set_PLAN_MODE_ONLY true))
                       (λ _, bind (Legacy.queue_pending vid) (λ _, ret (Go tt)))
                else ret (Return_ : flow unit)))).

Lemma advances_after_insert_quota (vid : ustring) :
  respects advances (after_insert_quota vid).
Proof.
  apply (respects_bind advances); [by apply (respects_print advances)|]. intros _.
  apply (respects_bind advances); [apply (respects_input_yesno advances)|]. intros switch.
  destruct switch; [|apply (respects_ret advances)].
  apply (respects_bind advances);
    [apply (respects_modify advances); intros w; apply stable_plan|]. intros _.
  apply (respects_bind advances); [apply (respects_queue_pending advances)|]. intros _.
  apply (respects_ret advances).
Qed.

Lemma add_one_raises (dst_id vid : ustring) (w w' : World) (e : exn) :
  Legacy.add_youtube_videos dst_id [vid] w = (Exc e, w') →
  Legacy.retry_call (execute (YtInsert dst_id vid)) w = (Exc e, w').
Proof.
  cbn [Legacy.add_youtube_videos]. unfold bind at 1. unfold get.
  destruct (bool_decide (vid ∈ added_video_ids w)); [done|].
  unfold bind at 1. destruct (Legacy.retry_call _ w) as [[rows|e1] w1]; [done|].
  by intros [= <- <-].
Qed.

Lemma store_after_insert_quota (dst_id : ustring) (t : Track) (vid : ustring)
    (w w' : World) (e : exn) :
  PLAN_MODE_ONLY w = false →
  Legacy.add_youtube_videos dst_id [vid] w = (Exc e, w') →
  Legacy.is_quota_exceeded_http_error e = true →
  Legacy.youtube_store dst_id t vid w = after_insert_quota vid w'.
Proof.
  intros Hp Hadd Hq. unfold Legacy.youtube_store. unfold bind at 1. unfold get.
  rewrite Hp. unfold try_except. unfold bind at 1. rewrite Hadd.
  destruct e as [st text|st| | |]; try done. by rewrite Hq.
Qed.

Lemma insert_signal (dst_id : ustring) (pre post : list Track) (t : Track)
    (w0 w w1 w2 w3 : World) (found : option ustring) (c : N) (vid : ustring) (e : exn) :
  Legacy.main_loop_youtube dst_id pre w0 = (Val (Go tt), w) →
  Legacy.youtube_lookup t w = (Val (Go found), w1) →
  Legacy.youtube_fallback t found w1 = (Val (Some (c :: vid)), w2) →
  PLAN_MODE_ONLY w2 = false →
  Legacy.add_youtube_videos dst_id [c :: vid] w2 = (Exc e, w3) →
  Legacy.is_quota_exceeded_http_error e = true →
  let item := Legacy.main_item_youtube dst_id t w in
  let run := Legacy.main_loop_youtube dst_id (pre ++ t :: post) w0 in
  yt_search_disabled (STATE w3) = true ∧ advances w3 item.2 ∧ advances w3 run.2.
Proof.
  intros Hpre Hlook Hfall Hp Hadd Hq item run.
  assert (Hitem : item = after_insert_quota (c :: vid) w3).
  { unfold item, Legacy.main_item_youtube. unfold bind at 1. rewrite Hlook.
    unfold bind at 1. rewrite Hfall.
    by apply store_after_insert_quota with e. }
  assert (Hrun : run = bind (after_insert_quota (c :: vid)) (loop_after dst_id post) w3).
  { unfold run. rewrite (main_loop_youtube_app dst_id pre (t :: post) w0 w) by done.
    cbn [Legacy.main_loop_youtube]. unfold bind at 1. fold item. rewrite Hitem.
    reflexivity. }
  split_and!.
  - apply add_one_raises in Hadd. by apply retry_loop_quota in Hadd.
  - rewrite Hitem. apply advances_after_insert_quota.
  - rewrite Hrun. apply (respects_bind advances); [apply advances_after_insert_quota|].
    apply advances_loop_after.
Qed.
End Signals.

Lemma advances_disabled (w w' : World) :
  advances w w' → yt_search_disabled (STATE w) = true →
  yt_search_disabled (STATE w') = true
  ∧ Forall (λ e, is_search e = false) (events_since w w')
  ∧ quota_prompts (events_since w w') ≤ 1.
Proof.
  intros (Hd & _ & evs & Ht & Hs & Hq) Hw.
  rewrite (events_since_app _ _ _ Ht). split_and!; [by apply Hd|by apply Hs|].
  destruct (prompted_after_quota (STATE w)); [lia|].
  destruct (prompted_after_quota (STATE w')); lia.
Qed.

(** C3.  A quota error met by [retry_call] sets [yt_search_disabled], and a
    quota error that leaves [retry_call] has always set it.  Once the flag
    is set, no turn of the resolution loop clears it; a run shows the
    after-quota prompt at most once ([prompt_after_quota] does nothing once
    [prompted_after_quota] is set); and while the flag is set
    [yt_search_one] returns [None] without a call, so the loop issues no
    search call at all.  The same holds from the middle of an item on: when
    the search of an item (after any items [pre]) raises an [HttpError],
    the item only goes on with the flag set, and after a quota error the
    flag is set from the failed search to the end of the run, with no
    further search call; likewise from a quota error met by the insert. *)
Theorem search_disabled_is_permanent `{Unicode} `{Utils.Urllib} (dst_id : ustring) :
  (∀ (func : M (list (ustring * ustring))) text w w1,
     func w = (Exc (HttpError (Some 403%Z) text), w1) →
     Legacy.quota_text text = true →
     Legacy.retry_call func w
     = (Exc (HttpError (Some 403%Z) text),
        set_STATE (set_yt_search_disabled true (STATE w1)) w1))
  ∧ (∀ to_add w,
       yt_search_disabled (STATE w) = true →
       yt_search_disabled (STATE (Legacy.main_loop_youtube dst_id to_add w).2) = true)
  ∧ (∀ to_add cache lines answers,
       quota_prompts
         (trace (Legacy.main_loop_youtube dst_id to_add (initial_world cache lines answers)).2)
       ≤ 1)
  ∧ (∀ to_add w,
       prompted_after_quota (STATE w) = true →
       quota_prompts (events_since w (Legacy.main_loop_youtube dst_id to_add w).2) = 0%nat)
  ∧ (∀ w, prompted_after_quota (STATE w) = true → Legacy.prompt_after_quota w = (Val tt, w))
  ∧ (∀ query w,
       yt_search_disabled (STATE w) = true → Legacy.yt_search_one query w = (Val None, w))
  ∧ (∀ to_add w,
       yt_search_disabled (STATE w) = true →
       Forall (λ e, is_search e = false)
         (events_since w (Legacy.main_loop_youtube dst_id to_add w).2))
  ∧ (∀ (func : M (list (ustring * ustring))) w w' e,
       Legacy.retry_call func w = (Exc e, w') →
       Legacy.is_quota_exceeded_http_error e = true →
       yt_search_disabled (STATE w') = true)
  ∧ (∀ pre t post w0 w w' st text,
       Legacy.main_loop_youtube dst_id pre w0 = (Val (Go tt), w) →
       Utils.truthy (cache_data w !! Legacy.cache_key (u "youtube") (name t) (artists t))
       = false →
       PLAN_MODE_ONLY w = false →
       Legacy.yt_search_one (strip (name t ++ u " " ++ join (u " ") (artists t))) w
       = (Exc (HttpError st text), w') →
       let item := Legacy.main_item_youtube dst_id t w in
       let run := Legacy.main_loop_youtube dst_id (pre ++ t :: post) w0 in
       (item.1 = Val (Go tt) →
          yt_search_disabled (STATE item.2) = true
          ∧ yt_search_disabled (STATE run.2) = true
          ∧ Forall (λ e, is_search e = false) (events_since item.2 run.2))
       ∧ (Legacy.is_quota_exceeded_http_error (HttpError st text) = true →
            yt_search_disabled (STATE w') = true
            ∧ yt_search_disabled (STATE item.2) = true
            ∧ yt_search_disabled (STATE run.2) = true
            ∧ Forall (λ e, is_search e = false) (events_since w' run.2)
            ∧ quota_prompts (events_since w' run.2) ≤ 1))
  ∧ (∀ pre t post w0 w w1 w2 w3 found c vid e,
       Legacy.main_loop_youtube dst_id pre w0 = (Val (Go tt), w) →
       Legacy.youtube_lookup t w = (Val (Go found), w1) →
       Legacy.youtube_fallback t found w1 = (Val (Some (c :: vid)), w2) →
       PLAN_MODE_ONLY w2 = false →
       Legacy.add_youtube_videos dst_id [c :: vid] w2 = (Exc e, w3) →
       Legacy.is_quota_exceeded_http_error e = true →
       let item := Legacy.main_item_youtube dst_id t w in
       let run := Legacy.main_loop_youtube dst_id (pre ++ t :: post) w0 in
       yt_search_disabled (STATE w3) = true
       ∧ yt_search_disabled (STATE item.2) = true
       ∧ yt_search_disabled (STATE run.2) = true
       ∧ Forall (λ e, is_search e = false) (events_since w3 run.2)
       ∧ quota_prompts (events_since w3 run.2) ≤ 1).
Proof.
  split_and!.
  - intros func text w w1 Hf Hq.
    unfold Legacy.retry_call, Legacy.RETRY_MAX_TRIES. simpl. unfold try_except at 1.
    rewrite Hf, Hq. done.
  - intros to_add w. apply (advances_main_loop_youtube dst_id to_add w).
  - intros to_add cache lines answers.
    destruct (advances_main_loop_youtube dst_id to_add (initial_world cache lines answers))
      as (_ & _ & evs & Ht & _ & Hq).
    rewrite Ht. simpl in *. destruct (prompted_after_quota _); lia.
  - intros to_add w Hp.
    destruct (advances_main_loop_youtube dst_id to_add w) as (_ & _ & evs & Ht & _ & Hq).
    rewrite (events_since_app _ _ _ Ht). rewrite Hp in Hq. lia.
  - intros w Hp. unfold Legacy.prompt_after_quota, bind, get. by rewrite Hp.
  - intros query w Hd. unfold Legacy.yt_search_one, bind, get. by rewrite Hd.
  - intros to_add w Hd.
    destruct (advances_main_loop_youtube dst_id to_add w) as (_ & _ & evs & Ht & Hs & _).
    rewrite (events_since_app _ _ _ Ht). by apply Hs.
  - intros func w w' e. apply retry_loop_quota.
  - intros pre t post w0 w w' st text Hpre Hc Hp Hs item run.
    destruct (search_signal dst_id pre post t w0 w w' st text Hpre Hc Hp Hs)
      as (Hitem & Hrun & Hgo).
    fold item run in Hitem, Hrun, Hgo. split.
    + intros Hval. destruct (Hgo Hval) as [Hd Hadv].
      destruct (advances_disabled _ _ Hadv Hd) as (? & ? & _). by split_and!.
    + intros Hq.
      assert (Hd : yt_search_disabled (STATE w') = true).
      { apply yt_search_one_raises in Hs as [_ Hs]. by apply retry_loop_quota in Hs. }
      destruct (advances_disabled _ _ Hitem Hd) as (? & _ & _).
      destruct (advances_disabled _ _ Hrun Hd) as (? & ? & ?). by split_and!.
  - intros pre t post w0 w w1 w2 w3 found c vid e Hpre Hlook Hfall Hp Hadd Hq item run.
    destruct (insert_signal dst_id pre post t w0 w w1 w2 w3 found c vid e
                Hpre Hlook Hfall Hp Hadd Hq) as (Hd & Hitem & Hrun).
    fold item run in Hitem, Hrun.
    destruct (advances_disabled _ _ Hitem Hd) as (? & _ & _).
    destruct (advances_disabled _ _ Hrun Hd) as (? & ? & ?). by split_and!.
Qed.

(** Scenario D: five missing tracks, the quota runs out at the search for
    the third.  The user is asked once and chooses the web fallback; the
    loop searched three times, and not for the last two tracks. *)
Lemma scenario_D `{Unicode} `{Utils.Urllib} :
  let to_add := [a_track "One" ["A"]%string; a_track "Two" ["B"]%string;
                 a_track "Three" ["C"]%string; a_track "Four" ["D"]%string;
                 a_track "Five" ["E"]%string] in
  let answers := [Returns [(u "id1", u "One")]; Returns [];
                  Returns [(u "id2", u "Two")]; Returns [];
                  Raises quota_error;
                  Returns []; Returns []; Returns []] in
  let lines := [u "2"; u ""; u ""; u ""] in
  let w' := (Legacy.main_loop_youtube (u "PL") to_add (initial_world ∅ lines answers)).2 in
  yt_search_disabled (STATE w') = true
  ∧ quota_prompts (trace w') = 1%nat
  ∧ filter (λ e, is_search e = true) (trace w')
    = [Called (YtSearch (u "One A")); Called (YtSearch (u "Two B"));
       Called (YtSearch (u "Three C"))]
  ∧ stdin w' = [] ∧ replies w' = [].
Proof. vm_compute. done. Qed.

(** The quota runs out at the insert for the first of three tracks.  The
    user switches to planning mode; the search is disabled from the failed
    insert on, so the two later tracks are not searched for. *)
Lemma scenario_insert_quota `{Unicode} `{Utils.Urllib} :
  let to_add := [a_track "One" ["A"]%string; a_track "Two" ["B"]%string;
                 a_track "Three" ["C"]%string] in
  let answers := [Returns [(u "id1", u "One")]; Raises quota_error;
                  Returns []; Returns []] in
  let lines := [u "y"; u ""; u ""] in
  let w' := (Legacy.main_loop_youtube (u "PL") to_add (initial_world ∅ lines answers)).2 in
  yt_search_disabled (STATE w') = true
  ∧ PLAN_MODE_ONLY w' = true
  ∧ pending_web_adds w' = [u "id1"]
  ∧ filter (λ e, is_search e = true) (trace w') = [Called (YtSearch (u "One A"))]
  ∧ stdin w' = [] ∧ replies w' = [].
Proof. vm_compute. done. Qed.

Import Run.

(** *** When the cache is written *)

Lemma keeps_cache_intro (w w' : World) (evs : list event) :
  cache_data w' = cache_data w → trace w' = trace w ++ evs →
  Forall (λ e, is_cache_put e = false) evs → keeps_cache w w'.
Proof. intros Hc Ht He. split; [done|]. by exists evs. Qed.

#[global] Instance keeps_cache_preorder : PreOrder keeps_cache.
Proof.
  split.
  - intros w. apply (keeps_cache_intro w w []); [done|by rewrite app_nil_r|done].
  - intros w1 w2 w3 (Hc1 & evs1 & Ht1 & He1) (Hc2 & evs2 & Ht2 & He2).
    apply (keeps_cache_intro _ _ (evs1 ++ evs2)); [congruence| |by apply Forall_app].
    by rewrite Ht2, Ht1, app_assoc.
Qed.

#[global] Instance keeps_cache_stable : Stable keeps_cache.
Proof.
  split; try apply _.
  - intros w l. apply (keeps_cache_intro _ _ []); [done|by rewrite app_nil_r|done].
  - intros w l. apply (keeps_cache_intro _ _ []); [done|by rewrite app_nil_r|done].
  - intros w s. apply (keeps_cache_intro _ _ []); [done|by rewrite app_nil_r|done].
  - intros w l. apply (keeps_cache_intro _ _ []); [done|by rewrite app_nil_r|done].
  - intros w. apply (keeps_cache_intro _ _ []); [done|by rewrite app_nil_r|done].
  - intros w. apply (keeps_cache_intro _ _ []); [done|by rewrite app_nil_r|done].
  - intros w l. apply (keeps_cache_intro _ _ [ReadLine l]); [done..|by repeat constructor].
  - intros w o _. apply (keeps_cache_intro _ _ [Printed o]); [done..|by repeat constructor].
  - intros w c _. apply (keeps_cache_intro _ _ [Called c]); [done..|by repeat constructor].
  - intros w. apply (keeps_cache_intro _ _ [CacheSave]); [done..|by repeat constructor].
Qed.

Section CacheFacts.
Context `{Unicode} `{Utils.Urllib}.

Lemma queue_pending_returns (vid : ustring) (w : World) :
  Legacy.queue_pending vid w = (Val tt, (Legacy.queue_pending vid w).2).
Proof. unfold Legacy.queue_pending, bind, get, modify, ret. by destruct (bool_decide _). Qed.

(** The handler of a failed insert leaves the cache alone. *)
Lemma insert_failure_keeps_cache (vid : ustring) (e : exn) :
  respects keeps_cache
    (match e with
     | HttpError _ _ =>
         if Legacy.is_quota_exceeded_http_error e then
           (print InsertQuotaPanel;;
            let* switch := Legacy.input_yesno (u "Switch to planning mode?") in
            if switch then
              modify (set_PLAN_MODE_ONLY true);;
              Legacy.queue_pending vid;;
              ret (Go tt)
            else ret Return_)%run
         else (print (Log (u "Insert failed on YouTube"));; ret (Go tt))%run
     | _ => raise e
     end).
Proof.
  destruct e as [st text|st| | |]; try apply (respects_raise keeps_cache).
  destruct (Legacy.is_quota_exceeded_http_error _).
  - apply (respects_bind keeps_cache); [by apply (respects_print keeps_cache)|]. intros _.
    apply (respects_bind keeps_cache); [apply (respects_input_yesno keeps_cache)|].
    intros switch. destruct switch; [|apply (respects_ret keeps_cache)].
    apply (respects_bind keeps_cache);
      [apply (respects_modify keeps_cache); intros w; apply stable_plan|]. intros _.
    apply (respects_bind keeps_cache); [apply (respects_queue_pending keeps_cache)|].
    intros _. apply (respects_ret keeps_cache).
  - apply (respects_bind keeps_cache); [by apply (respects_print keeps_cache)|]. intros _.
    apply (respects_ret keeps_cache).
Qed.

(** When the insert raises, [youtube_store] writes nothing into the cache. *)
Lemma failed_insert_keeps_cache (dst_id : ustring) (t : Track) (vid : ustring)
    (w w1 : World) (e : exn) :
  PLAN_MODE_ONLY w = false →
  Legacy.add_youtube_videos dst_id [vid] w = (Exc e, w1) →
  keeps_cache w (Legacy.youtube_store dst_id t vid w).2.
Proof.
  intros Hplan Hw1.
  pose proof (respects_add_youtube_videos keeps_cache dst_id [vid] w) as Hadd.
  unfold Legacy.youtube_store. unfold bind at 1, get. rewrite Hplan.
  unfold try_except. unfold bind at 1. rewrite Hw1 in *. simpl in Hadd.
  etransitivity; [exact Hadd|]. apply (insert_failure_keeps_cache vid e).
Qed.

(** A retried call is attempted at least once. *)
Lemma retry_loop_calls (left : nat) (c : call) (w : World) :
  is_search (Called c) = false →
  ∃ evs, trace (Legacy.retry_loop left (execute c) w).2 = trace w ++ Called c :: evs.
Proof.
  intros Hc.
  assert (Hafter : ∀ w1 : World, trace w1 = trace w ++ [Called c] →
            ∀ w2, keeps_cache w1 w2 → ∃ evs, trace w2 = trace w ++ Called c :: evs).
  { intros w1 Ht1 w2 (_ & evs & Ht2 & _). exists evs. by rewrite Ht2, Ht1, <- app_assoc. }
  assert (Hraise : ∀ (e : exn) (w1 : World),
            keeps_cache w1 (@raise (list (ustring * ustring)) e w1).2)
    by (intros; apply (respects_raise keeps_cache)).
  pose proof (respects_retry_loop keeps_cache (A := list (ustring * ustring))) as Hretry.
  assert (Hexec : respects keeps_cache (execute c)) by (by apply (respects_execute keeps_cache)).
  destruct left as [|left]; simpl; unfold try_except, execute;
    destruct (replies (emit [Called c] w)) as [|[rows|e] rest] eqn:Hr; simpl.
  - by exists [].
  - by exists [].
  - apply (Hafter (set_replies rest (emit [Called c] w))); [done|].
    destruct e as [st text|st| | |]; try apply Hraise.
    destruct (_ && _); [|apply Hraise]. apply (stable_disable (R := keeps_cache)).
  - apply (Hafter (emit [Called c] w)); [done|]. by apply Hretry.
  - by exists [].
  - apply (Hafter (set_replies rest (emit [Called c] w))); [done|].
    destruct e as [st text|st| | |]; try apply Hraise.
    + destruct (_ && _); [apply (stable_disable (R := keeps_cache))|].
      destruct (Legacy.is_retriable_http_error _ _); [by apply Hretry|apply Hraise].
    + destruct (_ =? _)%Z; [by apply Hretry|apply Hraise].
    + by apply Hretry.
Qed.
End CacheFacts.

(** C4, as stated, fails.  With destination YouTube the identifier found by
    the search is inserted first; the insert fails on the quota, the user
    switches to planning mode, and the cache is still empty although the
    identifier is queued.  With destination Spotify an identifier pasted by
    the user is never cached. *)
Lemma resolved_identifier_not_cached :
  (∀ (U : Unicode) (L : Utils.Urllib),
     let w := initial_world ∅ [u "y"] [Returns [(u "id1", u "Alpha")]; Raises quota_error] in
     let w' := (Legacy.main_item_youtube (u "PL") (a_track "Alpha" ["X"]%string) w).2 in
     cache_data w' = ∅
     ∧ pending_web_adds w' = [u "id1"]
     ∧ trace w' = [Called (YtSearch (u "Alpha X")); Called (YtInsert (u "PL") (u "id1"));
                   Printed InsertQuotaPanel;
                   Printed (YesNoPrompt (u "Switch to planning mode?")); ReadLine (u "y")])
  ∧ (∀ (U : Unicode) (L : Utils.Urllib),
       let w := initial_world ∅ [u "spotify:track:abc"] [Returns []] in
       (Legacy.main_item_spotify (a_track "Alpha" ["X"]%string) w).1
       = Val (Some (u "spotify:track:abc"))
       ∧ cache_data (Legacy.main_item_spotify (a_track "Alpha" ["X"]%string) w).2 = ∅).
Proof. split; intros U L; vm_compute; done. Qed.

(** C4, as the code has it.  With destination YouTube the mapping is cached
    after the destination write: in planning mode once the identifier is
    queued (no remote call is made); otherwise once [add_youtube_videos] has
    returned, which attempts the insert (unless the identifier was added
    before in this run) and does not touch the cache.  With destination
    Spotify an identifier found by the catalog search is cached at once,
    before the batched write that follows the loop. *)
Theorem cache_written_after_destination_write `{Unicode} `{Utils.Urllib}
    (dst_id : ustring) (t : Track) (vid : ustring) (w : World) :
  let key := Legacy.cache_key (u "youtube") (name t) (artists t) in
  let ck := Legacy.cache_key (u "spotify") (name t) (artists t) in
  (PLAN_MODE_ONLY w = true →
     Legacy.youtube_store dst_id t vid w
     = (Val (Go tt), cached key vid (Legacy.queue_pending vid w).2)
     ∧ trace (Legacy.queue_pending vid w).2 = trace w)
  ∧ (PLAN_MODE_ONLY w = false → ∀ w1,
       Legacy.add_youtube_videos dst_id [vid] w = (Val tt, w1) →
       Legacy.youtube_store dst_id t vid w = (Val (Go tt), cached key vid w1))
  ∧ keeps_cache w (Legacy.add_youtube_videos dst_id [vid] w).2
  ∧ (vid ∉ added_video_ids w →
       ∃ evs, trace (Legacy.add_youtube_videos dst_id [vid] w).2
              = trace w ++ Called (YtInsert dst_id vid) :: evs)
  ∧ (Utils.truthy (cache_data w !! ck) = false → ∀ c uri w1,
       Legacy.sp_search_one (name t) (artists t) w = (Val (Some (c :: uri)), w1) →
       Legacy.main_item_spotify t w = (Val (Some (c :: uri)), cached ck (c :: uri) w1)).
Proof.
  intros key ck.
  pose proof (respects_add_youtube_videos keeps_cache dst_id [vid] w) as Hadd.
  split_and!.
  - intros Hplan. unfold Legacy.youtube_store. unfold bind at 1, get. rewrite Hplan.
    unfold bind at 1. rewrite queue_pending_returns. split; [done|].
    unfold Legacy.queue_pending, bind, get, modify, ret. by destruct (bool_decide _).
  - intros Hplan w1 Hw1. unfold Legacy.youtube_store. unfold bind at 1, get. rewrite Hplan.
    unfold try_except. unfold bind at 1. by rewrite Hw1.
  - exact Hadd.
  - intros Hnew. simpl. unfold bind at 1, get. rewrite bool_decide_eq_false_2 by done.
    unfold bind at 1, Legacy.retry_call.
    destruct (retry_loop_calls (Legacy.RETRY_MAX_TRIES - 1) (YtInsert dst_id vid) w eq_refl)
      as [evs Hevs].
    destruct (Legacy.retry_loop _ _ w) as [[rows|e] w1]; simpl in *; by exists evs.
  - intros Hmiss c uri w1 Hsp. unfold Legacy.main_item_spotify.
    unfold bind at 1, Legacy.cache_get, get. fold ck. rewrite Hmiss.
    unfold bind at 1 2. by rewrite Hsp.
Qed.

(** ** Further scenarios of the specification *)

(** Scenario B: nothing in the destination, so the source track is missing
    and nothing is already matched. *)
Lemma scenario_B `{Unicode} :
  let alpha := a_track "Alpha" ["X"]%string in
  Legacy.to_add (Legacy.deduplicate_tracks [alpha]) (Legacy.deduplicate_tracks []) = [alpha]
  ∧ Legacy.already (Legacy.deduplicate_tracks [alpha]) (Legacy.deduplicate_tracks []) = 0%nat.
Proof. vm_compute. done. Qed.

(** Scenario E: "Song" scores 1.15 and "Song (Live)" 0.65 against the target
    "Song", so the second candidate is the one picked (its URL parsed). *)
Lemma scenario_E `{Unicode} `{Utils.Urllib} :
  let results := [(u "url1", u "Song (Live)"); (u "url2", u "Song")] in
  (match Legacy.scored results (u "Song") [] with
   | [(live, _, _); (plain, _, _)] => live == 65 # 100 ∧ plain == 115 # 100
   | _ => False
   end)%Q
  ∧ Legacy.pick_best_web_result results (u "Song") []
    = Legacy.parse_youtube_video_id (u "url2")
  ∧ Websearch.pick_best_web_result results (u "Song") []
    = Utils.parse_youtube_video_id (u "url2").
Proof. vm_compute. done. Qed.

(** An artist signature has at most two tokens. *)
Lemma artist_signature_length `{Unicode} (artists : list ustring) :
  length (Utils.clean_artists artists) ≤ 2 ∧ length (Legacy.clean_artists artists) ≤ 2.
Proof.
  unfold Utils.clean_artists, Legacy.clean_artists. rewrite !length_take. lia.
Qed.

(** ** Strings *)

Lemma last_rev_head {A} (l : list A) : last (rev l) = head l.
Proof. destruct l; simpl; [done|]. by rewrite last_snoc. Qed.

Lemma head_rev_last {A} (l : list A) : head (rev l) = last l.
Proof. rewrite <- (rev_involutive l) at 2. by rewrite last_rev_head. Qed.

Section StringFacts.
Context `{Unicode}.

Lemma all_ascii_Forall (s : ustring) :
  all_ascii s = true ↔ Forall (λ c, is_ascii c = true) s.
Proof.
  unfold all_ascii. induction s as [|c s IH]; simpl; [by split|].
  rewrite andb_true_iff, Forall_cons, IH. done.
Qed.

Lemma encode_ascii_ignore_ascii (s : ustring) : all_ascii (encode_ascii_ignore s) = true.
Proof.
  apply all_ascii_Forall, Forall_forall. intros c Hc.
  unfold encode_ascii_ignore in Hc. by apply list_elem_of_filter in Hc as [? _].
Qed.

Lemma ascii_lower_spec (c : N) :
  is_ascii c = true → is_ascii (ascii_lower c) = true ∧ is_upper (ascii_lower c) = false.
Proof.
  unfold is_ascii, ascii_lower, is_upper. intros Hc. apply N.ltb_lt in Hc.
  destruct (65 <=? c)%N eqn:E1; destruct (c <=? 90)%N eqn:E2; simpl;
    rewrite ?E1, ?E2; simpl; try (split; [by apply N.ltb_lt|done]).
  apply N.leb_le in E1, E2. split; [apply N.ltb_lt; lia|].
  replace (c + 32 <=? 90)%N with false by (symmetry; apply N.leb_gt; lia).
  by rewrite andb_false_r.
Qed.

(** The folded text is ASCII without capitals. *)
Lemma folded_plain (s : ustring) :
  Forall (λ c, is_ascii c = true ∧ is_upper c = false) (folded s).
Proof.
  unfold folded, lower. rewrite encode_ascii_ignore_ascii.
  pose proof (encode_ascii_ignore_ascii (normalize_NFKD s)) as Ha.
  apply all_ascii_Forall in Ha. apply Forall_fmap.
  eapply Forall_impl; [exact Ha|]. intros c Hc. by apply ascii_lower_spec.
Qed.

Lemma isspace_ascii (c : N) : is_ascii c = true → isspace c = ascii_space c.
Proof. unfold isspace. by intros ->. Qed.

Lemma lstrip_split (s : ustring) :
  ∃ pre, s = pre ++ lstrip s ∧ Forall (λ c, isspace c = true) pre
         ∧ ∀ c, head (lstrip s) = Some c → isspace c = false.
Proof.
  induction s as [|c s (pre & Hs & Hpre & Hhd)]; simpl.
  - exists []. by split_and!.
  - destruct (isspace c) eqn:Hc.
    + exists (c :: pre). split_and!; [by rewrite Hs at 1|by constructor|done].
    + exists []. split_and!; [done..|]. simpl. congruence.
Qed.

Lemma rstrip_split (s : ustring) :
  ∃ post, s = rstrip s ++ post ∧ Forall (λ c, isspace c = true) post
          ∧ ∀ c, last (rstrip s) = Some c → isspace c = false.
Proof.
  unfold rstrip. destruct (lstrip_split (rev s)) as (pre & Hs & Hpre & Hhd).
  exists (rev pre). split_and!.
  - rewrite <- rev_app_distr, <- Hs. by rewrite rev_involutive.
  - by apply Forall_rev.
  - intros c Hc. apply Hhd. by rewrite last_rev_head in Hc.
Qed.
End StringFacts.

Lemma startswith_app (p s : ustring) : startswith p s = true ↔ ∃ rest, s = p ++ rest.
Proof.
  revert s. induction p as [|a p IH]; intros s; simpl.
  - split; [by exists s|done].
  - destruct s as [|b s]; [split; [done|by intros [? ?]]|].
    rewrite andb_true_iff, N.eqb_eq, IH. split.
    + intros [-> [rest ->]]. by exists rest.
    + intros [rest [= -> ->]]. split; [done|by exists rest].
Qed.

(** [p in s]: [p] occurs in [s]. *)
Lemma contains_infix (p s : ustring) : contains p s = true ↔ ∃ a b, s = a ++ p ++ b.
Proof.
  induction s as [|c s IH]; simpl.
  - rewrite orb_false_r, startswith_app. split.
    + intros [rest Hr]. exists [], rest. done.
    + intros (a & b & Hab). symmetry in Hab.
      apply app_eq_nil in Hab as [-> Hab]. apply app_eq_nil in Hab as [-> ->]. by exists [].
  - rewrite orb_true_iff, startswith_app, IH. split.
    + intros [[rest ->]|(a & b & ->)]; [by exists [], rest|by exists (c :: a), b].
    + intros ([|c' a] & b & Hab); simpl in Hab.
      * left. by exists b.
      * injection Hab as <- ->. right. by exists a, b.
Qed.

Lemma contains_false_infix (p pre x post : ustring) :
  contains p (pre ++ x ++ post) = false → contains p x = false.
Proof.
  intros Hn. destruct (contains p x) eqn:Hx; [|done].
  apply contains_infix in Hx as (a & b & ->).
  assert (contains p (pre ++ (a ++ p ++ b) ++ post) = true); [|congruence].
  apply contains_infix. exists (pre ++ a), (b ++ post). by rewrite <- !app_assoc.
Qed.

Section StripFacts.
Context `{Unicode}.

Lemma isspace_space : isspace 32 = true.
Proof. reflexivity. Qed.

(** [s.strip()] is [s] without the blanks at its two ends. *)
Lemma strip_split (s : ustring) :
  ∃ pre post, s = pre ++ strip s ++ post
    ∧ Forall (λ c, isspace c = true) pre ∧ Forall (λ c, isspace c = true) post
    ∧ (∀ c, head (strip s) = Some c → isspace c = false)
    ∧ (∀ c, last (strip s) = Some c → isspace c = false).
Proof.
  unfold strip. destruct (lstrip_split s) as (pre & Hs & Hpre & Hhd).
  destruct (rstrip_split (lstrip s)) as (post & Hr & Hpost & Hlast).
  exists pre, post. split_and!; [by rewrite <- Hr|done..| |done].
  intros c Hc. apply Hhd. rewrite Hr. destruct (rstrip (lstrip s)); [done|]. done.
Qed.

Lemma lstrip_fixed (s : ustring) :
  (∀ c, head s = Some c → isspace c = false) → lstrip s = s.
Proof. destruct s as [|c s]; [done|]. intros Hc. simpl. by rewrite (Hc c eq_refl). Qed.

Lemma rstrip_fixed (s : ustring) :
  (∀ c, last s = Some c → isspace c = false) → rstrip s = s.
Proof.
  intros Hc. unfold rstrip. rewrite lstrip_fixed; [apply rev_involutive|].
  intros c Hhd. apply Hc. by rewrite head_rev_last in Hhd.
Qed.

Lemma strip_fixed (s : ustring) :
  (∀ c, head s = Some c → isspace c = false) →
  (∀ c, last s = Some c → isspace c = false) → strip s = s.
Proof. intros Hh Hl. unfold strip. rewrite (lstrip_fixed s Hh). by apply rstrip_fixed. Qed.

Lemma strip_idemp (s : ustring) : strip (strip s) = strip s.
Proof. destruct (strip_split s) as (? & ? & _ & _ & _ & Hh & Hl). by apply strip_fixed. Qed.

Lemma strip_blank (s : ustring) : Forall (λ c, isspace c = true) s → strip s = [].
Proof.
  intros Hs. unfold strip.
  assert (Hl : lstrip s = []).
  { induction Hs as [|c s Hc _ IH]; [done|]. simpl. by rewrite Hc. }
  by rewrite Hl.
Qed.
End StripFacts.

(** ** Substitution *)

Section SubFacts.
Import Re.

Lemma sub_go_Forall (P : N → Prop) (r : regex) (repl : ustring) (prev : option N)
    (skip : nat) (s : ustring) :
  Forall P repl → Forall P s → Forall P (sub_go r repl prev skip s).
Proof.
  intros Hrepl Hs. revert prev skip.
  induction Hs as [|c s Hc Hs IH]; intros prev skip; simpl; [done|].
  destruct skip as [|n]; [|apply IH].
  destruct (match_here r prev (c :: s)) as [[|n]|].
  - constructor; [done|apply IH].
  - apply Forall_app. split; [done|apply IH].
  - constructor; [done|apply IH].
Qed.

Lemma sub_Forall (P : N → Prop) (r : regex) (repl s : ustring) :
  Forall P repl → Forall P s → Forall P (sub r repl s).
Proof. apply sub_go_Forall. Qed.

Lemma collapse_Forall (P : N → Prop) (cls : N → bool) (b : bool) (s : ustring) :
  P 32%N → Forall P s → Forall P (collapse cls b s).
Proof.
  intros Hsp Hs. revert b. induction Hs as [|c s Hc Hs IH]; intros b; simpl; [done|].
  destruct (cls c); [destruct b|]; try constructor; try done; apply IH.
Qed.

(** What is left of a class replaced by spaces: nothing, or the space. *)
Lemma collapse_class (cls : N → bool) (b : bool) (s : ustring) :
  Forall (λ c, cls c = true → c = 32%N) (collapse cls b s).
Proof.
  revert b. induction s as [|c s IH]; intros b; simpl; [done|].
  destruct (cls c) eqn:Hc; [destruct b|]; try constructor; try done; try apply IH.
  congruence.
Qed.

Lemma contains_two_spaces (c : N) (t : ustring) :
  contains (u "  ") (c :: t)
  = ((32 =? c)%N && match t with d :: _ => (32 =? d)%N | [] => false end)
    || contains (u "  ") t.
Proof.
  change (u "  ") with [32%N; 32%N]. cbn [contains startswith].
  destruct t as [|d t]; [done|]. by rewrite andb_true_r.
Qed.

(** No two spaces in a row once the blanks are collapsed. *)
Lemma collapse_single (cls : N → bool) (b : bool) (s : ustring) :
  cls 32%N = true →
  contains (u "  ") (collapse cls b s) = false
  ∧ (b = true → head (collapse cls b s) ≠ Some 32%N).
Proof.
  intros Hsp. revert b. induction s as [|c s IH]; intros b; [by split|].
  cbn [collapse]. destruct (cls c) eqn:Hc.
  - destruct (IH true) as [IH1 IH2]. destruct b.
    + split; [done|]. intros _. by apply IH2.
    + split; [|done]. rewrite contains_two_spaces, IH1, orb_false_r.
      specialize (IH2 eq_refl). destruct (collapse cls true s) as [|d t]; [done|].
      destruct (N.eqb_spec 32 d) as [<-|]; [done|]. by rewrite andb_false_r.
  - destruct (IH false) as [IH1 _]. split.
    + rewrite contains_two_spaces, IH1, orb_false_r.
      destruct (N.eqb_spec 32 c) as [<-|]; [congruence|done].
    + intros _. simpl. intros [= ->]. congruence.
Qed.
End SubFacts.

(** ** The shape of a normalised title *)

Lemma in_class_spec (l : ustring) (c : N) : Re.in_class l c = true ↔ c ∈ l.
Proof.
  unfold Re.in_class. induction l as [|d l IH]; simpl.
  - split; [done|]. by intros ?%elem_of_nil.
  - rewrite orb_true_iff, IH, N.eqb_eq, elem_of_cons. done.
Qed.

Section NormalForm.
Context `{Unicode}.
Import Re.

Lemma pipeline_normal (r1 r2 r3 : regex) (seps : ustring) (s : ustring) :
  32%N ∉ seps →
  Forall (λ c, is_ascii c = true ∧ is_upper c = false) s →
  normal_title seps
    (strip (sub (Plus cls_space) (u " ")
              (sub (Plus (in_class seps)) (u " ")
                 (sub r3 (u " ") (sub r2 (u " ") (sub r1 (u " ") s)))))).
Proof.
  intros Hsep Hs.
  set (t3 := sub r3 (u " ") (sub r2 (u " ") (sub r1 (u " ") s))).
  assert (H3 : Forall (λ c, is_ascii c = true ∧ is_upper c = false) t3).
  { unfold t3. repeat apply sub_Forall; try done; by repeat constructor. }
  rewrite !sub_Plus_collapse.
  set (t4 := collapse (in_class seps) false t3).
  assert (Hcls : in_class seps 32%N = false).
  { destruct (in_class seps 32%N) eqn:E; [|done]. by apply in_class_spec in E. }
  assert (H4 : Forall (λ c, (is_ascii c = true ∧ is_upper c = false) ∧ c ∉ seps) t4).
  { apply Forall_and. split; [by apply collapse_Forall|].
    pose proof (collapse_class (in_class seps) false t3) as Hc. fold t4 in Hc.
    eapply Forall_impl; [exact Hc|]. intros c Hc' Hin.
    apply (proj2 (in_class_spec _ _)) in Hin. simpl in Hc'. specialize (Hc' Hin).
    subst c. congruence. }
  destruct (strip_split (collapse cls_space false t4)) as (pre & post & Heq & _ & _ & Hh & Hl).
  set (t6 := strip (collapse cls_space false t4)) in *.
  assert (H5 : Forall (λ c, ((is_ascii c = true ∧ is_upper c = false) ∧ c ∉ seps)
                            ∧ (ascii_space c = true → c = 32%N))
                 (collapse cls_space false t4)).
  { apply Forall_and. split; [by apply collapse_Forall|apply collapse_class]. }
  destruct (collapse_single cls_space false t4 eq_refl) as [Hdbl _].
  rewrite Heq in H5, Hdbl. apply Forall_app in H5 as [_ H5]. apply Forall_app in H5 as [H5 _].
  apply contains_false_infix in Hdbl.
  split_and!.
  - eapply Forall_impl; [exact H5|]. naive_solver.
  - done.
  - intros Hhd. specialize (Hh _ Hhd). by rewrite isspace_space in Hh.
  - intros Hla. specialize (Hl _ Hla). by rewrite isspace_space in Hl.
Qed.
End NormalForm.

(** X1.  Whatever the title, [clean_title] returns ASCII text without capital
    letters and without separator characters ([|], [-], [_] and, in
    [utils.py], [/]), in which every blank is a single space and which
    neither starts nor ends with one; so stripping it again changes
    nothing. *)
Theorem clean_title_normal_form `{Unicode} (value : ustring) :
  normal_title (u "|-_/") (Utils.clean_title value)
  ∧ normal_title [124; 45; 8211; 8212; 95]%N (Legacy.clean_title value)
  ∧ strip (Utils.clean_title value) = Utils.clean_title value
  ∧ strip (Legacy.clean_title value) = Legacy.clean_title value.
Proof.
  split_and!.
  - apply (pipeline_normal Utils.bracket_noise Utils.remix_suffix Utils.REMIX_PAT (u "|-_/"));
      [by apply (bool_decide_unpack _); vm_compute|apply folded_plain].
  - apply (pipeline_normal Legacy.bracket_noise Legacy.remix_suffix Legacy.REMIX_PAT
             [124; 45; 8211; 8212; 95]%N);
      [by apply (bool_decide_unpack _); vm_compute|apply folded_plain].
  - apply strip_idemp.
  - apply strip_idemp.
Qed.

(** ** Sorting *)

Section SortFacts.
Context {A : Type} (lt : A → A → bool).

(** [a] may stand before [b]. *)
Local Abbreviation le := (λ a b : A, lt b a = false).

Lemma insert_sorted_Permutation (x : A) (l : list A) : insert_sorted lt x l ≡ₚ x :: l.
Proof.
  induction l as [|y l IH]; simpl; [done|].
  destruct (lt y x); [|done]. rewrite IH. apply Permutation_swap.
Qed.

Lemma sorted_Permutation (l : list A) : sorted lt l ≡ₚ l.
Proof.
  induction l as [|x l IH]; simpl; [done|].
  rewrite insert_sorted_Permutation. by rewrite IH.
Qed.

Lemma sorted_elem_of (l : list A) (x : A) : x ∈ sorted lt l ↔ x ∈ l.
Proof. by rewrite sorted_Permutation. Qed.

Hypothesis lt_asym : ∀ a b, lt a b = true → lt b a = false.

Lemma insert_sorted_Sorted (x : A) (l : list A) :
  Sorted le l → Sorted le (insert_sorted lt x l).
Proof.
  induction 1 as [|y l Hl IH Hhd]; simpl; [by repeat constructor|].
  destruct (lt y x) eqn:Hyx.
  - constructor; [done|].
    destruct l as [|z l]; simpl in *.
    + constructor. by apply lt_asym.
    + destruct (lt z x); constructor; [by inversion Hhd|by apply lt_asym].
  - constructor; [by constructor|]. by constructor.
Qed.

Lemma sorted_Sorted (l : list A) : Sorted le (sorted lt l).
Proof. induction l as [|x l IH]; simpl; [constructor|by apply insert_sorted_Sorted]. Qed.

Hypothesis lt_trans : ∀ a b c, lt a b = true → lt b c = true → lt a c = true.
Hypothesis lt_total : ∀ a b, lt a b = false → lt b a = false → a = b.

Lemma sorted_le_trans (a b c : A) : le a b → le b c → le a c.
Proof.
  simpl. intros Hab Hbc. destruct (lt c a) eqn:Hca; [|done].
  destruct (lt c b) eqn:Hcb; [congruence|].
  destruct (lt b c) eqn:Hbc'.
  - destruct (lt b a) eqn:E; [congruence|]. by rewrite (lt_trans b c a) in E.
  - rewrite (lt_total b c) in Hab by done. congruence.
Qed.

Lemma sorted_StronglySorted (l : list A) : StronglySorted le (sorted lt l).
Proof.
  apply (@Sorted_StronglySorted _ le); [|apply sorted_Sorted].
  intros a b c. apply sorted_le_trans.
Qed.

(** The sorted list does not depend on the order of the input. *)
Lemma sorted_unique (l l' : list A) : l ≡ₚ l' → sorted lt l = sorted lt l'.
Proof.
  intros Hp. apply (@Sorted_unique _ le).
  - intros a b c. apply sorted_le_trans.
  - intros a b Hab Hba. symmetry. by apply lt_total.
  - apply sorted_Sorted.
  - apply sorted_Sorted.
  - by rewrite !sorted_Permutation.
Qed.

Lemma sorted_NoDup (l : list A) : NoDup l → NoDup (sorted lt l).
Proof. intros Hl. by rewrite sorted_Permutation. Qed.

(** In a sorted list without repetition, what comes first is smaller. *)
Lemma sorted_before (l pre post : list A) (x y : A) :
  NoDup l → sorted lt l = pre ++ x :: post → y ∈ post → lt x y = true.
Proof.
  intros Hnd Heq Hy.
  pose proof (sorted_StronglySorted l) as Hs. pose proof (sorted_NoDup l Hnd) as Hnd'.
  rewrite Heq in Hs, Hnd'.
  apply StronglySorted_app in Hs as (_ & _ & Hs).
  apply StronglySorted_inv in Hs as [_ Hall].
  rewrite Forall_forall in Hall. specialize (Hall y Hy). simpl in Hall.
  apply NoDup_app in Hnd' as (_ & _ & Hnd'). apply NoDup_cons in Hnd' as [Hx _].
  destruct (lt x y) eqn:Hxy; [done|]. exfalso. apply Hx.
  by rewrite (lt_total x y).
Qed.
End SortFacts.

(** Sorting by a key that does not tell all elements apart. *)
Section SortWeak.
Context {A : Type} (lt : A → A → bool).
Hypothesis lt_asym : ∀ a b, lt a b = true → lt b a = false.
Hypothesis lt_negtrans : ∀ a b c, lt b a = false → lt c b = false → lt c a = false.

(** Nothing in the list is smaller than the head of the sorted list. *)
Lemma sorted_head (l rest : list A) (x : A) :
  sorted lt l = x :: rest → ∀ y, y ∈ l → lt y x = false.
Proof.
  intros Heq y Hy.
  assert (Hs : StronglySorted (λ a b, lt b a = false) (sorted lt l)).
  { apply (@Sorted_StronglySorted _ (λ a b, lt b a = false)).
    - intros a b c. apply lt_negtrans.
    - by apply sorted_Sorted. }
  rewrite Heq in Hs. apply StronglySorted_inv in Hs as [_ Hall].
  apply (sorted_elem_of lt) in Hy. rewrite Heq in Hy.
  apply elem_of_cons in Hy as [->|Hy].
  - destruct (lt x x) eqn:E; [|done]. by rewrite (lt_asym x x E) in E.
  - rewrite Forall_forall in Hall. by apply Hall.
Qed.
End SortWeak.

(** *** The order of strings *)

Lemma str_ltb_irrefl (a : ustring) : str_ltb a a = false.
Proof.
  induction a as [|x a IH]; simpl; [done|].
  by rewrite N.ltb_irrefl, N.eqb_refl, IH.
Qed.

Lemma str_ltb_trans (a b c : ustring) :
  str_ltb a b = true → str_ltb b c = true → str_ltb a c = true.
Proof.
  revert b c. induction a as [|x a IH]; intros [|y b] [|z c]; simpl; try done.
  rewrite !orb_true_iff, !andb_true_iff, !N.ltb_lt, !N.eqb_eq.
  intros [Hxy|[-> Hab]] [Hyz|[-> Hbc]].
  - left. lia.
  - by left.
  - by left.
  - right. split; [done|]. by apply (IH b).
Qed.

Lemma str_ltb_total (a b : ustring) : str_ltb a b = false → str_ltb b a = false → a = b.
Proof.
  revert b. induction a as [|x a IH]; intros [|y b]; simpl; try done.
  rewrite !orb_false_iff, !andb_false_iff, !N.ltb_ge, !N.eqb_neq.
  intros [Hxy Hab] [Hyx Hba].
  assert (x = y) as -> by lia. f_equal. apply IH; naive_solver.
Qed.

Lemma str_ltb_asym (a b : ustring) : str_ltb a b = true → str_ltb b a = false.
Proof.
  intros Hab. destruct (str_ltb b a) eqn:Hba; [|done].
  by rewrite <- (str_ltb_irrefl a), <- (str_ltb_trans a b a Hab Hba).
Qed.

Lemma signature_lt_spec (a b : ustring) :
  Utils.signature_lt a b = true
  ↔ length b < length a ∨ (length a = length b ∧ str_ltb a b = true).
Proof.
  unfold Utils.signature_lt.
  rewrite orb_true_iff, andb_true_iff, Nat.ltb_lt, Nat.eqb_eq. done.
Qed.

Lemma signature_lt_asym (a b : ustring) :
  Utils.signature_lt a b = true → Utils.signature_lt b a = false.
Proof.
  intros Hab. destruct (Utils.signature_lt b a) eqn:Hba; [|done].
  apply signature_lt_spec in Hab, Hba.
  destruct Hab as [?|[? Hab]], Hba as [?|[? Hba]]; try lia.
  by rewrite (str_ltb_asym a b Hab) in Hba.
Qed.

Lemma signature_lt_trans (a b c : ustring) :
  Utils.signature_lt a b = true → Utils.signature_lt b c = true →
  Utils.signature_lt a c = true.
Proof.
  rewrite !signature_lt_spec. intros [?|[? Hab]] [?|[? Hbc]]; try (left; lia).
  right. split; [lia|]. by apply (str_ltb_trans a b c).
Qed.

Lemma signature_lt_total (a b : ustring) :
  Utils.signature_lt a b = false → Utils.signature_lt b a = false → a = b.
Proof.
  unfold Utils.signature_lt.
  rewrite !orb_false_iff, !andb_false_iff, !Nat.ltb_ge, !Nat.eqb_neq.
  intros [? [?|Hab]] [? [?|Hba]]; try lia. by apply str_ltb_total.
Qed.

(** ** Artist signatures *)

Lemma split_on_go_Forall (P : N → Prop) (sep : N) (cur s : ustring) :
  Forall P cur → Forall (λ c, c ≠ sep → P c) s → Forall (Forall P) (split_on_go sep cur s).
Proof.
  intros Hcur Hs. revert cur Hcur.
  induction Hs as [|c s Hc Hs IH]; intros cur Hcur; simpl.
  - constructor; [by apply Forall_rev|done].
  - destruct (N.eqb_spec c sep) as [->|Hne].
    + constructor; [by apply Forall_rev|]. by apply IH.
    + apply IH. constructor; [by apply Hc|done].
Qed.

Lemma split_head_go_prefix (r : Re.regex) (prev : option N) (s : ustring) :
  Re.split_head_go r prev s `prefix_of` s.
Proof.
  revert prev. induction s as [|c s IH]; intros prev; simpl; [done|].
  destruct (Re.match_here r prev (c :: s)) as [[|n]|];
    [by apply prefix_cons|apply prefix_nil|by apply prefix_cons].
Qed.

Lemma elem_of_flat_map {A B} (f : A → list B) (l : list A) (x : B) :
  x ∈ flat_map f l ↔ ∃ a, a ∈ l ∧ x ∈ f a.
Proof.
  rewrite list_elem_of_In, in_flat_map. split; intros (a & Ha & Hx); exists a.
  - by rewrite !list_elem_of_In.
  - by rewrite <- !list_elem_of_In.
Qed.

Section ArtistFacts.
Context `{Unicode}.
Import Re.

(** The tokens cut out of a credited name once it is folded and cut at
    the first "feat". *)
Lemma tokens_of_plain (s : ustring) :
  Forall (λ c, is_ascii c = true ∧ is_upper c = false) s →
  Forall artist_token
    (filter (λ token, token ≠ [])
       (split_on 32 (strip (sub (Plus cls_space) (u " ")
                              (sub (Plus (one_of ",/&;+")) (u " ") s))))).
Proof.
  intros Hs. rewrite !sub_Plus_collapse.
  set (t1 := collapse (one_of ",/&;+") false s).
  assert (H1 : Forall (λ c, (is_ascii c = true ∧ is_upper c = false) ∧ c ∉ u ",/&;+") t1).
  { apply Forall_and. split; [by apply collapse_Forall|].
    pose proof (collapse_class (one_of ",/&;+") false s) as Hc. fold t1 in Hc.
    eapply Forall_impl; [exact Hc|]. intros c Hc' Hin.
    apply (proj2 (in_class_spec _ _)) in Hin. simpl in Hc'. specialize (Hc' Hin).
    subst c. done. }
  assert (H2 : Forall (λ c, ((is_ascii c = true ∧ is_upper c = false) ∧ c ∉ u ",/&;+")
                            ∧ (ascii_space c = true → c = 32%N))
                 (collapse cls_space false t1)).
  { apply Forall_and. split; [apply collapse_Forall; [|done]|apply collapse_class].
    split; [done|]. by apply (bool_decide_unpack _); vm_compute. }
  destruct (strip_split (collapse cls_space false t1)) as (pre & post & Heq & _).
  rewrite Heq in H2. apply Forall_app in H2 as [_ H2]. apply Forall_app in H2 as [H2 _].
  apply Forall_forall. intros x Hx. apply list_elem_of_filter in Hx as [Hne Hx].
  split; [done|].
  assert (Hsplit : Forall (Forall (λ c, is_ascii c = true ∧ is_upper c = false
                                         ∧ ascii_space c = false ∧ c ∉ u ",/&;+"))
                     (split_on 32 (strip (collapse cls_space false t1)))).
  { apply split_on_go_Forall; [done|].
    eapply Forall_impl; [exact H2|]. intros c [[[? ?] ?] Hsp] Hne'. split_and!; try done.
    destruct (ascii_space c) eqn:E; [|done]. by specialize (Hsp eq_refl). }
  rewrite Forall_forall in Hsplit. by apply Hsplit.
Qed.

Lemma split_head_plain (r : regex) (s : ustring) :
  Forall (λ c, is_ascii c = true ∧ is_upper c = false) (split_head r (folded s)).
Proof.
  destruct (split_head_go_prefix r None (folded s)) as [rest Hr].
  pose proof (folded_plain s) as Hp. unfold split_head. rewrite Hr in Hp.
  by apply Forall_app in Hp as [? _].
Qed.

Lemma utils_artist_tokens_shape (artist : ustring) :
  Forall artist_token (Utils.artist_tokens artist).
Proof.
  unfold Utils.artist_tokens. destruct artist as [|c artist]; [done|].
  pose proof (tokens_of_plain _ (split_head_plain Utils.FEAT_PAT (c :: artist))) as Ht.
  unfold folded in Ht. cbv zeta. destruct (strip _); [done|exact Ht].
Qed.

Lemma legacy_artist_tokens_shape (a : ustring) :
  Forall artist_token (Legacy.artist_tokens a).
Proof.
  unfold Legacy.artist_tokens.
  pose proof (tokens_of_plain _ (split_head_plain Legacy.FEAT_PAT a)) as Ht.
  unfold folded in Ht. cbv zeta. destruct (strip _); [done|exact Ht].
Qed.

(** What [clean_artists] makes of any list of tokens. *)
Lemma signature_of_tokens (tokens : list ustring) :
  let sig := take 2 (sorted Utils.signature_lt (remove_dups tokens)) in
  NoDup sig ∧ length sig ≤ 2
  ∧ (∀ x, x ∈ sig → x ∈ tokens)
  ∧ (∀ x y, sig = [x; y] → Utils.signature_lt x y = true)
  ∧ (∀ x t, x ∈ sig → t ∈ tokens → t ∉ sig → Utils.signature_lt x t = true)
  ∧ (tokens ≠ [] → sig ≠ []).
Proof.
  intros sig. set (S := sorted Utils.signature_lt (remove_dups tokens)) in *.
  assert (Hnd : NoDup (remove_dups tokens)) by apply NoDup_remove_dups.
  assert (HS : S = sig ++ drop 2 S) by (symmetry; apply take_drop).
  assert (Hbefore : ∀ pre post x y, S = pre ++ x :: post → y ∈ post →
            Utils.signature_lt x y = true).
  { intros pre post x y. apply sorted_before; [|exact signature_lt_trans| |done].
    - exact signature_lt_asym.
    - exact signature_lt_total. }
  split_and!.
  - apply (sublist_NoDup _ S); [|apply sublist_take].
    apply sorted_NoDup, NoDup_remove_dups.
  - unfold sig. rewrite length_take. lia.
  - intros x Hx. apply elem_of_remove_dups, (sorted_elem_of Utils.signature_lt).
    fold S. rewrite HS. apply elem_of_app. by left.
  - intros x y Hxy. apply (Hbefore [] (y :: drop 2 S)); [|by left].
    by rewrite HS at 1; rewrite Hxy.
  - intros x t Hx Ht Hnt.
    apply list_elem_of_split in Hx as (p1 & p2 & Hp).
    apply (Hbefore p1 (p2 ++ drop 2 S)).
    + rewrite HS at 1. rewrite Hp. by rewrite <- app_assoc.
    + apply elem_of_app. right.
      assert (HtS : t ∈ S) by (by apply sorted_elem_of, elem_of_remove_dups).
      rewrite HS in HtS. by apply elem_of_app in HtS as [?|?].
  - intros Hne Hsig.
    assert (Hlen : length S = length (remove_dups tokens))
      by (by unfold S; rewrite sorted_Permutation).
    destruct S as [|a S']; [|done].
    destruct tokens as [|t tokens]; [done|].
    assert (t ∈ remove_dups (t :: tokens)) by (apply elem_of_remove_dups; by left).
    destruct (remove_dups (t :: tokens)); [by apply elem_of_nil in H0|done].
Qed.

Lemma signature_same_tokens (tokens tokens' : list ustring) :
  (∀ x, x ∈ tokens ↔ x ∈ tokens') →
  take 2 (sorted Utils.signature_lt (remove_dups tokens))
  = take 2 (sorted Utils.signature_lt (remove_dups tokens')).
Proof.
  intros Hsame. f_equal.
  apply sorted_unique;
    [exact signature_lt_asym|exact signature_lt_trans|exact signature_lt_total|].
  apply NoDup_Permutation; [apply NoDup_remove_dups..|].
  intros x. by rewrite !elem_of_remove_dups.
Qed.

Lemma flat_map_same {A B} (f : A → list B) (l l' : list A) :
  (∀ a, a ∈ l ↔ a ∈ l') → ∀ x, x ∈ flat_map f l ↔ x ∈ flat_map f l'.
Proof.
  intros Hsame x. rewrite !elem_of_flat_map.
  split; intros (a & Ha & Hx); exists a; (split; [|done]); by apply Hsame.
Qed.
End ArtistFacts.

(** X2.  The artist signature ([clean_artists], in [utils.py] and in
    [legacy_sync.py]): at most two tokens, never the same twice, taken from
    the tokens of the credited names; each is a non-empty run of ASCII
    characters without capitals, blanks or [,/&;+]; the longer stands first
    (the alphabetically smaller of two of one length), and every token left
    out would have been sorted after the ones kept. *)
Theorem clean_artists_signature `{Unicode} (artists : list ustring) :
  (let sig := Utils.clean_artists artists in
   let tokens := flat_map Utils.artist_tokens artists in
   NoDup sig ∧ length sig ≤ 2
   ∧ (∀ x, x ∈ sig → x ∈ tokens ∧ artist_token x)
   ∧ (∀ x y, sig = [x; y] → Utils.signature_lt x y = true)
   ∧ (∀ x t, x ∈ sig → t ∈ tokens → t ∉ sig → Utils.signature_lt x t = true)
   ∧ (tokens ≠ [] → sig ≠ []))
  ∧ (let sig := Legacy.clean_artists artists in
     let tokens := flat_map Legacy.artist_tokens artists in
     NoDup sig ∧ length sig ≤ 2
     ∧ (∀ x, x ∈ sig → x ∈ tokens ∧ artist_token x)
     ∧ (∀ x y, sig = [x; y] → Utils.signature_lt x y = true)
     ∧ (∀ x t, x ∈ sig → t ∈ tokens → t ∉ sig → Utils.signature_lt x t = true)
     ∧ (tokens ≠ [] → sig ≠ [])).
Proof.
  split.
  - intros sig tokens.
    destruct (signature_of_tokens tokens) as (H1 & H2 & H3 & H4 & H5 & H6).
    split_and!; try done. intros x Hx. split; [by apply H3|].
    specialize (H3 x Hx). unfold tokens in H3.
    apply elem_of_flat_map in H3 as (a & _ & Hxa).
    pose proof (utils_artist_tokens_shape a) as Hshape.
    rewrite Forall_forall in Hshape. by apply Hshape.
  - intros sig tokens.
    destruct (signature_of_tokens tokens) as (H1 & H2 & H3 & H4 & H5 & H6).
    split_and!; try done. intros x Hx. split; [by apply H3|].
    specialize (H3 x Hx). unfold tokens in H3.
    apply elem_of_flat_map in H3 as (a & _ & Hxa).
    pose proof (legacy_artist_tokens_shape a) as Hshape.
    rewrite Forall_forall in Hshape. by apply Hshape.
Qed.

(** X3.  Only the set of credited names matters to the artist signature and
    to the loose key: their order and repetitions do not. *)
Theorem clean_artists_order_insensitive `{Unicode} (name : ustring)
    (artists artists' : list ustring) :
  (∀ a, a ∈ artists ↔ a ∈ artists') →
  Utils.clean_artists artists = Utils.clean_artists artists'
  ∧ Legacy.clean_artists artists = Legacy.clean_artists artists'
  ∧ Utils.key_loose name artists = Utils.key_loose name artists'
  ∧ Legacy.key_loose name artists = Legacy.key_loose name artists'.
Proof.
  intros Hsame.
  assert (H1 : Utils.clean_artists artists = Utils.clean_artists artists')
    by (by apply signature_same_tokens, flat_map_same).
  assert (H2 : Legacy.clean_artists artists = Legacy.clean_artists artists')
    by (by apply signature_same_tokens, flat_map_same).
  split_and!; [done..| |].
  - unfold Utils.key_loose. by rewrite H1.
  - unfold Legacy.key_loose. by rewrite H2.
Qed.

Lemma clean_artists_order_insensitive_witness :
  @Utils.clean_artists ascii_tables [u "Daft Punk"; u "Pharrell"]
  = @Utils.clean_artists ascii_tables [u "Pharrell"; u "Daft Punk"; u "Pharrell"]
  ∧ @Utils.key_loose ascii_tables (u "Get Lucky") [u "Daft Punk"; u "Pharrell"]
    = @Utils.key_loose ascii_tables (u "Get Lucky") [u "Pharrell"; u "Daft Punk"; u "Pharrell"].
Proof.
  destruct (@clean_artists_order_insensitive ascii_tables (u "Get Lucky")
              [u "Daft Punk"; u "Pharrell"] [u "Pharrell"; u "Daft Punk"; u "Pharrell"])
    as (H1 & _ & H3 & _).
  - intros a. rewrite !elem_of_cons. tauto.
  - by split.
Defined.

(** ** URL parsers *)

Lemma contains_trans (p q s : ustring) :
  contains p q = true → contains q s = true → contains p s = true.
Proof.
  rewrite !contains_infix. intros (a & b & ->) (c & d & ->).
  exists (c ++ a), (b ++ d). by rewrite <- !app_assoc.
Qed.

Section ParserFacts.
Context `{Unicode} `{Utils.Urllib}.

Lemma parse_spotify_stripped (value : ustring) :
  Utils.parse_spotify_track_uri (strip value) = Utils.parse_spotify_track_uri value.
Proof. unfold Utils.parse_spotify_track_uri. by rewrite strip_idemp. Qed.

Lemma parse_youtube_stripped (value : ustring) :
  Utils.parse_youtube_video_id (strip value) = Utils.parse_youtube_video_id value.
Proof. unfold Utils.parse_youtube_video_id. by rewrite strip_idemp. Qed.

Lemma or_None_Some (v r : ustring) : Utils.or_None v = Some r → r = v ∧ v ≠ [].
Proof. destruct v; [done|]. by intros [= <-]. Qed.
End ParserFacts.

(** X4.  [parse_spotify_track_uri] (the same in [utils.py] and
    [legacy_sync.py]): blanks around the text do not matter and a blank text
    gives nothing; text that starts with [spotify:track:] is returned as it
    is, whatever follows the prefix; any other result is the prefix followed
    by the non-empty third segment of the path of an [open.spotify.com]
    track URL.  Every result starts with [spotify:track:]. *)
Theorem parse_spotify_track_uri_canonical `{Unicode} `{Utils.Urllib} (value : ustring) :
  Utils.parse_spotify_track_uri (strip value) = Utils.parse_spotify_track_uri value
  ∧ (Forall (λ c, isspace c = true) value → Utils.parse_spotify_track_uri value = None)
  ∧ (startswith (u "spotify:track:") (strip value) = true →
       Utils.parse_spotify_track_uri value = Some (strip value))
  ∧ (Utils.urlparse (strip value) = None →
       startswith (u "spotify:track:") (strip value) = false →
       Utils.parse_spotify_track_uri value = None)
  ∧ (∀ r, Utils.parse_spotify_track_uri value = Some r →
       startswith (u "spotify:track:") r = true
       ∧ (r = strip value
          ∨ ∃ parts track_id,
              Utils.urlparse (strip value) = Some parts
              ∧ Utils.endswith (u "open.spotify.com") (Utils.netloc parts) = true
              ∧ startswith (u "/track/") (Utils.path parts) = true
              ∧ split_on 47 (Utils.path parts) !! 2%nat = Some track_id
              ∧ track_id ≠ []
              ∧ r = u "spotify:track:" ++ track_id)).
Proof.
  split_and!.
  - apply parse_spotify_stripped.
  - intros Hblank. unfold Utils.parse_spotify_track_uri. by rewrite strip_blank.
  - intros Hpre. unfold Utils.parse_spotify_track_uri. cbv zeta. rewrite Hpre.
    destruct (strip value) eqn:E; [|done]. by vm_compute in Hpre.
  - intros Hparse Hpre. unfold Utils.parse_spotify_track_uri. cbv zeta.
    rewrite Hpre, Hparse. by destruct (strip value).
  - intros r. unfold Utils.parse_spotify_track_uri. cbv zeta.
    destruct (strip value) as [|c s] eqn:E; [done|].
    destruct (startswith (u "spotify:track:") (c :: s)) eqn:Hpre.
    { intros [= <-]. by split; [|left]. }
    destruct (Utils.urlparse (c :: s)) as [parts|] eqn:Hparse; [|done].
    destruct (Utils.endswith _ _ && startswith _ _) eqn:Hhost; [|done].
    apply andb_true_iff in Hhost as [Hnet Hpath].
    destruct (split_on 47 (Utils.path parts) !! 2%nat) as [[|d track_id]|] eqn:Hseg; try done.
    intros [= <-]. split; [done|]. right. exists parts, (d :: track_id). by split_and!.
Qed.

(** X5.  [parse_youtube_video_id]: blanks around the text do not matter; a
    blank text, a text [urlparse] rejects, and a host that is neither
    [youtu.be] nor contains [youtube.com] give nothing; a result is never
    the empty string, and it is either the path of a [youtu.be] URL without
    its leading slashes or the first value of the parameter [v]. *)
Theorem parse_youtube_video_id_sources `{Unicode} `{Utils.Urllib} (value : ustring) :
  Utils.parse_youtube_video_id (strip value) = Utils.parse_youtube_video_id value
  ∧ (Forall (λ c, isspace c = true) value → Utils.parse_youtube_video_id value = None)
  ∧ (Utils.urlparse (strip value) = None → Utils.parse_youtube_video_id value = None)
  ∧ Utils.parse_youtube_video_id value ≠ Some []
  ∧ (∀ r, Utils.parse_youtube_video_id value = Some r →
       ∃ parsed,
         Utils.urlparse (strip value) = Some parsed
         ∧ ((Utils.netloc parsed = u "youtu.be" ∧ r = lstrip_char 47 (Utils.path parsed))
            ∨ (Utils.netloc parsed ≠ u "youtu.be"
               ∧ contains (u "youtube.com") (Utils.netloc parsed) = true
               ∧ ∃ query rest,
                   Utils.parse_qs (Utils.query parsed) = Some query
                   ∧ query !! u "v" = Some (r :: rest)))).
Proof.
  assert (Hinv : ∀ r, Utils.parse_youtube_video_id value = Some r →
            r ≠ [] ∧ ∃ parsed,
              Utils.urlparse (strip value) = Some parsed
              ∧ ((Utils.netloc parsed = u "youtu.be" ∧ r = lstrip_char 47 (Utils.path parsed))
                 ∨ (Utils.netloc parsed ≠ u "youtu.be"
                    ∧ contains (u "youtube.com") (Utils.netloc parsed) = true
                    ∧ ∃ query rest,
                        Utils.parse_qs (Utils.query parsed) = Some query
                        ∧ query !! u "v" = Some (r :: rest)))).
  { intros r. unfold Utils.parse_youtube_video_id. cbv zeta.
    destruct (strip value) as [|c s] eqn:E; [done|].
    destruct (Utils.urlparse (c :: s)) as [parsed|] eqn:Hparse; [|done].
    destruct (bool_decide (Utils.netloc parsed = u "youtu.be")) eqn:Hshort.
    - apply bool_decide_eq_true in Hshort. intros [-> Hne]%or_None_Some.
      split; [done|]. exists parsed. split; [done|]. by left.
    - apply bool_decide_eq_false in Hshort.
      destruct (contains (u "youtube.com") (Utils.netloc parsed)
                || contains (u "music.youtube.com") (Utils.netloc parsed)) eqn:Hhost; [|done].
      assert (Hyt : contains (u "youtube.com") (Utils.netloc parsed) = true).
      { apply orb_true_iff in Hhost as [?|Hm]; [done|].
        apply (contains_trans _ (u "music.youtube.com")); [by vm_compute|done]. }
      destruct (Utils.parse_qs (Utils.query parsed)) as [query|] eqn:Hqs; [|done].
      destruct (query !! u "v") as [[|video_id rest]|] eqn:Hv; try done.
      intros [-> Hne]%or_None_Some. split; [done|].
      exists parsed. split; [done|]. right. split_and!; [done..|]. by exists query, rest. }
  split_and!.
  - apply parse_youtube_stripped.
  - intros Hblank. unfold Utils.parse_youtube_video_id. by rewrite strip_blank.
  - intros Hparse. unfold Utils.parse_youtube_video_id. cbv zeta. rewrite Hparse.
    by destruct (strip value).
  - intros Hr. by destruct (Hinv _ Hr).
  - intros r Hr. by destruct (Hinv _ Hr).
Qed.

(** ** Cache keys *)

(** X6.  [cache_key] (the same in [cache.py] and [legacy_sync.py]) does not
    depend on the order of the artists, nor on blanks around the name. *)
Theorem cache_key_artist_order `{Unicode} (service name : ustring)
    (artists artists' : list ustring) :
  artists ≡ₚ artists' →
  Legacy.cache_key service name artists = Legacy.cache_key service name artists'
  ∧ Legacy.cache_key service (strip name) artists = Legacy.cache_key service name artists.
Proof.
  intros Hp. split.
  - unfold Legacy.cache_key.
    rewrite (sorted_unique str_ltb str_ltb_asym str_ltb_trans str_ltb_total _ _ Hp).
    destruct artists as [|a l]; destruct artists' as [|a' l']; try done.
    by apply Permutation_nil_cons in Hp.
  - unfold Legacy.cache_key. by rewrite strip_idemp.
Qed.

Lemma cache_key_artist_order_witness :
  @Legacy.cache_key ascii_tables (u "youtube") (u "Get Lucky") [u "Pharrell"; u "Daft Punk"]
  = @Legacy.cache_key ascii_tables (u "youtube") (u "Get Lucky") [u "Daft Punk"; u "Pharrell"].
Proof.
  apply (@cache_key_artist_order ascii_tables (u "youtube") (u "Get Lucky")
           [u "Pharrell"; u "Daft Punk"] [u "Daft Punk"; u "Pharrell"]).
  apply Permutation_swap.
Defined.

(** ** Similarity and the best candidate *)

Lemma jaccard_comm (a b : gset ustring) : Legacy.jaccard a b = Legacy.jaccard b a.
Proof.
  unfold Legacy.jaccard. rewrite (orb_comm (bool_decide (a = ∅))). cbv zeta.
  assert (H1 : b ∩ a = a ∩ b) by set_solver.
  assert (H2 : b ∪ a = a ∪ b) by set_solver.
  by rewrite H1, H2.
Qed.

Lemma union_size_pos (a b : gset ustring) : a ≠ ∅ → 0 < size (a ∪ b).
Proof.
  intros Ha. destruct (size (a ∪ b)) eqn:E; [|lia].
  apply size_empty_iff in E. set_solver.
Qed.

Lemma inter_union_size (a b : gset ustring) : size (a ∩ b) = size (a ∪ b) ↔ a = b.
Proof.
  split; [|intros ->; f_equal; set_solver].
  intros Hsz.
  assert (Heq : a ∩ b ≡ a ∪ b) by (apply set_subseteq_size_equiv; [set_solver|lia]).
  apply set_eq. intros x. split; intros Hx.
  - assert (x ∈ a ∪ b) as Hu by set_solver. rewrite <- Heq in Hu. set_solver.
  - assert (x ∈ a ∪ b) as Hu by set_solver. rewrite <- Heq in Hu. set_solver.
Qed.

Lemma inter_size_zero (a b : gset ustring) : size (a ∩ b) = 0 ↔ a ∩ b = ∅.
Proof. rewrite size_empty_iff. set_solver. Qed.

Section JaccardFacts.
Local Open Scope Q_scope.

Lemma Qdiv_nat_one (i n : nat) : (0 < n)%nat → Qdiv_nat i n == 1 ↔ i = n.
Proof.
  intros Hn. destruct n as [|n]; [lia|].
  unfold Qdiv_nat, Qeq, Qdiv, Qmult, Qinv, inject_Z.
  rewrite Nat2Z.inj_succ, <- Z.add_1_r.
  destruct (Z.of_nat n + 1)%Z as [|p|p] eqn:E; [lia| |lia].
  cbn [Qnum Qden]. split; [intros Heq|intros ->]; lia.
Qed.

Lemma Qdiv_nat_zero (i n : nat) : (0 < n)%nat → Qdiv_nat i n == 0 ↔ i = 0%nat.
Proof.
  intros Hn. destruct n as [|n]; [lia|].
  unfold Qdiv_nat, Qeq, Qdiv, Qmult, Qinv, inject_Z.
  rewrite Nat2Z.inj_succ, <- Z.add_1_r.
  destruct (Z.of_nat n + 1)%Z as [|p|p] eqn:E; [lia| |lia].
  cbn [Qnum Qden]. split; lia.
Qed.

Lemma jaccard_same (a b : gset ustring) : Websearch.jaccard a b = Legacy.jaccard a b.
Proof. reflexivity. Qed.

Lemma jaccard_one (a b : gset ustring) : Legacy.jaccard a b == 1 ↔ a = b ∧ a ≠ ∅.
Proof.
  unfold Legacy.jaccard.
  destruct (decide (a = ∅)) as [->|Ha].
  { rewrite bool_decide_eq_true_2 by done. simpl. split; [intros Hq; by inversion Hq|tauto]. }
  destruct (decide (b = ∅)) as [->|Hb].
  { rewrite (bool_decide_eq_true_2 (∅ = ∅)) by done. rewrite orb_true_r.
    split; [intros Hq; by inversion Hq|]. intros [-> ?]. done. }
  rewrite !bool_decide_eq_false_2 by done. simpl.
  pose proof (union_size_pos a b Ha) as Hpos.
  destruct (Nat.eqb_spec (size (a ∪ b)) 0); [lia|].
  rewrite Qdiv_nat_one by done. rewrite inter_union_size. tauto.
Qed.

Lemma jaccard_zero (a b : gset ustring) : Legacy.jaccard a b == 0 ↔ a ∩ b = ∅.
Proof.
  unfold Legacy.jaccard.
  destruct (decide (a = ∅)) as [->|Ha].
  { rewrite bool_decide_eq_true_2 by done. simpl.
    split; [intros _; apply intersection_empty_l_L|done]. }
  destruct (decide (b = ∅)) as [->|Hb].
  { rewrite (bool_decide_eq_true_2 (∅ = ∅)) by done. rewrite orb_true_r.
    split; [intros _; apply intersection_empty_r_L|done]. }
  rewrite !bool_decide_eq_false_2 by done. simpl.
  pose proof (union_size_pos a b Ha) as Hpos.
  destruct (Nat.eqb_spec (size (a ∪ b)) 0); [lia|].
  rewrite Qdiv_nat_zero by done. apply inter_size_zero.
Qed.
End JaccardFacts.

(** X7.  The Jaccard similarity (the same function in [websearch.py] and
    [legacy_sync.py]) is symmetric; it is 1 exactly for two equal non-empty
    sets and 0 exactly for two sets without a common word. *)
Theorem jaccard_symmetric_extremes (a b : gset ustring) :
  Legacy.jaccard a b = Legacy.jaccard b a
  ∧ Websearch.jaccard a b = Websearch.jaccard b a
  ∧ Websearch.jaccard a b = Legacy.jaccard a b
  ∧ (Legacy.jaccard a b == 1 ↔ a = b ∧ a ≠ ∅)%Q
  ∧ (Legacy.jaccard a b == 0 ↔ a ∩ b = ∅)%Q.
Proof.
  split_and!; [apply jaccard_comm|rewrite !jaccard_same; apply jaccard_comm|done
              |apply jaccard_one|apply jaccard_zero].
Qed.

(** ** Floating-point scores *)

(** Closes a goal whose hypotheses order the ranks of floats in a circle. *)
Ltac rank_absurd :=
  exfalso; unfold rank_lt in *;
  repeat match goal with
         | H : context [float_rank ?x] |- _ =>
             let p := fresh "p" in
             let Hp := fresh in
             remember (float_rank x) as p eqn:Hp; clear Hp; destruct p as [[? ?] ?]
         end;
  simpl in *; simplify_eq; lia.

Section FloatOrder.
Local Open Scope Z_scope.

Lemma rank_compare_spec (p q : Z * Z * Z) :
  CompareSpec (p = q) (rank_lt p q) (rank_lt q p) (rank_compare p q).
Proof.
  destruct p as [[c1 e1] m1], q as [[c2 e2] m2]. unfold rank_compare, rank_lt. simpl.
  destruct (Z.compare_spec c1 c2) as [->|?|?]; [|constructor; lia..].
  destruct (Z.compare_spec e1 e2) as [->|?|?]; [|constructor; lia..].
  destruct (Z.compare_spec m1 m2) as [->|?|?]; constructor; [done|lia..].
Qed.

Lemma rank_lt_irrefl (p : Z * Z * Z) : ¬ rank_lt p p.
Proof. unfold rank_lt. lia. Qed.

Lemma rank_lt_asym (p q : Z * Z * Z) : rank_lt p q → ¬ rank_lt q p.
Proof. unfold rank_lt. lia. Qed.

Lemma rank_lt_trans (p q r : Z * Z * Z) : rank_lt p q → rank_lt q r → rank_lt p r.
Proof. unfold rank_lt. lia. Qed.

(** On numbers, the comparison of floats is the comparison of their ranks. *)
Lemma SFcompare_rank (x y : Float.float) :
  is_number x = true → is_number y = true →
  SFcompare x y = Some (rank_compare (float_rank x) (float_rank y)).
Proof.
  destruct x as [sx|sx| |sx mx ex], y as [sy|sy| |sy my ey]; try done; intros _ _;
    try (by destruct sx); try (by destruct sy); try (by destruct sx, sy).
  destruct sx, sy; try done; unfold SFcompare, float_rank, rank_compare.
  rewrite Z.compare_opp, (Z.compare_antisym ex ey).
  change (-1 ?= -1) with Eq. cbv iota.
  by destruct (ex ?= ey).
Qed.

(** Two numbers are equal, or one is less than the other. *)
Lemma float_cases (x y : Float.float) :
  is_number x = true → is_number y = true →
  (Float.eqb x y = true ∧ Float.eqb y x = true
   ∧ Float.ltb x y = false ∧ Float.ltb y x = false ∧ float_rank x = float_rank y)
  ∨ (Float.eqb x y = false ∧ Float.eqb y x = false
     ∧ Float.ltb x y = true ∧ Float.ltb y x = false
     ∧ rank_lt (float_rank x) (float_rank y))
  ∨ (Float.eqb x y = false ∧ Float.eqb y x = false
     ∧ Float.ltb x y = false ∧ Float.ltb y x = true
     ∧ rank_lt (float_rank y) (float_rank x)).
Proof.
  intros Hx Hy. unfold Float.eqb, Float.ltb, SFeqb, SFltb.
  rewrite (SFcompare_rank x y Hx Hy), (SFcompare_rank y x Hy Hx).
  destruct (rank_compare_spec (float_rank x) (float_rank y)) as [Heq|Hlt|Hgt];
    destruct (rank_compare_spec (float_rank y) (float_rank x)) as [Heq'|Hlt'|Hgt'];
    try (by left); try (by right; left); try (by right; right); rank_absurd.
Qed.

Lemma geb_ltb (x y : Float.float) :
  is_number x = true → is_number y = true → Float.geb x y = negb (Float.ltb x y).
Proof.
  intros Hx Hy. unfold Float.geb, Float.ltb, SFleb, SFltb.
  rewrite (SFcompare_rank x y Hx Hy), (SFcompare_rank y x Hy Hx).
  destruct (rank_compare_spec (float_rank x) (float_rank y)) as [Heq|Hlt|Hgt];
    destruct (rank_compare_spec (float_rank y) (float_rank x)) as [Heq'|Hlt'|Hgt'];
    try done; rank_absurd.
Qed.
End FloatOrder.

Section FloatNumbers.
Local Open Scope Z_scope.

Lemma shr_1_nonneg (r : shr_record) : 0 ≤ shr_m r → 0 ≤ shr_m (shr_1 r).
Proof. destruct r as [[|[p|p|]|p] r s]; simpl; lia. Qed.

Lemma iter_shr_1_nonneg (p : positive) (r : shr_record) :
  0 ≤ shr_m r → 0 ≤ shr_m (SpecFloat.iter_pos shr_1 p r).
Proof.
  revert r. induction p as [p IH|p IH|]; intros r Hr; simpl.
  - apply IH, IH. by apply shr_1_nonneg.
  - by apply IH, IH.
  - by apply shr_1_nonneg.
Qed.

Lemma shr_fexp_nonneg (prec emax m e : Z) (l : location) :
  0 ≤ m → 0 ≤ shr_m (shr_fexp prec emax m e l).1.
Proof.
  intros Hm. unfold shr_fexp, shr.
  assert (Hr : 0 ≤ shr_m (shr_record_of_loc m l)) by (by destruct l as [|[]]).
  destruct (_ - e); simpl; [done| |done]. by apply iter_shr_1_nonneg.
Qed.

Lemma round_nearest_even_nonneg (m : Z) (l : location) :
  0 ≤ m → 0 ≤ round_nearest_even m l.
Proof. intros Hm. destruct l as [|[]]; simpl; [done| |done|lia]. destruct (Z.even m); lia. Qed.

(** Rounding a non-negative mantissa gives a number. *)
Lemma binary_round_aux_number (prec emax : Z) (s : bool) (m e : Z) (l : location) :
  0 ≤ m → is_number (binary_round_aux prec emax s m e l) = true.
Proof.
  intros Hm. unfold binary_round_aux.
  pose proof (shr_fexp_nonneg prec emax m e l Hm) as H1.
  destruct (shr_fexp prec emax m e l) as [mrs' e']. simpl in H1.
  pose proof (shr_fexp_nonneg prec emax _ e' loc_Exact
                (round_nearest_even_nonneg _ (loc_of_shr_record mrs') H1)) as H2.
  destruct (shr_fexp prec emax _ e' loc_Exact) as [mrs'' e'']. simpl in H2.
  destruct (shr_m mrs'') as [|p|p]; [done| |lia]. by destruct (_ <=? _).
Qed.

Lemma binary_normalize_number (prec emax m e : Z) (szero : bool) :
  is_number (binary_normalize prec emax m e szero) = true.
Proof.
  destruct m as [|p|p]; simpl; [done|..]; unfold binary_round;
    destruct (shl_align _ _ _) as [mz ez]; by apply binary_round_aux_number.
Qed.

Lemma truediv_number (i n : nat) : n ≠ 0%nat → is_number (Float.truediv i n) = true.
Proof.
  intros Hn. unfold Float.truediv, Float.of_int.
  destruct n as [|n]; [done|]. destruct i as [|i]; [done|].
  unfold SFdiv, SFdiv_core_binary. cbv zeta.
  destruct (Z.div_eucl _ _) as [q r] eqn:Hq.
  apply binary_round_aux_number.
  change q with (q, r).1. rewrite <- Hq.
  match goal with |- 0 ≤ (Z.div_eucl ?a ?b).1 => change (0 ≤ a / b) end.
  apply Z.div_pos; [|lia].
  destruct (_ - _ - _) as [|s|s]; [lia| |lia]. apply Z.shiftl_nonneg. lia.
Qed.

Lemma decimal_finite (digits power : nat) :
  digits ≠ 0%nat → power ≠ 0%nat →
  is_number (Float.decimal digits power) = true.
Proof. intros _ Hp. by apply truediv_number. Qed.

Lemma add_number (x y : Float.float) s m e :
  is_number x = true → y = S754_finite s m e → is_number (Float.add x y) = true.
Proof.
  intros Hx ->. destruct x as [sx|sx| |sx mx ex]; try done.
  unfold Float.add, SFadd. apply binary_normalize_number.
Qed.

Lemma sub_number (x y : Float.float) s m e :
  is_number x = true → y = S754_finite s m e → is_number (Float.sub x y) = true.
Proof.
  intros Hx ->. destruct x as [sx|sx| |sx mx ex]; try done.
  unfold Float.sub, SFsub. apply binary_normalize_number.
Qed.

Lemma websearch_jaccard_number (a b : gset ustring) :
  is_number (WebsearchScores.jaccard a b) = true.
Proof.
  unfold WebsearchScores.jaccard. destruct (_ || _); [done|]. cbv zeta.
  destruct (Nat.eqb_spec (size (a ∪ b)) 0); [done|]. by apply truediv_number.
Qed.

Lemma legacy_jaccard_number (a b : gset ustring) :
  is_number (LegacyScores.jaccard a b) = true.
Proof.
  unfold LegacyScores.jaccard. destruct (_ || _); [done|]. cbv zeta.
  destruct (Nat.eqb_spec (size (a ∪ b)) 0); [done|]. by apply truediv_number.
Qed.

Context `{Unicode}.

Lemma websearch_score_number want track_title r :
  is_number (WebsearchScores.score_of want track_title r) = true.
Proof.
  unfold WebsearchScores.score_of. destruct r as [url t]. cbv zeta.
  pose proof (websearch_jaccard_number want (Websearch.token_set t)) as Hj.
  assert (Hb : is_number
                 (if bool_decide (Websearch.token_set track_title ≠ ∅)
                     && bool_decide (Websearch.token_set track_title ⊆ Websearch.token_set t)
                  then Float.add (WebsearchScores.jaccard want (Websearch.token_set t))
                         (Float.decimal 15 100)
                  else WebsearchScores.jaccard want (Websearch.token_set t)) = true).
  { destruct (_ && _); [|done]. by eapply add_number; [|vm_compute; reflexivity]. }
  destruct (contains _ url); [|done]. by eapply sub_number; [|vm_compute; reflexivity].
Qed.

Lemma legacy_score_number want track_title r :
  is_number (LegacyScores.score_of want track_title r) = true.
Proof.
  unfold LegacyScores.score_of. destruct r as [url t]. cbv zeta.
  pose proof (legacy_jaccard_number want (Legacy.token_set t)) as Hj.
  assert (Hb : is_number
                 (if bool_decide (Legacy.token_set track_title ≠ ∅)
                     && bool_decide (Legacy.token_set track_title ⊆ Legacy.token_set t)
                  then Float.add (LegacyScores.jaccard want (Legacy.token_set t))
                         (Float.decimal 15 100)
                  else LegacyScores.jaccard want (Legacy.token_set t)) = true).
  { destruct (_ && _); [|done]. by eapply add_number; [|vm_compute; reflexivity]. }
  destruct (contains _ url); [|done]. by eapply sub_number; [|vm_compute; reflexivity].
Qed.
End FloatNumbers.

Lemma sorted_nil_inv {A} (lt : A → A → bool) (l : list A) : sorted lt l = [] → l = [].
Proof.
  intros Hs. pose proof (sorted_Permutation lt l) as Hp. rewrite Hs in Hp.
  by apply Permutation_nil_l in Hp.
Qed.

Section BestFacts.
(** The order of the pairs (URL, title). *)
Local Abbreviation pair_lt ua ta ub tb :=
  (str_ltb ua ub || (bool_decide (ua = ub) && str_ltb ta tb))%bool.

Lemma pair_lt_asym (ua ta ub tb : ustring) :
  pair_lt ua ta ub tb = true → pair_lt ub tb ua ta = false.
Proof.
  rewrite orb_true_iff, andb_true_iff, bool_decide_eq_true.
  intros [Hu|[-> Ht]].
  - rewrite (str_ltb_asym _ _ Hu). simpl. apply andb_false_iff. left.
    apply bool_decide_eq_false. intros ->. by rewrite str_ltb_irrefl in Hu.
  - rewrite str_ltb_irrefl, (str_ltb_asym _ _ Ht). simpl. apply andb_false_r.
Qed.

Lemma pair_lt_negtrans (ua ta ub tb uc tc : ustring) :
  pair_lt ub tb ua ta = false → pair_lt uc tc ub tb = false → pair_lt uc tc ua ta = false.
Proof.
  rewrite !orb_false_iff, !andb_false_iff, !bool_decide_eq_false.
  intros [Hba Hba'] [Hcb Hcb'].
  pose proof (sorted_le_trans str_ltb str_ltb_trans str_ltb_total ua ub uc Hba Hcb) as Hca.
  split; [done|].
  destruct (decide (uc = ua)) as [->|Hne]; [|by left]. right.
  assert (ub = ua) as -> by (by apply str_ltb_total).
  destruct Hba' as [?|Hba']; [done|]. destruct Hcb' as [?|Hcb']; [done|].
  apply (sorted_le_trans str_ltb str_ltb_trans str_ltb_total ta tb tc Hba' Hcb').
Qed.

(** A tuple whose score is a number. *)
Local Abbreviation scored_number := (λ a : Float.float * ustring * ustring, is_number a.1.1 = true).

Lemma tuple_lt_asym (a b : Float.float * ustring * ustring) :
  scored_number a → scored_number b →
  Float.tuple_lt a b = true → Float.tuple_lt b a = false.
Proof.
  destruct a as [[sa ua] ta], b as [[sb ub] tb]. simpl. intros Ha Hb.
  destruct (float_cases sa sb Ha Hb) as [(-> & -> & _)|[(-> & -> & -> & -> & _)|(-> & -> & -> & -> & _)]];
    [apply pair_lt_asym|done..].
Qed.

Lemma tuple_lt_negtrans (a b c : Float.float * ustring * ustring) :
  scored_number a → scored_number b → scored_number c →
  Float.tuple_lt b a = false → Float.tuple_lt c b = false → Float.tuple_lt c a = false.
Proof.
  destruct a as [[sa ua] ta], b as [[sb ub] tb], c as [[sc uc] tc]. simpl. intros Ha Hb Hc.
  destruct (float_cases sb sa Hb Ha) as [(-> & _ & _ & _ & Hba)|[(-> & _ & -> & _ & Hba)|(-> & _ & -> & _ & Hba)]];
    destruct (float_cases sc sb Hc Hb) as [(-> & _ & _ & _ & Hcb)|[(-> & _ & -> & _ & Hcb)|(-> & _ & -> & _ & Hcb)]];
    destruct (float_cases sc sa Hc Ha) as [(-> & _ & _ & _ & Hca)|[(-> & _ & -> & _ & Hca)|(-> & _ & -> & _ & Hca)]];
    try done; try apply pair_lt_negtrans; intros _ _; rank_absurd.
Qed.

Lemma tuple_lt_score (a b : Float.float * ustring * ustring) :
  scored_number a → scored_number b →
  Float.tuple_lt a b = false → Float.ltb a.1.1 b.1.1 = false.
Proof.
  destruct a as [[sa ua] ta], b as [[sb ub] tb]. simpl. intros Ha Hb.
  by destruct (float_cases sa sb Ha Hb) as [(-> & _ & -> & _)|[(-> & _ & -> & _)|(-> & _ & -> & _)]].
Qed.

(** Nothing in the list is smaller than the head of the sorted list, for
    an order that is strict and weak on the members of the list. *)
Lemma sorted_head_within {A} (lt : A → A → bool) (P : A → Prop) :
  (∀ a b, P a → P b → lt a b = true → lt b a = false) →
  (∀ a b c, P a → P b → P c → lt b a = false → lt c b = false → lt c a = false) →
  ∀ l x rest, Forall P l → sorted lt l = x :: rest → ∀ y, y ∈ l → lt y x = false.
Proof.
  intros Hasym Hneg.
  assert (Hirr : ∀ a, P a → lt a a = false).
  { intros a Ha. destruct (lt a a) eqn:E; [|done]. by rewrite (Hasym a a Ha Ha E) in E. }
  induction l as [|z l IH]; intros x rest Hl Heq y Hy; [by apply elem_of_nil in Hy|].
  apply Forall_cons in Hl as [Hz Hl]. simpl in Heq.
  assert (HP : Forall P (sorted lt l)) by (by rewrite (sorted_Permutation lt l)).
  destruct (sorted lt l) as [|h tl] eqn:Hs.
  - apply sorted_nil_inv in Hs as ->. simpl in Heq. injection Heq as <- _.
    apply list_elem_of_singleton in Hy as ->. by apply Hirr.
  - apply Forall_cons in HP as [Hh _]. simpl in Heq.
    assert (Hyl : ∀ y, y ∈ l → P y) by (by apply Forall_forall).
    destruct (lt h z) eqn:Hhz; injection Heq as <- _.
    + apply elem_of_cons in Hy as [->|Hy]; [by apply Hasym|]. by apply (IH h tl).
    + apply elem_of_cons in Hy as [->|Hy]; [by apply Hirr|].
      apply (Hneg z h y); [done|done|by apply Hyl|done|]. by apply (IH h tl).
Qed.

(** The candidate at the head of the sorted scores. *)
Lemma best_of_scored (score : ustring * ustring → Float.float)
    (results : list (ustring * ustring))
    (best : Float.float * ustring * ustring) (rest : list (Float.float * ustring * ustring)) :
  (∀ r, is_number (score r) = true) →
  sorted (λ a b, Float.tuple_lt b a) (map (λ r, (score r, r.1, r.2)) results) = best :: rest →
  ∃ r, r ∈ results ∧ best = (score r, r.1, r.2)
       ∧ ∀ r', r' ∈ results →
           Float.ltb (score r) (score r') = false
           ∧ (Float.eqb (score r) (score r') = true → str_ltb r.1 r'.1 = false).
Proof.
  intros Hnum Heq.
  assert (Hin : best ∈ map (λ r, (score r, r.1, r.2)) results).
  { apply (sorted_elem_of (λ a b, Float.tuple_lt b a)). rewrite Heq. by left. }
  apply list_elem_of_fmap in Hin as (r & -> & Hr).
  exists r. split_and!; [done..|]. intros r' Hr'.
  assert (Hle : Float.tuple_lt (score r, r.1, r.2) (score r', r'.1, r'.2) = false).
  { apply (sorted_head_within (λ a b, Float.tuple_lt b a) scored_number)
      with (l := map (λ r, (score r, r.1, r.2)) results) (rest := rest).
    - intros a b Ha Hb. by apply tuple_lt_asym.
    - intros a b c Ha Hb Hc Hab Hbc. by apply (tuple_lt_negtrans c b a).
    - apply Forall_fmap, Forall_forall. intros x _. apply Hnum.
    - done.
    - apply list_elem_of_fmap. by exists r'. }
  split; [apply (tuple_lt_score (score r, r.1, r.2) (score r', r'.1, r'.2));
          [apply Hnum..|done]|].
  intros He. simpl in Hle. rewrite He in Hle. by apply orb_false_iff in Hle as [? _].
Qed.

Lemma below_not_reached (x : Float.float) :
  is_number x = true → Float.ltb x (Float.decimal 35 100) = true →
  Float.geb x (Float.decimal 35 100) = false.
Proof. intros Hx Hlt. rewrite geb_ltb by done. by rewrite Hlt. Qed.
End BestFacts.

(** X8.  [pick_best_web_result] (in [websearch.py] and in [legacy_sync.py]),
    the scores being the binary64 numbers the interpreter computes: every
    score is a number; a result is the video id parsed from the URL of a
    candidate whose score is at least 0.35 and not less than the score of
    any candidate, and whose URL is the last in the order of strings among
    the candidates of equal score; when every score is below 0.35 there is
    no result.  (When the URL of the candidate ranked first cannot be
    parsed there is no result either: the second-best candidate is never
    considered.) *)
Theorem pick_best_is_maximal `{Unicode} `{Utils.Urllib} (results : list (ustring * ustring))
    (track_title : ustring) (artists : list ustring) :
  (∀ r, is_number (legacy_score track_title artists r) = true
        ∧ is_number (websearch_score track_title artists r) = true)
  ∧ (∀ v, LegacyScores.pick_best_web_result results track_title artists = Some v →
       ∃ r, r ∈ results ∧ Legacy.parse_youtube_video_id r.1 = Some v
            ∧ Float.geb (legacy_score track_title artists r) (Float.decimal 35 100) = true
            ∧ ∀ r', r' ∈ results →
                Float.ltb (legacy_score track_title artists r)
                  (legacy_score track_title artists r') = false
                ∧ (Float.eqb (legacy_score track_title artists r)
                     (legacy_score track_title artists r') = true →
                   str_ltb r.1 r'.1 = false))
  ∧ (Forall (λ r, Float.ltb (legacy_score track_title artists r) (Float.decimal 35 100) = true)
       results →
     LegacyScores.pick_best_web_result results track_title artists = None)
  ∧ (∀ v, WebsearchScores.pick_best_web_result results track_title artists = Some v →
       ∃ r, r ∈ results ∧ Utils.parse_youtube_video_id r.1 = Some v
            ∧ Float.geb (websearch_score track_title artists r) (Float.decimal 35 100) = true
            ∧ ∀ r', r' ∈ results →
                Float.ltb (websearch_score track_title artists r)
                  (websearch_score track_title artists r') = false
                ∧ (Float.eqb (websearch_score track_title artists r)
                     (websearch_score track_title artists r') = true →
                   str_ltb r.1 r'.1 = false))
  ∧ (Forall (λ r, Float.ltb (websearch_score track_title artists r) (Float.decimal 35 100) = true)
       results →
     WebsearchScores.pick_best_web_result results track_title artists = None)
  ∧ LegacyScores.pick_best_web_result [] track_title artists = None
  ∧ WebsearchScores.pick_best_web_result [] track_title artists = None.
Proof.
  assert (Hl : ∀ r, is_number (legacy_score track_title artists r) = true)
    by (intros r; apply legacy_score_number).
  assert (Hw : ∀ r, is_number (websearch_score track_title artists r) = true)
    by (intros r; apply websearch_score_number).
  split_and!; [by intros r| | | | |done|done].
  - intros v. unfold LegacyScores.pick_best_web_result, LegacyScores.scored.
    destruct results as [|r0 results0] eqn:Hres; [done|]. rewrite <- Hres.
    fold (legacy_score track_title artists).
    destruct (sorted _ _) as [|[[best_score best_url] best_title] rest] eqn:Hs; [done|].
    destruct (best_of_scored _ _ _ _ Hl Hs) as (r & Hr & [= -> -> ->] & Hmax).
    destruct (Float.geb _ _) eqn:Hq; [|done].
    intros Hv. by exists r.
  - intros Hlow. unfold LegacyScores.pick_best_web_result, LegacyScores.scored.
    destruct results as [|r0 results0] eqn:Hres; [done|]. rewrite <- Hres.
    fold (legacy_score track_title artists).
    destruct (sorted _ _) as [|[[best_score best_url] best_title] rest] eqn:Hs; [done|].
    destruct (best_of_scored _ _ _ _ Hl Hs) as (r & Hr & [= -> -> ->] & Hmax).
    rewrite <- Hres in Hlow. rewrite Forall_forall in Hlow. specialize (Hlow r Hr).
    by rewrite (below_not_reached _ (Hl r) Hlow).
  - intros v. unfold WebsearchScores.pick_best_web_result, WebsearchScores.scored.
    destruct results as [|r0 results0] eqn:Hres; [done|]. rewrite <- Hres.
    fold (websearch_score track_title artists).
    destruct (sorted _ _) as [|[[best_score best_url] best_title] rest] eqn:Hs; [done|].
    destruct (best_of_scored _ _ _ _ Hw Hs) as (r & Hr & [= -> -> ->] & Hmax).
    destruct (Float.geb _ _) eqn:Hq; [|done].
    intros Hv. by exists r.
  - intros Hlow. unfold WebsearchScores.pick_best_web_result, WebsearchScores.scored.
    destruct results as [|r0 results0] eqn:Hres; [done|]. rewrite <- Hres.
    fold (websearch_score track_title artists).
    destruct (sorted _ _) as [|[[best_score best_url] best_title] rest] eqn:Hs; [done|].
    destruct (best_of_scored _ _ _ _ Hw Hs) as (r & Hr & [= -> -> ->] & Hmax).
    rewrite <- Hres in Hlow. rewrite Forall_forall in Hlow. specialize (Hlow r Hr).
    by rewrite (below_not_reached _ (Hw r) Hlow).
Qed.

(** Rounding decides between candidates whose scores are the same fraction:
    5/12 as one quotient is the float above 4/15 + 0.15, so the first
    candidate is picked, where exact fractions tie and leave the choice to
    the URLs. *)
Lemma rounding_decides_close_scores :
  map (@legacy_score ascii_tables close_title close_artists) close_results
  = [Float.truediv 5 12; Float.add (Float.truediv 4 15) (Float.decimal 15 100)]
  ∧ map (@websearch_score ascii_tables close_title close_artists) close_results
    = [Float.truediv 5 12; Float.add (Float.truediv 4 15) (Float.decimal 15 100)]
  ∧ Float.ltb (Float.add (Float.truediv 4 15) (Float.decimal 15 100)) (Float.truediv 5 12) = true
  ∧ @LegacyScores.pick_best_web_result ascii_tables short_links close_results close_title
      close_artists = Some (u "AAA")
  ∧ @WebsearchScores.pick_best_web_result ascii_tables short_links close_results close_title
      close_artists = Some (u "AAA")
  ∧ @Legacy.pick_best_web_result ascii_tables short_links close_results close_title
      close_artists = Some (u "BBB")
  ∧ @Websearch.pick_best_web_result ascii_tables short_links close_results close_title
      close_artists = Some (u "BBB").
Proof. split_and!; vm_compute; reflexivity. Qed.


(** ** The words of [websearch.token_set] *)

Lemma fields_go_Forall (P : N → Prop) (sep : N → bool) (cur s : ustring) :
  Forall P cur → Forall (λ c, sep c = false → P c) s →
  Forall (Forall P) (fields_go sep cur s).
Proof.
  intros Hcur Hs. revert cur Hcur.
  induction Hs as [|c s Hc Hs IH]; intros cur Hcur; simpl.
  - destruct cur; [done|]. constructor; [by apply Forall_rev|done].
  - destruct (sep c) eqn:E.
    + destruct cur; [by apply IH|]. constructor; [by apply Forall_rev|by apply IH].
    + apply IH. constructor; [by apply Hc|done].
Qed.

Lemma fields_go_nonempty (sep : N → bool) (cur s : ustring) :
  Forall (λ w, w ≠ []) (fields_go sep cur s).
Proof.
  revert cur. induction s as [|c s IH]; intros cur; simpl.
  - destruct cur as [|a cur]; [done|]. constructor; [|done].
    intros Hr. apply (f_equal (@length N)) in Hr. rewrite length_rev in Hr. done.
  - destruct (sep c); [|apply IH].
    destruct cur as [|a cur]; [apply IH|]. constructor; [|apply IH].
    intros Hr. apply (f_equal (@length N)) in Hr. rewrite length_rev in Hr. done.
Qed.

(** X9.  Every word of [websearch.token_set] is a non-empty run of
    alphanumeric characters and is none of the eleven stop words. *)
Theorem websearch_token_set_words `{Unicode} (text w : ustring) :
  w ∈ Websearch.token_set text →
  w ≠ [] ∧ Forall (λ c, isalnum c = true) w ∧ w ∉ Websearch.stop_words.
Proof.
  unfold Websearch.token_set. cbv zeta.
  rewrite elem_of_list_to_set, list_elem_of_filter. intros [[Hne Hstop] Hw].
  split_and!; [done| |done].
  unfold split_ws in Hw. rewrite split_ws_go_fields in Hw.
  eapply Forall_forall in Hw; [exact Hw|].
  apply fields_go_Forall; [done|]. apply Forall_fmap, Forall_forall. intros c _. simpl.
  destruct (isalnum c) eqn:E; [done|]. by rewrite isspace_space.
Qed.

Lemma websearch_token_set_words_witness :
  u "song" ≠ [] ∧ Forall (λ c, @isalnum ascii_tables c = true) (u "song")
  ∧ u "song" ∉ Websearch.stop_words.
Proof.
  apply (@websearch_token_set_words ascii_tables (u "The Song (Official) video")).
  by apply (bool_decide_unpack _); vm_compute.
Defined.

(** ** Comparing again *)

Section ReconcileAgain.
Context `{Unicode}.

Local Abbreviation loose := (loose_of Legacy.key_loose).
Local Abbreviation title := (title_of Legacy.key_title_only).

Lemma dict_set_Forall {V} (P : ustring * V → Prop) (k : ustring) (v : V)
    (d : list (ustring * V)) :
  P (k, v) → Forall P d → Forall P (Legacy.dict_set k v d).
Proof.
  intros Hkv Hd. induction Hd as [|[k' v'] d Hk Hd IH]; simpl; [by repeat constructor|].
  destruct (bool_decide (k' = k)); by constructor.
Qed.

(** Every entry of the dictionary is a source track under its own key. *)
Lemma src_map_entries (src_tracks : list Track) :
  Forall (λ kt, kt.1 = loose kt.2 ∧ kt.2 ∈ src_tracks) (Legacy.src_map src_tracks).
Proof.
  unfold Legacy.src_map.
  assert (Hgen : ∀ done_ d,
            Forall (λ kt : ustring * Track, kt.1 = loose kt.2 ∧ kt.2 ∈ done_) d →
            Forall (λ kt, kt.1 = loose kt.2 ∧ kt.2 ∈ done_ ++ src_tracks)
              (fold_left (λ d t, Legacy.dict_set (Legacy.key_loose (name t) (artists t)) t d)
                 src_tracks d)).
  { induction src_tracks as [|t rest IH]; intros done_ d Hd; simpl.
    - by rewrite app_nil_r.
    - replace (done_ ++ t :: rest) with ((done_ ++ [t]) ++ rest) by (by rewrite <- app_assoc).
      apply IH. apply dict_set_Forall.
      + split; [done|]. simpl. apply elem_of_app. right. by left.
      + eapply Forall_impl; [exact Hd|]. intros kt [? ?]. split; [done|].
        apply elem_of_app. by left. }
  apply (Hgen [] []). constructor.
Qed.

Lemma to_add_loop_values (items : list (ustring * Track)) (keys titles : gset ustring)
    (acc : list Track) :
  Forall (λ kt, kt.1 = loose kt.2) items →
  Legacy.to_add_loop items keys titles acc
  = acc ++ filter (λ t, (loose t ∉ keys) ∧ (title t ∉ titles)) (map snd items).
Proof.
  intros Hitems. revert acc.
  induction Hitems as [|[k t] items Hk Hitems IH]; intros acc; simpl.
  - by rewrite app_nil_r.
  - simpl in Hk. subst k. fold (title t). rewrite filter_cons.
    destruct (decide ((loose t ∉ keys) ∧ (title t ∉ titles))) as [[H1 H2]|Hn].
    + rewrite !bool_decide_eq_false_2 by done. simpl.
      rewrite IH. by rewrite <- app_assoc.
    + destruct (bool_decide (loose t ∈ keys)) eqn:E1; simpl; [apply IH|].
      destruct (bool_decide (title t ∈ titles)) eqn:E2; simpl; [apply IH|].
      apply bool_decide_eq_false in E1, E2. by destruct Hn.
Qed.

(** What is missing: the tracks of the dictionary that are absent from
    the destination, in the order of the dictionary. *)
Lemma to_add_values (src_tracks dst_tracks : list Track) :
  Legacy.to_add src_tracks dst_tracks
  = filter (absent_from dst_tracks) (map snd (Legacy.src_map src_tracks)).
Proof.
  unfold Legacy.to_add. rewrite to_add_loop_values; [done|].
  eapply Forall_impl; [apply src_map_entries|]. by intros kt [? _].
Qed.

Lemma filter_nil_Forall {A} (P : A → Prop) `{∀ a, Decision (P a)} (l : list A) :
  Forall (λ a, ¬ P a) l → filter P l = [].
Proof.
  induction 1 as [|a l Ha _ IH]; [done|]. by rewrite filter_cons, decide_False.
Qed.

Lemma filter_all {A} (P : A → Prop) `{∀ a, Decision (P a)} (l : list A) :
  Forall P l → filter P l = l.
Proof.
  induction 1 as [|a l Ha _ IH]; [done|]. by rewrite filter_cons, decide_True, IH.
Qed.

Lemma filter_sublist_impl {A} (P Q : A → Prop) `{∀ a, Decision (P a)} `{∀ a, Decision (Q a)}
    (l : list A) :
  (∀ a, P a → Q a) → sublist (filter P l) (filter Q l).
Proof.
  intros HPQ. induction l as [|a l IH]; [done|]. rewrite !filter_cons.
  destruct (decide (P a)) as [HP|HP].
  - rewrite decide_True by auto. by constructor.
  - destruct (decide (Q a)); [by constructor|done].
Qed.

Lemma present_not_absent (dst_tracks : list Track) (t : Track) :
  t ∈ dst_tracks → ¬ absent_from dst_tracks t.
Proof.
  intros Hin [Hk _]. apply Hk. unfold Legacy.dst_keyset.
  apply elem_of_list_to_set, list_elem_of_fmap. by exists t.
Qed.

Lemma absent_from_more (dst_tracks dst_tracks' : list Track) (t : Track) :
  (∀ d, d ∈ dst_tracks → d ∈ dst_tracks') →
  absent_from dst_tracks' t → absent_from dst_tracks t.
Proof.
  intros Hsub [Hk Ht]. unfold absent_from, Legacy.dst_keyset, Legacy.dst_titles in *.
  rewrite !elem_of_list_to_set, !list_elem_of_fmap in *.
  split; intros (d & Hd & Hin); [apply Hk|apply Ht]; exists d; auto.
Qed.
End ReconcileAgain.

Lemma to_add_empty_destination `{Unicode} (src_tracks : list Track) :
  Legacy.to_add (Legacy.deduplicate_tracks src_tracks) []
  = Legacy.deduplicate_tracks src_tracks.
Proof.
  rewrite to_add_distinct by apply dedupe_loose_NoDup.
  apply filter_all. apply Forall_forall. intros t _.
  unfold absent_from, Legacy.dst_keyset, Legacy.dst_titles. simpl. set_solver.
Qed.

(** X10.  The comparison of [main] is add-only and settles: once the missing
    tracks have joined the destination, comparing again finds nothing
    missing; nothing is missing when every source track is in the
    destination (a playlist compared with itself); a larger destination
    never leaves more to add; and against an empty destination every
    deduplicated source track is missing. *)
Theorem reconcile_settles `{Unicode} (src_tracks dst_tracks : list Track) :
  Legacy.to_add src_tracks (dst_tracks ++ Legacy.to_add src_tracks dst_tracks) = []
  ∧ Legacy.to_add src_tracks src_tracks = []
  ∧ ((∀ t, t ∈ src_tracks → t ∈ dst_tracks) → Legacy.to_add src_tracks dst_tracks = [])
  ∧ (∀ dst_tracks', (∀ d, d ∈ dst_tracks → d ∈ dst_tracks') →
       sublist (Legacy.to_add src_tracks dst_tracks') (Legacy.to_add src_tracks dst_tracks))
  ∧ Legacy.to_add (Legacy.deduplicate_tracks src_tracks) []
    = Legacy.deduplicate_tracks src_tracks.
Proof.
  assert (Hall : ∀ dst, (∀ t, t ∈ src_tracks → t ∈ dst) → Legacy.to_add src_tracks dst = []).
  { intros dst Hsub. rewrite to_add_values. apply filter_nil_Forall.
    apply Forall_fmap. eapply Forall_impl; [apply src_map_entries|].
    intros [k t] [_ Hin]. simpl in *. by apply present_not_absent, Hsub. }
  split_and!.
  - rewrite (to_add_values src_tracks (dst_tracks ++ _)). apply filter_nil_Forall.
    apply Forall_forall. intros t Ht Habs.
    destruct (decide (absent_from dst_tracks t)) as [Ha|Hn].
    + apply (present_not_absent (dst_tracks ++ Legacy.to_add src_tracks dst_tracks) t);
        [|done].
      apply elem_of_app. right. rewrite to_add_values. by apply list_elem_of_filter.
    + apply Hn. apply (absent_from_more _ (dst_tracks ++ Legacy.to_add src_tracks dst_tracks));
        [|done].
      intros d Hd. apply elem_of_app. by left.
  - by apply Hall.
  - apply Hall.
  - intros dst_tracks' Hsub. rewrite !to_add_values.
    apply filter_sublist_impl. intros t. by apply absent_from_more.
  - apply to_add_empty_destination.
Qed.

(** ** Near duplicates, as a whole *)

Lemma sublist_full {A} (l1 l2 : list A) :
  sublist l1 l2 → length l2 ≤ length l1 → l1 = l2.
Proof.
  induction 1 as [|x l1 l2 Hs IH|x l1 l2 Hs IH]; simpl; intros Hlen; [done| |].
  - f_equal. apply IH. lia.
  - apply sublist_length in Hs. lia.
Qed.

Section DetectAgain.
Context `{Unicode} {float : Type}.
Context (ratio : ustring → ustring → float) (ge : float → float → bool) (threshold : float).

Local Abbreviation sim := (similar ratio ge threshold).
Local Abbreviation loop tracks := (Manager.detect_loop ratio ge tracks threshold).

Lemma kept_apart_snoc (kept : list Track) (t : Track) :
  kept_apart sim kept → Forall (λ k, sim t k = false) kept → kept_apart sim (kept ++ [t]).
Proof.
  intros Hk Ht before keeper after Heq.
  destruct after as [|a after _] using rev_ind.
  - apply app_inj_tail in Heq as [<- <-]. done.
  - rewrite app_comm_cons, app_assoc in Heq. apply app_inj_tail in Heq as [-> _].
    by apply (Hk before keeper after).
Qed.

Lemma first_similar_spec (t : Track) (kept : list Track) :
  match Manager.first_similar ratio ge t kept threshold with
  | Some keeper => keeper ∈ kept ∧ sim t keeper = true
  | None => Forall (λ k, sim t k = false) kept
  end.
Proof.
  unfold Manager.first_similar.
  pose proof (find_first (λ keeper, Manager._is_similar ratio ge t keeper
                            (Utils.clean_title (name t))
                            (list_to_set (Utils.clean_artists (artists t))) threshold) kept)
    as Hf.
  destruct (find _ kept) as [keeper|]; [|exact Hf].
  destruct Hf as (before & after & -> & Hs & _). split; [|exact Hs].
  apply elem_of_app. right. by left.
Qed.

Lemma detect_loop_invariant (tracks kept dups : list Track) (log : list (Track * Track)) :
  kept_apart sim kept →
  Forall (λ p, p.2 ∈ kept ∧ sim p.1 p.2 = true) log →
  let '(kept', dups', log') := loop tracks kept dups log in
  kept_apart sim kept'
  ∧ Forall (λ p, p.2 ∈ kept' ∧ sim p.1 p.2 = true) log'
  ∧ (∀ k, k ∈ kept → k ∈ kept')
  ∧ (kept ≠ [] → head kept' = head kept)
  ∧ (kept = [] → head kept' = head tracks).
Proof.
  revert kept dups log. induction tracks as [|t tracks IH]; intros kept dups log Hk Hlog; simpl.
  - split_and!; try done. by intros ->.
  - pose proof (first_similar_spec t kept) as Hf.
    destruct (Manager.first_similar ratio ge t kept threshold) as [keeper|].
    + destruct Hf as [Hin Hs].
      specialize (IH kept (dups ++ [t]) (log ++ [(t, keeper)]) Hk).
      destruct (Manager.detect_loop _ _ _ _ _ _ _) as [[kept' dups'] log'].
      destruct IH as (H1 & H2 & H3 & H4 & H5).
      { apply Forall_app. split; [done|]. by repeat constructor. }
      split_and!; try done. intros ->. by apply elem_of_nil in Hin.
    + specialize (IH (kept ++ [t]) dups log (kept_apart_snoc kept t Hk Hf)).
      destruct (Manager.detect_loop _ _ _ _ _ _ _) as [[kept' dups'] log'].
      destruct IH as (H1 & H2 & H3 & H4 & H5).
      { eapply Forall_impl; [exact Hlog|]. intros p [? ?]. split; [|done].
        apply elem_of_app. by left. }
      split_and!; try done.
      * intros k Hin. apply H3, elem_of_app. by left.
      * intros Hne. rewrite H4 by (by destruct kept). by destruct kept.
      * intros ->. by rewrite H4.
Qed.
End DetectAgain.

Section DetectNone.
Context `{Unicode} {float : Type}.
Context (ratio : ustring → ustring → float) (ge : float → float → bool) (threshold : float).

Lemma kept_apart_prefix (tracks : list Track) (t : Track) :
  kept_apart (similar ratio ge threshold) (tracks ++ [t]) →
  kept_apart (similar ratio ge threshold) tracks
  ∧ Forall (λ k, similar ratio ge threshold t k = false) tracks.
Proof.
  intros Hk. split.
  - intros before keeper after ->. apply (Hk before keeper (after ++ [t])).
    by rewrite <- app_assoc.
  - by apply (Hk tracks t []).
Qed.

(** When no track is similar to an earlier one, every track is kept. *)
Lemma detected_all_kept (tracks : list Track) :
  kept_apart (similar ratio ge threshold) tracks →
  detected ratio ge threshold tracks = (tracks, [], []).
Proof.
  induction tracks as [|t tracks IH] using rev_ind; [done|].
  intros [Hk Ht]%kept_apart_prefix. unfold detected in *.
  rewrite detect_loop_app, (IH Hk). cbn [Manager.detect_loop].
  pose proof (first_similar_spec ratio ge threshold t tracks) as Hf.
  destruct (Manager.first_similar ratio ge t tracks threshold) as [keeper|]; [|done].
  destruct Hf as [Hin Hs]. rewrite Forall_forall in Ht. by rewrite (Ht keeper Hin) in Hs.
Qed.
End DetectNone.

(** X11.  [_detect_duplicates], over the whole playlist: no kept track is
    similar to a track kept before it; every track reported as a duplicate
    is similar to a kept track; the first track of the playlist is always
    kept; and nothing is reported exactly when no track of the playlist is
    similar to a track before it, in which case every track is kept. *)
Theorem detect_duplicates_kept_apart `{Unicode} {float : Type}
    (ratio : ustring → ustring → float) (ge : float → float → bool) (threshold : float)
    (tracks : list Track) :
  let '(kept, duplicates, log) := detected ratio ge threshold tracks in
  kept_apart (similar ratio ge threshold) kept
  ∧ (∀ d, d ∈ Manager._detect_duplicates ratio ge tracks threshold →
       ∃ keeper, keeper ∈ kept ∧ similar ratio ge threshold d keeper = true)
  ∧ head kept = head tracks
  ∧ (Manager._detect_duplicates ratio ge tracks threshold = []
     ↔ ∀ before track after,
         tracks = before ++ track :: after →
         Forall (λ earlier, similar ratio ge threshold track earlier = false) before)
  ∧ (Manager._detect_duplicates ratio ge tracks threshold = [] → kept = tracks).
Proof.
  pose proof (detected_all_kept ratio ge threshold tracks) as Hnone.
  unfold Manager._detect_duplicates, detected in *.
  pose proof (detect_loop_invariant ratio ge threshold tracks [] [] []) as Hinv.
  pose proof (detect_loop_partition ratio ge threshold tracks [] [] []) as Hpart.
  destruct (Manager.detect_loop ratio ge tracks threshold [] [] []) as [[kept dups] log] eqn:Hrun.
  destruct Hinv as (Hk & Hlog & _ & _ & Hhd).
  { intros before keeper after Heq. by destruct before. }
  { constructor. }
  destruct Hpart as (k & d & -> & -> & Hp & Hsk & Hsd & Hfst). simpl in *.
  assert (Hall : d = [] → k = tracks).
  { intros ->. rewrite app_nil_r in Hp. apply sublist_full; [done|]. by rewrite Hp. }
  split_and!.
  - done.
  - intros x Hx. rewrite <- Hfst in Hx. apply list_elem_of_fmap in Hx as ([x' keeper] & -> & Hin).
    rewrite Forall_forall in Hlog. destruct (Hlog _ Hin) as [? ?]. by exists keeper.
  - by apply Hhd.
  - split.
    + intros Hd. rewrite <- (Hall Hd). exact Hk.
    + intros Hapart. by injection (Hnone Hapart) as _ -> _.
  - done.
Qed.

Import Run.

(** ** Retrying *)

Section RetryFacts.
Context `{Unicode}.

(** What [retry_loop] does with the answers of the service. *)
Lemma retry_loop_outcome (left : nat) (c : call) (w : World) :
  ∃ n, 1 ≤ n ≤ S left
    ∧ (∀ i, i < n - 1 → retriable (replies w !! i) = true)
    ∧ (n ≤ left → retriable (replies w !! (n - 1)) = false)
    ∧ (Legacy.retry_loop left (execute c) w).1 = answer_of (replies w !! (n - 1))
    ∧ trace (Legacy.retry_loop left (execute c) w).2 = trace w ++ replicate n (Called c)
    ∧ replies (Legacy.retry_loop left (execute c) w).2 = drop n (replies w)
    ∧ STATE (Legacy.retry_loop left (execute c) w).2
      = (if quota_answer (replies w !! (n - 1))
         then set_yt_search_disabled true (STATE w) else STATE w)
    ∧ stdin (Legacy.retry_loop left (execute c) w).2 = stdin w
    ∧ cache_data (Legacy.retry_loop left (execute c) w).2 = cache_data w
    ∧ added_video_ids (Legacy.retry_loop left (execute c) w).2 = added_video_ids w
    ∧ pending_web_adds (Legacy.retry_loop left (execute c) w).2 = pending_web_adds w
    ∧ PLAN_MODE_ONLY (Legacy.retry_loop left (execute c) w).2 = PLAN_MODE_ONLY w.
Proof.
  revert w. induction left as [|left IH]; intros w.
  - exists 1. simpl. unfold try_except, execute. simpl.
    destruct (replies w) as [|[rows|e] rest] eqn:Hr; simpl.
    + split_and!; try done; lia.
    + split_and!; try done; lia.
    + destruct e as [st text|st| | |]; simpl;
        try (split_and!; try done; lia).
      destruct (bool_decide (st = Some 403%Z) && Legacy.quota_text text) eqn:Hq; simpl;
        split_and!; try done; lia.
  - assert (Hone : ∀ (r : result (list (ustring * ustring))) (w' : World),
              Legacy.retry_loop (S left) (execute c) w = (r, w') →
              r = answer_of (replies w !! 0) →
              retriable (replies w !! 0) = false →
              trace w' = trace w ++ [Called c] → replies w' = drop 1 (replies w) →
              STATE w' = (if quota_answer (replies w !! 0)
                          then set_yt_search_disabled true (STATE w) else STATE w) →
              stdin w' = stdin w → cache_data w' = cache_data w →
              added_video_ids w' = added_video_ids w →
              pending_web_adds w' = pending_web_adds w →
              PLAN_MODE_ONLY w' = PLAN_MODE_ONLY w →
              ∃ n, 1 ≤ n ≤ S (S left)
                ∧ (∀ i, i < n - 1 → retriable (replies w !! i) = true)
                ∧ (n ≤ S left → retriable (replies w !! (n - 1)) = false)
                ∧ (Legacy.retry_loop (S left) (execute c) w).1
                  = answer_of (replies w !! (n - 1))
                ∧ trace (Legacy.retry_loop (S left) (execute c) w).2
                  = trace w ++ replicate n (Called c)
                ∧ replies (Legacy.retry_loop (S left) (execute c) w).2 = drop n (replies w)
                ∧ STATE (Legacy.retry_loop (S left) (execute c) w).2
                  = (if quota_answer (replies w !! (n - 1))
                     then set_yt_search_disabled true (STATE w) else STATE w)
                ∧ stdin (Legacy.retry_loop (S left) (execute c) w).2 = stdin w
                ∧ cache_data (Legacy.retry_loop (S left) (execute c) w).2 = cache_data w
                ∧ added_video_ids (Legacy.retry_loop (S left) (execute c) w).2
                  = added_video_ids w
                ∧ pending_web_adds (Legacy.retry_loop (S left) (execute c) w).2
                  = pending_web_adds w
                ∧ PLAN_MODE_ONLY (Legacy.retry_loop (S left) (execute c) w).2
                  = PLAN_MODE_ONLY w).
    { intros r w' -> -> Hnot Ht Hrep Hst Hin Hca Had Hpe Hpl. exists 1. simpl.
      split_and!; try done; lia. }
    assert (Hmore : ∀ (w1 : World),
              Legacy.retry_loop (S left) (execute c) w
              = Legacy.retry_loop left (execute c) w1 →
              retriable (replies w !! 0) = true →
              trace w1 = trace w ++ [Called c] → replies w1 = drop 1 (replies w) →
              STATE w1 = STATE w → stdin w1 = stdin w → cache_data w1 = cache_data w →
              added_video_ids w1 = added_video_ids w →
              pending_web_adds w1 = pending_web_adds w →
              PLAN_MODE_ONLY w1 = PLAN_MODE_ONLY w →
              ∃ n, 1 ≤ n ≤ S (S left)
                ∧ (∀ i, i < n - 1 → retriable (replies w !! i) = true)
                ∧ (n ≤ S left → retriable (replies w !! (n - 1)) = false)
                ∧ (Legacy.retry_loop (S left) (execute c) w).1
                  = answer_of (replies w !! (n - 1))
                ∧ trace (Legacy.retry_loop (S left) (execute c) w).2
                  = trace w ++ replicate n (Called c)
                ∧ replies (Legacy.retry_loop (S left) (execute c) w).2 = drop n (replies w)
                ∧ STATE (Legacy.retry_loop (S left) (execute c) w).2
                  = (if quota_answer (replies w !! (n - 1))
                     then set_yt_search_disabled true (STATE w) else STATE w)
                ∧ stdin (Legacy.retry_loop (S left) (execute c) w).2 = stdin w
                ∧ cache_data (Legacy.retry_loop (S left) (execute c) w).2 = cache_data w
                ∧ added_video_ids (Legacy.retry_loop (S left) (execute c) w).2
                  = added_video_ids w
                ∧ pending_web_adds (Legacy.retry_loop (S left) (execute c) w).2
                  = pending_web_adds w
                ∧ PLAN_MODE_ONLY (Legacy.retry_loop (S left) (execute c) w).2
                  = PLAN_MODE_ONLY w).
    { intros w1 -> Hretry Ht Hrep Hst Hin Hca Had Hpe Hpl.
      destruct (IH w1) as (n & Hn & Hbefore & Hlast & Hres & Htr & Hre & Hs & H1 & H2 & H3
                           & H4 & H5).
      assert (Hshift : ∀ i, replies w1 !! i = replies w !! S i).
      { intros i. rewrite Hrep. by rewrite lookup_drop. }
      exists (S n). replace (S n - 1) with (S (n - 1)) by lia.
      rewrite <- !Hshift. split_and!.
      - lia.
      - lia.
      - intros [|i] Hi; [done|]. rewrite <- Hshift. apply Hbefore. lia.
      - intros Hle. apply Hlast. lia.
      - done.
      - rewrite Htr, Ht. by rewrite <- app_assoc.
      - rewrite Hre, Hrep. by rewrite drop_drop.
      - by rewrite Hs, Hst.
      - congruence.
      - congruence.
      - congruence.
      - congruence.
      - congruence. }
    simpl in Hone, Hmore |- *. unfold try_except, execute in Hone, Hmore |- *.
    simpl in Hone, Hmore |- *.
    destruct (replies w) as [|[rows|e] rest] eqn:Hr; simpl in *.
    + by apply (Hmore (emit [Called c] w)).
    + by eapply Hone.
    + destruct e as [st text|st| | |]; simpl in *.
      * destruct (bool_decide (st = Some 403%Z) && Legacy.quota_text text) eqn:Hq; simpl in *.
        -- eapply Hone; done.
        -- destruct (Legacy.is_retriable_http_error st text) eqn:Hret; simpl in *.
           ++ by apply (Hmore (set_replies rest (emit [Called c] w))).
           ++ eapply Hone; done.
      * destruct (st =? 429)%Z eqn:Hst; simpl in *.
        -- by apply (Hmore (set_replies rest (emit [Called c] w))).
        -- by eapply Hone.
      * by apply (Hmore (set_replies rest (emit [Called c] w))).
      * by eapply Hone.
      * by eapply Hone.
Qed.
End RetryFacts.

(** X12.  [retry_call] (in [legacy_sync.py] and in [retry.py]) around one
    remote call: the call is attempted at least once and at most
    [RETRY_MAX_TRIES] = 5 times, one answer of the service is used up per
    attempt, and the outcome is that of the last attempt.  Every attempt
    before the last met a retriable failure; the last one did not, unless
    the tries ran out.  The search is disabled exactly when the last answer
    reports the exhausted quota, and such an answer is never retried. *)
Theorem retry_call_attempts `{Unicode} (c : call) (w : World) :
  let run := Legacy.retry_call (execute c) w in
  ∃ n, 1 ≤ n ≤ Legacy.RETRY_MAX_TRIES
    ∧ trace run.2 = trace w ++ replicate n (Called c)
    ∧ replies run.2 = drop n (replies w)
    ∧ run.1 = answer_of (replies w !! (n - 1))
    ∧ (∀ i, i < n - 1 → retriable (replies w !! i) = true)
    ∧ (n < Legacy.RETRY_MAX_TRIES → retriable (replies w !! (n - 1)) = false)
    ∧ yt_search_disabled (STATE run.2)
      = yt_search_disabled (STATE w) || quota_answer (replies w !! (n - 1))
    ∧ (∀ o, quota_answer o = true → retriable o = false)
    ∧ Retry.retry_call (execute c) w = run.
Proof.
  cbv zeta. unfold Retry.retry_call, Legacy.retry_call.
  destruct (retry_loop_outcome (Legacy.RETRY_MAX_TRIES - 1) c w)
    as (n & Hn & Hbefore & Hlast & Hres & Htr & Hre & Hs & _).
  exists n. split_and!.
  - lia.
  - unfold Legacy.RETRY_MAX_TRIES in *. lia.
  - done.
  - done.
  - done.
  - done.
  - intros Hlt. apply Hlast. unfold Legacy.RETRY_MAX_TRIES in *. lia.
  - rewrite Hs. destruct (quota_answer _); simpl; [by rewrite orb_true_r|by rewrite orb_false_r].
  - intros [[rows|e]|]; try done. simpl. destruct e as [st text| | | |]; try done.
    simpl. by intros ->.
  - done.
Qed.

(** ** Adding to a playlist *)

Lemma fresh_ids_spec (added : gset ustring) (video_ids : list ustring) :
  NoDup (fresh_ids added video_ids)
  ∧ (∀ v, v ∈ fresh_ids added video_ids ↔ v ∈ video_ids ∧ v ∉ added)
  ∧ sublist (fresh_ids added video_ids) video_ids.
Proof.
  revert added. induction video_ids as [|vid rest IH]; intros added; simpl.
  - split_and!; [constructor| |done]. intros v. rewrite elem_of_nil. tauto.
  - destruct (decide (vid ∈ added)) as [Hin|Hout].
    + rewrite bool_decide_eq_true_2 by done. destruct (IH added) as (H1 & H2 & H3).
      split_and!; [done| |by constructor].
      intros v. rewrite H2, elem_of_cons. split; [tauto|].
      intros [[->|?] ?]; [done|tauto].
    + rewrite bool_decide_eq_false_2 by done.
      destruct (IH ({[vid]} ∪ added)) as (H1 & H2 & H3).
      split_and!; [|intros v|by constructor].
      * constructor; [|done]. rewrite H2. set_solver.
      * rewrite !elem_of_cons, H2. destruct (decide (v = vid)) as [->|Hne]; set_solver.
Qed.

Section AddFacts.
Context `{Unicode}.

Lemma retry_call_success (c : call) (w : World) (rows : list (ustring * ustring))
    (rest : list reply) :
  replies w = Returns rows :: rest →
  Legacy.retry_call (execute c) w = (Val rows, set_replies rest (emit [Called c] w)).
Proof.
  intros Hr. unfold Legacy.retry_call, Legacy.RETRY_MAX_TRIES. simpl.
  unfold try_except, execute. simpl. by rewrite Hr.
Qed.

(** The fields [retry_call] leaves alone. *)
Lemma retry_call_frame (c : call) (w : World) :
  ∃ n, 1 ≤ n ≤ Legacy.RETRY_MAX_TRIES
    ∧ trace (Legacy.retry_call (execute c) w).2 = trace w ++ replicate n (Called c)
    ∧ stdin (Legacy.retry_call (execute c) w).2 = stdin w
    ∧ cache_data (Legacy.retry_call (execute c) w).2 = cache_data w
    ∧ added_video_ids (Legacy.retry_call (execute c) w).2 = added_video_ids w
    ∧ pending_web_adds (Legacy.retry_call (execute c) w).2 = pending_web_adds w
    ∧ PLAN_MODE_ONLY (Legacy.retry_call (execute c) w).2 = PLAN_MODE_ONLY w.
Proof.
  unfold Legacy.retry_call.
  destruct (retry_loop_outcome (Legacy.RETRY_MAX_TRIES - 1) c w)
    as (n & Hn & _ & _ & _ & Htr & _ & _ & H1 & H2 & H3 & H4 & H5).
  exists n. split_and!; try done; unfold Legacy.RETRY_MAX_TRIES in *; lia.
Qed.

Lemma add_youtube_videos_cons (playlist_id vid : ustring) (rest : list ustring) (w : World) :
  Legacy.add_youtube_videos playlist_id (vid :: rest) w
  = if bool_decide (vid ∈ added_video_ids w)
    then Legacy.add_youtube_videos playlist_id rest w
    else match Legacy.retry_call (execute (YtInsert playlist_id vid)) w with
         | (Val _, w1) =>
             Legacy.add_youtube_videos playlist_id rest
               (set_added_video_ids ({[vid]} ∪ added_video_ids w1) w1)
         | (Exc e, w1) => (Exc e, w1)
         end.
Proof.
  cbn [Legacy.add_youtube_videos]. unfold bind at 1, get.
  destruct (bool_decide _); [done|]. unfold bind at 1.
  by destruct (Legacy.retry_call _ w) as [[rows|e] w1].
Qed.

Lemma add_youtube_videos_safe (playlist_id : ustring) (video_ids : list ustring) (w : World) :
  added_video_ids w ⊆ added_video_ids (Legacy.add_youtube_videos playlist_id video_ids w).2
  ∧ ((Legacy.add_youtube_videos playlist_id video_ids w).1 = Val tt →
       added_video_ids (Legacy.add_youtube_videos playlist_id video_ids w).2
       = added_video_ids w ∪ list_to_set video_ids)
  ∧ (∃ evs, trace (Legacy.add_youtube_videos playlist_id video_ids w).2 = trace w ++ evs
       ∧ Forall (λ e, ∃ v, e = Called (YtInsert playlist_id v) ∧ v ∈ video_ids
                         ∧ v ∉ added_video_ids w) evs)
  ∧ pending_web_adds (Legacy.add_youtube_videos playlist_id video_ids w).2
    = pending_web_adds w
  ∧ cache_data (Legacy.add_youtube_videos playlist_id video_ids w).2 = cache_data w
  ∧ stdin (Legacy.add_youtube_videos playlist_id video_ids w).2 = stdin w
  ∧ PLAN_MODE_ONLY (Legacy.add_youtube_videos playlist_id video_ids w).2 = PLAN_MODE_ONLY w.
Proof.
  revert w. induction video_ids as [|vid rest IH]; intros w.
  - simpl. split_and!; try done.
    + intros _. set_solver.
    + exists []. by rewrite app_nil_r.
  - rewrite add_youtube_videos_cons.
    destruct (decide (vid ∈ added_video_ids w)) as [Hin|Hout].
    + rewrite bool_decide_eq_true_2 by done.
      destruct (IH w) as (H1 & H2 & (evs & Hevs & Hall) & H4 & H5 & H6 & H7).
      split_and!; try done.
      * intros Hv. rewrite (H2 Hv). set_solver.
      * exists evs. split; [done|]. eapply Forall_impl; [exact Hall|].
        intros e (v & He & Hv & Hnv). exists v. split_and!; [done| |done]. by right.
    + rewrite bool_decide_eq_false_2 by done.
      destruct (retry_call_frame (YtInsert playlist_id vid) w)
        as (n & Hn & Htr & H1 & H2 & H3 & H4 & H5).
      destruct (Legacy.retry_call (execute (YtInsert playlist_id vid)) w) as [[rows|e] w1];
        cbn [fst snd] in *.
      * set (w2 := set_added_video_ids ({[vid]} ∪ added_video_ids w1) w1).
        destruct (IH w2) as (G1 & G2 & (evs & Hevs & Hall) & G4 & G5 & G6 & G7).
        clear IH.
        assert (Ha2 : added_video_ids w2 = {[vid]} ∪ added_video_ids w) by (by rewrite <- H3).
        assert (Ht2 : trace w2 = trace w1) by done.
        assert (Hp2 : pending_web_adds w2 = pending_web_adds w1) by done.
        assert (Hc2 : cache_data w2 = cache_data w1) by done.
        assert (Hs2 : stdin w2 = stdin w1) by done.
        assert (Hm2 : PLAN_MODE_ONLY w2 = PLAN_MODE_ONLY w1) by done.
        rewrite Ha2 in G1, G2, Hall. rewrite Ht2 in Hevs.
        split_and!; try congruence.
        -- set_solver.
        -- intros Hv. rewrite (G2 Hv). set_solver.
        -- exists (replicate n (Called (YtInsert playlist_id vid)) ++ evs).
           split; [by rewrite Hevs, Htr, <- app_assoc|].
           apply Forall_app. split.
           ++ apply Forall_replicate. exists vid. split_and!; [done|by left|done].
           ++ eapply Forall_impl; [exact Hall|].
              intros e' (v & He & Hv & Hnv). exists v. split_and!; [done|by right|set_solver].
      * rewrite H3. split_and!; try done.
        exists (replicate n (Called (YtInsert playlist_id vid))). split; [done|].
        apply Forall_replicate. exists vid. split_and!; [done|by left|done].
Qed.

Lemma add_youtube_videos_success (playlist_id : ustring) (video_ids : list ustring)
    (w : World) (rowss : list (list (ustring * ustring))) (rest : list reply) :
  replies w = map Returns rowss ++ rest →
  length rowss = length (fresh_ids (added_video_ids w) video_ids) →
  (Legacy.add_youtube_videos playlist_id video_ids w).1 = Val tt
  ∧ trace (Legacy.add_youtube_videos playlist_id video_ids w).2
    = trace w ++ map (λ v, Called (YtInsert playlist_id v))
                   (fresh_ids (added_video_ids w) video_ids)
  ∧ replies (Legacy.add_youtube_videos playlist_id video_ids w).2 = rest.
Proof.
  revert w rowss. induction video_ids as [|vid ids IH]; intros w rowss Hr Hlen.
  - simpl in *. destruct rowss; [|done]. by rewrite app_nil_r.
  - rewrite add_youtube_videos_cons. cbn [fresh_ids] in *.
    destruct (bool_decide (vid ∈ added_video_ids w)) eqn:Hin; [by apply (IH w rowss)|].
    destruct rowss as [|rows rowss]; [done|]. simpl in Hr, Hlen.
    rewrite (retry_call_success _ w rows (map Returns rowss ++ rest) Hr).
    set (w2 := set_added_video_ids _ _).
    destruct (IH w2 rowss) as (H1 & H2 & H3); [done|simpl; lia|].
    split_and!; [done| |done]. rewrite H2. simpl. by rewrite <- app_assoc.
Qed.

Lemma add_videos_skips_empty (playlist_id : ustring) (video_ids : list ustring) (w : World) :
  YouTubeService.add_videos playlist_id video_ids w
  = Legacy.add_youtube_videos playlist_id (filter (λ v, v ≠ []) video_ids) w.
Proof.
  revert w. induction video_ids as [|vid ids IH]; intros w; [done|].
  rewrite filter_cons. destruct vid as [|c vid].
  - rewrite decide_False by (by intros ?). apply IH.
  - rewrite decide_True by done. rewrite add_youtube_videos_cons.
    cbn [YouTubeService.add_videos]. unfold bind at 1, get.
    destruct (bool_decide _); [apply IH|].
    unfold Retry.retry_call. unfold bind at 1.
    destruct (Legacy.retry_call _ w) as [[rows|e] w1]; [|done].
    unfold bind at 1, modify. apply IH.
Qed.
End AddFacts.

(** X13.  [add_youtube_videos] ([legacy_sync.py]) and [add_videos]
    ([services/youtube.py]): the identifiers already added in this run are
    skipped and never forgotten; every insert call is for an identifier of
    the list that had not been added; when the list is worked through,
    all its identifiers count as added.  When the service accepts every
    insert, each new identifier is inserted exactly once, in the order of
    its first occurrence.  [add_videos] does the same after dropping the
    empty identifiers. *)
Theorem add_youtube_videos_once `{Unicode} (playlist_id : ustring) (video_ids : list ustring)
    (w : World) :
  let run := Legacy.add_youtube_videos playlist_id video_ids w in
  let new_ids := fresh_ids (added_video_ids w) video_ids in
  added_video_ids w ⊆ added_video_ids run.2
  ∧ (run.1 = Val tt → added_video_ids run.2 = added_video_ids w ∪ list_to_set video_ids)
  ∧ (∃ evs, trace run.2 = trace w ++ evs
       ∧ Forall (λ e, ∃ v, e = Called (YtInsert playlist_id v) ∧ v ∈ video_ids
                         ∧ v ∉ added_video_ids w) evs)
  ∧ (∀ rowss rest,
       replies w = map Returns rowss ++ rest → length rowss = length new_ids →
       run.1 = Val tt
       ∧ trace run.2 = trace w ++ map (λ v, Called (YtInsert playlist_id v)) new_ids
       ∧ replies run.2 = rest)
  ∧ NoDup new_ids
  ∧ (∀ v, v ∈ new_ids ↔ v ∈ video_ids ∧ v ∉ added_video_ids w)
  ∧ YouTubeService.add_videos playlist_id video_ids w
    = Legacy.add_youtube_videos playlist_id (filter (λ v, v ≠ []) video_ids) w
  ∧ YouTubeAdapter.add_identifiers playlist_id video_ids w
    = Legacy.add_youtube_videos playlist_id (filter (λ v, v ≠ []) video_ids) w.
Proof.
  cbv zeta.
  destruct (add_youtube_videos_safe playlist_id video_ids w) as (H1 & H2 & H3 & _).
  destruct (fresh_ids_spec (added_video_ids w) video_ids) as (F1 & F2 & _).
  split_and!; try done.
  - intros rowss rest. apply add_youtube_videos_success.
  - apply add_videos_skips_empty.
  - apply add_videos_skips_empty.
Qed.

(** *** Batches *)

Lemma chunks_from_spec {A} (fuel n : nat) (l : list A) :
  0 < n → length l ≤ fuel →
  concat (chunks_from fuel n l) = l
  ∧ Forall (λ ch, 1 ≤ length ch ≤ n) (chunks_from fuel n l)
  ∧ length l ≤ length (chunks_from fuel n l) * n < length l + n.
Proof.
  intros Hn. revert l. induction fuel as [|fuel IH]; intros l Hlen.
  - destruct l; [|simpl in Hlen; lia]. simpl. split_and!; [done|done|lia|lia].
  - destruct l as [|a l]; [simpl; split_and!; [done|done|lia|lia]|].
    cbn [chunks_from]. destruct (IH (drop n (a :: l))) as (H1 & H2 & H3 & H4).
    { rewrite length_drop. simpl in *. lia. }
    rewrite length_drop in H3, H4.
    set (k := length (chunks_from fuel n (drop n (a :: l)))) in *.
    assert (Hk : k * n = 0 ∨ n ≤ k * n) by (destruct k; simpl; lia).
    cbn [length] in H3, H4.
    split_and!.
    + cbn [concat]. rewrite H1. apply take_drop.
    + constructor; [|done]. rewrite length_take. simpl. lia.
    + change (length (take n (a :: l) :: chunks_from fuel n (drop n (a :: l)))) with (S k).
      rewrite Nat.mul_succ_l. cbn [length]. lia.
    + change (length (take n (a :: l) :: chunks_from fuel n (drop n (a :: l)))) with (S k).
      rewrite Nat.mul_succ_l. cbn [length]. lia.
Qed.

Section BatchFacts.
Context `{Unicode}.

Lemma add_spotify_batches_nil (n : nat) (playlist_id : ustring) (w : World) :
  Legacy.add_spotify_batches n playlist_id [] w = (Val tt, w).
Proof. by destruct n. Qed.

Lemma add_spotify_batches_cons (n : nat) (playlist_id uri : ustring) (uris : list ustring)
    (w : World) :
  Legacy.add_spotify_batches (S n) playlist_id (uri :: uris) w
  = match Legacy.retry_call
            (execute (SpAddItems playlist_id (take Legacy.SPOTIFY_ADD_BATCH (uri :: uris)))) w
    with
    | (Val _, w1) =>
        Legacy.add_spotify_batches n playlist_id (drop Legacy.SPOTIFY_ADD_BATCH (uri :: uris)) w1
    | (Exc e, w1) => (Exc e, w1)
    end.
Proof.
  cbn [Legacy.add_spotify_batches]. unfold bind at 1.
  by destruct (Legacy.retry_call _ w) as [[rows|e] w1].
Qed.

Lemma add_spotify_batches_safe (n : nat) (playlist_id : ustring) (uris : list ustring)
    (w : World) :
  ∃ evs, trace (Legacy.add_spotify_batches n playlist_id uris w).2 = trace w ++ evs
    ∧ Forall (λ e, ∃ ch, e = Called (SpAddItems playlist_id ch)
                        ∧ ch ∈ chunks_from n Legacy.SPOTIFY_ADD_BATCH uris) evs.
Proof.
  revert uris w. induction n as [|n IH]; intros uris w.
  - exists []. rewrite app_nil_r. by destruct uris.
  - destruct uris as [|uri uris]; [exists []; by rewrite app_nil_r|].
    rewrite add_spotify_batches_cons. cbn [chunks_from].
    set (ch := take Legacy.SPOTIFY_ADD_BATCH (uri :: uris)).
    destruct (retry_call_frame (SpAddItems playlist_id ch) w) as (k & _ & Htr & _).
    destruct (Legacy.retry_call (execute (SpAddItems playlist_id ch)) w) as [[rows|e] w1];
      cbn [fst snd] in *.
    + destruct (IH (drop Legacy.SPOTIFY_ADD_BATCH (uri :: uris)) w1) as (evs & Hevs & Hall).
      exists (replicate k (Called (SpAddItems playlist_id ch)) ++ evs).
      split; [by rewrite Hevs, Htr, <- app_assoc|]. apply Forall_app. split.
      * apply Forall_replicate. exists ch. split; [done|by left].
      * eapply Forall_impl; [exact Hall|]. intros e (ch' & He & Hin).
        exists ch'. split; [done|by right].
    + exists (replicate k (Called (SpAddItems playlist_id ch))). split; [done|].
      apply Forall_replicate. exists ch. split; [done|by left].
Qed.

Lemma add_spotify_batches_success (n : nat) (playlist_id : ustring) (uris : list ustring)
    (w : World) (rowss : list (list (ustring * ustring))) (rest : list reply) :
  replies w = map Returns rowss ++ rest →
  length rowss = length (chunks_from n Legacy.SPOTIFY_ADD_BATCH uris) →
  (Legacy.add_spotify_batches n playlist_id uris w).1 = Val tt
  ∧ trace (Legacy.add_spotify_batches n playlist_id uris w).2
    = trace w ++ map (λ ch, Called (SpAddItems playlist_id ch))
                   (chunks_from n Legacy.SPOTIFY_ADD_BATCH uris)
  ∧ replies (Legacy.add_spotify_batches n playlist_id uris w).2 = rest.
Proof.
  revert uris w rowss. induction n as [|n IH]; intros uris w rowss Hr Hlen.
  - assert (Hnil : chunks_from 0 Legacy.SPOTIFY_ADD_BATCH uris = []) by (by destruct uris).
    rewrite Hnil in *. destruct rowss; [|done]. simpl in Hr.
    replace (Legacy.add_spotify_batches 0 playlist_id uris w) with (Val tt, w)
      by (by destruct uris).
    by rewrite app_nil_r.
  - destruct uris as [|uri uris].
    { simpl in *. destruct rowss; [|done]. by rewrite app_nil_r. }
    rewrite add_spotify_batches_cons. cbn [chunks_from] in *.
    destruct rowss as [|rows rowss]; [done|]. cbn [map app length] in Hr, Hlen.
    rewrite (retry_call_success _ w rows (map Returns rowss ++ rest) Hr).
    destruct (IH (drop Legacy.SPOTIFY_ADD_BATCH (uri :: uris))
                (set_replies (map Returns rowss ++ rest)
                   (emit [Called (SpAddItems playlist_id
                                    (take Legacy.SPOTIFY_ADD_BATCH (uri :: uris)))] w))
                rowss) as (H1 & H2 & H3); [done|lia|].
    split_and!; [done| |done]. rewrite H2. cbn [trace set_replies emit map].
    by rewrite <- app_assoc.
Qed.

Lemma add_tracks_from_same (n : nat) (playlist_id : ustring) (uris : list ustring) (w : World) :
  SpotifyService.add_tracks_from n playlist_id uris w
  = Legacy.add_spotify_batches n playlist_id uris w.
Proof.
  revert uris w. induction n as [|n IH]; intros uris w; [by destruct uris|].
  destruct uris as [|uri uris]; [done|].
  rewrite add_spotify_batches_cons. cbn [SpotifyService.add_tracks_from].
  change (take Legacy.SPOTIFY_ADD_BATCH (uri :: uris))
    with (uri :: take (Legacy.SPOTIFY_ADD_BATCH - 1) uris) at 1.
  cbv zeta. unfold bind at 1 2. unfold Retry.retry_call.
  change (uri :: take (Legacy.SPOTIFY_ADD_BATCH - 1) uris)
    with (take Legacy.SPOTIFY_ADD_BATCH (uri :: uris)).
  destruct (Legacy.retry_call _ w) as [[rows|e] w1]; [apply IH|done].
Qed.

Lemma main_add_slices_same `{Utils.Urllib} (n : nat) (dst_id : ustring)
    (uris : list ustring) (w : World) :
  Sync.main_add_slices n dst_id uris w = Legacy.add_spotify_batches n dst_id uris w.
Proof.
  revert uris w. induction n as [|n IH]; intros uris w; [by destruct uris|].
  destruct uris as [|uri uris]; [done|].
  rewrite add_spotify_batches_cons. cbn [Sync.main_add_slices].
  unfold bind at 1. unfold Legacy.add_spotify_tracks.
  set (ch := take Legacy.SPOTIFY_ADD_BATCH (uri :: uris)).
  assert (Hch : ∃ a rest, ch = a :: rest) by (by exists uri, (take 99 uris)).
  destruct Hch as (a & rest & Hch).
  assert (Hlen : length ch ≤ Legacy.SPOTIFY_ADD_BATCH).
  { unfold ch. rewrite length_take. lia. }
  assert (Hone : Legacy.add_spotify_batches (length ch) dst_id ch w
                 = match Legacy.retry_call (execute (SpAddItems dst_id ch)) w with
                   | (Val _, w1) => (Val tt, w1)
                   | (Exc e, w1) => (Exc e, w1)
                   end).
  { rewrite Hch in Hlen |- *. cbn [length]. rewrite add_spotify_batches_cons.
    rewrite take_ge by done. rewrite drop_ge by done.
    destruct (Legacy.retry_call _ w) as [[rows|e] w1]; [|done].
    apply add_spotify_batches_nil. }
  rewrite Hone. destruct (Legacy.retry_call _ w) as [[rows|e] w1]; [apply IH|done].
Qed.
End BatchFacts.

Lemma as_uri_prefixed (identifier : ustring) :
  startswith (u "spotify:track:") (SpotifyAdapter.as_uri identifier) = true.
Proof.
  unfold SpotifyAdapter.as_uri.
  destruct (startswith (u "spotify:track:") identifier) eqn:E; [done|].
  apply startswith_app. by exists identifier.
Qed.

(** X14.  Adding to a Spotify playlist ([add_spotify_tracks] and the batch add
    of [main] in [legacy_sync.py], [add_tracks] in [services/spotify.py],
    [add_identifiers] in [adapters_impl.py]): the URIs are cut, in order,
    into slices of at most [SPOTIFY_ADD_BATCH] = 100, none empty, as few as
    can be; every call carries one of these slices, and when the service
    accepts every call each slice is sent exactly once, in order.  The
    second slicing in [main] changes nothing but for the empty line it
    prints first, and [add_identifiers] sends identifiers that all start
    with [spotify:track:]. *)
Theorem add_spotify_tracks_batches `{Unicode} `{Utils.Urllib} (playlist_id : ustring)
    (uris : list ustring) (w : World) :
  let run := Legacy.add_spotify_tracks playlist_id uris w in
  let slices := chunks Legacy.SPOTIFY_ADD_BATCH uris in
  concat slices = uris
  ∧ Forall (λ ch, 1 ≤ length ch ≤ Legacy.SPOTIFY_ADD_BATCH) slices
  ∧ length uris ≤ length slices * Legacy.SPOTIFY_ADD_BATCH
    < length uris + Legacy.SPOTIFY_ADD_BATCH
  ∧ (∃ evs, trace run.2 = trace w ++ evs
       ∧ Forall (λ e, ∃ ch, e = Called (SpAddItems playlist_id ch) ∧ ch ∈ slices) evs)
  ∧ (∀ rowss rest,
       replies w = map Returns rowss ++ rest → length rowss = length slices →
       run.1 = Val tt
       ∧ trace run.2 = trace w ++ map (λ ch, Called (SpAddItems playlist_id ch)) slices
       ∧ replies run.2 = rest)
  ∧ Sync.main_add_spotify playlist_id uris w
    = match uris with
      | [] => (Val tt, w)
      | _ => Legacy.add_spotify_tracks playlist_id uris (emit [Printed (Log [])] w)
      end
  ∧ SpotifyService.add_tracks playlist_id uris w = run
  ∧ SpotifyAdapter.add_identifiers playlist_id uris w
    = Legacy.add_spotify_tracks playlist_id (map SpotifyAdapter.as_uri uris) w
  ∧ Forall (λ uri, startswith (u "spotify:track:") uri = true)
      (map SpotifyAdapter.as_uri uris)
  ∧ map SpotifyAdapter.as_uri (map SpotifyAdapter.as_uri uris)
    = map SpotifyAdapter.as_uri uris.
Proof.
  cbv zeta. unfold chunks, Legacy.add_spotify_tracks.
  destruct (chunks_from_spec (length uris) Legacy.SPOTIFY_ADD_BATCH uris)
    as (C1 & C2 & C3 & C4); [unfold Legacy.SPOTIFY_ADD_BATCH; lia|done|].
  split_and!; try done.
  - apply add_spotify_batches_safe.
  - intros rowss rest. apply add_spotify_batches_success.
  - unfold Sync.main_add_spotify. destruct uris as [|uri uris]; [done|].
    unfold bind, print, modify. apply main_add_slices_same.
  - apply add_tracks_from_same.
  - unfold SpotifyAdapter.add_identifiers, SpotifyService.add_tracks.
    by rewrite add_tracks_from_same.
  - apply Forall_fmap, Forall_forall. intros x _. apply as_uri_prefixed.
  - rewrite map_map. apply map_ext. intros x. unfold SpotifyAdapter.as_uri at 1.
    by rewrite as_uri_prefixed.
Qed.

Import Run.

(** ** Answers typed at the console *)

(** How a loop around [input()] ends: with the first line that is not sent
    back, or with the end of the input. *)
Lemma input_until_outcome {A} (ask : output) (decide : ustring → decision A)
    (lines : list ustring) (w : World) :
  match input_until ask decide lines w with
  | (Val a, w') =>
      ∃ before line, lines = before ++ line :: stdin w' ∧ decide line = Done a
        ∧ Forall (λ l, ∃ c, decide l = Again c) before
  | (Exc e, w') =>
      (e = EOFError ∧ stdin w' = [] ∧ Forall (λ l, ∃ c, decide l = Again c) lines)
      ∨ ∃ before line, lines = before ++ line :: stdin w' ∧ decide line = Fails e
          ∧ Forall (λ l, ∃ c, decide l = Again c) before
  end.
Proof.
  revert w. induction lines as [|line rest IH]; intros w; simpl.
  - left. by split_and!.
  - destruct (decide line) as [a|c|e] eqn:Hd.
    + exists [], line. by split_and!.
    + specialize (IH (emit [Printed c]
                        (emit [ReadLine line] (set_stdin rest (emit [Printed ask] w))))).
      destruct (input_until ask decide rest _) as [[a|e] w'].
      * destruct IH as (before & l & -> & Hl & Hb).
        exists (line :: before), l. split_and!; [done..|]. constructor; [by exists c|done].
      * destruct IH as [(-> & Hs & Hall)|(before & l & -> & Hl & Hb)].
        -- left. split_and!; [done..|]. constructor; [by exists c|done].
        -- right. exists (line :: before), l. split_and!; [done..|].
           constructor; [by exists c|done].
    + right. exists [], line. by split_and!.
Qed.

Lemma input_loop_val {A} (ask : output) (decide : ustring → decision A)
    (w w' : World) (a : A) :
  input_loop ask decide w = (Val a, w') →
  ∃ before line, stdin w = before ++ line :: stdin w' ∧ decide line = Done a
    ∧ Forall (λ l, ∃ c, decide l = Again c) before.
Proof.
  unfold input_loop. intros Hrun.
  pose proof (input_until_outcome ask decide (stdin w) w) as Hout.
  by rewrite Hrun in Hout.
Qed.

Lemma input_loop_exc {A} (ask : output) (decide : ustring → decision A)
    (w w' : World) (e : exn) :
  input_loop ask decide w = (Exc e, w') →
  (e = EOFError ∧ stdin w' = [] ∧ Forall (λ l, ∃ c, decide l = Again c) (stdin w))
  ∨ ∃ before line, stdin w = before ++ line :: stdin w' ∧ decide line = Fails e
      ∧ Forall (λ l, ∃ c, decide l = Again c) before.
Proof.
  unfold input_loop. intros Hrun.
  pose proof (input_until_outcome ask decide (stdin w) w) as Hout.
  by rewrite Hrun in Hout.
Qed.

Section ConsoleFacts.
Context `{Unicode} `{Utils.Urllib}.

Lemma input_index_range (prompt : ustring) (min_val max_val : Z) (allow_zero : bool)
    (w w' : World) (n : Z) :
  Legacy.input_index prompt min_val max_val allow_zero w = (Val n, w') →
  ((allow_zero = true ∧ n = 0%Z) ∨ (min_val ≤ n ≤ max_val)%Z)
  ∧ ∃ before line, stdin w = before ++ line :: stdin w' ∧ int (strip line) = Some n
                   ∧ isdigit (strip line) = true.
Proof.
  unfold Legacy.input_index. intros Hrun.
  apply input_loop_val in Hrun as Hout.
  destruct Hout as (before & line & Hlines & Hdone & _).
  cbv zeta in Hdone. destruct (isdigit (strip line)) eqn:Hdig; [|done]. simpl in Hdone.
  destruct (int (strip line)) as [m|] eqn:Hint; [|done].
  destruct (allow_zero && (m =? 0)%Z) eqn:Hz.
  - injection Hdone as <-. apply andb_true_iff in Hz as [-> Hm%Z.eqb_eq]. subst m.
    split; [by left|]. by exists before, line.
  - destruct ((min_val <=? m)%Z && (m <=? max_val)%Z)%bool eqn:Hr; [|done].
    injection Hdone as <-. apply andb_true_iff in Hr as [H1%Z.leb_le H2%Z.leb_le].
    split; [by right|]. by exists before, line.
Qed.

Lemma input_index_raises (prompt : ustring) (min_val max_val : Z) (allow_zero : bool)
    (w w' : World) (e : exn) :
  Legacy.input_index prompt min_val max_val allow_zero w = (Exc e, w') →
  e = EOFError ∨ e = ValueError.
Proof.
  unfold Legacy.input_index. intros Hrun.
  apply input_loop_exc in Hrun as Hout.
  destruct Hout as [(-> & _)|(before & line & _ & Hfail & _)]; [by left|].
  cbv zeta in Hfail. destruct (negb _); [done|].
  destruct (int (strip line)) as [m|]; [|injection Hfail as <-; by right].
  destruct (_ && _); [done|]. by destruct (_ && _)%bool.
Qed.

Lemma input_yesno_answer (prompt : ustring) (w w' : World) (b : bool) :
  Legacy.input_yesno prompt w = (Val b, w') →
  ∃ before line, stdin w = before ++ line :: stdin w'
    ∧ lower (strip line) ∈ (if b then [u "y"; u "yes"; u "s"; u "si"; [115; 237]%N]
                            else [u "n"; u "no"]).
Proof.
  unfold Legacy.input_yesno. intros Hrun.
  apply input_loop_val in Hrun as Hout.
  destruct Hout as (before & line & Hlines & Hdone & _).
  cbv zeta in Hdone. exists before, line. split; [done|].
  match type of Hdone with (if ?c then _ else _) = _ => destruct c eqn:Hy end.
  - injection Hdone as <-. by apply bool_decide_eq_true in Hy.
  - match type of Hdone with (if ?c then _ else _) = _ => destruct c eqn:Hn end; [|done].
    injection Hdone as <-. by apply bool_decide_eq_true in Hn.
Qed.

Lemma input_choice_answer (prompt : ustring) (choices : list ustring) (w w' : World)
    (val : ustring) :
  Sync.input_choice prompt choices w = (Val val, w') →
  val ∈ map lower choices
  ∧ ∃ before line, stdin w = before ++ line :: stdin w' ∧ val = lower (strip line).
Proof.
  unfold Sync.input_choice. intros Hrun.
  apply input_loop_val in Hrun as Hout.
  destruct Hout as (before & line & Hlines & Hdone & _).
  cbv zeta in Hdone. destruct (bool_decide _) eqn:Hin; [|done].
  injection Hdone as <-. apply bool_decide_eq_true in Hin. split; [done|].
  by exists before, line.
Qed.

Lemma loop_only_eof {A} (ask : output) (decide : ustring → decision A) (w w' : World)
    (e : exn) :
  (∀ line e', decide line ≠ Fails e') →
  input_loop ask decide w = (Exc e, w') → e = EOFError.
Proof.
  intros Hnofail Hrun. apply input_loop_exc in Hrun as Hout.
  destruct Hout as [(-> & _)|(before & line & _ & Hfail & _)]; [done|].
  by apply Hnofail in Hfail.
Qed.
End ConsoleFacts.

(** X15.  The console helpers of [legacy_sync.py] only return validated
    answers, each read from a line that was typed: [input_index] a number
    between the two bounds, or 0 when 0 is allowed; [input_yesno] the
    meaning of one of the accepted words; [input_choice] one of the choices
    in lower case.  [input_yesno] and [input_choice] can only fail at the
    end of the input; [input_index] also when [int] rejects a line that
    [isdigit] accepted. *)
Theorem console_answers_validated `{Unicode} `{Utils.Urllib} (prompt : ustring) (w w' : World) :
  (∀ min_val max_val allow_zero n,
     Legacy.input_index prompt min_val max_val allow_zero w = (Val n, w') →
     ((allow_zero = true ∧ n = 0%Z) ∨ (min_val ≤ n ≤ max_val)%Z)
     ∧ ∃ before line, stdin w = before ++ line :: stdin w' ∧ int (strip line) = Some n
                      ∧ isdigit (strip line) = true)
  ∧ (∀ min_val max_val allow_zero e,
       Legacy.input_index prompt min_val max_val allow_zero w = (Exc e, w') →
       e = EOFError ∨ e = ValueError)
  ∧ (∀ b, Legacy.input_yesno prompt w = (Val b, w') →
       ∃ before line, stdin w = before ++ line :: stdin w'
         ∧ lower (strip line) ∈ (if b then [u "y"; u "yes"; u "s"; u "si"; [115; 237]%N]
                                 else [u "n"; u "no"]))
  ∧ (∀ e, Legacy.input_yesno prompt w = (Exc e, w') → e = EOFError)
  ∧ (∀ choices val, Sync.input_choice prompt choices w = (Val val, w') →
       val ∈ map lower choices
       ∧ ∃ before line, stdin w = before ++ line :: stdin w' ∧ val = lower (strip line))
  ∧ (∀ choices e, Sync.input_choice prompt choices w = (Exc e, w') → e = EOFError).
Proof.
  split_and!.
  - intros *. apply input_index_range.
  - intros *. apply input_index_raises.
  - intros *. apply input_yesno_answer.
  - intros e. apply loop_only_eof. intros line e'. cbv zeta.
    destruct (bool_decide _); [done|]. by destruct (bool_decide _).
  - intros *. apply input_choice_answer.
  - intros choices e. apply loop_only_eof. intros line e'. cbv zeta.
    by destruct (bool_decide _).
Qed.

(** ** Choosing among web results *)

Section PickFacts.
Context `{Unicode} `{Utils.Urllib}.

Lemma legacy_pick_chosen (results : list (ustring * ustring)) (d v : ustring) (w : World) :
  (Legacy.pick_from_web_results results d w).1 = Val (Some v) →
  ∃ i r, (i < 5)%nat ∧ results !! i = Some r ∧ Legacy.parse_youtube_video_id r.1 = Some v.
Proof.
  unfold Legacy.pick_from_web_results.
  destruct results as [|r1 [|r2 rest]]; [done| |].
  - unfold ret. simpl. intros [= Hv]. exists 0%nat, r1. split_and!; [lia|done|done].
  - unfold bind, print, modify.
    destruct (Legacy.input_index _ _ _ _ _) as [[idx|e] w1] eqn:Hidx; [|done].
    apply input_index_range in Hidx as [Hrange _].
    destruct (idx =? 0)%Z eqn:Hz; [done|]. apply Z.eqb_neq in Hz.
    unfold ret. cbn [fst]. intros [= Hv].
    destruct Hrange as [[_ ?]|Hrange]; [done|].
    destruct (_ !! Z.to_nat (idx - 1)) as [r|] eqn:Hr; [|done].
    exists (Z.to_nat (idx - 1)), r. split_and!; [lia|done|done].
Qed.

Lemma legacy_pick_in_range (r1 r2 : ustring * ustring) (rest : list (ustring * ustring))
    (w w' : World) (idx : Z) :
  Legacy.input_index (u "Pick a result (0 = skip)") 1
    (Z.of_nat (min 5 (length (r1 :: r2 :: rest)))) true w = (Val idx, w') →
  idx ≠ 0%Z → is_Some ((r1 :: r2 :: rest) !! Z.to_nat (idx - 1)).
Proof.
  intros [Hrange _]%input_index_range Hz.
  destruct Hrange as [[_ ?]|Hrange]; [done|].
  apply lookup_lt_is_Some. lia.
Qed.

Lemma websearch_pick_chosen (results : list (ustring * ustring)) (d v : ustring)
    (w : World) :
  (Websearch.pick_from_web_results results d w).1 = Val (Some v) →
  ∃ i r, (i < 5)%nat ∧ results !! i = Some r ∧ Utils.parse_youtube_video_id r.1 = Some v.
Proof.
  unfold Websearch.pick_from_web_results.
  destruct results as [|r1 rest]; [done|].
  set (results := r1 :: rest). cbv zeta.
  unfold bind, print, modify, try_except, input.
  set (w1 := emit [Printed PickPrompt] _).
  destruct (stdin w1) as [|line lines]; [done|].
  destruct (int (strip line)) as [n|]; [|done].
  unfold ret at 1. destruct n as [|n|n]; [done| |done].
  destruct (_ && _)%bool eqn:Hr; [|done].
  apply andb_true_iff in Hr as [H1%Z.leb_le H2%Z.leb_le].
  unfold ret. cbn [fst]. intros [= Hv].
  destruct (_ !! Z.to_nat _) as [r|] eqn:Hlook; [|done].
  change (r1 :: take 4 rest) with (take 5 (r1 :: rest)) in Hlook.
  apply lookup_take_Some in Hlook as [Hlook Hi].
  exists (Z.to_nat (Z.pos n - 1)), r. by split_and!.
Qed.

Lemma websearch_pick_returns (results : list (ustring * ustring)) (d : ustring) (w : World) :
  ∃ o, (Websearch.pick_from_web_results results d w).1 = Val o.
Proof.
  unfold Websearch.pick_from_web_results.
  destruct results as [|r1 rest]; [by eexists|].
  set (results := r1 :: rest). cbv zeta.
  unfold bind, print, modify, try_except, input.
  set (w1 := emit [Printed PickPrompt] _).
  destruct (stdin w1) as [|line lines]; [by eexists|].
  destruct (int (strip line)) as [n|]; [|by eexists].
  unfold ret at 1. destruct n as [|n|n]; [by eexists| |by eexists].
  destruct (_ && _)%bool; by eexists.
Qed.

Lemma legacy_pick_raises (results : list (ustring * ustring)) (d : ustring) (w : World)
    (e : exn) :
  (Legacy.pick_from_web_results results d w).1 = Exc e → e = EOFError ∨ e = ValueError.
Proof.
  unfold Legacy.pick_from_web_results.
  destruct results as [|r1 [|r2 rest]]; [done|done|].
  unfold bind, print, modify.
  destruct (Legacy.input_index _ _ _ _ _) as [[idx|e'] w1] eqn:Hidx.
  - by destruct (idx =? 0)%Z.
  - cbn [fst]. intros [= <-]. by apply input_index_raises in Hidx.
Qed.
End PickFacts.

(** X16.  [pick_from_web_results], in [legacy_sync.py] and in [websearch.py]:
    a video id that is returned was parsed from the URL of one of the first
    five results.  In the legacy function the number accepted by
    [input_index] always points inside the list, so [results[idx - 1]] cannot
    fail, and the only exceptions are those of the prompt; the function of
    [websearch.py] never raises. *)
Theorem pick_from_web_results_top_five `{Unicode} `{Utils.Urllib}
    (results : list (ustring * ustring)) (track_display : ustring) (w : World) :
  (∀ v, (Legacy.pick_from_web_results results track_display w).1 = Val (Some v) →
     ∃ i r, (i < 5)%nat ∧ results !! i = Some r ∧ Legacy.parse_youtube_video_id r.1 = Some v)
  ∧ (∀ v, (Websearch.pick_from_web_results results track_display w).1 = Val (Some v) →
       ∃ i r, (i < 5)%nat ∧ results !! i = Some r ∧ Utils.parse_youtube_video_id r.1 = Some v)
  ∧ (∀ w1 w2 idx,
       (2 ≤ length results)%nat →
       Legacy.input_index (u "Pick a result (0 = skip)") 1
         (Z.of_nat (min 5 (length results))) true w1 = (Val idx, w2) →
       idx ≠ 0%Z → is_Some (results !! Z.to_nat (idx - 1)))
  ∧ (∀ e, (Legacy.pick_from_web_results results track_display w).1 = Exc e →
       e = EOFError ∨ e = ValueError)
  ∧ (∃ o, (Websearch.pick_from_web_results results track_display w).1 = Val o).
Proof.
  split_and!.
  - intros v. apply legacy_pick_chosen.
  - intros v. apply websearch_pick_chosen.
  - intros w1 w2 idx Hlen. destruct results as [|r1 [|r2 rest]]; [simpl in Hlen; lia..|].
    apply legacy_pick_in_range.
  - intros e. apply legacy_pick_raises.
  - apply websearch_pick_returns.
Qed.

Import Run.

(** ** Invariants of the resolution loop *)

Section KeepFacts.
Context (I : World → Prop) (E : event → Prop) `{!Frame I E}.

Lemma keeps_ret {A} (a : A) : keeps I E (ret a).
Proof. intros w Hw. split; [done|]. exists []. by rewrite app_nil_r. Qed.

Lemma keeps_raise {A} (e : exn) : keeps I E (@raise A e).
Proof. intros w Hw. split; [done|]. exists []. by rewrite app_nil_r. Qed.

Lemma keeps_get {A} (f : World → A) : keeps I E (get f).
Proof. intros w Hw. split; [done|]. exists []. by rewrite app_nil_r. Qed.

Lemma keeps_at_bind {A B} (m : M A) (k : A → M B) (w : World) :
  keeps_at I E m w → (∀ a, keeps I E (k a)) → keeps_at I E (bind m k) w.
Proof.
  intros (HI & evs & Ht & HE) Hk. unfold keeps_at, bind.
  destruct (m w) as [[a|e] w1]; cbn [fst snd] in *.
  - destruct (Hk a w1 HI) as (HI2 & evs2 & Ht2 & HE2). split; [done|].
    exists (evs ++ evs2). rewrite Ht2, Ht, app_assoc. split; [done|]. by apply Forall_app.
  - split; [done|]. by exists evs.
Qed.

Lemma keeps_bind {A B} (m : M A) (k : A → M B) :
  keeps I E m → (∀ a, keeps I E (k a)) → keeps I E (bind m k).
Proof. intros Hm Hk w Hw. apply keeps_at_bind; [by apply Hm|done]. Qed.

(** Reading the state and branching on it: the branch that runs is the
    one for the value read. *)
Lemma keeps_get_bind {A B} (f : World → A) (k : A → M B) :
  (∀ w, I w → keeps_at I E (k (f w)) w) → keeps I E (bind (get f) k).
Proof. intros Hk w Hw. unfold keeps_at, bind, get. by apply Hk. Qed.

Lemma keeps_try_except {A} (m : M A) (handler : exn → M A) :
  keeps I E m → (∀ e, keeps I E (handler e)) → keeps I E (try_except m handler).
Proof.
  intros Hm Hh w Hw. destruct (Hm w Hw) as (HI & evs & Ht & HE).
  unfold keeps_at, try_except. destruct (m w) as [[a|e] w1]; cbn [fst snd] in *.
  - split; [done|]. by exists evs.
  - destruct (Hh e w1 HI) as (HI2 & evs2 & Ht2 & HE2). split; [done|].
    exists (evs ++ evs2). rewrite Ht2, Ht, app_assoc. split; [done|]. by apply Forall_app.
Qed.

Lemma keeps_quiet (f : World → World) :
  (∀ w, I w → I (f w)) → (∀ w, trace (f w) = trace w) → keeps I E (modify f).
Proof.
  intros Hf Ht w Hw. split; [by apply Hf|]. exists []. cbn. by rewrite Ht, app_nil_r.
Qed.

Lemma keeps_emit (evs : list event) : Forall E evs → keeps I E (modify (emit evs)).
Proof. intros HE w Hw. split; [by apply frame_emit|]. by exists evs. Qed.

Lemma keeps_print (o : output) : o ≠ QuotaPanel → keeps I E (print o).
Proof. intros Ho. apply keeps_emit. constructor; [by apply frame_print|done]. Qed.

Lemma keeps_input : keeps I E input.
Proof.
  intros w Hw. unfold keeps_at, input. destruct (stdin w) as [|line rest]; cbn [fst snd].
  - split; [done|]. exists []. by rewrite app_nil_r.
  - split; [by apply frame_emit, frame_stdin|]. exists [ReadLine line].
    split; [done|]. constructor; [apply frame_read|done].
Qed.

Lemma keeps_input_until {A} (ask : output) (decide : ustring → decision A)
    (lines : list ustring) (w : World) :
  ask ≠ QuotaPanel → (∀ line c, decide line = Again c → c ≠ QuotaPanel) →
  I w → I (input_until ask decide lines w).2
        ∧ ∃ evs, trace (input_until ask decide lines w).2 = trace w ++ evs ∧ Forall E evs.
Proof.
  intros Hask Hdec. revert w. induction lines as [|line rest IH]; intros w Hw; simpl.
  - split; [by apply frame_stdin, frame_emit|]. exists [Printed ask].
    split; [done|]. constructor; [by apply frame_print|done].
  - destruct (decide line) as [a|c|e] eqn:Hd; cbn [fst snd].
    + split; [by apply frame_emit, frame_stdin, frame_emit|].
      exists [Printed ask; ReadLine line]. split; [cbn; by rewrite <- app_assoc|].
      repeat constructor; [by apply frame_print|apply frame_read].
    + edestruct IH as (HI & evs & Ht & HE);
        [apply frame_emit, frame_emit, frame_stdin, frame_emit, Hw|].
      split; [exact HI|]. exists ([Printed ask; ReadLine line; Printed c] ++ evs).
      rewrite Ht. cbn. rewrite <- !app_assoc. split; [done|].
      repeat constructor; [by apply frame_print|apply frame_read| |done].
      apply frame_print. by eapply Hdec.
    + split; [by apply frame_emit, frame_stdin, frame_emit|].
      exists [Printed ask; ReadLine line]. split; [cbn; by rewrite <- app_assoc|].
      repeat constructor; [by apply frame_print|apply frame_read].
Qed.

Lemma keeps_input_loop {A} (ask : output) (decide : ustring → decision A) :
  ask ≠ QuotaPanel → (∀ line c, decide line = Again c → c ≠ QuotaPanel) →
  keeps I E (input_loop ask decide).
Proof. intros Hask Hdec w Hw. by apply keeps_input_until. Qed.

Lemma keeps_execute (c : call) : E (Called c) → keeps I E (execute c).
Proof.
  intros Hc w Hw. unfold keeps_at, execute. cbv zeta.
  destruct (replies (emit [Called c] w)) as [|[rows|e] rest]; cbn [fst snd];
    (split; [by repeat first [apply frame_replies|apply frame_emit]|];
     exists [Called c]; split; [done|by constructor]).
Qed.

Lemma keeps_disable :
  keeps I E (modify (λ w, set_STATE (set_yt_search_disabled true (STATE w)) w)).
Proof. apply keeps_quiet; [apply frame_disable|done]. Qed.

Lemma keeps_cache_get (key : ustring) : keeps I E (Legacy.cache_get key).
Proof. apply keeps_get. Qed.

Lemma keeps_cache_put (key value : ustring) : keeps I E (Legacy.cache_put key value).
Proof.
  intros w Hw. split; [by apply frame_emit, frame_cache|]. exists [CachePut key value].
  split; [done|]. constructor; [apply frame_put|done].
Qed.

Lemma keeps_cache_save : keeps I E Legacy.cache_save.
Proof. apply keeps_emit. constructor; [apply frame_save|done]. Qed.

Context `{Unicode} `{Utils.Urllib}.

Lemma keeps_retry_loop {A} (left : nat) (func : M A) :
  keeps I E func → keeps I E (Legacy.retry_loop left func).
Proof.
  intros Hf. induction left as [|left IH]; simpl.
  - apply keeps_try_except; [done|]. intros [st text|st| | |].
    + destruct (_ && _); [|apply keeps_raise].
      apply keeps_bind; [apply keeps_disable|intros _; apply keeps_raise].
    + apply keeps_raise.
    + apply keeps_raise.
    + apply keeps_raise.
    + apply keeps_raise.
  - apply keeps_try_except; [done|]. intros [st text|st| | |].
    + destruct (_ && _).
      * apply keeps_bind; [apply keeps_disable|intros _; apply keeps_raise].
      * destruct (Legacy.is_retriable_http_error _ _); [done|apply keeps_raise].
    + destruct (_ =? _)%Z; [done|apply keeps_raise].
    + done.
    + apply keeps_raise.
    + apply keeps_raise.
Qed.

Lemma keeps_retry_call {A} (func : M A) :
  keeps I E func → keeps I E (Legacy.retry_call func).
Proof. apply keeps_retry_loop. Qed.

Lemma keeps_input_yesno (prompt : ustring) : keeps I E (Legacy.input_yesno prompt).
Proof.
  apply keeps_input_loop; [done|]. intros line c. cbv zeta.
  destruct (bool_decide _); [done|]. destruct (bool_decide _); [done|]. by intros [= <-].
Qed.

Lemma keeps_input_index (prompt : ustring) (lo hi : Z) (allow_zero : bool) :
  keeps I E (Legacy.input_index prompt lo hi allow_zero).
Proof.
  apply keeps_input_loop; [done|]. intros line c. cbv zeta.
  destruct (negb _); [by intros [= <-]|]. destruct (int _); [|done].
  destruct (_ && _); [done|]. destruct (_ && _)%bool; [done|]. by intros [= <-].
Qed.

Lemma keeps_pick_from_web_results (results : list (ustring * ustring)) (display : ustring) :
  keeps I E (Legacy.pick_from_web_results results display).
Proof.
  unfold Legacy.pick_from_web_results.
  destruct results as [|r [|r' results]]; [apply keeps_ret..|].
  apply keeps_bind; [by apply keeps_print|]. intros _.
  apply keeps_bind; [apply keeps_input_index|]. intros idx.
  destruct (_ =? _)%Z; apply keeps_ret.
Qed.

Lemma keeps_paste_youtube_url (t : Track) : keeps I E (Legacy.paste_youtube_url t).
Proof.
  apply keeps_bind; [by apply keeps_print|]. intros _.
  apply keeps_bind; [apply keeps_input|]. intros line. apply keeps_ret.
Qed.

Lemma keeps_google_music_search (title : ustring) (artists : list ustring) (n : nat) :
  E (Called (WebSearch title artists n)) →
  keeps I E (Legacy.google_music_search title artists n).
Proof.
  intros Hc. apply keeps_try_except; [by apply keeps_execute|]. intros e. apply keeps_ret.
Qed.

Lemma keeps_yt_search_one (query : ustring) :
  E (Called (YtSearch query)) → keeps I E (Legacy.yt_search_one query).
Proof.
  intros Hc. apply keeps_bind; [apply keeps_get|]. intros [|]; [apply keeps_ret|].
  apply keeps_bind; [by apply keeps_retry_call, keeps_execute|].
  intros [|[video_id ?] ?]; apply keeps_ret.
Qed.

(** The web fallback, when web searches are among the events allowed. *)
Lemma keeps_youtube_fallback (t : Track) (vid : option ustring) :
  (∀ title artists n, E (Called (WebSearch title artists n))) →
  keeps I E (Legacy.youtube_fallback t vid).
Proof.
  intros Hweb. unfold Legacy.youtube_fallback.
  destruct (Utils.truthy vid); [apply keeps_ret|]. cbv zeta.
  apply keeps_bind; [apply keeps_get|]. intros manual.
  destruct (negb manual); [|apply keeps_paste_youtube_url].
  apply keeps_bind; [by apply keeps_google_music_search|]. intros web_results.
  destruct (Utils.truthy _); [apply keeps_ret|].
  apply keeps_bind.
  - destruct web_results; [apply keeps_ret|apply keeps_pick_from_web_results].
  - intros vid'. destruct (Utils.truthy vid'); [apply keeps_ret|apply keeps_paste_youtube_url].
Qed.

Lemma keeps_queue_pending (vid : ustring) :
  records_ids I → keeps I E (Legacy.queue_pending vid).
Proof.
  intros [_ Hq]. apply keeps_get_bind. intros w Hw.
  destruct (bool_decide _) eqn:Hin; [by apply keeps_ret|].
  apply bool_decide_eq_false in Hin.
  split; [by apply Hq|]. exists []. cbn. by rewrite app_nil_r.
Qed.

Lemma keeps_add_youtube_videos (playlist_id : ustring) (video_ids : list ustring) :
  records_ids I → (∀ p v, E (Called (YtInsert p v))) →
  keeps I E (Legacy.add_youtube_videos playlist_id video_ids).
Proof.
  intros [Hadd _] Hins. induction video_ids as [|vid rest IH]; simpl; [apply keeps_ret|].
  apply keeps_bind; [apply keeps_get|]. intros added.
  destruct (bool_decide _); [done|].
  apply keeps_bind; [by apply keeps_retry_call, keeps_execute|]. intros _.
  apply keeps_bind; [|done]. apply keeps_quiet; [|done]. intros w Hw. by apply Hadd.
Qed.

Lemma keeps_store_planned (t : Track) (vid : ustring) :
  records_ids I →
  keeps I E (bind (Legacy.queue_pending vid)
               (λ _, bind (Legacy.cache_put
                             (Legacy.cache_key (u "youtube") (name t) (artists t)) vid)
                       (λ _, bind Legacy.cache_save (λ _, ret (Go tt))))).
Proof.
  intros Hrec. apply keeps_bind; [by apply keeps_queue_pending|]. intros _.
  apply keeps_bind; [apply keeps_cache_put|]. intros _.
  apply keeps_bind; [apply keeps_cache_save|]. intros _. apply keeps_ret.
Qed.

Lemma keeps_youtube_store (dst_id : ustring) (t : Track) (vid : ustring) :
  records_ids I → (∀ p v, E (Called (YtInsert p v))) →
  keeps I E (Legacy.youtube_store dst_id t vid).
Proof.
  intros Hrec Hins. unfold Legacy.youtube_store.
  apply keeps_bind; [apply keeps_get|]. intros [|]; [by apply keeps_store_planned|].
  apply keeps_try_except.
  - apply keeps_bind; [by apply keeps_add_youtube_videos|]. intros _.
    apply keeps_bind; [apply keeps_cache_put|]. intros _.
    apply keeps_bind; [apply keeps_cache_save|]. intros _. apply keeps_ret.
  - intros [st text|st| | |]; try apply keeps_raise.
    destruct (Legacy.is_quota_exceeded_http_error _).
    + apply keeps_bind; [by apply keeps_print|]. intros _.
      apply keeps_bind; [apply keeps_input_yesno|]. intros [|]; [|apply keeps_ret].
      apply keeps_bind; [apply keeps_quiet; [apply frame_plan|done]|]. intros _.
      apply keeps_bind; [by apply keeps_queue_pending|]. intros _. apply keeps_ret.
    + apply keeps_bind; [by apply keeps_print|]. intros _. apply keeps_ret.
Qed.

Lemma keeps_prompt_after_quota :
  (∀ w s, I w → I (set_STATE s w)) → E (Printed QuotaPanel) →
  keeps I E Legacy.prompt_after_quota.
Proof.
  intros Hstate Hpanel. unfold Legacy.prompt_after_quota.
  apply keeps_bind; [apply keeps_get|]. intros [|]; [apply keeps_ret|].
  apply keeps_bind; [apply keeps_quiet; [intros w; apply Hstate|done]|]. intros _.
  apply keeps_bind; [apply keeps_emit; by constructor|]. intros _.
  apply keeps_bind.
  - apply keeps_input_loop; [done|]. intros line c. cbv zeta.
    destruct (bool_decide _); [done|]. by intros [= <-].
  - intros opt. apply keeps_quiet; [intros w; apply Hstate|done].
Qed.

Lemma keeps_youtube_lookup (t : Track) :
  keeps I E Legacy.prompt_after_quota → (∀ q, E (Called (YtSearch q))) →
  keeps I E (Legacy.youtube_lookup t).
Proof.
  intros Hprompt Hsearch. unfold Legacy.youtube_lookup.
  apply keeps_bind; [apply keeps_cache_get|]. intros vid.
  apply keeps_bind; [apply keeps_get|]. intros disabled.
  apply keeps_bind; [apply keeps_get|]. intros plan.
  destruct (_ && _); [|apply keeps_ret].
  apply keeps_try_except.
  - cbv zeta. apply keeps_bind; [by apply keeps_yt_search_one|]. intros v. apply keeps_ret.
  - intros [st text|st| | |]; try apply keeps_raise.
    apply keeps_bind; [done|]. intros _.
    apply keeps_bind; [apply keeps_get|]. intros manual.
    apply keeps_bind; [apply keeps_get|]. intros web_auto.
    destruct (_ && _); [apply keeps_ret|].
    apply keeps_bind; [apply keeps_disable|]. intros _. apply keeps_ret.
Qed.

Lemma keeps_main_loop_youtube (dst_id : ustring) (to_add : list Track) :
  (∀ t, keeps I E (Legacy.youtube_lookup t)) →
  (∀ t vid, keeps I E (Legacy.youtube_fallback t vid)) →
  (∀ t vid, keeps I E (Legacy.youtube_store dst_id t vid)) →
  keeps I E (Legacy.main_loop_youtube dst_id to_add).
Proof.
  intros Hlookup Hfallback Hstore.
  induction to_add as [|t rest IH]; simpl; [apply keeps_ret|].
  apply keeps_bind.
  - unfold Legacy.main_item_youtube. apply keeps_bind; [done|].
    intros [vid|]; [|apply keeps_ret].
    apply keeps_bind; [done|]. intros [[|c vid']|]; [apply keeps_ret|done|apply keeps_ret].
  - intros [_|]; [done|apply keeps_ret].
Qed.
End KeepFacts.

Import Run.

(** *** Manual mode *)

#[local] Instance manual_frame : Frame manual_mode quiet_manual.
Proof.
  split; try done.
  intros o Ho. split; [done|]. by destruct o.
Qed.

Section ManualMode.
Context `{Unicode} `{Utils.Urllib}.

Lemma manual_prompt : keeps manual_mode quiet_manual Legacy.prompt_after_quota.
Proof.
  apply keeps_get_bind. intros w Hw. destruct (Hw) as [-> _]. by apply (keeps_ret manual_mode quiet_manual).
Qed.

Lemma manual_fallback (t : Track) (vid : option ustring) :
  keeps manual_mode quiet_manual (Legacy.youtube_fallback t vid).
Proof.
  unfold Legacy.youtube_fallback. destruct (Utils.truthy vid); [apply (keeps_ret manual_mode quiet_manual)|].
  cbv zeta. apply keeps_get_bind. intros w Hw. destruct (Hw) as [_ ->]. simpl.
  by apply (keeps_paste_youtube_url manual_mode quiet_manual).
Qed.

Lemma manual_loop (dst_id : ustring) (to_add : list Track) :
  keeps manual_mode quiet_manual (Legacy.main_loop_youtube dst_id to_add).
Proof.
  apply (keeps_main_loop_youtube manual_mode quiet_manual).
  - intros t. apply (keeps_youtube_lookup manual_mode quiet_manual); [apply manual_prompt|done].
  - apply manual_fallback.
  - intros t vid. by apply (keeps_youtube_store manual_mode quiet_manual).
Qed.
End ManualMode.

(** X17.  Manual mode is kept to.  Once the user has chosen option 1 at the
    after-quota prompt, the rest of the YouTube loop of [main] never
    searches the web and never shows the after-quota panel again, and the
    choice stays in force. *)
Theorem manual_mode_never_searches_web `{Unicode} `{Utils.Urllib}
    (dst_id : ustring) (to_add : list Track) (w : World) :
  prompted_after_quota (STATE w) = true →
  continue_manual_after_quota (STATE w) = true →
  let w' := (Legacy.main_loop_youtube dst_id to_add w).2 in
  prompted_after_quota (STATE w') = true
  ∧ continue_manual_after_quota (STATE w') = true
  ∧ ∃ evs, trace w' = trace w ++ evs
      ∧ Forall (λ e, is_web_search e = false ∧ is_quota_panel e = false) evs.
Proof.
  intros Hp Hm w'. destruct (manual_loop dst_id to_add w) as ([Hp' Hm'] & evs & Ht & HE); [done|].
  split_and!; [done..|]. by exists evs.
Qed.

Lemma manual_mode_never_searches_web_witness :
  let w' := (@Legacy.main_loop_youtube ascii_tables no_urls (u "PL1")
               [a_track "Get Lucky" ["Daft Punk"%string]] manual_world).2 in
  prompted_after_quota (STATE w') = true
  ∧ continue_manual_after_quota (STATE w') = true
  ∧ ∃ evs, trace w' = trace manual_world ++ evs
      ∧ Forall (λ e, is_web_search e = false ∧ is_quota_panel e = false) evs.
Proof.
  apply (@manual_mode_never_searches_web ascii_tables no_urls (u "PL1")
           [a_track "Get Lucky" ["Daft Punk"%string]] manual_world); reflexivity.
Defined.

(** *** Planning mode *)

#[local] Instance planning_frame : Frame planning quiet_youtube.
Proof. by split. Qed.

Lemma records_ids_planning : records_ids planning.
Proof. by split. Qed.

Section PlanningMode.
Context `{Unicode} `{Utils.Urllib}.

Lemma planning_lookup (t : Track) (w : World) :
  planning w →
  Legacy.youtube_lookup t w
  = (Val (Go (cache_data w !! Legacy.cache_key (u "youtube") (name t) (artists t))), w).
Proof.
  intros Hw. unfold Legacy.youtube_lookup, bind, Legacy.cache_get, get.
  rewrite Hw. by rewrite !andb_false_r.
Qed.

Lemma planning_store_run (dst_id : ustring) (t : Track) (vid : ustring) (w : World) :
  planning w →
  Legacy.youtube_store dst_id t vid w
  = bind (Legacy.queue_pending vid)
      (λ _, bind (Legacy.cache_put (Legacy.cache_key (u "youtube") (name t) (artists t)) vid)
              (λ _, bind Legacy.cache_save (λ _, ret (Go tt)))) w.
Proof.
  intros Hw. unfold Legacy.youtube_store. unfold bind at 1. unfold get at 1.
  cbv beta iota. by rewrite Hw.
Qed.

Lemma planning_store (dst_id : ustring) (t : Track) (vid : ustring) (w : World) :
  planning w →
  keeps_at planning quiet_youtube (Legacy.youtube_store dst_id t vid) w
  ∧ (Legacy.youtube_store dst_id t vid w).1 = Val (Go tt)
  ∧ vid ∈ added_video_ids (Legacy.youtube_store dst_id t vid w).2.
Proof.
  intros Hw. unfold keeps_at. rewrite planning_store_run by done. split; [|split].
  - apply (keeps_store_planned planning quiet_youtube); [apply records_ids_planning|done].
  - unfold Legacy.queue_pending, Legacy.cache_put, Legacy.cache_save, bind, get,
      modify, ret. cbv beta iota. by destruct (bool_decide (vid ∈ added_video_ids w)).
  - unfold Legacy.queue_pending, Legacy.cache_put, Legacy.cache_save, bind, get,
      modify, ret. cbv beta iota.
    destruct (bool_decide (vid ∈ added_video_ids w)) eqn:Hin; cbn.
    + by apply bool_decide_eq_true in Hin.
    + set_solver.
Qed.

Lemma planning_item (dst_id : ustring) (t : Track) (w : World) :
  planning w →
  keeps_at planning quiet_youtube (Legacy.main_item_youtube dst_id t) w
  ∧ (Legacy.main_item_youtube dst_id t w).1 ≠ Val Return_.
Proof.
  intros Hw. unfold Legacy.main_item_youtube, keeps_at.
  unfold bind at 1 3 5. rewrite planning_lookup by done.
  set (vid := cache_data w !! _).
  destruct (keeps_youtube_fallback planning quiet_youtube t vid (λ _ _ _, eq_refl) w Hw)
    as (HI1 & evs1 & Ht1 & HE1).
  unfold bind. destruct (Legacy.youtube_fallback t vid w) as [[[[|c v]|]|e] w1];
    cbn [fst snd] in *; try (split; [split; [done|by exists evs1]|done]).
  destruct (planning_store dst_id t (c :: v) w1 HI1) as ((HI2 & evs2 & Ht2 & HE2) & Hr & _).
  split; [|by rewrite Hr]. split; [done|]. exists (evs1 ++ evs2).
  rewrite Ht2, Ht1, app_assoc. split; [done|]. by apply Forall_app.
Qed.

Lemma planning_loop (dst_id : ustring) (to_add : list Track) (w : World) :
  planning w →
  keeps_at planning quiet_youtube (Legacy.main_loop_youtube dst_id to_add) w
  ∧ (Legacy.main_loop_youtube dst_id to_add w).1 ≠ Val Return_.
Proof.
  revert w. induction to_add as [|t rest IH]; intros w Hw.
  - split; [by apply (keeps_ret planning quiet_youtube)|done].
  - simpl. destruct (planning_item dst_id t w Hw) as ((HI1 & evs1 & Ht1 & HE1) & Hr).
    unfold keeps_at, bind.
    destruct (Legacy.main_item_youtube dst_id t w) as [[[[]|]|e] w1]; cbn [fst snd] in *.
    + destruct (IH w1 HI1) as ((HI2 & evs2 & Ht2 & HE2) & Hr2).
      split; [|done]. split; [done|]. exists (evs1 ++ evs2).
      rewrite Ht2, Ht1, app_assoc. split; [done|]. by apply Forall_app.
    + done.
    + split; [|done]. split; [done|]. by exists evs1.
Qed.
End PlanningMode.

(** X18.  Planning mode makes no call to the YouTube Data API.  With
    [PLAN_MODE_ONLY] set, the YouTube loop of [main] issues no search and no
    insert, stays in planning mode, and never stops early: it ends with the
    list exhausted or with an exception of a prompt. *)
Theorem planning_mode_no_youtube_call `{Unicode} `{Utils.Urllib}
    (dst_id : ustring) (to_add : list Track) (w : World) :
  PLAN_MODE_ONLY w = true →
  let run := Legacy.main_loop_youtube dst_id to_add w in
  PLAN_MODE_ONLY run.2 = true
  ∧ (∃ evs, trace run.2 = trace w ++ evs ∧ Forall (λ e, is_youtube_call e = false) evs)
  ∧ (run.1 = Val (Go tt) ∨ ∃ e, run.1 = Exc e).
Proof.
  intros Hw run. destruct (planning_loop dst_id to_add w Hw) as ((HI & evs & Ht & HE) & Hr).
  split_and!; [done|by exists evs|]. subst run.
  destruct (Legacy.main_loop_youtube dst_id to_add w) as [[[[]|]|e] w1];
    [by left|done|right; by eexists].
Qed.

Lemma planning_mode_no_youtube_call_witness :
  let run := @Legacy.main_loop_youtube ascii_tables no_urls (u "PL1")
               [a_track "Get Lucky" ["Daft Punk"%string]] planning_world in
  PLAN_MODE_ONLY run.2 = true
  ∧ (∃ evs, trace run.2 = trace planning_world ++ evs
       ∧ Forall (λ e, is_youtube_call e = false) evs)
  ∧ (run.1 = Val (Go tt) ∨ ∃ e, run.1 = Exc e).
Proof.
  apply (@planning_mode_no_youtube_call ascii_tables no_urls (u "PL1")
           [a_track "Get Lucky" ["Daft Punk"%string]] planning_world); reflexivity.
Defined.

(** *** Identifiers put aside *)

Section PendingSound.
Context (w0 : World).

#[local] Instance pending_frame : Frame (pending_sound w0) (λ _, True).
Proof. by split. Qed.

Lemma records_ids_pending : records_ids (pending_sound w0).
Proof.
  split.
  - intros w vid (Hnd & Hin & Hpre & Hsub). split_and!; cbn; [done| |done|set_solver].
    intros v Hv. apply Hin in Hv. set_solver.
  - intros w vid (Hnd & Hin & Hpre & Hsub) Hfresh. split_and!; cbn.
    + apply NoDup_app. split_and!; [done| |apply NoDup_singleton].
      intros v Hv ->%list_elem_of_singleton. by apply Hin in Hv.
    + intros v [Hv| ->%list_elem_of_singleton]%elem_of_app; [|set_solver].
      apply Hin in Hv. set_solver.
    + by apply prefix_app_r.
    + set_solver.
Qed.

Context `{Unicode} `{Utils.Urllib}.

Lemma pending_loop (dst_id : ustring) (to_add : list Track) :
  keeps (pending_sound w0) (λ _, True) (Legacy.main_loop_youtube dst_id to_add).
Proof.
  apply (keeps_main_loop_youtube (pending_sound w0) (λ _, True)).
  - intros t. apply (keeps_youtube_lookup (pending_sound w0) (λ _, True)); [|done].
    by apply (keeps_prompt_after_quota (pending_sound w0) (λ _, True)).
  - intros t vid. by apply (keeps_youtube_fallback (pending_sound w0) (λ _, True)).
  - intros t vid. apply (keeps_youtube_store (pending_sound w0) (λ _, True));
      [apply records_ids_pending|done].
Qed.
End PendingSound.

(** X19.  The identifiers put aside for the planning file stay pairwise
    distinct, and each of them counts as added: the YouTube loop of [main]
    only appends to [pending_web_adds] and only adds to [added_video_ids]. *)
Theorem pending_web_adds_distinct `{Unicode} `{Utils.Urllib}
    (dst_id : ustring) (to_add : list Track) (w : World) :
  NoDup (pending_web_adds w) →
  (∀ vid, vid ∈ pending_web_adds w → vid ∈ added_video_ids w) →
  let w' := (Legacy.main_loop_youtube dst_id to_add w).2 in
  NoDup (pending_web_adds w')
  ∧ (∀ vid, vid ∈ pending_web_adds w' → vid ∈ added_video_ids w')
  ∧ pending_web_adds w `prefix_of` pending_web_adds w'
  ∧ added_video_ids w ⊆ added_video_ids w'.
Proof.
  intros Hnd Hin w'. by destruct (pending_loop w dst_id to_add w) as [Hsound _].
Qed.

Lemma pending_web_adds_distinct_witness :
  let run := @Legacy.main_loop_youtube ascii_tables no_urls (u "PL1") resumed_tracks
               resumed_world in
  (NoDup (pending_web_adds run.2)
   ∧ (∀ vid, vid ∈ pending_web_adds run.2 → vid ∈ added_video_ids run.2)
   ∧ pending_web_adds resumed_world `prefix_of` pending_web_adds run.2
   ∧ added_video_ids resumed_world ⊆ added_video_ids run.2)
  ∧ pending_web_adds resumed_world = [u "old1"]
  ∧ run.1 = Val (Go tt)
  ∧ pending_web_adds run.2 = [u "old1"; u "new1"].
Proof.
  split; [|split_and!; vm_compute; reflexivity].
  apply (@pending_web_adds_distinct ascii_tables no_urls (u "PL1") resumed_tracks
           resumed_world).
  - apply NoDup_singleton.
  - intros vid Hvid. apply list_elem_of_singleton in Hvid as ->.
    change (added_video_ids resumed_world) with ({[ u "old1" ]} : gset ustring).
    apply elem_of_singleton. reflexivity.
Defined.

Import Run.

(** *** Cache hits *)

#[local] Instance no_search_frame : Frame (λ _, True) no_search.
Proof. by split. Qed.

#[local] Instance spotify_only_frame : Frame (λ _, True) spotify_only.
Proof. by split. Qed.

Lemma records_ids_True : records_ids (λ _, True).
Proof. by split. Qed.

Section CacheHits.
Context `{Unicode} `{Utils.Urllib}.

Lemma spotify_cache_hit (t : Track) (w : World) (uri : ustring) :
  cache_data w !! Legacy.cache_key (u "spotify") (name t) (artists t) = Some uri →
  uri ≠ [] →
  Legacy.main_item_spotify t w = (Val (Some uri), w).
Proof.
  intros Hc Hne. unfold Legacy.main_item_spotify. cbv zeta.
  unfold bind at 1. unfold Legacy.cache_get, get. rewrite Hc.
  destruct uri as [|c uri]; [done|]. reflexivity.
Qed.

Lemma youtube_cache_hit (dst_id : ustring) (t : Track) (w : World) (vid : ustring) :
  cache_data w !! Legacy.cache_key (u "youtube") (name t) (artists t) = Some vid →
  vid ≠ [] →
  Legacy.main_item_youtube dst_id t w = Legacy.youtube_store dst_id t vid w.
Proof.
  intros Hc Hne. unfold Legacy.main_item_youtube, Legacy.youtube_lookup.
  unfold bind at 1 2. unfold Legacy.cache_get, get at 1. rewrite Hc.
  destruct vid as [|c vid]; [done|]. reflexivity.
Qed.
End CacheHits.

(** X20.  A cached identifier is used without any search.  When the cache
    holds a non-empty URI for a track, the Spotify branch of the loop of
    [main] yields it and leaves everything as it was: nothing is printed,
    read or called.  When it holds a non-empty video id, the YouTube branch
    goes straight to the insertion step: no API search, no web search. *)
Theorem cache_hit_skips_search `{Unicode} `{Utils.Urllib} (dst_id : ustring) (t : Track)
    (w : World) (cached : ustring) :
  cached ≠ [] →
  (cache_data w !! Legacy.cache_key (u "spotify") (name t) (artists t) = Some cached →
   Legacy.main_item_spotify t w = (Val (Some cached), w))
  ∧ (cache_data w !! Legacy.cache_key (u "youtube") (name t) (artists t) = Some cached →
     Legacy.main_item_youtube dst_id t w = Legacy.youtube_store dst_id t cached w
     ∧ ∃ evs, trace (Legacy.main_item_youtube dst_id t w).2 = trace w ++ evs
         ∧ Forall (λ e, is_search e = false ∧ is_web_search e = false) evs).
Proof.
  intros Hne. split.
  - intros Hc. by apply spotify_cache_hit.
  - intros Hc. rewrite (youtube_cache_hit dst_id t w cached) by done. split; [done|].
    by destruct (keeps_youtube_store (λ _, True) no_search dst_id t cached
                   records_ids_True (λ _ _, conj eq_refl eq_refl) w I) as [_ Hev].
Qed.

Lemma cache_hit_skips_search_witness :
  let t := a_track "Get Lucky" ["Daft Punk"%string] in
  let w := initial_world
             {[ @Legacy.cache_key ascii_tables (u "spotify") (name t) (artists t)
                := u "spotify:track:abc" ]} [] [] in
  @Legacy.main_item_spotify ascii_tables no_urls t w = (Val (Some (u "spotify:track:abc")), w).
Proof.
  refine (proj1 (@cache_hit_skips_search ascii_tables no_urls (u "PL1")
                   (a_track "Get Lucky" ["Daft Punk"%string]) _ (u "spotify:track:abc") _) _).
  - done.
  - apply lookup_singleton_eq.
Defined.

(** *** The Spotify loop *)

Section SpotifyLoop.
Context `{Unicode} `{Utils.Urllib}.

Lemma sp_search_one_catches (name : ustring) (artists : list ustring) (w : World) (st : Z) :
  (Legacy.sp_search_one name artists w).1 ≠ Exc (SpotifyException st).
Proof.
  unfold Legacy.sp_search_one, try_except.
  destruct (bind _ _ w) as [[o|[]] w1]; done.
Qed.

Lemma keeps_sp_search_one (name : ustring) (artists : list ustring) :
  keeps (λ _, True) spotify_only (Legacy.sp_search_one name artists).
Proof.
  apply (keeps_try_except (λ _, True) spotify_only).
  - apply (keeps_bind (λ _, True) spotify_only).
    + by apply (keeps_retry_call (λ _, True) spotify_only),
        (keeps_execute (λ _, True) spotify_only).
    + intros [|[uri ?] ?]; apply (keeps_ret (λ _, True) spotify_only).
  - intros []; try apply (keeps_raise (λ _, True) spotify_only).
    apply (keeps_bind (λ _, True) spotify_only);
      [by apply (keeps_print (λ _, True) spotify_only)|].
    intros _. apply (keeps_ret (λ _, True) spotify_only).
Qed.

Lemma keeps_main_item_spotify (t : Track) :
  keeps (λ _, True) spotify_only (Legacy.main_item_spotify t).
Proof.
  unfold Legacy.main_item_spotify. cbv zeta.
  apply (keeps_bind (λ _, True) spotify_only);
    [apply (keeps_cache_get (λ _, True) spotify_only)|]. intros uri.
  apply (keeps_bind (λ _, True) spotify_only).
  - destruct (Utils.truthy uri); [apply (keeps_ret (λ _, True) spotify_only)|].
    apply (keeps_bind (λ _, True) spotify_only); [apply keeps_sp_search_one|]. intros uri'.
    destruct (Utils.truthy uri'); [|apply (keeps_ret (λ _, True) spotify_only)].
    apply (keeps_bind (λ _, True) spotify_only);
      [apply (keeps_cache_put (λ _, True) spotify_only)|]. intros _.
    apply (keeps_bind (λ _, True) spotify_only);
      [apply (keeps_cache_save (λ _, True) spotify_only)|]. intros _.
    apply (keeps_ret (λ _, True) spotify_only).
  - intros uri'. apply (keeps_bind (λ _, True) spotify_only).
    + destruct (Utils.truthy uri'); [apply (keeps_ret (λ _, True) spotify_only)|].
      apply (keeps_bind (λ _, True) spotify_only);
        [by apply (keeps_print (λ _, True) spotify_only)|]. intros _.
      apply (keeps_bind (λ _, True) spotify_only);
        [apply (keeps_input (λ _, True) spotify_only)|]. intros line.
      cbv zeta. destruct (Utils.truthy _); apply (keeps_ret (λ _, True) spotify_only).
    + intros uri''. apply (keeps_ret (λ _, True) spotify_only).
Qed.

Lemma keeps_main_loop_spotify (to_add : list Track) (acc : list ustring) :
  keeps (λ _, True) spotify_only (Legacy.main_loop_spotify to_add acc).
Proof.
  revert acc. induction to_add as [|t rest IH]; intros acc; simpl.
  - apply (keeps_ret (λ _, True) spotify_only).
  - apply (keeps_bind (λ _, True) spotify_only); [apply keeps_main_item_spotify|].
    intros uri. apply IH.
Qed.

Lemma main_item_spotify_truthy (t : Track) (w : World) (o : option ustring) :
  (Legacy.main_item_spotify t w).1 = Val o → o = None ∨ ∃ c uri, o = Some (c :: uri).
Proof.
  unfold Legacy.main_item_spotify. cbv zeta.
  unfold bind at 1. destruct (Legacy.cache_get _ w) as [[o1|e1] w1]; [|done].
  unfold bind at 1. destruct (_ w1) as [[o2|e2] w2]; [|done].
  unfold bind at 1. destruct (_ w2) as [[o3|e3] w3]; [|done].
  unfold ret. cbn [fst]. intros [= <-].
  destruct o3 as [[|c uri]|]; [by left|right; by eexists _, _|by left].
Qed.

Lemma main_loop_spotify_collects (to_add : list Track) (acc uris : list ustring)
    (w : World) :
  (Legacy.main_loop_spotify to_add acc w).1 = Val uris →
  ∃ new, uris = acc ++ new ∧ length new ≤ length to_add ∧ Forall (λ uri, uri ≠ []) new.
Proof.
  revert acc w. induction to_add as [|t rest IH]; intros acc w; simpl.
  - unfold ret. cbn [fst]. intros [= <-]. exists []. by rewrite app_nil_r.
  - unfold bind. pose proof (main_item_spotify_truthy t w) as Hshape.
    destruct (Legacy.main_item_spotify t w) as [[o|e] w1]; [|done].
    destruct (Hshape o eq_refl) as [->|(c & uri & ->)].
    + intros (new & -> & Hlen & Hne)%IH. exists new. split_and!; [done|lia|done].
    + intros (new & -> & Hlen & Hne)%IH. exists ((c :: uri) :: new).
      rewrite <- app_assoc. split_and!; [done|simpl; lia|by constructor].
Qed.
End SpotifyLoop.

(** X21.  The Spotify loop of [main] collects, in order, at most one URI per
    track and never an empty one; it calls neither YouTube nor the web
    search.  [sp_search_one] never lets a [SpotifyException] through. *)
Theorem spotify_loop_collects `{Unicode} `{Utils.Urllib} (to_add : list Track)
    (to_add_sp_uris : list ustring) (w : World) :
  let run := Legacy.main_loop_spotify to_add to_add_sp_uris w in
  (∀ uris, run.1 = Val uris →
     ∃ new, uris = to_add_sp_uris ++ new ∧ length new ≤ length to_add
       ∧ Forall (λ uri, uri ≠ []) new)
  ∧ (∃ evs, trace run.2 = trace w ++ evs
       ∧ Forall (λ e, is_youtube_call e = false ∧ is_web_search e = false) evs)
  ∧ (∀ name artists w1 st,
       (Legacy.sp_search_one name artists w1).1 ≠ Exc (SpotifyException st)).
Proof.
  intros run. split_and!.
  - intros uris. apply main_loop_spotify_collects.
  - by destruct (keeps_main_loop_spotify to_add to_add_sp_uris w I) as [_ Hev].
  - intros *. apply sp_search_one_catches.
Qed.

Import Run.

(** *** Quota exhausted while the destination is read *)

Section LoadDestination.
Context `{Unicode} `{Utils.Urllib}.
Context (get_youtube_playlist_tracks : ustring → M (list Track)).

Lemma load_destination_agreed (dst_id : ustring) (w w1 : World) (e : exn)
    (line : ustring) (rest : list ustring) :
  get_youtube_playlist_tracks dst_id w = (Exc e, w1) →
  Legacy.is_quota_exceeded_http_error e = true →
  stdin w1 = line :: rest →
  lower (strip line) ∈ [u "y"; u "yes"; u "s"; u "si"; [115; 237]%N] →
  Sync.main_load_destination get_youtube_playlist_tracks dst_id w
  = (Val (Go []), agreed w1 line rest).
Proof.
  intros Hget Hq Hin Hyes. unfold Sync.main_load_destination, try_except.
  unfold bind at 1. rewrite Hget. destruct e as [st text| | | |]; try done.
  rewrite Hq. unfold bind at 1. unfold modify at 1. cbv beta iota.
  unfold bind at 1. unfold print, modify at 1. cbv beta iota.
  unfold bind at 1. unfold Legacy.input_yesno, input_loop.
  cbn [stdin emit set_STATE]. rewrite Hin. cbn [input_until].
  rewrite bool_decide_eq_true_2 by done. reflexivity.
Qed.

Lemma load_destination_declined (dst_id : ustring) (w w1 : World) (e : exn)
    (line : ustring) (rest : list ustring) :
  get_youtube_playlist_tracks dst_id w = (Exc e, w1) →
  Legacy.is_quota_exceeded_http_error e = true →
  stdin w1 = line :: rest →
  lower (strip line) ∈ [u "n"; u "no"] →
  Sync.main_load_destination get_youtube_playlist_tracks dst_id w
  = (Val Return_, declined w1 line rest).
Proof.
  intros Hget Hq Hin Hno. unfold Sync.main_load_destination, try_except.
  unfold bind at 1. rewrite Hget. destruct e as [st text| | | |]; try done.
  rewrite Hq. unfold bind at 1. unfold modify at 1. cbv beta iota.
  unfold bind at 1. unfold print, modify at 1. cbv beta iota.
  unfold bind at 1. unfold Legacy.input_yesno, input_loop.
  cbn [stdin emit set_STATE]. rewrite Hin. cbn [input_until].
  rewrite bool_decide_eq_false_2.
  - rewrite bool_decide_eq_true_2 by done. reflexivity.
  - intros Hyes. revert Hno Hyes. generalize (lower (strip line)). intros v Hno Hyes.
    apply elem_of_cons in Hno as [->|Hno];
      [|apply elem_of_cons in Hno as [->|Hno]; [|by apply elem_of_nil in Hno]];
      apply (bool_decide_pack _) in Hyes; by vm_compute in Hyes.
Qed.

Lemma load_destination_other (dst_id : ustring) (w w1 : World) (e : exn) :
  get_youtube_playlist_tracks dst_id w = (Exc e, w1) →
  Legacy.is_quota_exceeded_http_error e = false →
  Sync.main_load_destination get_youtube_playlist_tracks dst_id w = (Exc e, w1).
Proof.
  intros Hget Hq. unfold Sync.main_load_destination, try_except.
  unfold bind at 1. rewrite Hget. destruct e as [st text| | | |]; try done.
  by rewrite Hq.
Qed.
End LoadDestination.

(** X22.  When reading the destination playlist fails, [main] only goes on
    after an exhausted quota.  Any other exception is raised again.  After
    the quota ran out, the search is disabled and the user is asked: after
    a yes, [main] is in planning mode with web search as the fallback and
    an empty destination, against which every deduplicated source track is
    missing; after a no, [main] returns. *)
Theorem quota_reading_destination_plans `{Unicode} `{Utils.Urllib}
    (get_youtube_playlist_tracks : ustring → M (list Track)) (src_tracks : list Track)
    (dst_id : ustring) (w w1 : World) (e : exn) :
  get_youtube_playlist_tracks dst_id w = (Exc e, w1) →
  let run := Sync.main_load_destination get_youtube_playlist_tracks dst_id w in
  (Legacy.is_quota_exceeded_http_error e = false → run = (Exc e, w1))
  ∧ (Legacy.is_quota_exceeded_http_error e = true →
     ∀ line rest, stdin w1 = line :: rest →
       (lower (strip line) ∈ [u "y"; u "yes"; u "s"; u "si"; [115; 237]%N] →
          run = (Val (Go []), agreed w1 line rest)
          ∧ PLAN_MODE_ONLY run.2 = true
          ∧ yt_search_disabled (STATE run.2) = true
          ∧ continue_web_auto_after_quota (STATE run.2) = true
          ∧ continue_manual_after_quota (STATE run.2)
            = continue_manual_after_quota (STATE w1)
          ∧ stdin run.2 = rest
          ∧ Forall (λ ev, is_call ev = false) (drop (length (trace w1)) (trace run.2))
          ∧ Legacy.to_add (Legacy.deduplicate_tracks src_tracks) []
            = Legacy.deduplicate_tracks src_tracks)
       ∧ (lower (strip line) ∈ [u "n"; u "no"] →
            run = (Val Return_, declined w1 line rest)
            ∧ PLAN_MODE_ONLY run.2 = PLAN_MODE_ONLY w1
            ∧ yt_search_disabled (STATE run.2) = true)).
Proof.
  intros Hget run. subst run. split.
  - intros Hq. by apply load_destination_other.
  - intros Hq line rest Hin. split.
    + intros Hyes. rewrite (load_destination_agreed _ dst_id w w1 e line rest) by done.
      split_and!; [done..| |apply to_add_empty_destination].
      cbn. rewrite <- !app_assoc, drop_app_length. by repeat constructor.
    + intros Hno. rewrite (load_destination_declined _ dst_id w w1 e line rest) by done.
      by split_and!.
Qed.

Lemma quota_reading_destination_plans_witness :
  let run := @Sync.main_load_destination ascii_tables quota_reader (u "PL1")
               (initial_world ∅ [u "y"] []) in
  run.1 = Val (Go []) ∧ PLAN_MODE_ONLY run.2 = true.
Proof.
  pose proof (@quota_reading_destination_plans ascii_tables no_urls quota_reader
                [a_track "Get Lucky" ["Daft Punk"%string]] (u "PL1")
                (initial_world ∅ [u "y"] []) (initial_world ∅ [u "y"] []) quota_error
                eq_refl) as Hplans.
  cbv zeta in Hplans. destruct Hplans as [_ Hquota].
  destruct (Hquota eq_refl (u "y") [] eq_refl) as [Hyes _].
  destruct Hyes as (Hrun & Hplan & _).
  - by apply (bool_decide_unpack _); vm_compute.
  - split; [by rewrite Hrun|done].
Defined.

(** ** The summary by artist *)

Section CounterFacts.
Import Summary.

(** The counter after the credits [l] have been counted. *)
Local Abbreviation counter_of l := (fold_left (λ counter artist, counter_add artist counter) l []).

Lemma summarize_flat (tracks : list Track) :
  summarize_by_artist tracks = most_common (counter_of (credits tracks)).
Proof.
  unfold summarize_by_artist, credits. cbv zeta. f_equal.
  generalize (@nil (ustring * nat)). induction tracks as [|t tracks IH]; intros c; [done|].
  simpl. by rewrite fold_left_app, IH.
Qed.

Lemma counter_of_snoc (l : list ustring) (a : ustring) :
  counter_of (l ++ [a]) = counter_add a (counter_of l).
Proof. by rewrite fold_left_app. Qed.

Lemma keys_add (a : ustring) (c : list (ustring * nat)) :
  (counter_add a c).*1 = if bool_decide (a ∈ c.*1) then c.*1 else c.*1 ++ [a].
Proof.
  induction c as [|[k n] c IH].
  - cbn [counter_add fmap list_fmap fst app]. case_bool_decide as Hin; [|done].
    by apply elem_of_nil in Hin.
  - cbn [counter_add]. destruct (bool_decide (k = a)) eqn:Hk.
    + apply bool_decide_eq_true in Hk as ->. cbn [fmap list_fmap fst].
      rewrite bool_decide_eq_true_2; [done|]. apply list_elem_of_here.
    + apply bool_decide_eq_false in Hk. rewrite !fmap_cons, IH. cbn [fst].
      destruct (bool_decide (a ∈ c.*1)) eqn:Hin.
      * apply bool_decide_eq_true in Hin.
        rewrite bool_decide_eq_true_2; [done|]. by apply list_elem_of_further.
      * apply bool_decide_eq_false in Hin.
        rewrite bool_decide_eq_false_2; [done|]. rewrite elem_of_cons. naive_solver.
Qed.

Lemma sum_add (a : ustring) (c : list (ustring * nat)) :
  sum_list (counter_add a c).*2 = S (sum_list c.*2).
Proof.
  induction c as [|[k n] c IH]; simpl; [done|].
  destruct (bool_decide (k = a)); simpl; [done|].
  change (list_fmap _ _ snd ?l) with (l.*2). rewrite IH. lia.
Qed.

Lemma add_Forall (P Q : ustring * nat → Prop) (a : ustring) (c : list (ustring * nat)) :
  NoDup c.*1 → Forall P c →
  (∀ k n, P (k, n) → k ≠ a → Q (k, n)) →
  (∀ n, P (a, n) → Q (a, S n)) →
  (a ∉ c.*1 → Q (a, 1%nat)) →
  Forall Q (counter_add a c).
Proof.
  intros Hnd Hall Hother Hsame Hnew.
  induction c as [|[k n] c IH]; cbn [counter_add].
  - constructor; [|done]. apply Hnew, not_elem_of_nil.
  - rewrite fmap_cons in Hnd. apply NoDup_cons in Hnd as [Hk Hnd].
    apply Forall_cons in Hall as [Hkn Hall]. case_bool_decide as Hka.
    + subst k. constructor; [by apply Hsame|].
      apply Forall_forall. intros [k' n'] Hin. apply Hother.
      * by apply (proj1 (Forall_forall _ _) Hall).
      * intros ->. apply Hk. apply list_elem_of_fmap. by exists (a, n').
    + constructor; [by apply Hother|]. apply IH; [done..|].
      intros Hnot. apply Hnew. rewrite fmap_cons, not_elem_of_cons. done.
Qed.

Lemma occurrences_snoc (b : ustring) (l : list ustring) (a : ustring) :
  occurrences b (l ++ [a]) = (occurrences b l + if bool_decide (a = b) then 1 else 0)%nat.
Proof.
  unfold occurrences. rewrite filter_app, length_app. f_equal.
  rewrite filter_cons. case_bool_decide; by case_decide.
Qed.

Lemma occurrences_zero (b : ustring) (l : list ustring) : b ∉ l ↔ occurrences b l = 0%nat.
Proof.
  unfold occurrences. induction l as [|a l IH]; [split; [done|intros _; apply not_elem_of_nil]|].
  rewrite filter_cons, not_elem_of_cons. case_decide as Ha; simpl.
  - subst a. split; [by intros [? _]|done].
  - rewrite IH. split; [by intros [_ ?]|]. intros Hl. split; [done|done].
Qed.

(** The counter holds, for every credited artist, the number of credits. *)
Lemma counter_of_spec (l : list ustring) :
  NoDup (counter_of l).*1
  ∧ (∀ a, a ∈ (counter_of l).*1 ↔ a ∈ l)
  ∧ Forall (λ p, p.2 = occurrences p.1 l ∧ (0 < p.2)%nat) (counter_of l)
  ∧ sum_list (counter_of l).*2 = length l.
Proof.
  induction l as [|x l IH] using rev_ind.
  - simpl. split_and!; [constructor|done|constructor|done].
  - destruct IH as (Hnd & Hkeys & Hcount & Hsum). rewrite counter_of_snoc.
    pose proof (keys_add x (counter_of l)) as Hk.
    split_and!.
    + rewrite Hk. case_bool_decide as Hx; [done|].
      apply NoDup_app. split_and!; [done| |apply NoDup_singleton].
      intros a Ha ->%list_elem_of_singleton. done.
    + intros a. rewrite Hk, elem_of_app, list_elem_of_singleton.
      case_bool_decide as Hx.
      * rewrite Hkeys. split; [by left|]. intros [?| ->]; [done|]. by apply Hkeys.
      * rewrite elem_of_app, list_elem_of_singleton, Hkeys. done.
    + eapply add_Forall; [done|exact Hcount|..].
      * intros k n [Hn Hpos] Hne. cbn [fst snd] in *. rewrite occurrences_snoc.
        rewrite bool_decide_eq_false_2 by done. lia.
      * intros n [Hn Hpos]. cbn [fst snd] in *. rewrite occurrences_snoc.
        rewrite bool_decide_eq_true_2 by done. lia.
      * intros Hnot. rewrite Hkeys in Hnot. apply occurrences_zero in Hnot.
        cbn [fst snd]. rewrite occurrences_snoc, bool_decide_eq_true_2 by done. lia.
    + rewrite sum_add, Hsum, length_app. simpl. lia.
Qed.

Lemma counter_of_elem (l : list ustring) (a : ustring) (n : nat) :
  (a, n) ∈ counter_of l ↔ n = occurrences a l ∧ (0 < n)%nat.
Proof.
  destruct (counter_of_spec l) as (Hnd & Hkeys & Hcount & _). split.
  - intros Hin. by apply (proj1 (Forall_forall _ _) Hcount (a, n)).
  - intros [-> Hpos].
    assert (Hin : a ∈ (counter_of l).*1).
    { apply Hkeys. destruct (decide (a ∈ l)) as [|Hnot]; [done|].
      apply occurrences_zero in Hnot. lia. }
    apply list_elem_of_fmap in Hin as ([a' m] & Ha & Hin). simpl in Ha. subst a'.
    destruct (proj1 (Forall_forall _ _) Hcount (a, m) Hin) as [Hm _]. simpl in Hm.
    by rewrite <- Hm.
Qed.

Lemma split_first {A} `{EqDecision A} (x : A) (l : list A) :
  x ∈ l → ∃ l1 l2, l = l1 ++ x :: l2 ∧ x ∉ l1.
Proof.
  induction l as [|y l IH]; [intros Hin; by apply elem_of_nil in Hin|].
  destruct (decide (y = x)) as [->|Hne].
  - intros _. exists [], l. split; [done|apply not_elem_of_nil].
  - intros [?|Hin]%elem_of_cons; [done|]. destruct (IH Hin) as (l1 & l2 & -> & Hnot).
    exists (y :: l1), l2. split; [done|]. rewrite not_elem_of_cons. done.
Qed.

(** The keys of the counter stand in the order of the first credits. *)
Lemma counter_of_order (l : list ustring) (k1 k2 k3 : list ustring) (a b : ustring) :
  (counter_of l).*1 = k1 ++ a :: k2 ++ b :: k3 →
  ∃ pre post, l = pre ++ a :: post ∧ a ∉ pre ∧ b ∉ pre.
Proof.
  revert k3. induction l as [|x l IH] using rev_ind; intros k3.
  - simpl. by destruct k1.
  - rewrite counter_of_snoc, keys_add.
    destruct (counter_of_spec l) as (Hnd & Hkeys & _).
    case_bool_decide as Hx.
    + intros (pre & post & -> & Ha & Hb)%IH. exists pre, (post ++ [x]).
      by rewrite <- app_assoc.
    + destruct k3 as [|y k3 _] using rev_ind.
      * intros Heq.
        replace (k1 ++ a :: k2 ++ [b]) with ((k1 ++ a :: k2) ++ [b]) in Heq
          by (by rewrite <- app_assoc).
        apply app_inj_tail in Heq as [Hk <-].
        assert (Hal : a ∈ l).
        { apply Hkeys. rewrite Hk. apply elem_of_app. right. by left. }
        destruct (split_first a l Hal) as (pre & post & -> & Hnot).
        exists pre, (post ++ [x]). rewrite <- app_assoc. split_and!; [done..|].
        intros Hin. apply Hx, Hkeys. apply elem_of_app. by left.
      * intros Heq.
        replace (k1 ++ a :: k2 ++ b :: k3 ++ [y])
          with ((k1 ++ a :: k2 ++ b :: k3) ++ [y]) in Heq
          by (rewrite <- !app_assoc; simpl; by rewrite <- !app_assoc).
        apply app_inj_tail in Heq as [Hk _].
        apply IH in Hk as (pre & post & -> & Ha & Hb). exists pre, (post ++ [x]).
        by rewrite <- app_assoc.
Qed.

(** [most_common] is a stable sort: entries with the same count keep
    their order. *)
Lemma insert_sorted_stable (n : nat) (x : ustring * nat) (c : list (ustring * nat)) :
  filter (λ p, p.2 = n) (insert_sorted (λ a b, (b.2 <? a.2)%nat) x c)
  = filter (λ p, p.2 = n) (x :: c).
Proof.
  induction c as [|y c IH]; simpl; [done|].
  destruct (x.2 <? y.2)%nat eqn:Hlt; [|done].
  apply Nat.ltb_lt in Hlt. rewrite (filter_cons _ y), IH, !filter_cons.
  repeat case_decide; try done; lia.
Qed.

Lemma most_common_stable (n : nat) (c : list (ustring * nat)) :
  filter (λ p, p.2 = n) (most_common c) = filter (λ p, p.2 = n) c.
Proof.
  unfold most_common, sorted. induction c as [|x c IH]; simpl; [done|].
  rewrite insert_sorted_stable, !filter_cons, IH. done.
Qed.

Lemma most_common_Sorted (c : list (ustring * nat)) :
  StronglySorted (λ p q, (q.2 ≤ p.2)%nat) (most_common c).
Proof.
  apply (@Sorted_StronglySorted _ (λ p q, (q.2 ≤ p.2)%nat)); [intros p q r; simpl; lia|].
  assert (Hs : Sorted (λ a b : ustring * nat, (a.2 <? b.2)%nat = false) (most_common c)).
  { apply (sorted_Sorted (λ a b : ustring * nat, (b.2 <? a.2)%nat)).
    intros a b Hab. apply Nat.ltb_lt in Hab. apply Nat.ltb_ge. lia. }
  induction Hs as [|x l Hl IH Hhd]; constructor; [done|].
  destruct Hhd as [|y l' Hxy]; constructor. by apply Nat.ltb_ge.
Qed.

Lemma sum_list_Permutation (l l' : list nat) : l ≡ₚ l' → sum_list l = sum_list l'.
Proof. induction 1; simpl; lia. Qed.
End CounterFacts.

(** X23.  [summarize_by_artist] counts the credits: every credited artist
    (["Unknown"] for a track without artists) appears once, with the number
    of its credits; the counts add up to the number of credits and never
    increase along the list; and of two artists with the same count, the
    one credited first comes first. *)
Theorem summarize_by_artist_counts (tracks : list Track) :
  let summary := Summary.summarize_by_artist tracks in
  NoDup summary.*1
  ∧ (∀ artist n, (artist, n) ∈ summary ↔
       n = occurrences artist (credits tracks) ∧ (0 < n)%nat)
  ∧ sum_list summary.*2 = length (credits tracks)
  ∧ StronglySorted (λ p q, (q.2 ≤ p.2)%nat) summary
  ∧ (∀ r1 r2 r3 a b n,
       summary = r1 ++ (a, n) :: r2 ++ (b, n) :: r3 →
       ∃ pre post, credits tracks = pre ++ a :: post ∧ a ∉ pre ∧ b ∉ pre).
Proof.
  intros summary. subst summary. rewrite summarize_flat.
  destruct (counter_of_spec (credits tracks)) as (Hnd & Hkeys & _ & Hsum).
  pose proof (counter_of_elem (credits tracks)) as Hcount.
  pose proof (counter_of_order (credits tracks)) as Horder.
  remember (fold_left _ (credits tracks) []) as counter eqn:Hc. clear Hc.
  assert (Hperm : Summary.most_common counter ≡ₚ counter) by apply sorted_Permutation.
  split_and!.
  - by rewrite Hperm.
  - intros artist n. by rewrite Hperm.
  - rewrite <- Hsum. apply sum_list_Permutation. by rewrite Hperm.
  - apply most_common_Sorted.
  - intros r1 r2 r3 a b n Heq.
    pose proof (most_common_stable n counter) as Hstable. rewrite Heq in Hstable.
    rewrite filter_app, filter_cons_True, filter_app, filter_cons_True in Hstable by done.
    pose proof (sublist_filter (λ p : ustring * nat, p.2 = n) counter) as Hsub.
    rewrite <- Hstable in Hsub.
    apply sublist_app_l in Hsub as (c1 & c' & -> & _ & Hsub).
    apply sublist_cons_l in Hsub as (c2 & c'' & -> & Hsub).
    apply sublist_app_l in Hsub as (c3 & c''' & -> & _ & Hsub).
    apply sublist_cons_l in Hsub as (c4 & c5 & -> & _).
    apply (Horder (c1.*1 ++ c2.*1) (c3.*1 ++ c4.*1) c5.*1 a b).
    rewrite !fmap_app, !fmap_cons, !fmap_app, !fmap_cons. simpl.
    by rewrite <- !app_assoc.
Qed.

(** ** An entry typed as [Title - Artist, Artist] *)

Lemma split_once_None (sep : N) (s : ustring) :
  PlaylistManager.split_once sep s = None ↔ sep ∉ s.
Proof.
  induction s as [|c s IH]; simpl; [split; [intros _; apply not_elem_of_nil|done]|].
  rewrite not_elem_of_cons. destruct (N.eqb_spec c sep) as [->|Hne].
  - split; [done|]. by intros [? _].
  - destruct (PlaylistManager.split_once sep s) as [[a b]|].
    + split; [done|]. intros [_ Hs]. by apply IH in Hs.
    + split; [|done]. intros _. split; [done|]. by apply IH.
Qed.

Lemma split_once_Some (sep : N) (s a b : ustring) :
  PlaylistManager.split_once sep s = Some (a, b) ↔ s = a ++ sep :: b ∧ sep ∉ a.
Proof.
  revert a. induction s as [|c s IH]; intros a; simpl.
  - split; [done|]. intros [Hs _]. by destruct a.
  - destruct (N.eqb_spec c sep) as [->|Hne].
    + split.
      * intros [= <- <-]. split; [done|apply not_elem_of_nil].
      * intros [Hs Ha]. destruct a as [|x a]; [by injection Hs as ->|].
        injection Hs as <- _. exfalso. apply Ha. by left.
    + destruct (PlaylistManager.split_once sep s) as [[a' b']|] eqn:Hs.
      * split.
        -- intros [= <- <-]. destruct (proj1 (IH a') eq_refl) as [-> Ha'].
           split; [done|]. rewrite not_elem_of_cons. done.
        -- intros [Heq Ha]. destruct a as [|x a]; [by injection Heq|].
           injection Heq as <- Heq. apply not_elem_of_cons in Ha as [_ Ha].
           pose proof (proj2 (IH a) (conj Heq Ha)) as Hs'.
           by injection Hs' as -> ->.
      * split; [done|]. intros [Heq Ha]. destruct a as [|x a]; [by injection Heq|].
        injection Heq as <- Heq. apply not_elem_of_cons in Ha as [_ Ha].
        by pose proof (proj2 (IH a) (conj Heq Ha)) as Hs'.
Qed.

Lemma split_on_go_last (sep : N) (cur a : ustring) :
  sep ∉ a → split_on_go sep cur a = [rev cur ++ a].
Proof.
  revert cur. induction a as [|c a IH]; intros cur Ha; simpl.
  - by rewrite app_nil_r.
  - apply not_elem_of_cons in Ha as [Hc Ha].
    destruct (N.eqb_spec c sep) as [->|_]; [done|].
    rewrite IH by done. simpl. by rewrite <- app_assoc.
Qed.

Lemma split_on_go_piece (sep : N) (cur a s : ustring) :
  sep ∉ a → split_on_go sep cur (a ++ sep :: s) = (rev cur ++ a) :: split_on_go sep [] s.
Proof.
  revert cur. induction a as [|c a IH]; intros cur Ha; simpl.
  - rewrite N.eqb_refl. by rewrite app_nil_r.
  - apply not_elem_of_cons in Ha as [Hc Ha].
    destruct (N.eqb_spec c sep) as [->|_]; [done|].
    rewrite IH by done. simpl. by rewrite <- app_assoc.
Qed.

Lemma split_on_pieces (sep : N) (s : ustring) : Forall (λ piece, sep ∉ piece) (split_on sep s).
Proof.
  assert (Hall : Forall (Forall (λ c, c ≠ sep)) (split_on sep s)).
  { apply split_on_go_Forall; [done|]. by apply Forall_forall. }
  eapply Forall_impl; [exact Hall|]. intros piece Hp Hin.
  by apply (proj1 (Forall_forall _ _) Hp sep).
Qed.

Section EntryFacts.
Context `{Unicode}.

Lemma strip_elem_of (s : ustring) (c : N) : c ∈ strip s → c ∈ s.
Proof.
  destruct (strip_split s) as (pre & post & Hs & _). intros Hc. rewrite Hs.
  rewrite !elem_of_app. auto.
Qed.

Lemma lstrip_blank_app (pre s : ustring) :
  Forall (λ c, isspace c = true) pre → lstrip (pre ++ s) = lstrip s.
Proof. induction 1 as [|c pre Hc _ IH]; [done|]. simpl. by rewrite Hc. Qed.

Lemma rstrip_app_blank (s post : ustring) :
  Forall (λ c, isspace c = true) post → rstrip (s ++ post) = rstrip s.
Proof.
  intros Hpost. unfold rstrip. rewrite rev_app_distr, lstrip_blank_app; [done|].
  by apply Forall_rev.
Qed.

Lemma strip_blank_app (pre s : ustring) :
  Forall (λ c, isspace c = true) pre → strip (pre ++ s) = strip s.
Proof. intros Hpre. unfold strip. by rewrite lstrip_blank_app. Qed.

Lemma strip_app_blank (s post : ustring) :
  Forall (λ c, isspace c = true) post → strip (s ++ post) = strip s.
Proof.
  intros Hpost. destruct (lstrip_split s) as (pre & Hs & Hpre & Hhd).
  destruct (lstrip s) as [|c r] eqn:Hl.
  - rewrite app_nil_r in Hs. subst pre.
    rewrite !strip_blank; [done..|]. by apply Forall_app.
  - unfold strip. rewrite Hl.
    assert (Hl' : lstrip (s ++ post) = (c :: r) ++ post).
    { rewrite Hs at 1. rewrite <- app_assoc, lstrip_blank_app by done.
      simpl. by rewrite (Hhd c eq_refl). }
    rewrite Hl'. by apply rstrip_app_blank.
Qed.

Lemma artists_of_rest (rest : ustring) :
  Forall (λ a, a ≠ [] ∧ strip a = a ∧ 44%N ∉ a)
    (map strip (filter (λ artist, strip artist ≠ []) (split_on 44 rest))).
Proof.
  apply Forall_fmap, Forall_forall. intros piece [Hne Hin]%list_elem_of_filter.
  simpl. split_and!; [done|apply strip_idemp|].
  intros Hc%strip_elem_of.
  by apply (proj1 (Forall_forall _ _) (split_on_pieces 44 rest) piece).
Qed.

Lemma split_joined (artists : list ustring) :
  artists ≠ [] → Forall (λ a, 44%N ∉ a) artists →
  split_on 44 (32%N :: join (u ", ") artists) = map (cons 32%N) artists.
Proof.
  intros Hne Hall. unfold split_on.
  induction Hall as [|a rest Ha Hrest IH]; [done|].
  destruct rest as [|b rest].
  - change (join (u ", ") [a]) with a.
    rewrite (split_on_go_last 44 [] (32%N :: a)); [done|].
    rewrite not_elem_of_cons. done.
  - change (join (u ", ") (a :: b :: rest))
      with (a ++ 44%N :: 32%N :: join (u ", ") (b :: rest)).
    change (32%N :: a ++ 44%N :: 32%N :: join (u ", ") (b :: rest))
      with ((32%N :: a) ++ 44%N :: 32%N :: join (u ", ") (b :: rest)).
    rewrite split_on_go_piece by (rewrite not_elem_of_cons; done).
    rewrite IH by done. done.
Qed.
End EntryFacts.

(** X24.  What [_split_title_artists] returns: a title without blanks at its
    ends and without a dash; artists that are non-empty, without blanks at
    their ends and without a comma.  An entry without a dash is a title
    alone. *)
Theorem split_title_artists_shape `{Unicode} (entry : ustring) :
  let parsed := PlaylistManager._split_title_artists entry in
  strip parsed.1 = parsed.1
  ∧ 45%N ∉ parsed.1
  ∧ Forall (λ a, a ≠ [] ∧ strip a = a ∧ 44%N ∉ a) parsed.2
  ∧ (45%N ∉ entry → parsed = (strip entry, [])).
Proof.
  intros parsed. subst parsed. unfold PlaylistManager._split_title_artists.
  destruct (PlaylistManager.split_once 45 entry) as [[title rest]|] eqn:Hs; cbv zeta; simpl.
  - apply split_once_Some in Hs as [-> Ht]. split_and!.
    + apply strip_idemp.
    + by intros Hc%strip_elem_of.
    + apply artists_of_rest.
    + intros Hno. exfalso. apply Hno. apply elem_of_app. right. by left.
  - apply split_once_None in Hs. split_and!; [apply strip_idemp| |done|done].
    by intros Hc%strip_elem_of.
Qed.

(** X25.  Reading back an entry written as [Title - Artist, Artist]: when
    the title has no dash and the artists are non-empty, without blanks at
    their ends and without a comma, [_split_title_artists] returns the
    title (stripped) and exactly these artists. *)
Theorem split_title_artists_round_trip `{Unicode} (title : ustring) (artists : list ustring) :
  45%N ∉ title →
  Forall (λ a, a ≠ [] ∧ strip a = a ∧ 44%N ∉ a) artists →
  PlaylistManager._split_title_artists (title ++ u " - " ++ join (u ", ") artists)
  = (strip title, artists).
Proof.
  intros Ht Hall. unfold PlaylistManager._split_title_artists.
  assert (Hs : PlaylistManager.split_once 45 (title ++ u " - " ++ join (u ", ") artists)
               = Some (title ++ [32%N], 32%N :: join (u ", ") artists)).
  { apply split_once_Some. split; [by rewrite <- app_assoc|].
    rewrite elem_of_app, list_elem_of_singleton. intros [?|?]; done. }
  rewrite Hs. cbv zeta. f_equal.
  - apply strip_app_blank. constructor; [apply isspace_space|done].
  - destruct artists as [|a rest].
    + reflexivity.
    + rewrite split_joined; [|done|by eapply Forall_impl; [exact Hall|]; intros ? (_ & _ & ?)].
      assert (Hstrip : ∀ a', strip (32%N :: a') = strip a').
      { intros a'. apply (strip_blank_app [32%N]). constructor; [apply isspace_space|done]. }
      generalize (a :: rest) Hall. clear -Hstrip. intros l Hl.
      induction Hl as [|x l (Hne & Hx & _) _ IH]; [done|].
      rewrite fmap_cons, filter_cons_True by (simpl; by rewrite Hstrip, Hx).
      rewrite fmap_cons, Hstrip, Hx. by f_equal.
Qed.

Lemma split_title_artists_round_trip_witness :
  @PlaylistManager._split_title_artists ascii_tables
    (u "Get Lucky" ++ u " - " ++ join (u ", ") [u "Daft Punk"; u "Pharrell Williams"])
  = (@strip ascii_tables (u "Get Lucky"), [u "Daft Punk"; u "Pharrell Williams"]).
Proof.
  apply (@split_title_artists_round_trip ascii_tables (u "Get Lucky")
           [u "Daft Punk"; u "Pharrell Williams"]).
  - by apply (bool_decide_unpack _); vm_compute.
  - repeat constructor; try done; by apply (bool_decide_unpack _); vm_compute.
Defined.

Import Run.

(** ** The results of a web search *)

Section PageFacts.
Context `{Unicode} `{Utils.Urllib}.
Context (strip_tracking_params : ustring → ustring) (unescape : ustring → ustring).

Local Abbreviation kept_link r :=
  (∃ href text, r = (strip_tracking_params href, unescape text) ∧ text ≠ []
                ∧ music_link href).
Local Abbreviation collect := (GoogleSearch.collect strip_tracking_params unescape).

Lemma collect_spec (anchors : list (option ustring * ustring)) (max_results : Z)
    (acc results : list (ustring * ustring)) :
  collect anchors max_results acc = Some results →
  (Z.of_nat (length acc) < Z.max max_results 1)%Z →
  Forall (λ r, kept_link r) acc →
  (Z.of_nat (length results) ≤ Z.max max_results 1)%Z
  ∧ Forall (λ r, kept_link r) results
  ∧ acc `prefix_of` results.
Proof.
  revert acc. induction anchors as [|[href text] rest IH]; intros acc; simpl.
  - intros [= <-] Hlen Hall. split_and!; [lia|done|done].
  - destruct (default [] href) as [|c h] eqn:Hh; [apply IH|].
    destruct text as [|d text]; [apply IH|].
    destruct (GoogleSearch.unwrap (c :: h)) as [href'|] eqn:Hu; [|done].
    destruct (contains (u "music.youtube.com") href') eqn:Hm; simpl; [|apply IH].
    destruct (contains (u "/watch") href' || contains (u "/playlist") href') eqn:Hw;
      simpl; [|apply IH].
    assert (Hnew : kept_link (strip_tracking_params href', unescape (d :: text))).
    { exists href', (d :: text). split_and!; [done..|]. split; [done|].
      by apply orb_true_iff in Hw. }
    destruct (max_results <=? _)%Z eqn:Hmax.
    + intros [= <-] Hlen Hall. rewrite length_app in *. simpl in *.
      split_and!; [lia| |by apply prefix_app_r].
      apply Forall_app. split; [done|]. by constructor.
    + apply Z.leb_gt in Hmax. intros Hc Hlen Hall.
      apply IH in Hc as (Hlen' & Hall' & Hpre).
      * split_and!; [done..|]. etransitivity; [|exact Hpre]. by apply prefix_app_r.
      * lia.
      * apply Forall_app. split; [done|]. by constructor.
Qed.

End PageFacts.

Section UniqueFacts.
Lemma unique_loop_spec (results : list (ustring * ustring)) (seen : gset ustring)
    (unique : list (ustring * ustring)) :
  NoDup unique.*1 → (∀ url, url ∈ unique.*1 ↔ url ∈ seen) →
  let out := GoogleSearch.unique_loop results seen unique in
  NoDup out.*1
  ∧ (∀ url, url ∈ out.*1 ↔ url ∈ seen ∨ url ∈ results.*1)
  ∧ ∃ new, out = unique ++ new ∧ sublist new results.
Proof.
  revert seen unique. induction results as [|[url title] rest IH]; intros seen unique Hnd Hseen.
  - simpl. split_and!; [done| |exists []; by rewrite app_nil_r].
    intros x. rewrite Hseen. split; [by left|]. intros [?|Hx]; [done|].
    by apply elem_of_nil in Hx.
  - cbn [GoogleSearch.unique_loop]. case_bool_decide as Hin.
    + destruct (IH seen unique Hnd Hseen) as (Hnd' & Hmem & new & Hout & Hsub).
      cbv zeta. split_and!; [done| |].
      * intros x. rewrite Hmem, fmap_cons, elem_of_cons. simpl.
        split; [intros [?|?]; auto|]. intros [?|[->|?]]; auto.
      * exists new. split; [done|]. by apply sublist_cons.
    + destruct (IH ({[url]} ∪ seen) (unique ++ [(url, title)])) as (Hnd' & Hmem & new & Hout & Hsub).
      * rewrite fmap_app. apply NoDup_app. split_and!; [done| |apply NoDup_singleton].
        intros x Hx ->%list_elem_of_singleton. by apply Hin, Hseen.
      * intros x. rewrite fmap_app, elem_of_app, Hseen. simpl.
        rewrite list_elem_of_singleton. set_solver.
      * cbv zeta. split_and!; [done| |].
        -- intros x. rewrite Hmem, fmap_cons, elem_of_cons. simpl. set_solver.
        -- exists ((url, title) :: new). rewrite Hout, <- app_assoc. split; [done|].
           by apply sublist_skip.
Qed.
End UniqueFacts.



(** ** The after-quota prompt *)

Section PromptFacts.
Context `{Unicode} `{Utils.Urllib}.

Lemma prompt_again (w : World) :
  prompted_after_quota (STATE w) = true → Legacy.prompt_after_quota w = (Val tt, w).
Proof. intros Hp. unfold Legacy.prompt_after_quota, bind, get. by rewrite Hp. Qed.

Lemma prompt_first (w : World) :
  prompted_after_quota (STATE w) = false →
  match Legacy.prompt_after_quota w with
  | (Val _, w') =>
      ∃ before line,
        stdin w = before ++ line :: stdin w'
        ∧ lower (strip line) ∈ [u "1"; u "2"; u "3"]
        ∧ STATE w' = set_continue_web_auto_after_quota (bool_decide (lower (strip line) = u "2"))
                       (set_continue_manual_after_quota
                          (bool_decide (lower (strip line) = u "1"))
                          (set_prompted_after_quota true (STATE w)))
  | (Exc e, w') =>
      e = EOFError ∧ STATE w' = set_prompted_after_quota true (STATE w)
  end.
Proof.
  intros Hp. unfold Legacy.prompt_after_quota.
  unfold bind at 1. unfold get at 1. cbv beta iota. rewrite Hp.
  unfold bind at 1. unfold modify at 1. cbv beta iota.
  unfold bind at 1. unfold print, modify at 1. cbv beta iota.
  set (w1 := emit [Printed QuotaPanel] _).
  unfold bind.
  pose proof (input_until_outcome OptionPrompt
                (λ line, let opt := lower (strip line) in
                         if bool_decide (opt ∈ [u "1"; u "2"; u "3"]) then Done opt
                         else Again InvalidOption) (stdin w1) w1) as Hout.
  assert (Hstate : ∀ lines w2,
            STATE (input_until OptionPrompt
                     (λ line, let opt := lower (strip line) in
                              if bool_decide (opt ∈ [u "1"; u "2"; u "3"]) then Done opt
                              else Again InvalidOption) lines w2).2 = STATE w2).
  { induction lines as [|l lines IH]; intros w2; simpl; [done|].
    destruct (bool_decide _); [done|]. by rewrite IH. }
  specialize (Hstate (stdin w1) w1).
  unfold input_loop.
  destruct (input_until _ _ (stdin w1) w1) as [[opt|e] w2]; cbn [snd] in Hstate.
  - destruct Hout as (before & line & Hlines & Hdone & _). cbv zeta in Hdone.
    case_bool_decide as Hopt; [|done]. injection Hdone as <-.
    unfold modify. exists before, line. split_and!; [done..|].
    cbn [STATE set_STATE]. by rewrite Hstate.
  - destruct Hout as [(-> & _)|(before & line & _ & Hfail & _)]; [by rewrite Hstate|].
    cbv zeta in Hfail. by case_bool_decide.
Qed.
End PromptFacts.

(** X27.  [prompt_after_quota] asks once.  When the question was asked
    before, nothing happens.  Otherwise the answer is one of 1, 2 and 3,
    read from a typed line; manual mode is on exactly for 1 and web search
    exactly for 2, never both; asking again changes nothing.  If the input
    ends before an answer, the question still counts as asked and neither
    mode is changed. *)
Theorem prompt_after_quota_once `{Unicode} `{Utils.Urllib} (w : World) :
  let run := Legacy.prompt_after_quota w in
  (prompted_after_quota (STATE w) = true → run = (Val tt, w))
  ∧ prompted_after_quota (STATE run.2) = true
  ∧ Legacy.prompt_after_quota run.2 = (Val tt, run.2)
  ∧ yt_search_disabled (STATE run.2) = yt_search_disabled (STATE w)
  ∧ (prompted_after_quota (STATE w) = false → run.1 = Val tt →
       ∃ before line,
         stdin w = before ++ line :: stdin run.2
         ∧ lower (strip line) ∈ [u "1"; u "2"; u "3"]
         ∧ continue_manual_after_quota (STATE run.2)
           = bool_decide (lower (strip line) = u "1")
         ∧ continue_web_auto_after_quota (STATE run.2)
           = bool_decide (lower (strip line) = u "2")
         ∧ (continue_manual_after_quota (STATE run.2)
            && continue_web_auto_after_quota (STATE run.2) = false))
  ∧ (∀ e, run.1 = Exc e →
       e = EOFError
       ∧ continue_manual_after_quota (STATE run.2) = continue_manual_after_quota (STATE w)
       ∧ continue_web_auto_after_quota (STATE run.2)
         = continue_web_auto_after_quota (STATE w)).
Proof.
  intros run. subst run.
  destruct (prompted_after_quota (STATE w)) eqn:Hp.
  - rewrite (prompt_again w Hp). cbn [fst snd]. rewrite (prompt_again w Hp).
    split_and!; done.
  - pose proof (prompt_first w Hp) as Hfirst.
    destruct (Legacy.prompt_after_quota w) as [[[]|e] w'] eqn:Hrun; cbn [fst snd].
    + destruct Hfirst as (before & line & Hlines & Hopt & Hst).
      assert (Hp' : prompted_after_quota (STATE w') = true) by (by rewrite Hst).
      split_and!; [done|done|by apply prompt_again|by rewrite Hst| |done].
      intros _ _. exists before, line. rewrite Hst. cbn.
      split_and!; [done..|].
      repeat case_bool_decide; try done.
      assert (Heq : u "1" = u "2") by congruence. done.
    + destruct Hfirst as [-> Hst].
      assert (Hp' : prompted_after_quota (STATE w') = true) by (by rewrite Hst).
      split_and!; [done|done|by apply prompt_again|by rewrite Hst|done|].
      intros e' [= <-]. by rewrite Hst.
Qed.
